(** * Clutch front end: source files, scanner and lexer

    A shallow embedding of [src/agnostic/scanner.ts] (SourceFile, FileSpan,
    StringScanner) and of the lexer (ClutchLexer, tokenize), followed by the
    properties of the line table, of spans and of the token stream.

    JavaScript strings are sequences of UTF-16 code units: a string is a
    [list Z] of code units, an index or an offset is a [Z].  Methods that
    mutate [this] or throw are functions in a small state-and-exception
    monad whose state survives a throw, as it does in JavaScript. *)

From Stdlib Require Import ZArith List Bool Lia String Ascii Sorted.
Import ListNotations.
Local Open Scope Z_scope.

(** ** JavaScript strings and arrays *)

Definition jsstring : Type := list Z.

(** An ASCII literal as a sequence of code units. *)
Definition str (s : string) : jsstring :=
  map (fun a => Z.of_N (N_of_ascii a)) (list_ascii_of_string s).

(** [s.length] *)
Definition strlen (s : jsstring) : Z := Z.of_nat (List.length s).

(** [a[i]] on an array or a string: [None] is [undefined]. *)
Definition array_get {A : Type} (a : list A) (i : Z) : option A :=
  if i <? 0 then None else nth_error a (Z.to_nat i).

(** [s.charCodeAt(i)]: [None] is [NaN], the result outside the string. *)
Definition charCodeAt (s : jsstring) (i : Z) : option Z := array_get s i.

(** [s.substring(start, end)]: both arguments are clamped to [0, length]
    and swapped when [start > end]. *)
Definition js_substring (s : jsstring) (start end_ : Z) : jsstring :=
  let len := strlen s in
  let a := Z.min (Z.max start 0) len in
  let b := Z.min (Z.max end_ 0) len in
  let from := Z.min a b in
  let to := Z.max a b in
  firstn (Z.to_nat (to - from)) (skipn (Z.to_nat from) s).

(** [String.fromCharCode(c)]: the argument goes through ToUint16, which
    sends [NaN] to 0. *)
Definition fromCharCode (c : option Z) : jsstring :=
  match c with
  | Some z => [z mod 65536]
  | None => [0]
  end.

(** White space and line terminators of ECMAScript, the code units that
    [String.prototype.trim] strips. *)
Definition isTrimmed (c : Z) : bool :=
  (c =? 9) || (c =? 10) || (c =? 11) || (c =? 12) || (c =? 13) || (c =? 32)
  || (c =? 160) || (c =? 5760) || ((8192 <=? c) && (c <=? 8202))
  || (c =? 8232) || (c =? 8233) || (c =? 8239) || (c =? 8287)
  || (c =? 12288) || (c =? 65279).

Fixpoint trimStart (s : jsstring) : jsstring :=
  match s with
  | c :: s' => if isTrimmed c then trimStart s' else s
  | [] => []
  end.

(** [s.trim()] *)
Definition trim (s : jsstring) : jsstring :=
  rev (trimStart (rev (trimStart s))).

(** Comparisons of a number with an array element that may be [undefined]:
    [undefined] converts to [NaN] and every comparison with it is false. *)
Definition js_lt (a : Z) (b : option Z) : bool :=
  match b with Some b => a <? b | None => false end.

Definition js_ge (a : Z) (b : option Z) : bool :=
  match b with Some b => a >=? b | None => false end.

Definition js_gt (a : option Z) (b : Z) : bool :=
  match a with Some a => a >? b | None => false end.

(** [v || 0] on a number or [undefined]: 0 and [undefined] are falsy. *)
Definition or_zero (v : option Z) : Z :=
  match v with
  | Some v => if v =? 0 then 0 else v
  | None => 0
  end.

(** ** Character codes and classifiers (agnostic/strings) *)

(** Modelled from the spec: the table [Characters] of agnostic/strings is
    not among the sources.  Each constant [$NAME] is the code unit of the
    character its use in the lexer names (the comment beside each [case]
    of [scanToken] gives the character); [$0] is [ZERO] and [$_] is
    [UNDERSCORE] here. *)
Module Characters.
Definition LF : Z := 10.
Definition CR : Z := 13.
Definition EXCLAIM : Z := 33.
Definition AND : Z := 38.
Definition SQUOTE : Z := 39.
Definition LPAREN : Z := 40.
Definition RPAREN : Z := 41.
Definition STAR : Z := 42.
Definition PLUS : Z := 43.
Definition MINUS : Z := 45.
Definition PERIOD : Z := 46.
Definition SLASH : Z := 47.
Definition ZERO : Z := 48.
Definition LANGLE : Z := 60.
Definition EQUALS : Z := 61.
Definition RANGLE : Z := 62.
Definition E : Z := 69.
Definition X : Z := 88.
Definition CARET : Z := 94.
Definition UNDERSCORE : Z := 95.
Definition e : Z := 101.
Definition x : Z := 120.
Definition LCURLY : Z := 123.
Definition PIPE : Z := 124.
Definition RCURLY : Z := 125.
Definition TILDE : Z := 126.
End Characters.

(** Modelled from the spec: [isDigit] of agnostic/strings,
    ['0' <= c <= '9']. *)
Definition isDigit (c : Z) : bool := (48 <=? c) && (c <=? 57).

(** Modelled from the spec: [isHexadecimal] of agnostic/strings, a digit
    or ['a'..'f'] or ['A'..'F']. *)
Definition isHexadecimal (c : Z) : bool :=
  isDigit c || ((97 <=? c) && (c <=? 102)) || ((65 <=? c) && (c <=? 70)).

(** Modelled from the spec: [isLetter] of agnostic/strings, ['a'..'z'] or
    ['A'..'Z']. *)
Definition isLetter (c : Z) : bool :=
  ((97 <=? c) && (c <=? 122)) || ((65 <=? c) && (c <=? 90)).

(** Modelled from the spec: [isWhiteSpace] of agnostic/strings: space,
    tab, LF, CR. *)
Definition isWhiteSpace (c : Z) : bool :=
  (c =? 32) || (c =? 9) || (c =? Characters.LF) || (c =? Characters.CR).

(** A classifier applied to the result of [charCodeAt]: every comparison
    with [NaN] is false. *)
Definition onCode (p : Z -> bool) (c : option Z) : bool :=
  match c with Some z => p z | None => false end.

(** [next === pattern] for a code [pattern] and a [charCodeAt] result. *)
Definition code_is (c : option Z) (pattern : Z) : bool :=
  match c with Some z => z =? pattern | None => false end.

(** ** Exceptions and the method monad *)

(** The three [RangeError] messages of [SourceFile], by their parameters,
    and the failure of [assertRange(name, value, min, max)].
    Modelled from the spec: [assertRange] is of the absent
    agnostic/errors; the spec has the setter [position] of the scanner
    fail with [OutOfRange] outside [0, length], the name it gives the
    [RangeError] of [SourceFile]. *)
Inductive RangeMessage : Type :=
| NegativeOffset (offset : Z)
| OffsetBeyondLength (offset length : Z)
| EndBeforeStart (end_ start : Z)
| OutOfRange (value min max : Z).

Inductive exn : Type :=
| RangeError (message : RangeMessage)
  (** thrown by the default error reporter; the message is
      [`${message} "${text}" at ${line}:${column}`] *)
| SyntaxError (message text : jsstring) (line column : Z)
  (** [undefined] dereferenced *)
| TypeError
  (** whatever a reporter supplied by the caller throws *)
| OtherError (description : jsstring).

Inductive outcome (A : Type) : Type :=
| Returned (a : A)
| Thrown (e : exn).
Arguments Returned {A} a.
Arguments Thrown {A} e.

(** A method on an object of state [S]: the state after the call is there
    whether the call returns or throws. *)
Definition M (S A : Type) : Type := S -> outcome A * S.

Definition ret {S A : Type} (a : A) : M S A := fun s => (Returned a, s).

Definition throw {S A : Type} (e : exn) : M S A := fun s => (Thrown e, s).

Definition bind {S A B : Type} (m : M S A) (f : A -> M S B) : M S B :=
  fun s =>
    match m s with
    | (Returned a, s') => f a s'
    | (Thrown e, s') => (Thrown e, s')
    end.

Notation "x <- m ;; k" := (bind m (fun x => k))
  (at level 61, m at next level, right associativity).
Notation "m ;; k" := (bind m (fun _ => k))
  (at level 61, right associativity).

(** ** SourceFile *)

Module SourceFile.

Record t : Type := mk {
  contents : jsstring;
  sourceUrl : option jsstring;
  mLineStartsCache : option (list Z)
}.

(** [new SourceFile(contents, sourceUrl)] *)
Definition new (contents : jsstring) (sourceUrl : option jsstring) : t :=
  mk contents sourceUrl None.

Definition length (f : t) : Z := strlen (contents f).

(** The indices [0, 1, ..., n-1] a [for] loop runs over. *)
Definition indices (n : nat) : list Z := map Z.of_nat (seq 0 n).

(** One iteration of the [for] loop of [computeLineStarts], on the array
    being filled. *)
Definition lineStartsStep (s : jsstring) (acc : list Z) (i : Z) : list Z :=
  let c := charCodeAt s i in
  let c :=
    if code_is c Characters.CR then
      let j := i + 1 in
      if (j >=? strlen s) || negb (code_is (charCodeAt s j) Characters.LF)
      then Some Characters.LF
      else c
    else c in
  if code_is c Characters.LF then acc ++ [i + 1] else acc.

(** The array [computeLineStarts] builds for the contents [s]. *)
Definition lineStartsOf (s : jsstring) : list Z :=
  fold_left (lineStartsStep s) (indices (List.length s)) [].

Definition computeLineStarts : M t unit :=
  fun f =>
    match mLineStartsCache f with
    | Some _ => (Returned tt, f)
    | None =>
        (Returned tt,
         mk (contents f) (sourceUrl f) (Some (lineStartsOf (contents f))))
    end.

(** The getter [lineStarts]: fills the cache, then returns it. *)
Definition lineStarts : M t (list Z) :=
  computeLineStarts ;;
  fun f =>
    match mLineStartsCache f with
    | Some ls => (Returned ls, f)
    | None => (Thrown TypeError, f)
    end.

Definition assertValidOffset (offset : Z) : M t unit :=
  fun f =>
    if offset <? 0 then (Thrown (RangeError (NegativeOffset offset)), f)
    else if offset >? length f
    then (Thrown (RangeError (OffsetBeyondLength offset (length f))), f)
    else (Returned tt, f).

(** The loop of [binarySearch] on the bounds [min] and [max]; each turn
    brings them closer, so [max - min] turns are enough.
    [Math.floor(min + (max - min) / 2)] is [min + (max - min) / 2] with
    the rounding-down division of [Z]. *)
Fixpoint binarySearchLoop (fuel : nat) (ls : list Z) (offset min max : Z)
  : Z :=
  match fuel with
  | O => max
  | S fuel' =>
      if min <? max then
        let half := min + (max - min) / 2 in
        if js_gt (array_get ls half) offset
        then binarySearchLoop fuel' ls offset min half
        else binarySearchLoop fuel' ls offset (half + 1) max
      else max
  end.

(** Every read of [this.lineStarts] in a method returns the one memoized
    array, so a method reads it once here. *)
Definition binarySearch (offset : Z) : M t Z :=
  ls <- lineStarts ;;
  let min := 0 in
  let max := strlen ls - 1 in
  ret (binarySearchLoop (Z.to_nat (max - min)) ls offset min max).

Definition computeLine (offset : Z) : M t Z :=
  assertValidOffset offset ;;
  ls <- lineStarts ;;
  if js_lt offset (array_get ls 0) then ret 0
  else if js_ge offset (array_get ls (strlen ls - 1)) then ret (strlen ls)
  else binarySearch offset.

Definition computeColumn (offset : Z) : M t Z :=
  assertValidOffset offset ;;
  l <- computeLine offset ;;
  let line := l - 1 in
  ls <- lineStarts ;;
  let start := or_zero (array_get ls line) in
  ret (offset - start).

(** The record behind [FileSpan]: a span keeps a reference to its file;
    [span_file] is the file as it was when the span was made.  Line and
    column depend on the contents of the file only, which never change. *)
Record span_t : Type := mkSpan {
  span_file : t;
  span_offset : Z;
  span_text : jsstring
}.

Definition span (start end_ : Z) : M t span_t :=
  assertValidOffset start ;;
  assertValidOffset end_ ;;
  if end_ <? start then throw (RangeError (EndBeforeStart end_ start))
  else fun f => (Returned (mkSpan f start (js_substring (contents f) start end_)), f).

End SourceFile.

(** ** FileSpan *)

Module FileSpan.

Definition t : Type := SourceFile.span_t.
Definition file : t -> SourceFile.t := SourceFile.span_file.
Definition offset : t -> Z := SourceFile.span_offset.
Definition text : t -> jsstring := SourceFile.span_text.

Definition line (sp : t) : outcome Z :=
  fst (SourceFile.computeLine (offset sp) (file sp)).

Definition column (sp : t) : outcome Z :=
  fst (SourceFile.computeColumn (offset sp) (file sp)).

(** [AbstractSpan.length] *)
Definition length (sp : t) : Z := strlen (text sp).

(** [AbstractSpan.isMultiLine]: the regular expression [/\n|\r/] matches
    when the text holds an LF or a CR. *)
Definition isMultiLine (sp : t) : bool :=
  existsb (fun c => (c =? Characters.LF) || (c =? Characters.CR)) (text sp).

End FileSpan.

(** ** StringScanner *)

Module StringScanner.

Record t : Type := mk {
  source : SourceFile.t;
  mPosition : Z
}.

(** [new StringScanner(data)] *)
Definition new (data : jsstring) : t := mk (SourceFile.new data None) 0.

Definition length (sc : t) : Z := SourceFile.length (source sc).

(** The getter [position]. *)
Definition position (sc : t) : Z := mPosition sc.

Definition substring (sc : t) (start end_ : Z) : jsstring :=
  js_substring (SourceFile.contents (source sc)) start end_.

Definition hasNext (sc : t) : bool := position sc <? length sc.

Definition peek (sc : t) (offset : Z) : option Z :=
  charCodeAt (SourceFile.contents (source sc)) (position sc + offset).

(** The setter [position].  Modelled from the spec: [assertRange] of the
    absent agnostic/errors fails when the position is outside
    [0, length]; the position is then as it was. *)
Definition setPosition (position : Z) : M t unit :=
  fun sc =>
    if (position <? 0) || (position >? length sc)
    then (Thrown (RangeError (OutOfRange position 0 (length sc))), sc)
    else (Returned tt, mk (source sc) position).

(** [advance()]: [this.position++] reads the getter and calls the setter
    with the position plus one, which throws at the end of the input;
    then [charCodeAt] reads the code at the position that was read. *)
Definition advance : M t (option Z) :=
  fun sc =>
    let current := position sc in
    (setPosition (current + 1) ;;
     ret (charCodeAt (SourceFile.contents (source sc)) current)) sc.

(** [match(pattern)] on a character code. *)
Definition match_ (pattern : Z) (sc : t) : bool * t :=
  let next := peek sc 0 in
  if code_is next pattern then (true, mk (source sc) (mPosition sc + 1))
  else (false, sc).

(** [s.startsWith(pattern, position)]: the position is clamped to
    [0, length]; a pattern that would end beyond the string is not there. *)
Definition startsWith (s pattern : jsstring) (position : Z) : bool :=
  let len := strlen s in
  let start := Z.min (Z.max position 0) len in
  if strlen pattern + start >? len then false
  else
    if list_eq_dec Z.eq_dec
         (js_substring s start (start + strlen pattern)) pattern
    then true else false.

(** [match(substring)] on a string. *)
Definition matchString (pattern : jsstring) (sc : t) : bool * t :=
  if startsWith (SourceFile.contents (source sc)) pattern (position sc)
  then (true, mk (source sc) (mPosition sc + strlen pattern))
  else (false, sc).

(** [match(matcher)] on a function of the next character, which is
    [NaN] at the end of the input. *)
Definition matchWith (matcher : option Z -> bool) (sc : t) : bool * t :=
  let next := peek sc 0 in
  if matcher next then (true, mk (source sc) (mPosition sc + 1))
  else (false, sc).

(** The characters left to read, the bound on the turns of every loop
    that advances the scanner while [hasNext()]. *)
Definition remaining (sc : t) : nat := Z.to_nat (length sc - position sc).

End StringScanner.

(** ** Tokens *)

Inductive TokenKind : Type :=
| IDENTIFIER | STRING | NUMBER
| CLASS | ELSE | FALSE | FOR | IF | LET | RETURN | SUPER | THIS | TRUE | WHILE
| ARROW | LEFT_PAREN | RIGHT_PAREN | LEFT_CURLY | RIGHT_CURLY
| PERIOD | PLUS | PLUS_BY | MINUS | MINUS_BY | STAR | STAR_BY | SLASH
| SLASH_BY | MODULUS | MODULUS_BY | ASSIGN | EQUALS | NOT_EQUALS | IDENTICAL
| NOT_IDENTICAL | GREATER_THAN | GREATER_THAN_OR_EQUAL | LESS_THAN
| LESS_THAN_OR_EQUAL | LOGICAL_OR | OR | LOGICAL_AND | AND | LOGICAL_XOR
| NEGATE | LOGICAL_NOT | INCREMENT | DECREMENT | LEFT_SHIFT | RIGHT_SHIFT
| EOF
  (** not a member of the enum: the value the lookup [keywords[name]]
      finds on [Object.prototype] when [name] is one of its members *)
| Inherited (name : jsstring).

Module IComment.

Record t : Type := mk {
  lexeme : jsstring;
  offset : Z
}.

End IComment.

Module Token.

Record t : Type := mk {
  kind : TokenKind;
  lexeme : jsstring;
  comments : list IComment.t;
  offset : Z
}.

End Token.

(** One call of the error reporter: the span and the message. *)
Definition Report : Type := (FileSpan.t * jsstring)%type.

(** An error reporter either returns or throws.  A reporter may be a
    closure with a state of its own, so what it does may depend on the
    calls it has received before: they are its first argument. *)
Definition ErrorReporter : Type :=
  list Report -> FileSpan.t -> jsstring -> outcome unit.

(** The default value of [onError] in [scanProgram]: it throws a
    [SyntaxError] built from the message and the span. *)
Definition defaultOnError : ErrorReporter :=
  fun _ span message =>
    match FileSpan.line span with
    | Thrown e => Thrown e
    | Returned line =>
        match FileSpan.column span with
        | Thrown e => Thrown e
        | Returned column =>
            Thrown (SyntaxError message (FileSpan.text span) line column)
        end
    end.

(** A reporter that records and returns. *)
Definition recordingReporter : ErrorReporter := fun _ _ _ => Returned tt.

Definition jsstring_eqb (a b : jsstring) : bool :=
  if list_eq_dec Z.eq_dec a b then true else false.

(** [ClutchLexer.keywords], an object literal used as a map. *)
Definition keywords : list (jsstring * TokenKind) :=
  [ (str "class", CLASS); (str "else", ELSE); (str "false", FALSE);
    (str "for", FOR); (str "if", IF); (str "let", LET);
    (str "return", RETURN); (str "super", SUPER); (str "this", THIS);
    (str "while", WHILE) ].

(** The members of [Object.prototype], which every object literal
    inherits and a lookup by name finds. *)
Definition objectPrototype : list jsstring :=
  [ str "constructor"; str "hasOwnProperty"; str "isPrototypeOf";
    str "propertyIsEnumerable"; str "toLocaleString"; str "toString";
    str "valueOf"; str "__proto__"; str "__defineGetter__";
    str "__defineSetter__"; str "__lookupGetter__"; str "__lookupSetter__" ].

Fixpoint ownProperty (name : jsstring) (table : list (jsstring * TokenKind))
  : option TokenKind :=
  match table with
  | (key, value) :: table' =>
      if jsstring_eqb key name then Some value else ownProperty name table'
  | [] => None
  end.

(** [ClutchLexer.keywords[name]]: [None] is [undefined]. *)
Definition keywordsLookup (name : jsstring) : option TokenKind :=
  match ownProperty name keywords with
  | Some k => Some k
  | None =>
      if existsb (jsstring_eqb name) objectPrototype
      then Some (Inherited name)
      else None
  end.

(** [ClutchLexer.keywords[name] || TokenKind.IDENTIFIER]: every value the
    lookup finds is truthy. *)
Definition keywordOrIdentifier (name : jsstring) : TokenKind :=
  match keywordsLookup name with
  | Some k => k
  | None => IDENTIFIER
  end.

Definition isIdentifierStart (character : Z) : bool :=
  isLetter character || (character =? Characters.UNDERSCORE).

Definition isIdentifier (character : Z) : bool :=
  isIdentifierStart character || isDigit character.

(** ** ClutchLexer *)

Module ClutchLexer.

(** The fields of the lexer, and two history variables that no method
    reads: [buffered], every comment record pushed on [lastComments] so
    far, and [reported], every call made to the error reporter so far. *)
Record t : Type := mk {
  program : StringScanner.t;
  position : Z;
  lastComments : list IComment.t;
  buffered : list IComment.t;
  reported : list Report
}.

Definition L (A : Type) : Type := M t A.

Definition setProgram (sc : StringScanner.t) (st : t) : t :=
  mk sc (position st) (lastComments st) (buffered st) (reported st).

Definition setPosition (p : Z) (st : t) : t :=
  mk (program st) p (lastComments st) (buffered st) (reported st).

(** A method of the scanner called on [this.program]. *)
Definition onProgram {A : Type} (f : StringScanner.t -> A * StringScanner.t)
  : L A :=
  fun st => let (a, sc) := f (program st) in (Returned a, setProgram sc st).

(** [this.program.match(pattern)] *)
Definition programMatch (pattern : Z) : L bool :=
  onProgram (StringScanner.match_ pattern).

(** A method of the scanner that may throw, called on [this.program]. *)
Definition onScanner {A : Type} (m : M StringScanner.t A) : L A :=
  fun st => let (r, sc) := m (program st) in (r, setProgram sc st).

(** A loop over the scanner, run for the characters that remain. *)
Definition programLoop (loop : nat -> M StringScanner.t unit) : L unit :=
  onScanner (fun sc => loop (StringScanner.remaining sc) sc).

(** [this.position++] *)
Definition incrPosition : L unit :=
  fun st => (Returned tt, setPosition (position st + 1) st).

Definition clearComments : L (list IComment.t) :=
  fun st =>
    let comments := lastComments st in
    (Returned comments,
     mk (program st) (position st) [] (buffered st) (reported st)).

(** [this.lastComments.push(c)] *)
Definition pushComment (c : IComment.t) : L unit :=
  fun st =>
    (Returned tt,
     mk (program st) (position st) (lastComments st ++ [c])
        (buffered st ++ [c]) (reported st)).

Definition substring : L jsstring :=
  fun st =>
    let start := position st in
    let end_ := StringScanner.position (program st) in
    (Returned (StringScanner.substring (program st) start end_),
     setPosition end_ st).

(** [createToken(kind, content)]: [content = None] is the argument left
    out, whose default [this.substring()] is evaluated on entry. *)
Definition createToken (kind : TokenKind) (content : option jsstring)
  : L Token.t :=
  content <- match content with Some c => ret c | None => substring end ;;
  comments <- clearComments ;;
  fun st =>
    (Returned (Token.mk kind content comments (position st - strlen content)),
     st).

(** The loop of [scanPredicate]. *)
Fixpoint scanPredicateLoop (predicate : Z -> bool) (fuel : nat)
  : M StringScanner.t unit :=
  match fuel with
  | O => ret tt
  | S fuel' =>
      fun sc =>
        if StringScanner.hasNext sc then
          let peek := StringScanner.peek sc 0 in
          if negb (onCode predicate peek) then (Returned tt, sc)
          else (StringScanner.advance ;; scanPredicateLoop predicate fuel') sc
        else (Returned tt, sc)
  end.

Definition scanPredicate (predicate : Z -> bool) : L unit :=
  programLoop (scanPredicateLoop predicate).

(** The loop of [advanceToEOL]. *)
Fixpoint advanceToEOLLoop (fuel : nat) : M StringScanner.t unit :=
  match fuel with
  | O => ret tt
  | S fuel' =>
      fun sc =>
        if StringScanner.hasNext sc then
          let (lf, sc1) := StringScanner.match_ Characters.LF sc in
          if lf then (Returned tt, sc1)
          else
            let (cr, sc2) := StringScanner.match_ Characters.CR sc1 in
            if cr then (Returned tt, snd (StringScanner.match_ Characters.LF sc2))
            else (StringScanner.advance ;; advanceToEOLLoop fuel') sc2
        else (Returned tt, sc)
  end.

Definition advanceToEOL : L unit := programLoop advanceToEOLLoop.

(** The loop of [scanString]: [true] when it left through the [return]
    of the closing quote, [false] when it ran to the end of the input. *)
Fixpoint scanStringLoop (fuel : nat) : M StringScanner.t bool :=
  match fuel with
  | O => ret false
  | S fuel' =>
      fun sc =>
        if StringScanner.hasNext sc then
          let (quote, sc1) := StringScanner.match_ Characters.SQUOTE sc in
          if quote then (Returned true, sc1)
          else (StringScanner.advance ;; scanStringLoop fuel') sc1
        else (Returned false, sc)
  end.

(** The loop of [scanNumber]. *)
Fixpoint scanNumberLoop (fuel : nat) : M StringScanner.t unit :=
  match fuel with
  | O => ret tt
  | S fuel' =>
      fun sc =>
        if StringScanner.hasNext sc then
          let next := StringScanner.peek sc 0 in
          let (period, sc1) := StringScanner.match_ Characters.PERIOD sc in
          if period then (Returned tt, sc1)
          else if negb (onCode isDigit next) then (Returned tt, sc1)
          else (StringScanner.advance ;; scanNumberLoop fuel') sc1
        else (Returned tt, sc)
  end.

Definition scanHexNumber : L Token.t :=
  scanPredicate isHexadecimal ;;
  createToken NUMBER None.

Definition scanDigits : L Token.t :=
  scanPredicate isDigit ;;
  createToken NUMBER None.

Definition scanNumber (starting : option Z) : L Token.t :=
  hex <- (if code_is starting Characters.ZERO then
            b <- programMatch Characters.X ;;
            if b then ret true else programMatch Characters.x
          else ret false) ;;
  if hex then scanHexNumber
  else
    exponent <- (b <- programMatch Characters.E ;;
                 if b then ret true else programMatch Characters.e) ;;
    if exponent then scanDigits
    else
      programLoop scanNumberLoop ;;
      scanDigits.

Definition scanIdentifierOrKeyword : L Token.t :=
  scanPredicate isIdentifier ;;
  identifierOrKeyword <- substring ;;
  let kind := keywordOrIdentifier identifierOrKeyword in
  comments <- clearComments ;;
  fun st =>
    (Returned
       (Token.mk kind identifierOrKeyword comments
          (position st - strlen identifierOrKeyword)),
     st).

(** [scanSlash]: in the object literal pushed for a comment the property
    [lexeme] is evaluated first, so [this.substring()] has moved
    [this.position] when [offset] reads it. *)
Definition scanSlash : L (option Token.t) :=
  comment <- programMatch Characters.SLASH ;;
  if comment then
    advanceToEOL ;;
    text <- substring ;;
    (fun st =>
       pushComment (IComment.mk (trim text) (position st)) st) ;;
    ret None
  else
    kind <- (b <- programMatch Characters.EQUALS ;;
             ret (if b then SLASH_BY else SLASH)) ;;
    token <- createToken kind None ;;
    ret (Some token).

Section WithReporter.

Variable onError : ErrorReporter.

(** [reportError(error, offset)]: [offset = None] is the argument left
    out, whose default is [this.position].  A reporter that reads the
    line or the column of the span fills the line table of the file of
    the scanner; no method of the lexer reads that table, and the state
    of the lexer leaves it as it was. *)
Definition reportError (error : jsstring) (offset : option Z) : L unit :=
  fun st =>
    let offset := match offset with Some o => o | None => position st end in
    let sc := program st in
    match SourceFile.span offset (offset + 1) (StringScanner.source sc) with
    | (Thrown e, f) =>
        (Thrown e, setProgram (StringScanner.mk f (StringScanner.mPosition sc)) st)
    | (Returned span, f) =>
        let st1 := setProgram (StringScanner.mk f (StringScanner.mPosition sc)) st in
        let st2 :=
          mk (program st1) (position st1) (lastComments st1) (buffered st1)
             (reported st1 ++ [(span, error)]) in
        match onError (reported st1) span error with
        | Returned _ => (Returned tt, st2)
        | Thrown e => (Thrown e, st2)
        end
    end.

Definition scanString : L Token.t :=
  closed <- onScanner (fun sc => scanStringLoop (StringScanner.remaining sc) sc) ;;
  if closed then
    incrPosition ;;
    lexeme <- substring ;;
    let lexeme := js_substring lexeme 0 (strlen lexeme - 1) in
    createToken STRING (Some lexeme)
  else
    reportError (str "Unterminated string") None ;;
    incrPosition ;;
    createToken STRING None.


(** [emit m]: [return m] in [scanToken], a token for the caller. *)
Definition emit (m : L Token.t) : L (option Token.t) :=
  token <- m ;;
  ret (Some token).

(** The message [`Unexpected character "${String.fromCharCode(c)}"`]. *)
Definition unexpectedCharacter (character : option Z) : jsstring :=
  str "Unexpected character " ++ [34] ++ fromCharCode character ++ [34].

(** The [default] branch of the [switch] of [scanToken]. *)
Definition scanDefault (character : option Z) : L (option Token.t) :=
  if onCode isWhiteSpace character then
    (fun st =>
       (Returned tt, setPosition (StringScanner.position (program st)) st)) ;;
    ret None
  else if onCode isDigit character then emit (scanNumber character)
  else if onCode isIdentifierStart character then emit scanIdentifierOrKeyword
  else
    reportError (unexpectedCharacter character) None ;;
    ret None.

(** The [switch] of [scanToken] on the character read. *)
Definition scanSwitch (character : option Z) : L (option Token.t) :=
  if code_is character Characters.LPAREN then
    emit (createToken LEFT_PAREN None)
  else if code_is character Characters.RPAREN then
    emit (createToken RIGHT_PAREN None)
  else if code_is character Characters.LCURLY then
    emit (createToken LEFT_CURLY None)
  else if code_is character Characters.RCURLY then
    emit (createToken RIGHT_CURLY None)
  else if code_is character Characters.PERIOD then
    emit (createToken PERIOD None)
  else if code_is character Characters.PLUS then
    emit (kind <- (b <- programMatch Characters.EQUALS ;;
                   if b then ret PLUS_BY
                   else
                     b <- programMatch Characters.PLUS ;;
                     ret (if b then INCREMENT else PLUS)) ;;
          createToken kind None)
  else if code_is character Characters.MINUS then
    emit (kind <- (b <- programMatch Characters.RANGLE ;;
                   if b then ret ARROW
                   else
                     b <- programMatch Characters.EQUALS ;;
                     if b then ret MINUS_BY
                     else
                       b <- programMatch Characters.MINUS ;;
                       ret (if b then DECREMENT else MINUS)) ;;
          createToken kind None)
  else if code_is character Characters.STAR then
    emit (kind <- (b <- programMatch Characters.EQUALS ;;
                   ret (if b then STAR_BY else STAR)) ;;
          createToken kind None)
  else if code_is character Characters.EQUALS then
    emit (kind <- (b <- programMatch Characters.EQUALS ;;
                   if b then
                     b <- programMatch Characters.EQUALS ;;
                     ret (if b then IDENTICAL else EQUALS)
                   else ret ASSIGN) ;;
          createToken kind None)
  else if code_is character Characters.LANGLE then
    emit (kind <- (b <- programMatch Characters.EQUALS ;;
                   if b then ret LESS_THAN_OR_EQUAL
                   else
                     b <- programMatch Characters.LANGLE ;;
                     ret (if b then LEFT_SHIFT else LESS_THAN)) ;;
          createToken kind None)
  else if code_is character Characters.RANGLE then
    emit (kind <- (b <- programMatch Characters.EQUALS ;;
                   if b then ret GREATER_THAN_OR_EQUAL
                   else
                     b <- programMatch Characters.RANGLE ;;
                     ret (if b then RIGHT_SHIFT else GREATER_THAN)) ;;
          createToken kind None)
  else if code_is character Characters.SLASH then scanSlash
  else if code_is character Characters.SQUOTE then emit scanString
  else if code_is character Characters.PIPE then
    emit (kind <- (b <- programMatch Characters.PIPE ;;
                   ret (if b then OR else LOGICAL_OR)) ;;
          createToken kind None)
  else if code_is character Characters.AND then
    emit (kind <- (b <- programMatch Characters.AND ;;
                   ret (if b then AND else LOGICAL_AND)) ;;
          createToken kind None)
  else if code_is character Characters.TILDE then
    emit (createToken LOGICAL_NOT None)
  else if code_is character Characters.CARET then
    emit (createToken LOGICAL_XOR None)
  else if code_is character Characters.EXCLAIM then
    emit (kind <- (b <- programMatch Characters.EQUALS ;;
                   if b then
                     b <- programMatch Characters.EQUALS ;;
                     ret (if b then NOT_IDENTICAL else NOT_EQUALS)
                   else ret NEGATE) ;;
          createToken kind None)
  else scanDefault character.

Definition scanToken : L (option Token.t) :=
  character <- onScanner StringScanner.advance ;;
  scanSwitch character.

(** The [while] loop of [scanProgram] on the array [tokens]: every turn
    reads at least one character. *)
Fixpoint scanProgramLoop (fuel : nat) (tokens : list Token.t)
  : L (list Token.t) :=
  match fuel with
  | O => ret tokens
  | S fuel' =>
      fun st =>
        if StringScanner.hasNext (program st) then
          (token <- scanToken ;;
           scanProgramLoop fuel'
             (match token with
              | Some token => tokens ++ [token]
              | None => tokens
              end)) st
        else (Returned tokens, st)
  end.

End WithReporter.

(** A lexer as [new ClutchLexer()] leaves it; [program] is set by
    [scanProgram] before anything reads it. *)
Definition new (program : StringScanner.t) : t := mk program 0 [] [] [].

(** [scanProgram(program, onError)] on a new lexer: [onError = None] is
    the argument left out. *)
Definition scanProgram (program : StringScanner.t)
  (onError : option ErrorReporter) : L (list Token.t) :=
  let onError :=
    match onError with Some r => r | None => defaultOnError end in
  (fun st =>
     (Returned tt,
      mk program 0 (lastComments st) (buffered st) (reported st))) ;;
  tokens <- scanProgramLoop onError (StringScanner.remaining program) [] ;;
  eof <- createToken EOF (Some []) ;;
  ret (tokens ++ [eof]).

End ClutchLexer.

(** [tokenize(program, onError)] *)
Definition tokenize (program : jsstring) (onError : option ErrorReporter)
  : outcome (list Token.t) :=
  let scanner := StringScanner.new program in
  fst (ClutchLexer.scanProgram scanner onError (ClutchLexer.new scanner)).

(** The run of [tokenize] with its final lexer, for the history. *)
Definition tokenizeRun (program : jsstring) (onError : option ErrorReporter)
  : outcome (list Token.t) * ClutchLexer.t :=
  let scanner := StringScanner.new program in
  ClutchLexer.scanProgram scanner onError (ClutchLexer.new scanner).

(** * Properties *)

(** ** Reading the spec: line terminators *)

(** A line terminator ends at index [i]: an LF (alone or after a CR), or a
    CR that no LF follows. *)
Definition isTerminatorAt (s : jsstring) (i : Z) : bool :=
  code_is (charCodeAt s i) Characters.LF
  || (code_is (charCodeAt s i) Characters.CR
      && negb (code_is (charCodeAt s (i + 1)) Characters.LF)).

(** The indices of the line terminators of [s], left to right. *)
Definition terminators (s : jsstring) : list Z :=
  filter (isTerminatorAt s) (SourceFile.indices (List.length s)).

(** The cache of a file is empty or holds the table of its contents: the
    states the constructor and the methods produce. *)
Definition cacheValid (f : SourceFile.t) : Prop :=
  SourceFile.mLineStartsCache f = None
  \/ SourceFile.mLineStartsCache f
     = Some (SourceFile.lineStartsOf (SourceFile.contents f)).

(** The file once its table is memoized. *)
Definition memoized (f : SourceFile.t) : SourceFile.t :=
  SourceFile.mk (SourceFile.contents f) (SourceFile.sourceUrl f)
    (Some (SourceFile.lineStartsOf (SourceFile.contents f))).

(** The entries of a table that are at most [o]. *)
Definition entriesUpTo (ls : list Z) (o : Z) : Z :=
  strlen (filter (fun e => e <=? o) ls).

(** ** Lexer states and what a step may do *)

(** The text the lexer reads. *)
Definition inputOf (st : ClutchLexer.t) : jsstring :=
  SourceFile.contents (StringScanner.source (ClutchLexer.program st)).

(** The cursor of the lexer, [this.program.position]. *)
Definition cursor (st : ClutchLexer.t) : Z :=
  StringScanner.mPosition (ClutchLexer.program st).

(** A scanner inside its input. *)
Definition inside (sc : StringScanner.t) : Prop :=
  0 <= StringScanner.mPosition sc <= StringScanner.length sc.

(** [sc'] is [sc] moved forward, inside the same input. *)
Definition advanced (sc sc' : StringScanner.t) : Prop :=
  StringScanner.source sc' = StringScanner.source sc
  /\ StringScanner.mPosition sc <= StringScanner.mPosition sc'
     <= StringScanner.length sc.

(** Between tokens: the anchor is at or before the cursor, inside the
    input. *)
Definition anchored (st : ClutchLexer.t) : Prop :=
  0 <= ClutchLexer.position st <= cursor st
  /\ cursor st <= strlen (inputOf st).

(** Inside [scanToken]: the character just read lies between the anchor
    and the cursor. *)
Definition reading (st : ClutchLexer.t) : Prop :=
  0 <= ClutchLexer.position st < cursor st
  /\ cursor st <= strlen (inputOf st).

(** A computation that only moves the scanner forward. *)
Definition advancing {A : Type} (m : ClutchLexer.L A) : Prop :=
  forall st, inside (ClutchLexer.program st) ->
    exists a sc,
      m st = (Returned a, ClutchLexer.setProgram sc st)
      /\ advanced (ClutchLexer.program st) sc.

(** The exception came out of a call of the reporter. *)
Definition reporterThrew (onError : ErrorReporter) (e : exn) : Prop :=
  exists history span message, onError history span message = Thrown e.

(** The lexeme of a token is the text of the input at its offset. *)
Definition sliceOf (p : jsstring) (t : Token.t) : Prop :=
  js_substring p (Token.offset t) (Token.offset t + strlen (Token.lexeme t))
  = Token.lexeme t.

(** A token made from the state [st], and the state [st'] it leaves. *)
Definition tokenFrom (st : ClutchLexer.t) (tok : Token.t)
  (st' : ClutchLexer.t) : Prop :=
  advanced (ClutchLexer.program st) (ClutchLexer.program st')
  /\ ClutchLexer.position st <= Token.offset tok <= ClutchLexer.position st'
  /\ ClutchLexer.position st' <= cursor st'
  /\ (Token.kind tok <> STRING -> sliceOf (inputOf st) tok)
  /\ Token.comments tok = ClutchLexer.lastComments st
  /\ ClutchLexer.lastComments st' = []
  /\ ClutchLexer.buffered st' = ClutchLexer.buffered st.

(** No token was made: the buffer is as it was, or one comment longer. *)
Definition skipFrom (st st' : ClutchLexer.t) : Prop :=
  advanced (ClutchLexer.program st) (ClutchLexer.program st')
  /\ ClutchLexer.position st <= ClutchLexer.position st' <= cursor st'
  /\ ((ClutchLexer.lastComments st' = ClutchLexer.lastComments st
       /\ ClutchLexer.buffered st' = ClutchLexer.buffered st)
      \/ exists c,
           ClutchLexer.lastComments st' = ClutchLexer.lastComments st ++ [c]
           /\ ClutchLexer.buffered st' = ClutchLexer.buffered st ++ [c]
           /\ cursor st <= IComment.offset c <= ClutchLexer.position st').

Definition tokenPost (onError : ErrorReporter) (st : ClutchLexer.t)
  (r : outcome Token.t * ClutchLexer.t) : Prop :=
  match r with
  | (Returned tok, st') => tokenFrom st tok st'
  | (Thrown e, _) => reporterThrew onError e
  end.

Definition stepPost (onError : ErrorReporter) (st : ClutchLexer.t)
  (r : outcome (option Token.t) * ClutchLexer.t) : Prop :=
  match r with
  | (Returned (Some tok), st') => tokenFrom st tok st'
  | (Returned None, st') => skipFrom st st'
  | (Thrown e, _) => reporterThrew onError e
  end.

(** What holds of the lexer and of the tokens made so far at every turn
    of the loop of [scanProgram] on the input [p]. *)
Record invariant (p : jsstring) (st : ClutchLexer.t) (tokens : list Token.t)
  : Prop := {
  inv_input : inputOf st = p;
  inv_anchored : anchored st;
  inv_offsets : StronglySorted Z.le (map Token.offset tokens);
  inv_before : Forall (fun t => 0 <= Token.offset t <= ClutchLexer.position st) tokens;
  inv_slices : Forall (fun t => Token.kind t <> STRING -> sliceOf p t) tokens;
  inv_comments :
    List.concat (map Token.comments tokens) ++ ClutchLexer.lastComments st
    = ClutchLexer.buffered st;
  inv_buffered_sorted :
    StronglySorted Z.lt (map IComment.offset (ClutchLexer.buffered st));
  inv_buffered_before :
    Forall (fun c => IComment.offset c <= cursor st) (ClutchLexer.buffered st)
}.

(** What the loop of [scanProgram] keeps of the comments, with the offsets
    as the clock: the offset recorded for a comment is the cursor when
    it was pushed, and a token is made at or after the anchor.  A record
    on a token was pushed before the token was made; a record still in
    the buffer was pushed after every token made so far. *)
Record attached (st : ClutchLexer.t) (tokens : list Token.t) : Prop := {
  att_tokens :
    Forall
      (fun t =>
         Forall (fun c => IComment.offset c <= Token.offset t)
           (Token.comments t))
      tokens;
  att_pending_before :
    Forall (fun c => IComment.offset c <= ClutchLexer.position st)
      (ClutchLexer.lastComments st);
  att_pending_after :
    Forall
      (fun c => Forall (fun t => Token.offset t < IComment.offset c) tokens)
      (ClutchLexer.lastComments st)
}.

(** The span of an error and the state once it is reported. *)
Definition errorSpan (st : ClutchLexer.t) : FileSpan.t :=
  SourceFile.mkSpan
    (StringScanner.source (ClutchLexer.program st))
    (ClutchLexer.position st)
    (js_substring (inputOf st) (ClutchLexer.position st)
       (ClutchLexer.position st + 1)).

Definition withReport (st : ClutchLexer.t) (error : jsstring) : ClutchLexer.t :=
  ClutchLexer.mk (ClutchLexer.program st) (ClutchLexer.position st)
    (ClutchLexer.lastComments st) (ClutchLexer.buffered st)
    (ClutchLexer.reported st ++ [(errorSpan st, error)]).

(** ** The scanner where [advance] returns *)

(** The scanner once [advance] has returned: the position is one
    further.  In the lexer every call of [advance] follows a test of
    [hasNext], and the position of a scanner is never negative, so the
    setter accepts the position. *)
Definition stepped (sc : StringScanner.t) : StringScanner.t :=
  StringScanner.mk (StringScanner.source sc) (StringScanner.mPosition sc + 1).

(** The scanner the loop of [scanPredicate] leaves when no [advance]
    throws, as a function of the scanner. *)
Fixpoint scanPredicateSteps (predicate : Z -> bool) (fuel : nat)
  (sc : StringScanner.t) : StringScanner.t :=
  match fuel with
  | O => sc
  | S fuel' =>
      if StringScanner.hasNext sc then
        let peek := StringScanner.peek sc 0 in
        if negb (onCode predicate peek) then sc
        else scanPredicateSteps predicate fuel' (stepped sc)
      else sc
  end.

(** The scanner the loop of [advanceToEOL] leaves when no [advance]
    throws. *)
Fixpoint advanceToEOLSteps (fuel : nat) (sc : StringScanner.t)
  : StringScanner.t :=
  match fuel with
  | O => sc
  | S fuel' =>
      if StringScanner.hasNext sc then
        let (lf, sc1) := StringScanner.match_ Characters.LF sc in
        if lf then sc1
        else
          let (cr, sc2) := StringScanner.match_ Characters.CR sc1 in
          if cr then snd (StringScanner.match_ Characters.LF sc2)
          else advanceToEOLSteps fuel' (stepped sc2)
      else sc
  end.

(** What the loop of [scanString] returns, and the scanner it leaves,
    when no [advance] throws. *)
Fixpoint scanStringSteps (fuel : nat) (sc : StringScanner.t)
  : bool * StringScanner.t :=
  match fuel with
  | O => (false, sc)
  | S fuel' =>
      if StringScanner.hasNext sc then
        let (quote, sc1) := StringScanner.match_ Characters.SQUOTE sc in
        if quote then (true, sc1)
        else scanStringSteps fuel' (stepped sc1)
      else (false, sc)
  end.

(** The scanner the loop of [scanNumber] leaves when no [advance]
    throws. *)
Fixpoint scanNumberSteps (fuel : nat) (sc : StringScanner.t)
  : StringScanner.t :=
  match fuel with
  | O => sc
  | S fuel' =>
      if StringScanner.hasNext sc then
        let next := StringScanner.peek sc 0 in
        let (period, sc1) := StringScanner.match_ Characters.PERIOD sc in
        if period then sc1
        else if negb (onCode isDigit next) then sc1
        else scanNumberSteps fuel' (stepped sc1)
      else sc
  end.

(** The state of [scanToken] once it has read its character. *)
Definition afterAdvance (st : ClutchLexer.t) : ClutchLexer.t :=
  ClutchLexer.setProgram (stepped (ClutchLexer.program st)) st.

(** The reporter [scanProgram] uses: the one given, or the default. *)
Definition reporterOf (onError : option ErrorReporter) : ErrorReporter :=
  match onError with Some r => r | None => defaultOnError end.

(** A comment record is in the list of exactly one token of [ts]. *)
Definition inOneToken (c : IComment.t) (ts : list Token.t) : Prop :=
  exists before t after,
    ts = before ++ t :: after
    /\ In c (Token.comments t)
    /\ forall t', In t' (before ++ after) -> ~ In c (Token.comments t').

(** ** Reading the spec: inputs of white space and line comments *)

(** LF or CR, the characters that end a line comment. *)
Definition isLineBreak (c : Z) : bool :=
  (c =? Characters.LF) || (c =? Characters.CR).

(** The text of a line comment with the body [body]: the two slashes and
    the characters up to the end of the line. *)
Definition lineComment (body : jsstring) : jsstring :=
  Characters.SLASH :: Characters.SLASH :: body.

(** [blank texts s]: the input [s] consists only of white space and line
    comments, and [texts] are the texts of its comments, in order.  A
    comment runs to the end of the input or to its line terminator: an
    LF, a CR+LF, or a CR that no LF follows. *)
Inductive blank : list jsstring -> jsstring -> Prop :=
| blank_end : blank [] []
| blank_space (c : Z) (s : jsstring) (texts : list jsstring) :
    isWhiteSpace c = true -> blank texts s -> blank texts (c :: s)
| blank_comment_end (body : jsstring) :
    forallb (fun c => negb (isLineBreak c)) body = true ->
    blank [lineComment body] (lineComment body)
| blank_comment_lf (body s : jsstring) (texts : list jsstring) :
    forallb (fun c => negb (isLineBreak c)) body = true ->
    blank texts s ->
    blank (lineComment body :: texts)
      (lineComment body ++ Characters.LF :: s)
| blank_comment_crlf (body s : jsstring) (texts : list jsstring) :
    forallb (fun c => negb (isLineBreak c)) body = true ->
    blank texts s ->
    blank (lineComment body :: texts)
      (lineComment body ++ Characters.CR :: Characters.LF :: s)
| blank_comment_cr (body s : jsstring) (texts : list jsstring) :
    forallb (fun c => negb (isLineBreak c)) body = true ->
    blank texts s ->
    code_is (hd_error s) Characters.LF = false ->
    blank (lineComment body :: texts)
      (lineComment body ++ Characters.CR :: s).

(** The characters [advanceToEOL] reads at the end of a comment. *)
Definition terminatorOf (tail : jsstring) : jsstring :=
  match tail with
  | [] => []
  | c :: tail' =>
      if c =? Characters.LF then [c]
      else if code_is (hd_error tail') Characters.LF
           then [c; Characters.LF]
           else [c]
  end.

Definition breaksLine (tail : jsstring) : Prop :=
  match tail with
  | [] => True
  | c :: _ => isLineBreak c = true
  end.

(** A lexer between tokens, its anchor and its cursor at [pos]. *)
Definition lexerAt (src : SourceFile.t) (pos : Z)
  (pending buf : list IComment.t) (rep : list Report) : ClutchLexer.t :=
  ClutchLexer.mk (StringScanner.mk src pos) pos pending buf rep.

(** ** Reading the spec: operators in two levels *)

(** The kind chosen after a first character by matching one [=] and then,
    if it matched, a second one. *)
Definition twoLevel (sc : StringScanner.t) (one two three : TokenKind)
  : TokenKind :=
  if code_is (StringScanner.peek sc 0) Characters.EQUALS then
    if code_is (StringScanner.peek sc 1) Characters.EQUALS then three else two
  else one.

(** The number of [=] matched on the way. *)
Definition twoLevelLength (sc : StringScanner.t) : Z :=
  if code_is (StringScanner.peek sc 0) Characters.EQUALS then
    if code_is (StringScanner.peek sc 1) Characters.EQUALS then 2 else 1
  else 0.

(** ** Lines of a file *)

(** The line terminators of [s] that end before the offset [o]. *)
Definition terminatorsBefore (s : jsstring) (o : Z) : Z :=
  strlen (filter (fun i => i <? o) (terminators s)).

(** ** Tokens and their extents *)

(** The kinds [scanToken] can give a token: every kind but TRUE, MODULUS
    and MODULUS_BY, which no branch names, and EOF, which [scanProgram]
    makes itself. *)
Definition producible (k : TokenKind) : Prop :=
  k <> TRUE /\ k <> MODULUS /\ k <> MODULUS_BY /\ k <> EOF.

(** The offset after the last character of the lexeme of a token. *)
Definition extentEnd (t : Token.t) : Z :=
  Token.offset t + strlen (Token.lexeme t).

(** The lexeme of [t1] ends where [t2] starts, or before. *)
Definition precedes (t1 t2 : Token.t) : Prop :=
  extentEnd t1 <= Token.offset t2.

(** A token and the lexer that has just made it: the extent of the token
    ends at the anchor, which is the cursor. *)
Definition closes (tok : Token.t) (st' : ClutchLexer.t) : Prop :=
  extentEnd tok = ClutchLexer.position st'
  /\ ClutchLexer.position st' = cursor st'
  /\ producible (Token.kind tok).

(** Every token the computation returns satisfies [Q] with the state it
    leaves. *)
Definition makes (Q : Token.t -> ClutchLexer.t -> Prop)
  (m : ClutchLexer.L Token.t) : Prop :=
  forall st tok st', m st = (Returned tok, st') -> Q tok st'.

Definition makesToken (Q : Token.t -> ClutchLexer.t -> Prop)
  (m : ClutchLexer.L (option Token.t)) : Prop :=
  forall st tok st', m st = (Returned (Some tok), st') -> Q tok st'.

(** Every value the computation returns satisfies [P]. *)
Definition yields {A : Type} (P : A -> Prop) (m : ClutchLexer.L A) : Prop :=
  forall st a st', m st = (Returned a, st') -> P a.

(** A token other than a STRING starts at the anchor of the state it was
    made from. *)
Definition anchorPost (st : ClutchLexer.t)
  (r : outcome Token.t * ClutchLexer.t) : Prop :=
  match r with
  | (Returned tok, _) =>
      Token.kind tok <> STRING -> Token.offset tok = ClutchLexer.position st
  | (Thrown _, _) => True
  end.

Definition anchorStep (st : ClutchLexer.t)
  (r : outcome (option Token.t) * ClutchLexer.t) : Prop :=
  match r with
  | (Returned (Some tok), _) =>
      Token.kind tok <> STRING -> Token.offset tok = ClutchLexer.position st
  | _ => True
  end.

(** What holds, beside [invariant], of the lexer and of the tokens made
    so far at every turn of the loop of [scanProgram]. *)
Record extents (st : ClutchLexer.t) (tokens : list Token.t) : Prop := {
  ext_ordered : StronglySorted precedes tokens;
  ext_before :
    Forall (fun t => extentEnd t <= ClutchLexer.position st) tokens;
  ext_kinds : Forall (fun t => producible (Token.kind t)) tokens;
  ext_nonempty :
    Forall (fun t => Token.kind t <> STRING -> Token.lexeme t <> []) tokens;
  ext_pending :
    Forall (fun c => IComment.offset c <= ClutchLexer.position st)
      (ClutchLexer.lastComments st);
  ext_comments :
    Forall
      (fun t =>
         Forall (fun c => IComment.offset c <= Token.offset t)
           (Token.comments t))
      tokens
}.

(** ** Runs without an error *)

(** A reporter that throws at every call, as the default one does. *)
Definition throwing (onError : ErrorReporter) : Prop :=
  forall history span message,
    exists e, onError history span message = Thrown e.

(** Whatever [m1] returns, [m2] returns, and leaves the same state. *)
Definition agree {A : Type} (m1 m2 : ClutchLexer.L A) : Prop :=
  forall st a st', m1 st = (Returned a, st') -> m2 st = (Returned a, st').

(** A computation that returns has not called the reporter. *)
Definition quiet {A : Type} (m : ClutchLexer.L A) : Prop :=
  forall st a st',
    m st = (Returned a, st') ->
    ClutchLexer.reported st' = ClutchLexer.reported st.

(** A step that returns leaves the anchor at the cursor. *)
Definition settles (m : ClutchLexer.L (option Token.t)) : Prop :=
  forall st x st',
    m st = (Returned x, st') -> ClutchLexer.position st' = cursor st'.

(** A string literal in the input [p] and its token: the lexeme is the
    text between two quotes and holds no quote, and the offset of the
    token is the offset of the opening quote plus two. *)
Definition quoted (p : jsstring) (t : Token.t) : Prop :=
  let start := Token.offset t - 1 in
  let stop := start + strlen (Token.lexeme t) in
  charCodeAt p (start - 1) = Some Characters.SQUOTE
  /\ js_substring p start stop = Token.lexeme t
  /\ charCodeAt p stop = Some Characters.SQUOTE
  /\ ~ In Characters.SQUOTE (Token.lexeme t).

(** ** The values of the kinds *)

(** The value of a member of the enum [TokenKind]; [Inherited] is no
    member. *)
Definition valueOf (k : TokenKind) : option jsstring :=
  match k with
  | IDENTIFIER => Some (str "Identifier")
  | STRING => Some (str "String")
  | NUMBER => Some (str "Number")
  | CLASS => Some (str "class")
  | ELSE => Some (str "else")
  | FALSE => Some (str "false")
  | FOR => Some (str "for")
  | IF => Some (str "if")
  | LET => Some (str "let")
  | RETURN => Some (str "return")
  | SUPER => Some (str "super")
  | THIS => Some (str "this")
  | TRUE => Some (str "true")
  | WHILE => Some (str "while")
  | ARROW => Some (str "->")
  | LEFT_PAREN => Some (str "(")
  | RIGHT_PAREN => Some (str ")")
  | LEFT_CURLY => Some (str "{")
  | RIGHT_CURLY => Some (str "}")
  | PERIOD => Some (str ".")
  | PLUS => Some (str "+")
  | PLUS_BY => Some (str "+=")
  | MINUS => Some (str "-")
  | MINUS_BY => Some (str "-=")
  | STAR => Some (str "*")
  | STAR_BY => Some (str "*=")
  | SLASH => Some (str "/")
  | SLASH_BY => Some (str "/=")
  | MODULUS => Some (str "%")
  | MODULUS_BY => Some (str "%=")
  | ASSIGN => Some (str "=")
  | EQUALS => Some (str "==")
  | NOT_EQUALS => Some (str "!=")
  | IDENTICAL => Some (str "===")
  | NOT_IDENTICAL => Some (str "!==")
  | GREATER_THAN => Some (str ">")
  | GREATER_THAN_OR_EQUAL => Some (str ">=")
  | LESS_THAN => Some (str "<")
  | LESS_THAN_OR_EQUAL => Some (str "<=")
  | LOGICAL_OR => Some (str "|")
  | OR => Some (str "||")
  | LOGICAL_AND => Some (str "&")
  | AND => Some (str "&&")
  | LOGICAL_XOR => Some (str "^")
  | NEGATE => Some (str "!")
  | LOGICAL_NOT => Some (str "~")
  | INCREMENT => Some (str "++")
  | DECREMENT => Some (str "--")
  | LEFT_SHIFT => Some (str "<<")
  | RIGHT_SHIFT => Some (str ">>")
  | EOF => Some (str "<EOF>")
  | Inherited _ => None
  end.

(** The kinds the enum lists under [Literals], and EOF: their value is
    no text of a program. *)
Definition literal (k : TokenKind) : bool :=
  match k with
  | IDENTIFIER | STRING | NUMBER | EOF => true
  | _ => false
  end.

(** The lexeme of a keyword, a symbol or an operator is the value of its
    kind. *)
Definition spelled (t : Token.t) : Prop :=
  literal (Token.kind t) = false ->
  forall text, valueOf (Token.kind t) = Some text -> Token.lexeme t = text.

(** ** Characters no branch reads *)

(** The characters [scanToken] has a branch for: the [case] labels of the
    [switch], white space, digits, letters and the underscore. *)
Definition handled (c : Z) : bool :=
  existsb (Z.eqb c)
    [ Characters.LPAREN; Characters.RPAREN; Characters.LCURLY;
      Characters.RCURLY; Characters.PERIOD; Characters.PLUS;
      Characters.MINUS; Characters.STAR; Characters.EQUALS;
      Characters.LANGLE; Characters.RANGLE; Characters.SLASH;
      Characters.SQUOTE; Characters.PIPE; Characters.AND;
      Characters.TILDE; Characters.CARET; Characters.EXCLAIM ]
  || isWhiteSpace c || isDigit c || isIdentifierStart c.

(** ** Runs of characters *)

(** [j] is the end of the longest run of characters of [s] from [i] that
    satisfy the predicate: the input ends at [j], or the character at
    [j] does not satisfy it. *)
Definition run (predicate : Z -> bool) (s : jsstring) (i j : Z) : Prop :=
  i <= j <= strlen s
  /\ (forall k, i <= k < j -> onCode predicate (charCodeAt s k) = true)
  /\ (j = strlen s
      \/ exists c, charCodeAt s j = Some c /\ predicate c = false).

(** The code is one of two. *)
Definition oneOf (c : option Z) (a b : Z) : bool :=
  code_is c a || code_is c b.

(** ** The longest symbol *)

(** The kinds the enum lists under [Symbols] and [Operators]. *)
Definition symbol (k : TokenKind) : bool :=
  match k with
  | ARROW | LEFT_PAREN | RIGHT_PAREN | LEFT_CURLY | RIGHT_CURLY
  | PERIOD | PLUS | PLUS_BY | MINUS | MINUS_BY | STAR | STAR_BY | SLASH
  | SLASH_BY | MODULUS | MODULUS_BY | ASSIGN | EQUALS | NOT_EQUALS
  | IDENTICAL | NOT_IDENTICAL | GREATER_THAN | GREATER_THAN_OR_EQUAL
  | LESS_THAN | LESS_THAN_OR_EQUAL | LOGICAL_OR | OR | LOGICAL_AND | AND
  | LOGICAL_XOR | NEGATE | LOGICAL_NOT | INCREMENT | DECREMENT
  | LEFT_SHIFT | RIGHT_SHIFT => true
  | _ => false
  end.

(** No symbol or operator that the input [p] spells at the offset of the
    token is longer than the lexeme of the token. *)
Definition longest (p : jsstring) (t : Token.t) : Prop :=
  symbol (Token.kind t) = true ->
  forall k w,
    symbol k = true -> valueOf k = Some w ->
    js_substring p (Token.offset t) (Token.offset t + strlen w) = w ->
    strlen w <= strlen (Token.lexeme t).

(** ** Lexical errors *)

(** A computation that never throws. *)
Definition safe {A : Type} (m : ClutchLexer.L A) : Prop :=
  forall st e st', m st <> (Thrown e, st').

(** The span of the one character of [p] at the offset [o]. *)
Definition spanAt (p : jsstring) (o : Z) : FileSpan.t :=
  SourceFile.mkSpan (SourceFile.new p None) o (js_substring p o (o + 1)).

(** The two errors of the lexer, at the offset [o] of the input [p]: a
    quote that no quote follows, and a character that has no branch. *)
Definition lexicalError (p : jsstring) (o : Z) (message : jsstring) : Prop :=
  (message = str "Unterminated string"
   /\ charCodeAt p o = Some Characters.SQUOTE
   /\ forall i, o < i -> charCodeAt p i <> Some Characters.SQUOTE)
  \/ (exists c,
        charCodeAt p o = Some c /\ handled c = false
        /\ message = ClutchLexer.unexpectedCharacter (Some c)).

(** ** Names and numbers *)

(** The kinds [scanIdentifierOrKeyword] gives: IDENTIFIER, the keywords,
    and what the lookup finds on [Object.prototype]. *)
Definition isName (k : TokenKind) : bool :=
  match k with
  | IDENTIFIER | CLASS | ELSE | FALSE | FOR | IF | LET | RETURN | SUPER
  | THIS | TRUE | WHILE | Inherited _ => true
  | _ => false
  end.

(** The lexeme of a NUMBER starts with a digit; the lexeme of a name
    is a letter or an underscore and then letters, underscores and
    digits. *)
Definition wellFormed (t : Token.t) : Prop :=
  (Token.kind t = NUMBER ->
   exists d rest, Token.lexeme t = d :: rest /\ isDigit d = true)
  /\ (isName (Token.kind t) = true ->
      exists c rest,
        Token.lexeme t = c :: rest
        /\ isIdentifierStart c = true
        /\ forallb isIdentifier rest = true).

(** ** Strings and arrays *)

Lemma strlen_nonneg (s : jsstring) : 0 <= strlen s.
Proof. unfold strlen. lia. Qed.

Lemma strlen_app (a b : jsstring) : strlen (a ++ b) = strlen a + strlen b.
Proof. unfold strlen. rewrite length_app. lia. Qed.

Lemma array_get_some {A : Type} (a : list A) (i : Z) :
  0 <= i < Z.of_nat (List.length a) -> exists v, array_get a i = Some v.
Proof.
  intros H. unfold array_get.
  destruct (Z.ltb_spec i 0); [lia|].
  destruct (nth_error a (Z.to_nat i)) eqn:E; [eauto|].
  apply nth_error_None in E. lia.
Qed.

Lemma array_get_none {A : Type} (a : list A) (i : Z) :
  i < 0 \/ Z.of_nat (List.length a) <= i -> array_get a i = None.
Proof.
  intros H. unfold array_get.
  destruct (Z.ltb_spec i 0); [reflexivity|].
  apply nth_error_None. lia.
Qed.

Lemma array_get_app_last {A : Type} (a : list A) (v : A) :
  array_get (a ++ [v]) (Z.of_nat (List.length a)) = Some v.
Proof.
  unfold array_get.
  destruct (Z.ltb_spec (Z.of_nat (List.length a)) 0); [lia|].
  rewrite Nat2Z.id, nth_error_app2, Nat.sub_diag by lia. reflexivity.
Qed.

(** The slice [start, end) of a string, for offsets in order and inside. *)
Lemma js_substring_slice (s : jsstring) (a b : Z) :
  0 <= a <= b -> b <= strlen s ->
  js_substring s a b = firstn (Z.to_nat (b - a)) (skipn (Z.to_nat a) s).
Proof.
  intros H1 H2. unfold js_substring.
  replace (Z.min (Z.max a 0) (strlen s)) with a by lia.
  replace (Z.min (Z.max b 0) (strlen s)) with b by lia.
  replace (Z.min a b) with a by lia.
  replace (Z.max a b) with b by lia.
  reflexivity.
Qed.

Lemma js_substring_length (s : jsstring) (a b : Z) :
  0 <= a <= b -> b <= strlen s -> strlen (js_substring s a b) = b - a.
Proof.
  intros H1 H2. rewrite js_substring_slice by assumption.
  unfold strlen in *. rewrite length_firstn, length_skipn. lia.
Qed.

(** ** The line table *)

Lemma lineStartsStep_spec (s : jsstring) (acc : list Z) (i : Z) :
  SourceFile.lineStartsStep s acc i
  = if isTerminatorAt s i then acc ++ [i + 1] else acc.
Proof.
  unfold SourceFile.lineStartsStep, isTerminatorAt.
  destruct (charCodeAt s i) as [c|] eqn:Ec; simpl; [|reflexivity].
  destruct (Z.eqb_spec c Characters.CR) as [->|Hcr].
  - simpl.
    destruct (Z.geb_spec (i + 1) (strlen s)) as [Hj|Hj]; simpl.
    + unfold charCodeAt. rewrite (array_get_none s (i + 1)) by (unfold strlen in Hj; lia).
      reflexivity.
    + destruct (code_is (charCodeAt s (i + 1)) Characters.LF); reflexivity.
  - simpl. rewrite orb_false_r. reflexivity.
Qed.

Lemma lineStarts_fold (s : jsstring) (l acc : list Z) :
  fold_left (SourceFile.lineStartsStep s) l acc
  = acc ++ map (fun i => i + 1) (filter (isTerminatorAt s) l).
Proof.
  revert acc. induction l as [|i l IH]; intros acc; simpl.
  - now rewrite app_nil_r.
  - rewrite IH, lineStartsStep_spec.
    destruct (isTerminatorAt s i); simpl; [|reflexivity].
    now rewrite <- app_assoc.
Qed.

Lemma lineStartsOf_terminators (s : jsstring) :
  SourceFile.lineStartsOf s = map (fun i => i + 1) (terminators s).
Proof. unfold SourceFile.lineStartsOf. now rewrite lineStarts_fold. Qed.

Lemma indices_snoc (n : nat) :
  SourceFile.indices (S n) = SourceFile.indices n ++ [Z.of_nat n].
Proof.
  unfold SourceFile.indices. rewrite seq_S, map_app. reflexivity.
Qed.

(** The getter fills an empty cache and leaves a filled one alone. *)
Lemma lineStarts_run (f : SourceFile.t) :
  cacheValid f ->
  SourceFile.lineStarts f
  = (Returned (SourceFile.lineStartsOf (SourceFile.contents f)), memoized f).
Proof.
  intros [H|H]; unfold SourceFile.lineStarts, SourceFile.computeLineStarts, bind;
    rewrite H; simpl; [reflexivity|].
  rewrite H. unfold memoized. destruct f; simpl in *. now rewrite H.
Qed.

Lemma memoized_valid (f : SourceFile.t) : cacheValid (memoized f).
Proof. right. reflexivity. Qed.

Lemma new_valid (s : jsstring) (url : option jsstring) :
  cacheValid (SourceFile.new s url).
Proof. left. reflexivity. Qed.

(** C4.  The line-start table of any contents holds, left to right, the
    entry [i + 1] for each index [i] at which a line terminator ends: an
    LF, or a CR that no LF follows, so that CR+LF counts once, at its LF.
    The table has as many entries as the contents have terminators, and
    when the contents end with a newline the final entry is the length. *)
Theorem lineStarts_are_terminators (s : jsstring) (url : option jsstring) :
  fst (SourceFile.lineStarts (SourceFile.new s url))
  = Returned (map (fun i => i + 1) (terminators s))
  /\ strlen (SourceFile.lineStartsOf s) = strlen (terminators s)
  /\ (forall s' c,
        s = s' ++ [c] -> c = Characters.LF \/ c = Characters.CR ->
        exists init, SourceFile.lineStartsOf s = init ++ [strlen s]).
Proof.
  split; [|split].
  - rewrite lineStarts_run by apply new_valid. simpl.
    now rewrite lineStartsOf_terminators.
  - rewrite lineStartsOf_terminators. unfold strlen. now rewrite length_map.
  - intros s' c -> Hc.
    rewrite lineStartsOf_terminators. unfold terminators.
    rewrite length_app. simpl List.length.
    replace (List.length s' + 1)%nat with (S (List.length s')) by lia.
    rewrite indices_snoc, filter_app, map_app.
    assert (Hlast : isTerminatorAt (s' ++ [c]) (Z.of_nat (List.length s')) = true).
    { unfold isTerminatorAt, charCodeAt.
      rewrite array_get_app_last.
      rewrite (array_get_none (s' ++ [c])) by (rewrite length_app; simpl; lia).
      simpl. destruct Hc as [-> | ->]; reflexivity. }
    simpl filter. rewrite Hlast. simpl map.
    eexists. f_equal. f_equal. rewrite strlen_app. unfold strlen. simpl. lia.
Qed.

(** ** Spans *)

Lemma assertValidOffset_run (o : Z) (f : SourceFile.t) :
  SourceFile.assertValidOffset o f
  = if o <? 0 then (Thrown (RangeError (NegativeOffset o)), f)
    else if o >? SourceFile.length f
    then (Thrown (RangeError (OffsetBeyondLength o (SourceFile.length f))), f)
    else (Returned tt, f).
Proof. reflexivity. Qed.

Lemma assertValidOffset_ok (o : Z) (f : SourceFile.t) :
  0 <= o <= SourceFile.length f ->
  SourceFile.assertValidOffset o f = (Returned tt, f).
Proof.
  intros H. rewrite assertValidOffset_run.
  destruct (Z.ltb_spec o 0); [lia|].
  destruct (Z.gtb_spec o (SourceFile.length f)); [lia|]. reflexivity.
Qed.

(** What [span] does on offsets in order and inside the file. *)
Lemma span_inside (f : SourceFile.t) (a b : Z) :
  0 <= a <= b -> b <= SourceFile.length f ->
  SourceFile.span a b f
  = (Returned (SourceFile.mkSpan f a (js_substring (SourceFile.contents f) a b)), f).
Proof.
  intros H1 H2. unfold SourceFile.span, bind.
  rewrite !assertValidOffset_ok by lia.
  destruct (Z.ltb_spec b a); [lia|]. reflexivity.
Qed.

(** C7.  [span(start, end)] throws a [RangeError] exactly when an endpoint
    is negative or beyond the length, or the end is before the start;
    otherwise it returns the span at [start] whose text is the slice of
    the contents from [start] to [end].  Either way the file is left as
    it was. *)
Theorem span_range_error_iff (f : SourceFile.t) (start end_ : Z) :
  ((exists m, fst (SourceFile.span start end_ f) = Thrown (RangeError m))
   <-> (start < 0 \/ end_ < 0 \/ start > SourceFile.length f
        \/ end_ > SourceFile.length f \/ end_ < start))
  /\ match fst (SourceFile.span start end_ f) with
     | Returned sp =>
         FileSpan.offset sp = start
         /\ FileSpan.text sp
            = firstn (Z.to_nat (end_ - start))
                (skipn (Z.to_nat start) (SourceFile.contents f))
         /\ FileSpan.file sp = f
     | Thrown e => exists m, e = RangeError m
     end
  /\ snd (SourceFile.span start end_ f) = f.
Proof.
  unfold SourceFile.span, bind, throw.
  rewrite (assertValidOffset_run start).
  destruct (Z.ltb_spec start 0) as [Hs|Hs].
  { simpl. repeat split; eauto; intros; lia. }
  destruct (Z.gtb_spec start (SourceFile.length f)) as [Hs'|Hs'].
  { simpl. repeat split; eauto; intros; lia. }
  rewrite (assertValidOffset_run end_).
  destruct (Z.ltb_spec end_ 0) as [He|He].
  { simpl. repeat split; eauto; intros; lia. }
  destruct (Z.gtb_spec end_ (SourceFile.length f)) as [He'|He'].
  { simpl. repeat split; eauto; intros; lia. }
  destruct (Z.ltb_spec end_ start) as [Hse|Hse].
  { simpl. repeat split; eauto; intros; lia. }
  simpl. repeat split.
  - intros [m Hm]. discriminate.
  - intros H. lia.
  - apply js_substring_slice; unfold SourceFile.length in *; lia.
Qed.

(** ** Lines and columns *)

Lemma memoized_idem (f : SourceFile.t) : memoized (memoized f) = memoized f.
Proof. reflexivity. Qed.

(** [computeLine] on a valid offset, as a function of the table. *)
Lemma computeLine_unfold (f : SourceFile.t) (o : Z) :
  cacheValid f -> 0 <= o <= SourceFile.length f ->
  SourceFile.computeLine o f
  = (Returned
       (let ls := SourceFile.lineStartsOf (SourceFile.contents f) in
        if js_lt o (array_get ls 0) then 0
        else if js_ge o (array_get ls (strlen ls - 1)) then strlen ls
        else SourceFile.binarySearchLoop (Z.to_nat (strlen ls - 1 - 0)) ls o 0
               (strlen ls - 1)),
     memoized f).
Proof.
  intros Hv Ho. unfold SourceFile.computeLine, bind.
  rewrite assertValidOffset_ok, lineStarts_run by assumption.
  cbv zeta.
  destruct (js_lt o _); [reflexivity|].
  destruct (js_ge o _); [reflexivity|].
  unfold SourceFile.binarySearch, bind.
  rewrite lineStarts_run by apply memoized_valid.
  reflexivity.
Qed.

(** The search never leaves the bounds it is given. *)
Lemma binarySearchLoop_le_max (fuel : nat) (ls : list Z) (o lo hi : Z) :
  SourceFile.binarySearchLoop fuel ls o lo hi <= hi.
Proof.
  revert lo hi. induction fuel as [|fuel IH]; intros lo hi; simpl; [lia|].
  destruct (Z.ltb_spec lo hi) as [Hlt|Hge]; [|lia].
  assert (Hhalf : lo <= lo + (hi - lo) / 2 < hi).
  { pose proof (Z.div_pos (hi - lo) 2).
    pose proof (Z.div_lt_upper_bound (hi - lo) 2 (hi - lo)). lia. }
  destruct (js_gt _ o).
  - specialize (IH lo (lo + (hi - lo) / 2)). lia.
  - apply IH.
Qed.

Lemma computeLine_le_size (f : SourceFile.t) (o l : Z) :
  cacheValid f -> 0 <= o <= SourceFile.length f ->
  fst (SourceFile.computeLine o f) = Returned l ->
  l <= strlen (SourceFile.lineStartsOf (SourceFile.contents f)).
Proof.
  intros Hv Ho. rewrite computeLine_unfold by assumption. simpl.
  set (ls := SourceFile.lineStartsOf (SourceFile.contents f)).
  pose proof (strlen_nonneg ls).
  destruct (js_lt o _); [intros [= <-]; lia|].
  destruct (js_ge o _); [intros [= <-]; lia|].
  intros [= <-].
  pose proof (binarySearchLoop_le_max (Z.to_nat (strlen ls - 1 - 0)) ls o 0
                (strlen ls - 1)).
  lia.
Qed.

(** C8.  For a valid offset [o], [computeColumn(o)] is [o] less the table
    entry at index [computeLine(o) - 1] when [computeLine(o) >= 1], and
    is [o] otherwise. *)
Theorem computeColumn_spec (f : SourceFile.t) (o : Z) :
  cacheValid f -> 0 <= o <= SourceFile.length f ->
  exists l c,
    fst (SourceFile.computeLine o f) = Returned l
    /\ fst (SourceFile.computeColumn o f) = Returned c
    /\ (l >= 1 ->
        exists start,
          array_get (SourceFile.lineStartsOf (SourceFile.contents f)) (l - 1)
          = Some start
          /\ c = o - start)
    /\ (l < 1 -> c = o).
Proof.
  intros Hv Ho.
  pose proof (computeLine_le_size f o) as Hle.
  unfold SourceFile.computeColumn, bind.
  rewrite assertValidOffset_ok by assumption.
  rewrite computeLine_unfold in * by assumption.
  rewrite lineStarts_run by apply memoized_valid.
  set (ls := SourceFile.lineStartsOf (SourceFile.contents f)) in *.
  cbv zeta in *. simpl fst in *.
  set (l := if js_lt o (array_get ls 0) then 0
            else if js_ge o (array_get ls (strlen ls - 1)) then strlen ls
            else SourceFile.binarySearchLoop (Z.to_nat (strlen ls - 1 - 0)) ls o 0
                   (strlen ls - 1)) in *.
  specialize (Hle l Hv Ho eq_refl).
  exists l. eexists. split; [reflexivity|]. split; [reflexivity|]. split.
  - intros Hl.
    destruct (array_get_some ls (l - 1)) as [start Hstart].
    { unfold strlen in Hle. lia. }
    exists start. split; [exact Hstart|]. fold ls. rewrite Hstart. simpl.
    destruct (Z.eqb_spec start 0); lia.
  - intros Hl. fold ls. rewrite (array_get_none ls (l - 1)) by lia. simpl. lia.
Qed.

(** A witness for [computeColumn_spec]: offset 5 of a file of three
    lines. *)
Lemma computeColumn_spec_witness :
  exists l c,
    fst (SourceFile.computeLine 5
           (SourceFile.new (str "ab" ++ [10] ++ str "cd" ++ [10] ++ str "ef") None))
    = Returned l
    /\ fst (SourceFile.computeColumn 5
              (SourceFile.new (str "ab" ++ [10] ++ str "cd" ++ [10] ++ str "ef") None))
       = Returned c
    /\ (l >= 1 ->
        exists start,
          array_get
            (SourceFile.lineStartsOf
               (SourceFile.contents
                  (SourceFile.new (str "ab" ++ [10] ++ str "cd" ++ [10] ++ str "ef") None)))
            (l - 1)
          = Some start
          /\ c = 5 - start)
    /\ (l < 1 -> c = 5).
Proof.
  apply (computeColumn_spec
           (SourceFile.new (str "ab" ++ [10] ++ str "cd" ++ [10] ++ str "ef") None) 5).
  - left. reflexivity.
  - vm_compute. split; discriminate.
Defined.

(** *** The table is increasing, and the search counts *)

Lemma indices_sorted (a n : nat) :
  StronglySorted Z.lt (map Z.of_nat (seq a n)).
Proof.
  revert a. induction n as [|n IH]; intros a; simpl; constructor.
  - apply IH.
  - apply Forall_forall. intros z Hz.
    apply in_map_iff in Hz. destruct Hz as [k [<- Hk]].
    apply in_seq in Hk. lia.
Qed.

Lemma sorted_filter (p : Z -> bool) (l : list Z) :
  StronglySorted Z.lt l -> StronglySorted Z.lt (filter p l).
Proof.
  induction 1 as [|a l Hl IH Ha]; simpl; [constructor|].
  destruct (p a); [|exact IH].
  constructor; [exact IH|].
  apply Forall_forall. intros z Hz. apply filter_In in Hz.
  rewrite Forall_forall in Ha. now apply Ha.
Qed.

Lemma sorted_succ (l : list Z) :
  StronglySorted Z.lt l -> StronglySorted Z.lt (map (fun i => i + 1) l).
Proof.
  induction 1 as [|a l Hl IH Ha]; simpl; constructor; [exact IH|].
  apply Forall_forall. intros z Hz.
  apply in_map_iff in Hz. destruct Hz as [k [<- Hk]].
  rewrite Forall_forall in Ha. specialize (Ha k Hk). lia.
Qed.

Lemma lineStartsOf_sorted (s : jsstring) :
  StronglySorted Z.lt (SourceFile.lineStartsOf s).
Proof.
  rewrite lineStartsOf_terminators. apply sorted_succ.
  unfold terminators. apply sorted_filter. apply indices_sorted.
Qed.

Lemma sorted_nth (l : list Z) (i j : nat) :
  StronglySorted Z.lt l -> (i < j < List.length l)%nat ->
  nth i l 0 < nth j l 0.
Proof.
  intros Hs. revert i j.
  induction Hs as [|a l Hl IH Ha]; intros i j Hij; simpl in *; [lia|].
  destruct j as [|j]; [lia|].
  destruct i as [|i].
  - rewrite Forall_forall in Ha. apply Ha. apply nth_In. lia.
  - apply IH. lia.
Qed.

Lemma array_get_nth (l : list Z) (i : Z) :
  0 <= i < strlen l -> array_get l i = Some (nth (Z.to_nat i) l 0).
Proof.
  intros H. unfold array_get, strlen in *.
  destruct (Z.ltb_spec i 0); [lia|].
  apply nth_error_nth'. lia.
Qed.

Lemma sorted_nth_le (l : list Z) (i j : Z) :
  StronglySorted Z.lt l -> 0 <= i -> i <= j -> j < strlen l ->
  nth (Z.to_nat i) l 0 <= nth (Z.to_nat j) l 0.
Proof.
  intros Hs Hi Hij Hj. unfold strlen in Hj.
  destruct (Z.eq_dec i j) as [->|Hne]; [lia|].
  pose proof (sorted_nth l (Z.to_nat i) (Z.to_nat j) Hs). lia.
Qed.

(** The search returns the first index whose entry is beyond [o]. *)
Lemma binarySearchLoop_spec (fuel : nat) (ls : list Z) (o lo hi : Z) :
  StronglySorted Z.lt ls ->
  0 <= lo <= hi -> hi < strlen ls -> hi - lo <= Z.of_nat fuel ->
  (forall i, 0 <= i < lo -> nth (Z.to_nat i) ls 0 <= o) ->
  (forall i, hi <= i < strlen ls -> o < nth (Z.to_nat i) ls 0) ->
  let r := SourceFile.binarySearchLoop fuel ls o lo hi in
  0 <= r < strlen ls
  /\ (forall i, 0 <= i < r -> nth (Z.to_nat i) ls 0 <= o)
  /\ (forall i, r <= i < strlen ls -> o < nth (Z.to_nat i) ls 0).
Proof.
  intros Hs. revert lo hi.
  induction fuel as [|fuel IH]; intros lo hi Hlo Hhi Hfuel Hbelow Habove; simpl.
  - assert (lo = hi) by lia. subst lo. repeat split; auto; lia.
  - destruct (Z.ltb_spec lo hi) as [Hlt|Hge].
    2:{ assert (lo = hi) by lia. subst lo. repeat split; auto; lia. }
    assert (Hhalf : lo <= lo + (hi - lo) / 2 < hi).
    { pose proof (Z.div_pos (hi - lo) 2).
      pose proof (Z.div_lt_upper_bound (hi - lo) 2 (hi - lo)). lia. }
    set (half := lo + (hi - lo) / 2) in *.
    rewrite (array_get_nth ls half) by lia. simpl.
    destruct (Z.gtb_spec (nth (Z.to_nat half) ls 0) o) as [Hgt|Hle].
    + apply IH; try lia; auto.
      intros i Hi.
      pose proof (sorted_nth_le ls half i Hs). lia.
    + apply IH; try lia; auto.
      intros i Hi.
      pose proof (sorted_nth_le ls i half Hs). lia.
Qed.

Lemma filter_le_prefix (ls : list Z) (r : nat) (o : Z) :
  (r <= List.length ls)%nat ->
  (forall i, (i < r)%nat -> nth i ls 0 <= o) ->
  (forall i, (r <= i < List.length ls)%nat -> o < nth i ls 0) ->
  List.length (filter (fun e => e <=? o) ls) = r.
Proof.
  revert r. induction ls as [|a ls IH]; intros r Hr Hbelow Habove; simpl in *.
  - lia.
  - destruct r as [|r].
    + pose proof (Habove O ltac:(lia)) as H0. simpl in H0.
      destruct (Z.leb_spec a o); [lia|].
      apply IH; [lia | intros; lia |].
      intros i Hi. apply (Habove (S i)). lia.
    + pose proof (Hbelow O ltac:(lia)) as H0. simpl in H0.
      destruct (Z.leb_spec a o); [|lia].
      simpl. f_equal. apply IH; [lia | |].
      * intros i Hi. apply (Hbelow (S i)). lia.
      * intros i Hi. apply (Habove (S i)). lia.
Qed.

Lemma entriesUpTo_index (ls : list Z) (r o : Z) :
  0 <= r <= strlen ls ->
  (forall i, 0 <= i < r -> nth (Z.to_nat i) ls 0 <= o) ->
  (forall i, r <= i < strlen ls -> o < nth (Z.to_nat i) ls 0) ->
  entriesUpTo ls o = r.
Proof.
  intros Hr Hbelow Habove. unfold entriesUpTo, strlen in *.
  rewrite (filter_le_prefix ls (Z.to_nat r) o); try lia.
  - intros i Hi. specialize (Hbelow (Z.of_nat i)).
    rewrite Nat2Z.id in Hbelow. apply Hbelow. lia.
  - intros i Hi. specialize (Habove (Z.of_nat i)).
    rewrite Nat2Z.id in Habove. apply Habove. lia.
Qed.

(** [computeLine] on every file and valid offset: the number of entries
    that are at most the offset when the table has entries, and -1 when
    it has none. *)
Lemma computeLine_run (f : SourceFile.t) (o : Z) :
  cacheValid f -> 0 <= o <= SourceFile.length f ->
  fst (SourceFile.computeLine o f)
  = Returned
      (match SourceFile.lineStartsOf (SourceFile.contents f) with
       | [] => -1
       | ls => entriesUpTo ls o
       end).
Proof.
  intros Hv Ho. rewrite computeLine_unfold by assumption. simpl fst.
  pose proof (lineStartsOf_sorted (SourceFile.contents f)) as Hs.
  remember (SourceFile.lineStartsOf (SourceFile.contents f)) as ls eqn:Els.
  clear Els. cbv zeta.
  destruct ls as [|e ls']; [reflexivity|].
  remember (e :: ls') as ls eqn:Els.
  assert (Hlen : 1 <= strlen ls).
  { subst ls. unfold strlen. simpl. lia. }
  replace (match ls with [] => -1 | _ :: _ => entriesUpTo ls o end)
    with (entriesUpTo ls o) by (subst ls; reflexivity).
  clear Els e ls'.
  rewrite (array_get_nth ls 0), (array_get_nth ls (strlen ls - 1)) by lia.
  unfold js_lt, js_ge. change (Z.to_nat 0) with O.
  destruct (Z.ltb_spec o (nth 0 ls 0)) as [Hfirst|Hfirst].
  { f_equal. symmetry. apply entriesUpTo_index; [lia | intros; lia |].
    intros i Hi. pose proof (sorted_nth_le ls 0 i Hs) as Hmono.
    change (Z.to_nat 0) with O in Hmono. lia. }
  destruct (Z.geb_spec o (nth (Z.to_nat (strlen ls - 1)) ls 0)) as [Hlast|Hlast].
  { f_equal. symmetry. apply entriesUpTo_index; [lia | | intros; lia].
    intros i Hi. pose proof (sorted_nth_le ls i (strlen ls - 1) Hs). lia. }
  f_equal. symmetry.
  destruct (binarySearchLoop_spec (Z.to_nat (strlen ls - 1 - 0)) ls o 0
              (strlen ls - 1) Hs) as (Hr & Hbelow & Habove); try lia.
  { intros i Hi. replace i with (strlen ls - 1) by lia. lia. }
  apply entriesUpTo_index; [lia | exact Hbelow | exact Habove].
Qed.

(** C3.  On a file without a line terminator the table is empty, neither
    comparison of [computeLine] holds and the search, entered with
    [max = -1], returns it: [computeLine(0)] of the file [abc] is -1, not
    the number 0 of entries that are at most the offset. *)
Theorem computeLine_without_terminator :
  fst (SourceFile.computeLine 0 (SourceFile.new (str "abc") None))
  = Returned (-1)
  /\ entriesUpTo (SourceFile.lineStartsOf (str "abc")) 0 = 0.
Proof. split; reflexivity. Qed.

(** ** The scanner moves forward, inside its input *)

Lemma array_get_some_inv {A : Type} (a : list A) (i : Z) (v : A) :
  array_get a i = Some v -> 0 <= i < Z.of_nat (List.length a).
Proof.
  unfold array_get. destruct (Z.ltb_spec i 0) as [Hneg|Hpos]; [discriminate|].
  intros Hget. assert (Hn : nth_error a (Z.to_nat i) <> None) by congruence.
  apply nth_error_Some in Hn. lia.
Qed.

Lemma advanced_refl (sc : StringScanner.t) : inside sc -> advanced sc sc.
Proof. unfold inside, advanced. intros. split; [reflexivity | lia]. Qed.

Lemma advanced_length (sc sc' : StringScanner.t) :
  advanced sc sc' -> StringScanner.length sc' = StringScanner.length sc.
Proof. intros [Hs _]. unfold StringScanner.length. now rewrite Hs. Qed.

Lemma advanced_inside (sc sc' : StringScanner.t) :
  inside sc -> advanced sc sc' -> inside sc'.
Proof.
  intros Hi Ha. pose proof (advanced_length _ _ Ha) as Hl.
  destruct Ha as [_ Ha]. unfold inside in *. lia.
Qed.

Lemma advanced_trans (a b c : StringScanner.t) :
  advanced a b -> advanced b c -> advanced a c.
Proof.
  intros Hab Hbc. pose proof (advanced_length _ _ Hab) as Hl.
  destruct Hab as [Hs1 H1], Hbc as [Hs2 H2].
  split; [congruence | lia].
Qed.

Lemma peek_inside (sc : StringScanner.t) (c : Z) :
  StringScanner.peek sc 0 = Some c ->
  StringScanner.mPosition sc < StringScanner.length sc.
Proof.
  unfold StringScanner.peek, charCodeAt, StringScanner.position.
  intros H. apply array_get_some_inv in H.
  unfold StringScanner.length, SourceFile.length, strlen. lia.
Qed.

Lemma match_cases (pattern : Z) (sc : StringScanner.t) :
  (StringScanner.match_ pattern sc = (false, sc)
   /\ code_is (StringScanner.peek sc 0) pattern = false)
  \/ (StringScanner.match_ pattern sc
      = (true, StringScanner.mk (StringScanner.source sc)
                 (StringScanner.mPosition sc + 1))
      /\ StringScanner.peek sc 0 = Some pattern).
Proof.
  unfold StringScanner.match_.
  destruct (StringScanner.peek sc 0) as [c|] eqn:Ep; simpl; [|now left].
  destruct (Z.eqb_spec c pattern) as [->|Hne]; [now right | now left].
Qed.

Lemma match_advanced (pattern : Z) (sc : StringScanner.t) :
  inside sc -> advanced sc (snd (StringScanner.match_ pattern sc)).
Proof.
  intros Hi.
  destruct (match_cases pattern sc) as [[-> _] | [-> Hp]]; simpl.
  - now apply advanced_refl.
  - apply peek_inside in Hp. unfold inside, advanced in *. simpl. split; [reflexivity | lia].
Qed.

Lemma hasNext_true (sc : StringScanner.t) :
  StringScanner.hasNext sc = true <->
  StringScanner.mPosition sc < StringScanner.length sc.
Proof. unfold StringScanner.hasNext, StringScanner.position. apply Z.ltb_lt. Qed.

Lemma hasNext_false (sc : StringScanner.t) :
  StringScanner.hasNext sc = false <->
  StringScanner.length sc <= StringScanner.mPosition sc.
Proof. unfold StringScanner.hasNext, StringScanner.position. apply Z.ltb_ge. Qed.

Lemma advance_advanced (sc : StringScanner.t) :
  inside sc -> StringScanner.hasNext sc = true ->
  advanced sc (stepped sc).
Proof.
  intros Hi Hn. apply hasNext_true in Hn.
  unfold inside, advanced in *. simpl. split; [reflexivity | lia].
Qed.

Lemma scanPredicateSteps_advanced (predicate : Z -> bool) (fuel : nat)
  (sc : StringScanner.t) :
  inside sc -> advanced sc (scanPredicateSteps predicate fuel sc).
Proof.
  revert sc. induction fuel as [|fuel IH]; intros sc Hi; simpl.
  - now apply advanced_refl.
  - destruct (StringScanner.hasNext sc) eqn:Hn; [|now apply advanced_refl].
    destruct (negb _); [now apply advanced_refl|].
    pose proof (advance_advanced sc Hi Hn) as Ha.
    eapply advanced_trans; [exact Ha|].
    apply IH. eapply advanced_inside; eassumption.
Qed.

Lemma advanceToEOLSteps_advanced (fuel : nat) (sc : StringScanner.t) :
  inside sc -> advanced sc (advanceToEOLSteps fuel sc).
Proof.
  revert sc. induction fuel as [|fuel IH]; intros sc Hi; simpl.
  - now apply advanced_refl.
  - destruct (StringScanner.hasNext sc) eqn:Hn; [|now apply advanced_refl].
    pose proof (match_advanced Characters.LF sc Hi) as Hlf.
    destruct (match_cases Characters.LF sc) as [[Elf _] | [Elf _]];
      rewrite Elf in *; simpl in Hlf; [|exact Hlf].
    pose proof (match_advanced Characters.CR sc Hi) as Hcr.
    destruct (match_cases Characters.CR sc) as [[Ecr _] | [Ecr _]];
      rewrite Ecr in *; simpl in Hcr.
    + pose proof (advance_advanced sc Hi Hn) as Ha.
      eapply advanced_trans; [exact Ha|].
      apply IH. eapply advanced_inside; eassumption.
    + eapply advanced_trans; [exact Hcr|].
      apply match_advanced. eapply advanced_inside; eassumption.
Qed.

Lemma scanStringSteps_advanced (fuel : nat) (sc : StringScanner.t) :
  inside sc -> advanced sc (snd (scanStringSteps fuel sc)).
Proof.
  revert sc. induction fuel as [|fuel IH]; intros sc Hi; simpl.
  - now apply advanced_refl.
  - destruct (StringScanner.hasNext sc) eqn:Hn; [|now apply advanced_refl].
    pose proof (match_advanced Characters.SQUOTE sc Hi) as Hq.
    destruct (match_cases Characters.SQUOTE sc) as [[Eq _] | [Eq _]];
      rewrite Eq in *; simpl in Hq; [|exact Hq].
    pose proof (advance_advanced sc Hi Hn) as Ha.
    eapply advanced_trans; [exact Ha|].
    apply IH. eapply advanced_inside; eassumption.
Qed.

Lemma scanNumberSteps_advanced (fuel : nat) (sc : StringScanner.t) :
  inside sc -> advanced sc (scanNumberSteps fuel sc).
Proof.
  revert sc. induction fuel as [|fuel IH]; intros sc Hi; simpl.
  - now apply advanced_refl.
  - destruct (StringScanner.hasNext sc) eqn:Hn; [|now apply advanced_refl].
    pose proof (match_advanced Characters.PERIOD sc Hi) as Hp.
    destruct (match_cases Characters.PERIOD sc) as [[Ep _] | [Ep _]];
      rewrite Ep in *; simpl in Hp; [|exact Hp].
    destruct (negb _); [now apply advanced_refl|].
    pose proof (advance_advanced sc Hi Hn) as Ha.
    eapply advanced_trans; [exact Ha|].
    apply IH. eapply advanced_inside; eassumption.
Qed.

(** ** The loops from a position inside the input *)

(** Where [hasNext()] holds, [advance()] returns the code at the
    position and leaves the position one further. *)
Lemma advance_run (sc : StringScanner.t) :
  inside sc -> StringScanner.hasNext sc = true ->
  StringScanner.advance sc
  = (Returned
       (charCodeAt (SourceFile.contents (StringScanner.source sc))
          (StringScanner.mPosition sc)),
     stepped sc).
Proof.
  intros [Hi _] Hn. apply hasNext_true in Hn.
  unfold StringScanner.advance, StringScanner.setPosition, bind, ret,
    StringScanner.position, StringScanner.length in *.
  cbn [StringScanner.source StringScanner.mPosition].
  rewrite Z.gtb_ltb.
  destruct (Z.ltb_spec (StringScanner.mPosition sc + 1) 0); [lia|].
  destruct (Z.ltb_spec (SourceFile.length (StringScanner.source sc))
              (StringScanner.mPosition sc + 1)); [lia|].
  reflexivity.
Qed.

(** When [advance()] returns, it does so with the code at the position,
    and the position one further. *)
Lemma advance_returned (sc sc' : StringScanner.t) (c : option Z) :
  StringScanner.advance sc = (Returned c, sc') ->
  c = charCodeAt (SourceFile.contents (StringScanner.source sc))
        (StringScanner.mPosition sc)
  /\ sc' = stepped sc.
Proof.
  unfold StringScanner.advance, StringScanner.setPosition, bind, ret,
    StringScanner.position.
  destruct (_ || _); [discriminate|]. intros [= <- <-]. split; reflexivity.
Qed.

(** At the end of the input [advance()] throws, and leaves the position
    as it was. *)
Lemma advance_at_end (sc : StringScanner.t) :
  StringScanner.hasNext sc = false ->
  exists m, StringScanner.advance sc = (Thrown (RangeError m), sc).
Proof.
  intros Hn. apply hasNext_false in Hn.
  unfold StringScanner.advance, StringScanner.setPosition, bind, ret,
    StringScanner.position.
  replace (_ || _) with true; [eexists; reflexivity|].
  symmetry. apply orb_true_iff. right. rewrite Z.gtb_ltb. apply Z.ltb_lt.
  lia.
Qed.

Lemma stepped_inside (sc : StringScanner.t) :
  inside sc -> StringScanner.hasNext sc = true -> inside (stepped sc).
Proof.
  intros Hi Hn. eapply advanced_inside; [exact Hi|].
  now apply advance_advanced.
Qed.

Lemma scanPredicateLoop_steps (predicate : Z -> bool) (fuel : nat)
  (sc : StringScanner.t) :
  inside sc ->
  ClutchLexer.scanPredicateLoop predicate fuel sc
  = (Returned tt, scanPredicateSteps predicate fuel sc).
Proof.
  revert sc. induction fuel as [|fuel IH]; intros sc Hi; simpl;
    [reflexivity|].
  destruct (StringScanner.hasNext sc) eqn:Hn; [|reflexivity].
  destruct (negb _); [reflexivity|].
  unfold bind. rewrite (advance_run sc Hi Hn).
  apply IH. now apply stepped_inside.
Qed.

Lemma advanceToEOLLoop_steps (fuel : nat) (sc : StringScanner.t) :
  inside sc ->
  ClutchLexer.advanceToEOLLoop fuel sc
  = (Returned tt, advanceToEOLSteps fuel sc).
Proof.
  revert sc. induction fuel as [|fuel IH]; intros sc Hi; simpl;
    [reflexivity|].
  destruct (StringScanner.hasNext sc) eqn:Hn; [|reflexivity].
  destruct (match_cases Characters.LF sc) as [[Elf _] | [Elf _]];
    rewrite Elf; [|reflexivity].
  destruct (match_cases Characters.CR sc) as [[Ecr _] | [Ecr _]];
    rewrite Ecr; [|reflexivity].
  unfold bind. rewrite (advance_run sc Hi Hn).
  apply IH. now apply stepped_inside.
Qed.

Lemma scanStringLoop_steps (fuel : nat) (sc : StringScanner.t) :
  inside sc ->
  ClutchLexer.scanStringLoop fuel sc
  = (Returned (fst (scanStringSteps fuel sc)), snd (scanStringSteps fuel sc)).
Proof.
  revert sc. induction fuel as [|fuel IH]; intros sc Hi; simpl;
    [reflexivity|].
  destruct (StringScanner.hasNext sc) eqn:Hn; [|reflexivity].
  destruct (match_cases Characters.SQUOTE sc) as [[Eq _] | [Eq _]];
    rewrite Eq; [|reflexivity].
  unfold bind. rewrite (advance_run sc Hi Hn).
  apply IH. now apply stepped_inside.
Qed.

Lemma scanNumberLoop_steps (fuel : nat) (sc : StringScanner.t) :
  inside sc ->
  ClutchLexer.scanNumberLoop fuel sc
  = (Returned tt, scanNumberSteps fuel sc).
Proof.
  revert sc. induction fuel as [|fuel IH]; intros sc Hi; simpl;
    [reflexivity|].
  destruct (StringScanner.hasNext sc) eqn:Hn; [|reflexivity].
  destruct (match_cases Characters.PERIOD sc) as [[Ep _] | [Ep _]];
    rewrite Ep; [|reflexivity].
  destruct (negb _); [reflexivity|].
  unfold bind. rewrite (advance_run sc Hi Hn).
  apply IH. now apply stepped_inside.
Qed.

(** A loop over the scanner from a state whose cursor is inside the
    input. *)
Lemma programLoop_steps (loop : nat -> M StringScanner.t unit)
  (steps : nat -> StringScanner.t -> StringScanner.t) (st : ClutchLexer.t) :
  (forall fuel sc, inside sc -> loop fuel sc = (Returned tt, steps fuel sc)) ->
  inside (ClutchLexer.program st) ->
  ClutchLexer.programLoop loop st
  = (Returned tt,
     ClutchLexer.setProgram
       (steps (StringScanner.remaining (ClutchLexer.program st))
          (ClutchLexer.program st))
       st).
Proof.
  intros Hl Hi. unfold ClutchLexer.programLoop, ClutchLexer.onScanner.
  now rewrite Hl.
Qed.

Lemma scanPredicate_steps (predicate : Z -> bool) (st : ClutchLexer.t) :
  inside (ClutchLexer.program st) ->
  ClutchLexer.scanPredicate predicate st
  = (Returned tt,
     ClutchLexer.setProgram
       (scanPredicateSteps predicate
          (StringScanner.remaining (ClutchLexer.program st))
          (ClutchLexer.program st))
       st).
Proof.
  intros Hi. unfold ClutchLexer.scanPredicate.
  apply programLoop_steps; [apply scanPredicateLoop_steps | exact Hi].
Qed.

Lemma advanceToEOL_steps (st : ClutchLexer.t) :
  inside (ClutchLexer.program st) ->
  ClutchLexer.advanceToEOL st
  = (Returned tt,
     ClutchLexer.setProgram
       (advanceToEOLSteps
          (StringScanner.remaining (ClutchLexer.program st))
          (ClutchLexer.program st))
       st).
Proof.
  intros Hi. unfold ClutchLexer.advanceToEOL.
  apply programLoop_steps; [apply advanceToEOLLoop_steps | exact Hi].
Qed.

Lemma scanNumber_steps (st : ClutchLexer.t) :
  inside (ClutchLexer.program st) ->
  ClutchLexer.programLoop ClutchLexer.scanNumberLoop st
  = (Returned tt,
     ClutchLexer.setProgram
       (scanNumberSteps
          (StringScanner.remaining (ClutchLexer.program st))
          (ClutchLexer.program st))
       st).
Proof.
  intros Hi.
  apply programLoop_steps; [apply scanNumberLoop_steps | exact Hi].
Qed.

Lemma scanString_steps (st : ClutchLexer.t) :
  inside (ClutchLexer.program st) ->
  ClutchLexer.onScanner
    (fun sc => ClutchLexer.scanStringLoop (StringScanner.remaining sc) sc) st
  = (Returned
       (fst (scanStringSteps
               (StringScanner.remaining (ClutchLexer.program st))
               (ClutchLexer.program st))),
     ClutchLexer.setProgram
       (snd (scanStringSteps
               (StringScanner.remaining (ClutchLexer.program st))
               (ClutchLexer.program st)))
       st).
Proof.
  intros Hi. unfold ClutchLexer.onScanner.
  now rewrite scanStringLoop_steps.
Qed.

(** ** Computations that only move the scanner *)

Lemma advancing_ret {A : Type} (a : A) : advancing (ret a).
Proof.
  intros st Hi. exists a, (ClutchLexer.program st). split.
  - destruct st; reflexivity.
  - now apply advanced_refl.
Qed.

Lemma advancing_bind {A B : Type} (m : ClutchLexer.L A)
  (f : A -> ClutchLexer.L B) :
  advancing m -> (forall a, advancing (f a)) -> advancing (bind m f).
Proof.
  intros Hm Hf st Hi.
  destruct (Hm st Hi) as (a & sc & Em & Ha).
  destruct (Hf a (ClutchLexer.setProgram sc st)) as (b & sc' & Ef & Hb).
  { simpl. eapply advanced_inside; eassumption. }
  exists b, sc'. unfold bind. rewrite Em, Ef. split; [reflexivity|].
  simpl in Hb. eapply advanced_trans; eassumption.
Qed.

Lemma advancing_match (pattern : Z) :
  advancing (ClutchLexer.programMatch pattern).
Proof.
  intros st Hi. unfold ClutchLexer.programMatch, ClutchLexer.onProgram.
  pose proof (match_advanced pattern _ Hi) as Ha.
  destruct (StringScanner.match_ pattern (ClutchLexer.program st)) as [b sc].
  exists b, sc. split; [reflexivity | exact Ha].
Qed.

Lemma advancing_loop (loop : nat -> M StringScanner.t unit)
  (steps : nat -> StringScanner.t -> StringScanner.t) :
  (forall fuel sc, inside sc -> loop fuel sc = (Returned tt, steps fuel sc)) ->
  (forall fuel sc, inside sc -> advanced sc (steps fuel sc)) ->
  advancing (ClutchLexer.programLoop loop).
Proof.
  intros Hl Hs st Hi. rewrite (programLoop_steps loop steps st Hl Hi).
  eexists. eexists. split; [reflexivity|]. now apply Hs.
Qed.

Lemma advancing_scanPredicate (predicate : Z -> bool) :
  advancing (ClutchLexer.scanPredicate predicate).
Proof.
  apply (advancing_loop _ (scanPredicateSteps predicate)).
  - apply scanPredicateLoop_steps.
  - apply scanPredicateSteps_advanced.
Qed.

Lemma advancing_scanString :
  advancing
    (ClutchLexer.onScanner
       (fun sc => ClutchLexer.scanStringLoop (StringScanner.remaining sc) sc)).
Proof.
  intros st Hi. rewrite (scanString_steps st Hi).
  eexists. eexists. split; [reflexivity|].
  now apply scanStringSteps_advanced.
Qed.

Lemma advancing_if {A : Type} (b : bool) (m1 m2 : ClutchLexer.L A) :
  advancing m1 -> advancing m2 -> advancing (if b then m1 else m2).
Proof. destruct b; auto. Qed.

(** ** Tokens made by the lexer *)

Lemma reading_anchored (st : ClutchLexer.t) : reading st -> anchored st.
Proof. unfold reading, anchored. lia. Qed.

Lemma anchored_inside (st : ClutchLexer.t) :
  anchored st -> inside (ClutchLexer.program st).
Proof.
  unfold anchored, inside, cursor, inputOf, StringScanner.length,
    SourceFile.length. lia.
Qed.

Lemma advanced_input (st : ClutchLexer.t) (sc : StringScanner.t) :
  advanced (ClutchLexer.program st) sc ->
  inputOf (ClutchLexer.setProgram sc st) = inputOf st.
Proof. intros [Hs _]. unfold inputOf. simpl. now rewrite Hs. Qed.

Lemma reading_advanced (st : ClutchLexer.t) (sc : StringScanner.t) :
  reading st -> advanced (ClutchLexer.program st) sc ->
  reading (ClutchLexer.setProgram sc st).
Proof.
  intros Hr Ha. pose proof (advanced_input st sc Ha) as Hin.
  destruct Ha as [Hs Ha]. unfold reading, cursor in *. rewrite Hin. simpl.
  unfold StringScanner.length, SourceFile.length, inputOf in *. lia.
Qed.

(** A token made after the scanner moved on is a token made from the
    state before. *)
Lemma tokenPost_advanced (onError : ErrorReporter) (st : ClutchLexer.t)
  (sc : StringScanner.t) (r : outcome Token.t * ClutchLexer.t) :
  advanced (ClutchLexer.program st) sc ->
  tokenPost onError (ClutchLexer.setProgram sc st) r ->
  tokenPost onError st r.
Proof.
  intros Ha. destruct r as [[tok|e] st']; simpl; [|auto].
  unfold tokenFrom. rewrite (advanced_input st sc Ha). simpl.
  intros (H1 & H2 & H3 & H4 & H5 & H6 & H7).
  repeat split; try assumption; try lia.
  - destruct H1 as [H1 _], Ha as [Ha _]. congruence.
  - destruct H1 as [_ H1], Ha as [_ Ha]. lia.
  - pose proof (advanced_length _ _ Ha). destruct H1 as [_ H1], Ha as [_ Ha]. lia.
Qed.

Lemma skipFrom_advanced (st : ClutchLexer.t) (sc : StringScanner.t)
  (st' : ClutchLexer.t) :
  advanced (ClutchLexer.program st) sc ->
  skipFrom (ClutchLexer.setProgram sc st) st' -> skipFrom st st'.
Proof.
  intros Ha. unfold skipFrom. simpl.
  intros (H1 & H2 & H3).
  split; [eapply advanced_trans; eassumption|]. split; [exact H2|].
  destruct H3 as [H3 | (c & Hc1 & Hc2 & Hc3)]; [now left|].
  right. exists c. repeat split; try assumption; try lia.
  unfold cursor in *. simpl in Hc3. destruct Ha as [_ Ha]. lia.
Qed.

Lemma stepPost_advanced (onError : ErrorReporter) (st : ClutchLexer.t)
  (sc : StringScanner.t) (r : outcome (option Token.t) * ClutchLexer.t) :
  advanced (ClutchLexer.program st) sc ->
  stepPost onError (ClutchLexer.setProgram sc st) r ->
  stepPost onError st r.
Proof.
  intros Ha. destruct r as [[[tok|]|e] st']; simpl; [| |auto].
  - apply (tokenPost_advanced onError st sc (Returned tok, st') Ha).
  - now apply skipFrom_advanced.
Qed.

(** A computation that moves the scanner, then one that makes a token. *)
Lemma tokenPost_bind {A : Type} (onError : ErrorReporter)
  (m : ClutchLexer.L A) (f : A -> ClutchLexer.L Token.t) (st : ClutchLexer.t) :
  advancing m -> reading st ->
  (forall a st1, reading st1 -> tokenPost onError st1 (f a st1)) ->
  tokenPost onError st (bind m f st).
Proof.
  intros Hm Hr Hf.
  destruct (Hm st (anchored_inside st (reading_anchored st Hr)))
    as (a & sc & Em & Ha).
  unfold bind. rewrite Em.
  apply (tokenPost_advanced onError st sc _ Ha).
  apply Hf. now apply reading_advanced.
Qed.

Lemma stepPost_bind {A : Type} (onError : ErrorReporter)
  (m : ClutchLexer.L A) (f : A -> ClutchLexer.L (option Token.t))
  (st : ClutchLexer.t) :
  advancing m -> reading st ->
  (forall a st1, reading st1 -> stepPost onError st1 (f a st1)) ->
  stepPost onError st (bind m f st).
Proof.
  intros Hm Hr Hf.
  destruct (Hm st (anchored_inside st (reading_anchored st Hr)))
    as (a & sc & Em & Ha).
  unfold bind. rewrite Em.
  apply (stepPost_advanced onError st sc _ Ha).
  apply Hf. now apply reading_advanced.
Qed.

Lemma stepPost_emit (onError : ErrorReporter) (m : ClutchLexer.L Token.t)
  (st : ClutchLexer.t) :
  tokenPost onError st (m st) -> stepPost onError st (ClutchLexer.emit m st).
Proof.
  unfold ClutchLexer.emit, bind, ret.
  destruct (m st) as [[tok|e] st']; simpl; auto.
Qed.

(** [createToken(kind)]: the token is the text from the anchor to the
    cursor, at the offset of the anchor, with the buffered comments. *)
Lemma createToken_run (kind : TokenKind) (st : ClutchLexer.t) :
  ClutchLexer.createToken kind None st
  = (Returned
       (Token.mk kind
          (js_substring (inputOf st) (ClutchLexer.position st) (cursor st))
          (ClutchLexer.lastComments st)
          (cursor st
           - strlen (js_substring (inputOf st) (ClutchLexer.position st) (cursor st)))),
     ClutchLexer.mk (ClutchLexer.program st) (cursor st) []
       (ClutchLexer.buffered st) (ClutchLexer.reported st)).
Proof. reflexivity. Qed.

Lemma createToken_post (onError : ErrorReporter) (kind : TokenKind)
  (st : ClutchLexer.t) :
  anchored st -> tokenPost onError st (ClutchLexer.createToken kind None st).
Proof.
  intros Ha. rewrite createToken_run. simpl.
  pose proof (anchored_inside st Ha) as Hi.
  destruct Ha as [Ha1 Ha2].
  unfold tokenFrom, sliceOf. simpl.
  rewrite js_substring_length by lia.
  repeat split; try reflexivity; try lia.
  - now apply advanced_refl.
  - intros _. f_equal; lia.
Qed.

Ltac solve_advancing :=
  lazymatch goal with
  | |- advancing (bind _ _) =>
      apply advancing_bind;
      [ solve_advancing
      | let b := fresh "b" in intros b; try destruct b; solve_advancing ]
  | |- advancing (ret _) => apply advancing_ret
  | |- advancing (ClutchLexer.programMatch _) => apply advancing_match
  | |- advancing (ClutchLexer.scanPredicate _) => apply advancing_scanPredicate
  | |- advancing (ClutchLexer.advanceToEOL) =>
      apply (advancing_loop _ advanceToEOLSteps);
      [apply advanceToEOLLoop_steps | apply advanceToEOLSteps_advanced]
  | |- advancing (ClutchLexer.programLoop ClutchLexer.scanNumberLoop) =>
      apply (advancing_loop _ scanNumberSteps);
      [apply scanNumberLoop_steps | apply scanNumberSteps_advanced]
  | |- advancing (if ?c then _ else _) => destruct c; solve_advancing
  end.

Lemma scanDigits_post (onError : ErrorReporter) (st : ClutchLexer.t) :
  reading st -> tokenPost onError st (ClutchLexer.scanDigits st).
Proof.
  intros Hr. unfold ClutchLexer.scanDigits.
  apply tokenPost_bind; [solve_advancing | exact Hr |].
  intros _ st1 Hr1. apply createToken_post. now apply reading_anchored.
Qed.

Lemma scanHexNumber_post (onError : ErrorReporter) (st : ClutchLexer.t) :
  reading st -> tokenPost onError st (ClutchLexer.scanHexNumber st).
Proof.
  intros Hr. unfold ClutchLexer.scanHexNumber.
  apply tokenPost_bind; [solve_advancing | exact Hr |].
  intros _ st1 Hr1. apply createToken_post. now apply reading_anchored.
Qed.

Lemma scanNumber_post (onError : ErrorReporter) (starting : option Z)
  (st : ClutchLexer.t) :
  reading st -> tokenPost onError st (ClutchLexer.scanNumber starting st).
Proof.
  intros Hr. unfold ClutchLexer.scanNumber.
  apply tokenPost_bind; [solve_advancing | exact Hr |].
  intros hex st1 Hr1. destruct hex; [now apply scanHexNumber_post|].
  apply tokenPost_bind; [solve_advancing | exact Hr1 |].
  intros exponent st2 Hr2. destruct exponent; [now apply scanDigits_post|].
  apply tokenPost_bind; [solve_advancing | exact Hr2 |].
  intros _ st3 Hr3. now apply scanDigits_post.
Qed.

Lemma scanIdentifierOrKeyword_post (onError : ErrorReporter)
  (st : ClutchLexer.t) :
  reading st -> tokenPost onError st (ClutchLexer.scanIdentifierOrKeyword st).
Proof.
  intros Hr. unfold ClutchLexer.scanIdentifierOrKeyword.
  apply tokenPost_bind; [solve_advancing | exact Hr |].
  intros _ st1 Hr1.
  change (tokenPost onError st1
            (ClutchLexer.createToken
               (keywordOrIdentifier
                  (js_substring (inputOf st1) (ClutchLexer.position st1) (cursor st1)))
               None st1)).
  apply createToken_post. now apply reading_anchored.
Qed.

Lemma js_substring_length_le (s : jsstring) (a b : Z) :
  strlen (js_substring s a b) <= strlen s.
Proof.
  unfold js_substring, strlen. rewrite length_firstn, length_skipn. lia.
Qed.

(** [reportError(error)] inside [scanToken]: the span exists, and the
    call returns or throws as the reporter does. *)
Lemma reportError_run (onError : ErrorReporter) (error : jsstring)
  (st : ClutchLexer.t) :
  reading st ->
  ClutchLexer.reportError onError error None st
  = match onError (ClutchLexer.reported st) (errorSpan st) error with
    | Returned _ => (Returned tt, withReport st error)
    | Thrown e => (Thrown e, withReport st error)
    end.
Proof.
  intros [Hr1 Hr2]. unfold ClutchLexer.reportError.
  rewrite span_inside
    by (unfold cursor, inputOf, SourceFile.length in *; lia).
  unfold withReport, errorSpan, inputOf.
  destruct st as [[src pos] anchor pending buf rep]. simpl.
  destruct (onError rep _ error); reflexivity.
Qed.

Lemma scanString_post (onError : ErrorReporter) (st : ClutchLexer.t) :
  reading st -> tokenPost onError st (ClutchLexer.scanString onError st).
Proof.
  intros Hr. unfold ClutchLexer.scanString.
  apply tokenPost_bind; [| exact Hr |].
  { apply advancing_scanString. }
  intros closed st1 Hr1.
  pose proof (anchored_inside st1 (reading_anchored st1 Hr1)) as Hi.
  destruct Hr1 as [Hr1 Hr1'].
  destruct closed.
  - unfold bind, ClutchLexer.incrPosition, ClutchLexer.substring,
      ClutchLexer.createToken, ClutchLexer.clearComments, ret. simpl.
    unfold tokenFrom. simpl.
    set (inner := StringScanner.substring (ClutchLexer.program st1)
                    (ClutchLexer.position st1 + 1)
                    (StringScanner.position (ClutchLexer.program st1))).
    pose proof (js_substring_length_le inner 0 (strlen inner - 1)) as Hle.
    pose proof (strlen_nonneg (js_substring inner 0 (strlen inner - 1))) as Hge.
    assert (Hinner : strlen inner = cursor st1 - (ClutchLexer.position st1 + 1)).
    { subst inner. unfold StringScanner.substring.
      apply js_substring_length; unfold cursor, inputOf in *;
        unfold StringScanner.position; lia. }
    unfold cursor, StringScanner.position in *. simpl.
    repeat split; try reflexivity; try lia.
    + now apply advanced_refl.
    + intros Hk. now elim Hk.
  - unfold bind at 1. rewrite reportError_run by (split; assumption).
    destruct (onError _ _ _) as [[]|e] eqn:Erep;
      [|simpl; unfold reporterThrew; eauto].
    unfold bind, ClutchLexer.incrPosition.
    rewrite createToken_run. simpl. unfold tokenFrom, sliceOf. simpl.
    unfold cursor, inputOf in *. simpl.
    rewrite js_substring_length by lia.
    repeat split; try reflexivity; try lia.
    + now apply advanced_refl.
    + intros Hk. now elim Hk.
Qed.

Lemma scanSlash_post (onError : ErrorReporter) (st : ClutchLexer.t) :
  reading st -> stepPost onError st (ClutchLexer.scanSlash st).
Proof.
  intros Hr. unfold ClutchLexer.scanSlash.
  apply stepPost_bind; [solve_advancing | exact Hr |].
  intros comment st1 Hr1. destruct comment.
  - apply stepPost_bind; [solve_advancing | exact Hr1 |].
    intros _ st2 Hr2.
    pose proof (anchored_inside st2 (reading_anchored st2 Hr2)) as Hi.
    destruct Hr2 as [Hr2 Hr2'].
    unfold bind, ClutchLexer.substring, ClutchLexer.pushComment, ret. simpl.
    unfold skipFrom. simpl. unfold cursor, StringScanner.position in *. simpl.
    split; [now apply advanced_refl|]. split; [lia|].
    right. eexists. repeat split; simpl; lia.
  - apply stepPost_bind; [solve_advancing | exact Hr1 |].
    intros kind st2 Hr2.
    apply (stepPost_emit onError (ClutchLexer.createToken kind None)).
    apply createToken_post. now apply reading_anchored.
Qed.

Lemma scanDefault_post (onError : ErrorReporter) (character : option Z)
  (st : ClutchLexer.t) :
  reading st ->
  stepPost onError st (ClutchLexer.scanDefault onError character st).
Proof.
  intros Hr. unfold ClutchLexer.scanDefault.
  pose proof (anchored_inside st (reading_anchored st Hr)) as Hi.
  destruct (onCode isWhiteSpace character).
  { unfold bind, ret. simpl. unfold skipFrom. simpl.
    destruct Hr as [Hr Hr'].
    unfold cursor, StringScanner.position in *. simpl.
    split; [now apply advanced_refl|]. split; [lia|]. now left. }
  destruct (onCode isDigit character).
  { apply stepPost_emit. now apply scanNumber_post. }
  destruct (onCode isIdentifierStart character).
  { apply stepPost_emit. now apply scanIdentifierOrKeyword_post. }
  unfold bind. rewrite reportError_run by exact Hr.
  destruct (onError _ _ _) as [[]|e] eqn:Erep;
      [|simpl; unfold reporterThrew; eauto].
  unfold ret. simpl. unfold skipFrom, withReport. simpl.
  destruct Hr as [Hr Hr'].
  unfold cursor in *. simpl.
  split; [now apply advanced_refl|]. split; [lia|]. now left.
Qed.

Ltac solve_branch :=
  first
    [ now apply scanSlash_post
    | apply stepPost_emit;
      first
        [ apply createToken_post; now apply reading_anchored
        | now apply scanString_post
        | apply tokenPost_bind;
          [ solve_advancing
          | assumption
          | intros; apply createToken_post; now apply reading_anchored ] ] ].

(** Every branch of the [switch] makes a token from the text between the
    anchor and the cursor, or makes none, or fails in the reporter. *)
Lemma scanSwitch_post (onError : ErrorReporter) (character : option Z)
  (st : ClutchLexer.t) :
  reading st ->
  stepPost onError st (ClutchLexer.scanSwitch onError character st).
Proof.
  intros Hr. unfold ClutchLexer.scanSwitch.
  repeat (destruct (code_is character _); [solve_branch|]).
  now apply scanDefault_post.
Qed.

(** The code [advance()] returns from the scanner of the lexer. *)
Lemma scanToken_run (onError : ErrorReporter) (st : ClutchLexer.t) :
  inside (ClutchLexer.program st) ->
  StringScanner.hasNext (ClutchLexer.program st) = true ->
  ClutchLexer.scanToken onError st
  = ClutchLexer.scanSwitch onError
      (charCodeAt
         (SourceFile.contents (StringScanner.source (ClutchLexer.program st)))
         (StringScanner.mPosition (ClutchLexer.program st)))
      (afterAdvance st).
Proof.
  intros Hi Hn.
  unfold ClutchLexer.scanToken, bind at 1, ClutchLexer.onScanner.
  now rewrite (advance_run _ Hi Hn).
Qed.

Ltac solve_reads :=
  first
    [ assumption
    | apply anchored_inside; assumption
    | apply hasNext_true;
      unfold anchored, inside, cursor, inputOf, StringScanner.length,
        SourceFile.length, strlen in *;
      simpl in *; lia
    | unfold anchored, inside, cursor, inputOf, StringScanner.length,
        SourceFile.length, strlen in *;
      simpl in *; lia ].

(** When [scanToken] returns, [advance()] has returned. *)
Lemma scanToken_returned (onError : ErrorReporter) (st st' : ClutchLexer.t)
  (x : option Token.t) :
  ClutchLexer.scanToken onError st = (Returned x, st') ->
  ClutchLexer.scanSwitch onError
    (charCodeAt
       (SourceFile.contents (StringScanner.source (ClutchLexer.program st)))
       (StringScanner.mPosition (ClutchLexer.program st)))
    (afterAdvance st)
  = (Returned x, st').
Proof.
  unfold ClutchLexer.scanToken, bind at 1, ClutchLexer.onScanner.
  destruct (StringScanner.advance (ClutchLexer.program st)) as [[c|e] sc]
    eqn:Ea; [|discriminate].
  apply advance_returned in Ea. destruct Ea as [-> ->]. auto.
Qed.

Lemma afterAdvance_reading (st : ClutchLexer.t) :
  anchored st -> StringScanner.hasNext (ClutchLexer.program st) = true ->
  reading (afterAdvance st).
Proof.
  intros [Ha Ha'] Hn. apply hasNext_true in Hn.
  unfold reading, afterAdvance, cursor, inputOf in *. simpl.
  unfold StringScanner.length, SourceFile.length in Hn. lia.
Qed.

Lemma scanToken_step (onError : ErrorReporter) (st : ClutchLexer.t) :
  anchored st -> StringScanner.hasNext (ClutchLexer.program st) = true ->
  stepPost onError (afterAdvance st) (ClutchLexer.scanToken onError st).
Proof.
  intros Ha Hn. rewrite scanToken_run by (try apply anchored_inside; assumption).
  apply scanSwitch_post. now apply afterAdvance_reading.
Qed.

(** ** The loop of [scanProgram] *)

Lemma sorted_le_snoc (l : list Z) (y : Z) :
  StronglySorted Z.le l -> Forall (fun x => x <= y) l ->
  StronglySorted Z.le (l ++ [y]).
Proof.
  induction 1 as [|a l Hl IH Ha]; intros Hy; simpl.
  - repeat constructor.
  - inversion Hy as [|? ? Hay Hy']; subst. constructor.
    + now apply IH.
    + apply Forall_app. split; [exact Ha | now repeat constructor].
Qed.

Lemma sorted_lt_snoc (l : list Z) (y : Z) :
  StronglySorted Z.lt l -> Forall (fun x => x < y) l ->
  StronglySorted Z.lt (l ++ [y]).
Proof.
  induction 1 as [|a l Hl IH Ha]; intros Hy; simpl.
  - repeat constructor.
  - inversion Hy as [|? ? Hay Hy']; subst. constructor.
    + now apply IH.
    + apply Forall_app. split; [exact Ha | now repeat constructor].
Qed.

Lemma afterAdvance_fields (st : ClutchLexer.t) :
  ClutchLexer.position (afterAdvance st) = ClutchLexer.position st
  /\ ClutchLexer.lastComments (afterAdvance st) = ClutchLexer.lastComments st
  /\ ClutchLexer.buffered (afterAdvance st) = ClutchLexer.buffered st
  /\ inputOf (afterAdvance st) = inputOf st
  /\ cursor (afterAdvance st) = cursor st + 1.
Proof. repeat split. Qed.

Lemma advanced_inputOf (st st' : ClutchLexer.t) :
  advanced (ClutchLexer.program st) (ClutchLexer.program st') ->
  inputOf st' = inputOf st.
Proof. intros [Hs _]. unfold inputOf. now rewrite Hs. Qed.

Lemma advanced_cursor (st st' : ClutchLexer.t) :
  advanced (ClutchLexer.program st) (ClutchLexer.program st') ->
  cursor st <= cursor st' <= strlen (inputOf st).
Proof.
  intros [_ Ha]. unfold cursor, inputOf.
  unfold StringScanner.length, SourceFile.length in Ha. lia.
Qed.

(** The invariant after a turn that made a token. *)
Lemma invariant_token (p : jsstring) (st st' : ClutchLexer.t)
  (tokens : list Token.t) (tok : Token.t) :
  invariant p st tokens ->
  tokenFrom (afterAdvance st) tok st' ->
  invariant p st' (tokens ++ [tok]).
Proof.
  intros [Hin [Ha Ha'] Hoff Hbef Hsl Hcom Hbs Hbb]
         (Hadv & Hpos & Hcur & Hslice & Hc & Hl & Hb).
  destruct (afterAdvance_fields st) as (Fp & Fl & Fb & Fi & Fc).
  rewrite Fp in Hpos. rewrite Fi in Hslice. rewrite Fl in Hc. rewrite Fb in Hb.
  pose proof (advanced_inputOf _ _ Hadv) as Hin'. rewrite Fi in Hin'.
  pose proof (advanced_cursor _ _ Hadv) as Hcur'. rewrite Fi, Fc in Hcur'.
  constructor.
  - congruence.
  - unfold anchored. rewrite Hin'. lia.
  - rewrite map_app. apply sorted_le_snoc; [exact Hoff|].
    rewrite Forall_map. eapply Forall_impl; [|exact Hbef].
    simpl. intros t Ht. lia.
  - apply Forall_app. split.
    + eapply Forall_impl; [|exact Hbef]. simpl. intros t Ht. lia.
    + repeat constructor; lia.
  - apply Forall_app. split; [exact Hsl|].
    repeat constructor. intros Hk. rewrite <- Hin. now apply Hslice.
  - rewrite map_app, concat_app. simpl. rewrite Hl, Hc, Hb, !app_nil_r.
    exact Hcom.
  - now rewrite Hb.
  - rewrite Hb. eapply Forall_impl; [|exact Hbb]. simpl. intros c Hc'. lia.
Qed.

(** The invariant after a turn that made no token. *)
Lemma invariant_skip (p : jsstring) (st st' : ClutchLexer.t)
  (tokens : list Token.t) :
  invariant p st tokens ->
  skipFrom (afterAdvance st) st' ->
  invariant p st' tokens.
Proof.
  intros [Hin [Ha Ha'] Hoff Hbef Hsl Hcom Hbs Hbb] (Hadv & Hpos & Hcases).
  destruct (afterAdvance_fields st) as (Fp & Fl & Fb & Fi & Fc).
  rewrite Fp in Hpos. rewrite Fl, Fb, Fc in Hcases.
  pose proof (advanced_inputOf _ _ Hadv) as Hin'. rewrite Fi in Hin'.
  pose proof (advanced_cursor _ _ Hadv) as Hcur'. rewrite Fi, Fc in Hcur'.
  assert (Hanch : anchored st') by (unfold anchored; rewrite Hin'; lia).
  assert (Hbef' : Forall (fun t => 0 <= Token.offset t <= ClutchLexer.position st') tokens).
  { eapply Forall_impl; [|exact Hbef]. simpl. intros t Ht. lia. }
  destruct Hcases as [[Hl Hb] | (c & Hl & Hb & Hc)].
  - constructor; try assumption.
    + congruence.
    + rewrite Hl, Hb. exact Hcom.
    + now rewrite Hb.
    + rewrite Hb. eapply Forall_impl; [|exact Hbb]. simpl. intros c Hc'. lia.
  - constructor; try assumption.
    + congruence.
    + rewrite Hl, Hb, app_assoc. now rewrite Hcom.
    + rewrite Hb, map_app. simpl. apply sorted_lt_snoc; [exact Hbs|].
      rewrite Forall_map. eapply Forall_impl; [|exact Hbb].
      simpl. intros c' Hc'. lia.
    + rewrite Hb. apply Forall_app. split.
      * eapply Forall_impl; [|exact Hbb]. simpl. intros c' Hc'. lia.
      * repeat constructor. lia.
Qed.

Lemma remaining_after (st st' : ClutchLexer.t) (fuel : nat) :
  advanced (ClutchLexer.program (afterAdvance st)) (ClutchLexer.program st') ->
  (StringScanner.remaining (ClutchLexer.program st) <= S fuel)%nat ->
  (StringScanner.remaining (ClutchLexer.program st') <= fuel)%nat.
Proof.
  intros Hadv Hfuel. pose proof (advanced_length _ _ Hadv) as Hlen.
  destruct Hadv as [_ Hadv].
  unfold StringScanner.remaining, StringScanner.position, afterAdvance in *.
  simpl in *. unfold StringScanner.length in *. simpl in *. lia.
Qed.

(** The loop, run for at least the characters that remain, ends at the
    end of the input with the invariant, or in a throw of the reporter. *)
Lemma scanProgramLoop_invariant (onError : ErrorReporter) (p : jsstring)
  (fuel : nat) (st : ClutchLexer.t) (tokens : list Token.t) :
  invariant p st tokens ->
  (StringScanner.remaining (ClutchLexer.program st) <= fuel)%nat ->
  match ClutchLexer.scanProgramLoop onError fuel tokens st with
  | (Returned tokens', st') =>
      invariant p st' tokens'
      /\ StringScanner.hasNext (ClutchLexer.program st') = false
  | (Thrown e, _) => reporterThrew onError e
  end.
Proof.
  revert st tokens. induction fuel as [|fuel IH]; intros st tokens Hinv Hfuel.
  - simpl. split; [exact Hinv|]. apply hasNext_false.
    unfold StringScanner.remaining, StringScanner.position in Hfuel. lia.
  - simpl. destruct (StringScanner.hasNext (ClutchLexer.program st)) eqn:Hn;
      [|now split].
    pose proof (scanToken_step onError st (inv_anchored _ _ _ Hinv) Hn) as Hstep.
    unfold bind.
    destruct (ClutchLexer.scanToken onError st) as [[[tok|]|e] st'];
      simpl in Hstep; [| |exact Hstep].
    + apply IH.
      * eapply invariant_token; eassumption.
      * destruct Hstep as [Hadv _]. eapply remaining_after; eassumption.
    + apply IH.
      * eapply invariant_skip; eassumption.
      * destruct Hstep as [Hadv _]. eapply remaining_after; eassumption.
Qed.

(** ** [tokenize] *)

Lemma tokenizeRun_unfold (p : jsstring) (onError : option ErrorReporter) :
  tokenizeRun p onError
  = match
      ClutchLexer.scanProgramLoop (reporterOf onError)
        (StringScanner.remaining (StringScanner.new p)) []
        (ClutchLexer.new (StringScanner.new p))
    with
    | (Returned tokens, st) =>
        (Returned
           (tokens
            ++ [Token.mk EOF [] (ClutchLexer.lastComments st)
                  (ClutchLexer.position st - 0)]),
         ClutchLexer.mk (ClutchLexer.program st) (ClutchLexer.position st) []
           (ClutchLexer.buffered st) (ClutchLexer.reported st))
    | (Thrown e, st) => (Thrown e, st)
    end.
Proof.
  unfold tokenizeRun, ClutchLexer.scanProgram, bind, reporterOf. simpl.
  destruct (ClutchLexer.scanProgramLoop _ _ _ _) as [[tokens|e] st];
    reflexivity.
Qed.

Lemma invariant_initial (p : jsstring) :
  invariant p (ClutchLexer.new (StringScanner.new p)) [].
Proof.
  constructor; simpl; try constructor.
  - unfold anchored, cursor, inputOf. simpl. pose proof (strlen_nonneg p). lia.
  - unfold cursor, inputOf. simpl. apply strlen_nonneg.
Qed.

Lemma tokenize_fst (p : jsstring) (onError : option ErrorReporter) :
  tokenize p onError = fst (tokenizeRun p onError).
Proof. reflexivity. Qed.

(** The run of [tokenize]: the tokens end with the EOF token, the final
    lexer has read the whole input and satisfies the invariant with an
    empty comment buffer; or the reporter threw. *)
Lemma tokenizeRun_final (p : jsstring) (onError : option ErrorReporter) :
  match tokenizeRun p onError with
  | (Returned ts, st) =>
      (exists tokens eof,
          ts = tokens ++ [eof] /\ Token.kind eof = EOF /\ Token.lexeme eof = [])
      /\ invariant p st ts
      /\ ClutchLexer.lastComments st = []
      /\ StringScanner.hasNext (ClutchLexer.program st) = false
  | (Thrown e, _) => reporterThrew (reporterOf onError) e
  end.
Proof.
  rewrite tokenizeRun_unfold.
  pose proof (scanProgramLoop_invariant (reporterOf onError) p
                (StringScanner.remaining (StringScanner.new p))
                (ClutchLexer.new (StringScanner.new p)) []
                (invariant_initial p) (Nat.le_refl _)) as Hloop.
  destruct (ClutchLexer.scanProgramLoop _ _ _ _) as [[tokens|e] st];
    [|exact Hloop].
  destruct Hloop as [[Hin [Ha Ha'] Hoff Hbef Hsl Hcom Hbs Hbb] Hn].
  split; [eauto|]. split; [|split; [reflexivity | exact Hn]].
  constructor; simpl.
  - exact Hin.
  - split; assumption.
  - rewrite map_app. apply sorted_le_snoc; [exact Hoff|].
    rewrite Forall_map. eapply Forall_impl; [|exact Hbef].
    simpl. intros t Ht. lia.
  - apply Forall_app. split; [exact Hbef|]. repeat constructor; simpl; lia.
  - apply Forall_app. split; [exact Hsl|]. repeat constructor.
    intros _. unfold sliceOf. cbn [Token.offset Token.lexeme].
    rewrite Hin in Ha'. change (strlen []) with 0.
    rewrite js_substring_slice by lia.
    replace (ClutchLexer.position st - 0 + 0 - (ClutchLexer.position st - 0))
      with 0 by lia.
    reflexivity.
  - rewrite map_app, concat_app. simpl. now rewrite !app_nil_r.
  - exact Hbs.
  - exact Hbb.
Qed.

(** C1.  Whatever the input and the reporter, [tokenize] returns unless
    the reporter throws; the sequence it returns ends with an EOF token,
    its offsets never decrease, and the lexeme of every token other than
    a STRING is the text of the input at the offset of the token.  The
    empty input gives the EOF token alone, and a reporter that never
    throws always gets a sequence. *)
Theorem tokenize_invariants (p : jsstring) (onError : option ErrorReporter) :
  match tokenize p onError with
  | Returned ts =>
      (exists tokens eof, ts = tokens ++ [eof] /\ Token.kind eof = EOF)
      /\ StronglySorted Z.le (map Token.offset ts)
      /\ Forall
           (fun t =>
              Token.kind t <> EOF -> Token.kind t <> STRING ->
              js_substring p (Token.offset t)
                (Token.offset t + strlen (Token.lexeme t))
              = Token.lexeme t)
           ts
  | Thrown e => reporterThrew (reporterOf onError) e
  end
  /\ tokenize [] onError = Returned [Token.mk EOF [] [] 0]
  /\ ((forall history span message,
          reporterOf onError history span message = Returned tt) ->
      exists ts, tokenize p onError = Returned ts).
Proof.
  rewrite !tokenize_fst.
  pose proof (tokenizeRun_final p onError) as Hfinal.
  destruct (tokenizeRun p onError) as [[ts|e] st]; simpl.
  - destruct Hfinal as ((tokens & eof & Hts & Hk & _) & Hinv & _).
    split; [|split; [destruct onError; reflexivity | eauto]].
    split; [eauto|]. split; [apply (inv_offsets _ _ _ Hinv)|].
    eapply Forall_impl; [|apply (inv_slices _ _ _ Hinv)].
    simpl. intros t Ht _ Hs. now apply Ht.
  - split; [exact Hfinal|]. split; [destruct onError; reflexivity|].
    intros Hnever. destruct Hfinal as (h & sp & m & Hthrow).
    rewrite Hnever in Hthrow. discriminate.
Qed.

(** ** Comments *)

Lemma sorted_offsets_NoDup (l : list IComment.t) :
  StronglySorted Z.lt (map IComment.offset l) -> NoDup l.
Proof.
  induction l as [|c l IH]; simpl; intros Hs; constructor;
    inversion Hs as [|? ? Hl Hc]; subst.
  - intros Hin. rewrite Forall_forall in Hc.
    specialize (Hc (IComment.offset c) (in_map _ _ _ Hin)). lia.
  - now apply IH.
Qed.

Lemma NoDup_app_left {A : Type} (a b : list A) : NoDup (a ++ b) -> NoDup a.
Proof.
  induction a as [|x a IH]; simpl; intros H; constructor;
    inversion H as [|? ? Hx Hab]; subst.
  - intros Hin. apply Hx. apply in_or_app. now left.
  - now apply IH.
Qed.

Lemma NoDup_app_right {A : Type} (a b : list A) : NoDup (a ++ b) -> NoDup b.
Proof.
  induction a as [|x a IH]; simpl; intros H; [exact H|].
  inversion H; subst. now apply IH.
Qed.

Lemma NoDup_app_disjoint {A : Type} (a b : list A) (x : A) :
  NoDup (a ++ b) -> In x a -> ~ In x b.
Proof.
  induction a as [|y a IH]; simpl; intros H Hin; [contradiction|].
  inversion H as [|? ? Hy Hab]; subst. destruct Hin as [->|Hin].
  - intros Hb. apply Hy. apply in_or_app. now right.
  - now apply IH.
Qed.

(** In a sequence of tokens whose comment lists are, end to end, without
    a repetition, a record is in the list of exactly one token. *)
Lemma in_one_token (ts : list Token.t) (c : IComment.t) :
  NoDup (List.concat (map Token.comments ts)) ->
  In c (List.concat (map Token.comments ts)) ->
  inOneToken c ts.
Proof.
  induction ts as [|t ts IH]; simpl; intros Hnd Hin; [contradiction|].
  apply in_app_or in Hin. destruct Hin as [Hin|Hin].
  - exists [], t, ts. split; [reflexivity|]. split; [exact Hin|].
    simpl. intros t' Ht' Hc.
    apply (NoDup_app_disjoint _ _ c Hnd Hin).
    apply in_concat. exists (Token.comments t'). split; [|exact Hc].
    now apply in_map.
  - destruct (IH (NoDup_app_right _ _ Hnd) Hin)
      as (before & t0 & after & -> & Hc0 & Hothers).
    exists (t :: before), t0, after. split; [reflexivity|].
    split; [exact Hc0|].
    simpl. intros t' [<-|Ht'] Hc.
    + apply (NoDup_app_disjoint _ _ c Hnd Hc). exact Hin.
    + now apply (Hothers t').
Qed.

(** C10.  When [tokenize] returns, the comment lists of its tokens, end
    to end, are the records buffered during the run, in the order they
    were buffered; no record occurs twice, so each buffered record is in
    the list of exactly one token, and the buffer is left empty. *)
Theorem comments_in_exactly_one_token (p : jsstring)
  (onError : option ErrorReporter) :
  match tokenizeRun p onError with
  | (Returned ts, st) =>
      List.concat (map Token.comments ts) = ClutchLexer.buffered st
      /\ NoDup (ClutchLexer.buffered st)
      /\ (forall c, In c (ClutchLexer.buffered st) -> inOneToken c ts)
      /\ ClutchLexer.lastComments st = []
  | (Thrown e, _) => reporterThrew (reporterOf onError) e
  end.
Proof.
  pose proof (tokenizeRun_final p onError) as Hfinal.
  destruct (tokenizeRun p onError) as [[ts|e] st]; [|exact Hfinal].
  destruct Hfinal as (_ & Hinv & Hlast & _).
  pose proof (inv_comments _ _ _ Hinv) as Hcom.
  rewrite Hlast, app_nil_r in Hcom.
  pose proof (sorted_offsets_NoDup _ (inv_buffered_sorted _ _ _ Hinv)) as Hnd.
  repeat split; try assumption.
  intros c Hc. apply in_one_token; rewrite Hcom; assumption.
Qed.

(** ** Concrete runs *)

(** C9.  For the input [// hi], a line feed, [let x = 1] the lexer gives
    LET carrying the one comment [// hi], then the identifier [x],
    ASSIGN, the number [1] and EOF; the offset recorded for the comment
    is 6, the position of the scanner after the comment and its line
    feed, while the comment starts at offset 0. *)
Theorem tokenize_leading_comment (onError : option ErrorReporter) :
  tokenize (str "// hi" ++ [Characters.LF] ++ str "let x = 1") onError
  = Returned
      [ Token.mk LET (str "let") [IComment.mk (str "// hi") 6] 6;
        Token.mk IDENTIFIER (str "x") [] 10;
        Token.mk ASSIGN (str "=") [] 12;
        Token.mk NUMBER (str "1") [] 14;
        Token.mk EOF [] [] 15 ]
  /\ js_substring (str "// hi" ++ [Characters.LF] ++ str "let x = 1") 0 5
     = str "// hi".
Proof. destruct onError; split; reflexivity. Qed.

(** C6.  With a reporter that returns, [tokenize] of an unterminated
    string gives a STRING token and EOF, and the lexeme of ['unterm] is
    [unterm]; the default reporter throws.  After an unexpected character
    that the reporter let pass, the anchor is still at that character:
    for [@'abc] the error is reported at the [@] and the lexeme of the
    STRING token, ['abc], keeps the opening quote. *)
Theorem tokenize_unterminated_string :
  tokenize (str "'unterm") (Some recordingReporter)
  = Returned
      [ Token.mk STRING (str "unterm") [] 1; Token.mk EOF [] [] 7 ]
  /\ tokenize (str "'unterm") None
     = Thrown (SyntaxError (str "Unterminated string") (str "'") (-1) 0)
  /\ tokenize (str "@'abc") (Some recordingReporter)
     = Returned [ Token.mk STRING (str "'abc") [] 1; Token.mk EOF [] [] 5 ]
  /\ map (fun r => (FileSpan.offset (fst r), FileSpan.text (fst r), snd r))
       (ClutchLexer.reported
          (snd (tokenizeRun (str "@'abc") (Some recordingReporter))))
     = [ (0, str "@", ClutchLexer.unexpectedCharacter (Some 64));
         (0, str "@", str "Unterminated string") ].
Proof. repeat split; reflexivity. Qed.

(** ** Runs over white space and comments *)

Lemma charCodeAt_app (pre : jsstring) (c : Z) (rest : jsstring) :
  charCodeAt (pre ++ c :: rest) (strlen pre) = Some c.
Proof.
  unfold charCodeAt, array_get, strlen.
  destruct (Z.ltb_spec (Z.of_nat (List.length pre)) 0); [lia|].
  rewrite Nat2Z.id, nth_error_app2, Nat.sub_diag by lia. reflexivity.
Qed.

Lemma charCodeAt_end (s : jsstring) : charCodeAt s (strlen s) = None.
Proof. apply array_get_none. unfold strlen. lia. Qed.

Lemma js_substring_app (pre mid rest : jsstring) :
  js_substring (pre ++ mid ++ rest) (strlen pre) (strlen pre + strlen mid)
  = mid.
Proof.
  pose proof (strlen_nonneg pre). pose proof (strlen_nonneg mid).
  pose proof (strlen_nonneg rest).
  rewrite js_substring_slice by (rewrite ?strlen_app; lia).
  unfold strlen.
  replace (Z.of_nat (List.length pre) + Z.of_nat (List.length mid)
           - Z.of_nat (List.length pre))
    with (Z.of_nat (List.length mid)) by lia.
  rewrite !Nat2Z.id, skipn_app, skipn_all, Nat.sub_diag. simpl.
  rewrite firstn_app, firstn_all, Nat.sub_diag. simpl. apply app_nil_r.
Qed.

Lemma trimStart_trimmed (t s : jsstring) :
  forallb isTrimmed t = true -> trimStart (t ++ s) = trimStart s.
Proof.
  induction t as [|c t IH]; simpl; [reflexivity|].
  intros H. apply andb_prop in H. destruct H as [Hc Ht].
  rewrite Hc. now apply IH.
Qed.

(** The line terminator after a comment is trimmed away. *)
Lemma trim_lineComment (body t : jsstring) :
  forallb isTrimmed t = true ->
  trim (lineComment body ++ t) = trim (lineComment body).
Proof.
  intros Ht. unfold trim.
  change (trimStart (lineComment body ++ t)) with (lineComment body ++ t).
  change (trimStart (lineComment body)) with (lineComment body).
  rewrite rev_app_distr, trimStart_trimmed; [reflexivity|].
  rewrite forallb_forall in *. intros c Hc. apply Ht. now apply in_rev.
Qed.

Lemma peek_app (src : SourceFile.t) (pre : jsstring) (c : Z) (rest : jsstring) :
  SourceFile.contents src = pre ++ c :: rest ->
  StringScanner.peek (StringScanner.mk src (strlen pre)) 0 = Some c.
Proof.
  intros Hc. unfold StringScanner.peek, StringScanner.position. simpl.
  rewrite Hc, Z.add_0_r. apply charCodeAt_app.
Qed.

Lemma peek_hd (src : SourceFile.t) (pre rest : jsstring) :
  SourceFile.contents src = pre ++ rest ->
  StringScanner.peek (StringScanner.mk src (strlen pre)) 0 = hd_error rest.
Proof.
  intros Hc. destruct rest as [|c rest]; simpl.
  - unfold StringScanner.peek, StringScanner.position. simpl.
    rewrite Hc, Z.add_0_r, app_nil_r. apply charCodeAt_end.
  - now apply (peek_app src pre c rest).
Qed.

Lemma hasNext_app (src : SourceFile.t) (pre : jsstring) (c : Z)
  (rest : jsstring) :
  SourceFile.contents src = pre ++ c :: rest ->
  StringScanner.hasNext (StringScanner.mk src (strlen pre)) = true.
Proof.
  intros Hc. apply hasNext_true. simpl.
  unfold StringScanner.length, SourceFile.length. simpl.
  rewrite Hc, strlen_app. unfold strlen. simpl List.length. lia.
Qed.

Lemma hasNext_end (src : SourceFile.t) :
  StringScanner.hasNext
    (StringScanner.mk src (strlen (SourceFile.contents src))) = false.
Proof.
  apply hasNext_false. simpl.
  unfold StringScanner.length, SourceFile.length. simpl. lia.
Qed.

Lemma match_hit (src : SourceFile.t) (pre : jsstring) (c : Z)
  (rest : jsstring) :
  SourceFile.contents src = pre ++ c :: rest ->
  StringScanner.match_ c (StringScanner.mk src (strlen pre))
  = (true, StringScanner.mk src (strlen pre + 1)).
Proof.
  intros Hc. unfold StringScanner.match_.
  rewrite (peek_app src pre c rest Hc). simpl. now rewrite Z.eqb_refl.
Qed.

Lemma match_miss (src : SourceFile.t) (pre rest : jsstring) (pattern : Z) :
  SourceFile.contents src = pre ++ rest ->
  code_is (hd_error rest) pattern = false ->
  StringScanner.match_ pattern (StringScanner.mk src (strlen pre))
  = (false, StringScanner.mk src (strlen pre)).
Proof.
  intros Hc Hm. unfold StringScanner.match_.
  rewrite (peek_hd src pre rest Hc), Hm. reflexivity.
Qed.

Lemma strlen_snoc (pre : jsstring) (c : Z) :
  strlen (pre ++ [c]) = strlen pre + 1.
Proof. rewrite strlen_app. reflexivity. Qed.

Lemma strlen_cons (c : Z) (s : jsstring) : strlen (c :: s) = strlen s + 1.
Proof. unfold strlen. simpl List.length. lia. Qed.

Lemma isLineBreak_cases (c : Z) :
  isLineBreak c = true -> c = Characters.LF \/ c = Characters.CR.
Proof.
  unfold isLineBreak. rewrite orb_true_iff, !Z.eqb_eq. tauto.
Qed.

Lemma not_lineBreak (c : Z) :
  negb (isLineBreak c) = true ->
  (c =? Characters.LF) = false /\ (c =? Characters.CR) = false.
Proof.
  unfold isLineBreak. rewrite negb_true_iff, orb_false_iff. tauto.
Qed.

(** [advanceToEOL] on a comment: the scanner stops after the body and
    the line terminator, a CR+LF being read as one. *)
Lemma advanceToEOLSteps_comment (src : SourceFile.t) (body : jsstring) :
  forall (pre tail : jsstring) (fuel : nat),
    SourceFile.contents src = pre ++ body ++ tail ->
    forallb (fun c => negb (isLineBreak c)) body = true ->
    breaksLine tail ->
    (List.length (body ++ tail) <= fuel)%nat ->
    advanceToEOLSteps fuel (StringScanner.mk src (strlen pre))
    = StringScanner.mk src
        (strlen pre + strlen body + strlen (terminatorOf tail)).
Proof.
  induction body as [|b body IH]; intros pre tail fuel Hc Hbody Htail Hfuel.
  - simpl in Hc, Hfuel. change (strlen []) with 0. rewrite Z.add_0_r.
    destruct tail as [|c tail].
    + rewrite app_nil_r in Hc.
      simpl. rewrite Z.add_0_r.
      destruct fuel as [|fuel]; [reflexivity|]. simpl.
      rewrite <- Hc, hasNext_end. reflexivity.
    + destruct fuel as [|fuel]; [simpl in Hfuel; lia|].
      simpl advanceToEOLSteps.
      rewrite (hasNext_app src pre c tail Hc).
      simpl in Htail. apply isLineBreak_cases in Htail.
      destruct Htail as [-> | ->].
      * rewrite (match_hit src pre _ tail Hc). reflexivity.
      * rewrite (match_miss src pre _ Characters.LF Hc) by reflexivity.
        rewrite (match_hit src pre _ tail Hc).
        assert (Hc' : SourceFile.contents src = (pre ++ [Characters.CR]) ++ tail)
          by (rewrite <- app_assoc; exact Hc).
        rewrite <- (strlen_snoc pre Characters.CR).
        unfold terminatorOf.
        change (Characters.CR =? Characters.LF) with false. cbv iota.
        destruct (code_is (hd_error tail) Characters.LF) eqn:Hlf.
        -- destruct tail as [|c tail]; [discriminate|]. simpl in Hlf.
           apply Z.eqb_eq in Hlf. subst c.
           rewrite (match_hit src _ _ tail Hc'). simpl. f_equal.
           rewrite strlen_snoc.
           change (strlen [Characters.CR; Characters.LF]) with 2. lia.
        -- rewrite (match_miss src _ _ Characters.LF Hc' Hlf). simpl.
           f_equal. rewrite strlen_snoc.
           change (strlen [Characters.CR]) with 1. lia.
  - simpl in Hbody. apply andb_prop in Hbody. destruct Hbody as [Hb Hbody].
    apply not_lineBreak in Hb. destruct Hb as [Hlf Hcr].
    destruct fuel as [|fuel]; [simpl in Hfuel; lia|].
    simpl in Hc.
    simpl advanceToEOLSteps.
    rewrite (hasNext_app src pre b (body ++ tail) Hc).
    rewrite (match_miss src pre _ Characters.LF Hc) by exact Hlf.
    rewrite (match_miss src pre _ Characters.CR Hc) by exact Hcr.
    unfold stepped. cbn [snd StringScanner.source StringScanner.mPosition].
    rewrite <- (strlen_snoc pre b).
    rewrite (IH (pre ++ [b]) tail fuel); try assumption.
    + f_equal. rewrite strlen_snoc, strlen_cons. lia.
    + rewrite <- app_assoc. exact Hc.
    + simpl in Hfuel. lia.
Qed.

(** A white-space character moves the anchor to the cursor. *)
Lemma scanSwitch_whitespace (onError : ErrorReporter) (c : Z)
  (st : ClutchLexer.t) :
  isWhiteSpace c = true ->
  ClutchLexer.scanSwitch onError (Some c) st
  = (Returned None, ClutchLexer.setPosition (cursor st) st).
Proof.
  unfold isWhiteSpace. rewrite !orb_true_iff, !Z.eqb_eq.
  intros [[[-> | ->] | ->] | ->]; reflexivity.
Qed.

Ltac strlen_norm :=
  repeat (rewrite strlen_app || rewrite strlen_cons);
  change (strlen []) with 0.

Lemma terminatorOf_prefix (tail : jsstring) :
  exists rest, tail = terminatorOf tail ++ rest.
Proof.
  destruct tail as [|c tail]; [now exists []|]. simpl.
  destruct (c =? Characters.LF); [now exists tail|].
  destruct tail as [|d tail]; simpl; [now exists []|].
  destruct (Z.eqb_spec d Characters.LF) as [->|Hd];
    [now exists tail | now exists (d :: tail)].
Qed.

Lemma terminatorOf_trimmed (tail : jsstring) :
  breaksLine tail -> forallb isTrimmed (terminatorOf tail) = true.
Proof.
  destruct tail as [|c tail]; simpl; [reflexivity|].
  intros Hc. apply isLineBreak_cases in Hc. destruct Hc as [-> | ->].
  - reflexivity.
  - change (Characters.CR =? Characters.LF) with false. cbv iota.
    destruct (code_is (hd_error tail) Characters.LF); reflexivity.
Qed.

Lemma scanSwitch_slash (onError : ErrorReporter) (st : ClutchLexer.t) :
  ClutchLexer.scanSwitch onError (Some Characters.SLASH) st
  = ClutchLexer.scanSlash st.
Proof. reflexivity. Qed.

Lemma remaining_app (src : SourceFile.t) (pre rest : jsstring) :
  SourceFile.contents src = pre ++ rest ->
  StringScanner.remaining (StringScanner.mk src (strlen pre))
  = List.length rest.
Proof.
  intros Hc. unfold StringScanner.remaining, StringScanner.length,
    SourceFile.length, StringScanner.position. simpl.
  rewrite Hc, strlen_app. unfold strlen. lia.
Qed.

Lemma inside_app (src : SourceFile.t) (pre rest : jsstring) :
  SourceFile.contents src = pre ++ rest ->
  inside (StringScanner.mk src (strlen pre)).
Proof.
  intros Hc. unfold inside, StringScanner.length, SourceFile.length. simpl.
  rewrite Hc, strlen_app.
  pose proof (strlen_nonneg pre). pose proof (strlen_nonneg rest). lia.
Qed.

Lemma scanToken_whitespace (onError : ErrorReporter) (src : SourceFile.t)
  (pre : jsstring) (c : Z) (s : jsstring)
  (pending buf : list IComment.t) (rep : list Report) :
  SourceFile.contents src = pre ++ c :: s ->
  isWhiteSpace c = true ->
  ClutchLexer.scanToken onError (lexerAt src (strlen pre) pending buf rep)
  = (Returned None, lexerAt src (strlen (pre ++ [c])) pending buf rep).
Proof.
  intros Hc Hw.
  rewrite scanToken_run;
    [| exact (inside_app src pre _ Hc) | exact (hasNext_app src pre _ _ Hc)].
  unfold afterAdvance, lexerAt, stepped, StringScanner.position.
  cbn [fst snd ClutchLexer.program StringScanner.source StringScanner.mPosition].
  rewrite Hc, charCodeAt_app, scanSwitch_whitespace by exact Hw.
  rewrite strlen_snoc. reflexivity.
Qed.

(** A comment is read to the end of its line and pushed on the buffer:
    its lexeme is the trimmed text, its offset the cursor after the
    line terminator. *)
Lemma scanToken_comment (onError : ErrorReporter) (src : SourceFile.t)
  (pre body tail : jsstring)
  (pending buf : list IComment.t) (rep : list Report) :
  SourceFile.contents src = pre ++ lineComment body ++ tail ->
  forallb (fun c => negb (isLineBreak c)) body = true ->
  breaksLine tail ->
  let stop := strlen (pre ++ lineComment body ++ terminatorOf tail) in
  let c := IComment.mk (trim (lineComment body)) stop in
  ClutchLexer.scanToken onError (lexerAt src (strlen pre) pending buf rep)
  = (Returned None, lexerAt src stop (pending ++ [c]) (buf ++ [c]) rep).
Proof.
  intros Hc Hbody Htail stop c.
  unfold lineComment in Hc. simpl in Hc.
  rewrite scanToken_run;
    [| exact (inside_app src pre _ Hc) | exact (hasNext_app src pre _ _ Hc)].
  unfold afterAdvance, lexerAt, stepped, StringScanner.position.
  cbn [fst snd ClutchLexer.program StringScanner.source StringScanner.mPosition].
  rewrite Hc, charCodeAt_app, scanSwitch_slash.
  unfold ClutchLexer.scanSlash, bind, ClutchLexer.programMatch,
    ClutchLexer.onProgram.
  cbn [ClutchLexer.program ClutchLexer.setProgram].
  assert (Hc1 : SourceFile.contents src
                = (pre ++ [Characters.SLASH]) ++ Characters.SLASH :: body ++ tail)
    by (rewrite <- app_assoc; exact Hc).
  assert (Hc2 : SourceFile.contents src
                = (pre ++ [Characters.SLASH; Characters.SLASH]) ++ body ++ tail)
    by (rewrite <- app_assoc; exact Hc).
  rewrite <- (strlen_snoc pre Characters.SLASH).
  rewrite (match_hit src _ _ _ Hc1).
  replace (strlen (pre ++ [Characters.SLASH]) + 1)
    with (strlen (pre ++ [Characters.SLASH; Characters.SLASH]))
    by (strlen_norm; lia).
  rewrite advanceToEOL_steps by exact (inside_app src _ _ Hc2).
  cbn [ClutchLexer.program ClutchLexer.setProgram].
  rewrite (remaining_app src _ _ Hc2).
  rewrite (advanceToEOLSteps_comment src body _ tail _ Hc2 Hbody Htail (le_n _)).
  unfold ClutchLexer.substring, ClutchLexer.pushComment, ret,
    StringScanner.substring, StringScanner.position.
  cbn [ClutchLexer.program ClutchLexer.setPosition ClutchLexer.position
       ClutchLexer.setProgram
       ClutchLexer.lastComments ClutchLexer.buffered ClutchLexer.reported
       StringScanner.source StringScanner.mPosition].
  assert (Hstop : strlen (pre ++ [Characters.SLASH; Characters.SLASH])
                  + strlen body + strlen (terminatorOf tail) = stop).
  { subst stop. unfold lineComment. strlen_norm. lia. }
  rewrite Hstop.
  destruct (terminatorOf_prefix tail) as [rest Hrest].
  assert (Htext : js_substring (SourceFile.contents src) (strlen pre) stop
                  = lineComment body ++ terminatorOf tail).
  { replace stop with (strlen pre + strlen (lineComment body ++ terminatorOf tail))
      by (subst stop; strlen_norm; lia).
    replace (SourceFile.contents src)
      with (pre ++ (lineComment body ++ terminatorOf tail) ++ rest).
    - apply js_substring_app.
    - rewrite Hc. unfold lineComment. simpl. rewrite <- app_assoc.
      now rewrite <- Hrest. }
  rewrite Htext, (trim_lineComment body _ (terminatorOf_trimmed tail Htail)).
  reflexivity.
Qed.

Lemma scanProgramLoop_skip (onError : ErrorReporter) (fuel : nat)
  (tokens : list Token.t) (st st' : ClutchLexer.t) :
  StringScanner.hasNext (ClutchLexer.program st) = true ->
  ClutchLexer.scanToken onError st = (Returned None, st') ->
  ClutchLexer.scanProgramLoop onError (S fuel) tokens st
  = ClutchLexer.scanProgramLoop onError fuel tokens st'.
Proof.
  intros Hn Hs. simpl. rewrite Hn. unfold bind. now rewrite Hs.
Qed.

Lemma scanProgramLoop_skip_at (onError : ErrorReporter) (fuel : nat)
  (tokens : list Token.t) (src : SourceFile.t) (pre : jsstring) (c : Z)
  (rest : jsstring) (pending buf : list IComment.t) (rep : list Report)
  (st' : ClutchLexer.t) :
  SourceFile.contents src = pre ++ c :: rest ->
  ClutchLexer.scanToken onError (lexerAt src (strlen pre) pending buf rep)
  = (Returned None, st') ->
  ClutchLexer.scanProgramLoop onError (S fuel) tokens
    (lexerAt src (strlen pre) pending buf rep)
  = ClutchLexer.scanProgramLoop onError fuel tokens st'.
Proof.
  intros Hc Hs. apply scanProgramLoop_skip; [|exact Hs].
  exact (hasNext_app src pre c rest Hc).
Qed.

Lemma scanProgramLoop_end (onError : ErrorReporter) (fuel : nat)
  (tokens : list Token.t) (src : SourceFile.t)
  (pending buf : list IComment.t) (rep : list Report) :
  ClutchLexer.scanProgramLoop onError fuel tokens
    (lexerAt src (strlen (SourceFile.contents src)) pending buf rep)
  = (Returned tokens,
     lexerAt src (strlen (SourceFile.contents src)) pending buf rep).
Proof.
  destruct fuel as [|fuel]; [reflexivity|]. simpl.
  now rewrite hasNext_end.
Qed.

(** On white space and comments the loop makes no token, calls no
    reporter and buffers one record for each comment. *)
Lemma blank_run (onError : ErrorReporter) (texts : list jsstring)
  (s : jsstring) :
  blank texts s ->
  forall (src : SourceFile.t) (pre : jsstring)
         (pending buf : list IComment.t) (rep : list Report)
         (tokens : list Token.t) (fuel : nat),
    SourceFile.contents src = pre ++ s ->
    (List.length s <= fuel)%nat ->
    exists cs,
      ClutchLexer.scanProgramLoop onError fuel tokens
        (lexerAt src (strlen pre) pending buf rep)
      = (Returned tokens,
         lexerAt src (strlen (pre ++ s)) (pending ++ cs) (buf ++ cs) rep)
      /\ map IComment.lexeme cs = map trim texts.
Proof.
  induction 1 as [ | c s texts Hw Hs IH | body Hbody
                 | body s texts Hbody Hs IH
                 | body s texts Hbody Hs IH
                 | body s texts Hbody Hs IH Hhd ];
    intros src pre pending buf rep tokens fuel Hc Hfuel.
  - exists []. rewrite !app_nil_r in *. rewrite <- Hc.
    split; [apply scanProgramLoop_end | reflexivity].
  - destruct fuel as [|fuel]; [simpl in Hfuel; lia|].
    rewrite (scanProgramLoop_skip_at onError fuel tokens _ _ _ _ _ _ _ _ Hc
               (scanToken_whitespace onError src pre c s pending buf rep Hc Hw)).
    assert (Hc' : SourceFile.contents src = (pre ++ [c]) ++ s)
      by (rewrite <- app_assoc; exact Hc).
    destruct (IH src (pre ++ [c]) pending buf rep tokens fuel Hc')
      as (cs & Hrun & Hlex); [simpl in Hfuel; lia|].
    exists cs. rewrite Hrun, <- app_assoc. split; [reflexivity | exact Hlex].
  - destruct fuel as [|fuel]; [simpl in Hfuel; lia|].
    assert (Hc0 : SourceFile.contents src = pre ++ lineComment body ++ [])
      by (rewrite app_nil_r; exact Hc).
    rewrite (scanProgramLoop_skip_at onError fuel tokens _ _ _ _ _ _ _ _ Hc
               (scanToken_comment onError src pre body [] pending buf rep
                  Hc0 Hbody I)).
    simpl terminatorOf. rewrite app_nil_r, <- Hc.
    eexists [_]. split; [apply scanProgramLoop_end | reflexivity].
  - destruct fuel as [|fuel]; [simpl in Hfuel; lia|].
    rewrite (scanProgramLoop_skip_at onError fuel tokens _ _ _ _ _ _ _ _ Hc
               (scanToken_comment onError src pre body _ pending buf rep
                  Hc Hbody eq_refl)).
    simpl terminatorOf.
    assert (Hc' : SourceFile.contents src
                  = (pre ++ lineComment body ++ [Characters.LF]) ++ s).
    { rewrite Hc, <- !app_assoc. reflexivity. }
    destruct (IH src _ (pending ++ [IComment.mk (trim (lineComment body))
                                      (strlen (pre ++ lineComment body ++ [Characters.LF]))])
                (buf ++ [IComment.mk (trim (lineComment body))
                           (strlen (pre ++ lineComment body ++ [Characters.LF]))])
                rep tokens fuel Hc')
      as (cs & Hrun & Hlex).
    { rewrite length_app in Hfuel. simpl in Hfuel. lia. }
    eexists (_ :: cs). rewrite Hrun, <- !app_assoc. simpl.
    split; [reflexivity | now rewrite Hlex].
  - destruct fuel as [|fuel]; [simpl in Hfuel; lia|].
    rewrite (scanProgramLoop_skip_at onError fuel tokens _ _ _ _ _ _ _ _ Hc
               (scanToken_comment onError src pre body _ pending buf rep
                  Hc Hbody eq_refl)).
    simpl terminatorOf.
    assert (Hc' : SourceFile.contents src
                  = (pre ++ lineComment body ++ [Characters.CR; Characters.LF]) ++ s).
    { rewrite Hc, <- !app_assoc. reflexivity. }
    destruct (IH src _ (pending ++ [IComment.mk (trim (lineComment body))
                                      (strlen (pre ++ lineComment body
                                               ++ [Characters.CR; Characters.LF]))])
                (buf ++ [IComment.mk (trim (lineComment body))
                           (strlen (pre ++ lineComment body
                                    ++ [Characters.CR; Characters.LF]))])
                rep tokens fuel Hc')
      as (cs & Hrun & Hlex).
    { rewrite length_app in Hfuel. simpl in Hfuel. lia. }
    eexists (_ :: cs). rewrite Hrun, <- !app_assoc. simpl.
    split; [reflexivity | now rewrite Hlex].
  - destruct fuel as [|fuel]; [simpl in Hfuel; lia|].
    rewrite (scanProgramLoop_skip_at onError fuel tokens _ _ _ _ _ _ _ _ Hc
               (scanToken_comment onError src pre body _ pending buf rep
                  Hc Hbody eq_refl)).
    unfold terminatorOf. change (Characters.CR =? Characters.LF) with false.
    cbv iota. rewrite Hhd.
    assert (Hc' : SourceFile.contents src
                  = (pre ++ lineComment body ++ [Characters.CR]) ++ s).
    { rewrite Hc, <- !app_assoc. reflexivity. }
    destruct (IH src _ (pending ++ [IComment.mk (trim (lineComment body))
                                      (strlen (pre ++ lineComment body ++ [Characters.CR]))])
                (buf ++ [IComment.mk (trim (lineComment body))
                           (strlen (pre ++ lineComment body ++ [Characters.CR]))])
                rep tokens fuel Hc')
      as (cs & Hrun & Hlex).
    { rewrite length_app in Hfuel. simpl in Hfuel. lia. }
    eexists (_ :: cs). rewrite Hrun, <- !app_assoc. simpl.
    split; [reflexivity | now rewrite Hlex].
Qed.

(** On an input of white space and line comments only, [tokenize]
    returns the EOF token alone, at the end of the input, without a call
    of the reporter, and the EOF token carries one record for each
    comment of the input, in order. *)
Lemma blank_tokenizeRun (texts : list jsstring) (p : jsstring)
  (onError : option ErrorReporter) :
  blank texts p ->
  exists cs st,
    tokenizeRun p onError
    = (Returned [Token.mk EOF [] cs (strlen p)], st)
    /\ map IComment.lexeme cs = map trim texts
    /\ ClutchLexer.reported st = [].
Proof.
  intros Hblank.
  destruct (blank_run (reporterOf onError) texts p Hblank
              (SourceFile.new p None) [] [] [] [] []
              (StringScanner.remaining (StringScanner.new p)) eq_refl)
    as (cs & Hrun & Hlex).
  { change (StringScanner.new p)
      with (StringScanner.mk (SourceFile.new p None) (strlen [])).
    rewrite (remaining_app (SourceFile.new p None) [] p eq_refl). lia. }
  exists cs.
  exists (ClutchLexer.mk
            (StringScanner.mk (SourceFile.new p None) (strlen p))
            (strlen p) [] cs []).
  split; [|split; [exact Hlex | reflexivity]].
  rewrite tokenizeRun_unfold.
  change (ClutchLexer.new (StringScanner.new p))
    with (lexerAt (SourceFile.new p None) (strlen []) [] [] []).
  rewrite Hrun. unfold lexerAt. simpl. now rewrite Z.sub_0_r.
Qed.

(** The comments of a turn that made a token. *)
Lemma attached_token (p : jsstring) (st st' : ClutchLexer.t)
  (tokens : list Token.t) (tok : Token.t) :
  invariant p st tokens -> attached st tokens ->
  tokenFrom (afterAdvance st) tok st' ->
  attached st' (tokens ++ [tok]).
Proof.
  intros Hinv [Htok Hbefore Hafter] (_ & Hpos & _ & _ & Hc & Hl & _).
  destruct (afterAdvance_fields st) as (Fp & Fl & _).
  rewrite Fp in Hpos. rewrite Fl in Hc.
  constructor.
  - apply Forall_app. split; [exact Htok|]. constructor; [|constructor].
    rewrite Hc. eapply Forall_impl; [|exact Hbefore]. simpl.
    intros c Hle. lia.
  - rewrite Hl. constructor.
  - rewrite Hl. constructor.
Qed.

(** The comments of a turn that made no token: a record pushed in the
    turn has the cursor as offset, which is behind every token made so
    far. *)
Lemma attached_skip (p : jsstring) (st st' : ClutchLexer.t)
  (tokens : list Token.t) :
  invariant p st tokens -> attached st tokens ->
  skipFrom (afterAdvance st) st' ->
  attached st' tokens.
Proof.
  intros Hinv [Htok Hbefore Hafter] (_ & Hpos & Hcases).
  destruct (afterAdvance_fields st) as (Fp & Fl & Fb & _ & Fc).
  rewrite Fp in Hpos. rewrite Fl, Fb, Fc in Hcases.
  pose proof (inv_before _ _ _ Hinv) as Hoffsets.
  destruct (inv_anchored _ _ _ Hinv) as [Hanchor _].
  assert (Hbefore' :
            Forall (fun c => IComment.offset c <= ClutchLexer.position st')
              (ClutchLexer.lastComments st)).
  { eapply Forall_impl; [|exact Hbefore]. simpl. intros c Hle. lia. }
  destruct Hcases as [[Hl _] | (c & Hl & _ & Hc)].
  - constructor; [exact Htok | |]; rewrite Hl; assumption.
  - constructor; [exact Htok | |]; rewrite Hl.
    + apply Forall_app. split; [exact Hbefore'|].
      constructor; [lia | constructor].
    + apply Forall_app. split; [exact Hafter|].
      constructor; [|constructor].
      eapply Forall_impl; [|exact Hoffsets]. simpl. intros t Ht. lia.
Qed.

(** The loop keeps [attached] beside [invariant]. *)
Lemma scanProgramLoop_attached (onError : ErrorReporter) (p : jsstring)
  (fuel : nat) (st : ClutchLexer.t) (tokens : list Token.t) :
  invariant p st tokens -> attached st tokens ->
  (StringScanner.remaining (ClutchLexer.program st) <= fuel)%nat ->
  match ClutchLexer.scanProgramLoop onError fuel tokens st with
  | (Returned tokens', st') => invariant p st' tokens' /\ attached st' tokens'
  | (Thrown e, _) => reporterThrew onError e
  end.
Proof.
  revert st tokens.
  induction fuel as [|fuel IH]; intros st tokens Hinv Hatt Hfuel.
  - simpl. split; assumption.
  - simpl. destruct (StringScanner.hasNext (ClutchLexer.program st)) eqn:Hn;
      [|split; assumption].
    pose proof (scanToken_step onError st (inv_anchored _ _ _ Hinv) Hn) as Hstep.
    unfold bind.
    destruct (ClutchLexer.scanToken onError st) as [[[tok|]|e] st'];
      simpl in Hstep; [| |exact Hstep].
    + apply IH.
      * eapply invariant_token; eassumption.
      * eapply attached_token; eassumption.
      * destruct Hstep as [Hadv _]. eapply remaining_after; eassumption.
    + apply IH.
      * eapply invariant_skip; eassumption.
      * eapply attached_skip; eassumption.
      * destruct Hstep as [Hadv _]. eapply remaining_after; eassumption.
Qed.

Lemma attached_initial (p : jsstring) :
  attached (ClutchLexer.new (StringScanner.new p)) [].
Proof. constructor; simpl; constructor. Qed.

Lemma in_concat_comments (c : IComment.t) (tokens : list Token.t) :
  In c (List.concat (map Token.comments tokens)) ->
  exists t, In t tokens /\ In c (Token.comments t).
Proof.
  intros Hin. apply in_concat in Hin. destruct Hin as (cs & Hcs & Hc).
  apply in_map_iff in Hcs. destruct Hcs as (t & <- & Ht). eauto.
Qed.

(** A turn of the loop leaves the lexer anchored. *)
Lemma anchored_after (st st' : ClutchLexer.t) :
  anchored st ->
  advanced (ClutchLexer.program (afterAdvance st)) (ClutchLexer.program st') ->
  ClutchLexer.position st <= ClutchLexer.position st' <= cursor st' ->
  anchored st'.
Proof.
  intros [Ha Ha'] Hadv Hpos.
  destruct (afterAdvance_fields st) as (_ & _ & _ & Fi & Fc).
  pose proof (advanced_inputOf _ _ Hadv) as Hin'. rewrite Fi in Hin'.
  pose proof (advanced_cursor _ _ Hadv) as Hcur'. rewrite Fi, Fc in Hcur'.
  unfold anchored. rewrite Hin'. lia.
Qed.

(** The rest of the loop from any of its turns: the tokens it makes are
    added to those made before; the records it buffers are added to the
    buffer; and the records pending at that turn followed by those it
    buffers are those on the tokens it makes followed by those left
    pending when it ends. *)
Lemma scanProgramLoop_rest (onError : ErrorReporter) (fuel : nat)
  (st : ClutchLexer.t) (tokens : list Token.t) :
  anchored st ->
  (StringScanner.remaining (ClutchLexer.program st) <= fuel)%nat ->
  match ClutchLexer.scanProgramLoop onError fuel tokens st with
  | (Returned tokens', st') =>
      exists made new,
        tokens' = tokens ++ made
        /\ ClutchLexer.buffered st' = ClutchLexer.buffered st ++ new
        /\ ClutchLexer.lastComments st ++ new
           = List.concat (map Token.comments made)
             ++ ClutchLexer.lastComments st'
  | (Thrown e, _) => reporterThrew onError e
  end.
Proof.
  revert st tokens.
  induction fuel as [|fuel IH]; intros st tokens Ha Hfuel.
  - simpl. exists [], []. now rewrite !app_nil_r.
  - simpl. destruct (StringScanner.hasNext (ClutchLexer.program st)) eqn:Hn;
      [|exists [], []; now rewrite !app_nil_r].
    pose proof (scanToken_step onError st Ha Hn) as Hstep.
    unfold bind.
    destruct (ClutchLexer.scanToken onError st) as [[[tok|]|e] st1];
      simpl in Hstep; [| |exact Hstep].
    + destruct Hstep as (Hadv & Hpos & Hcur & _ & Hc & Hl & Hb).
      destruct (afterAdvance_fields st) as (Fp & Fl & Fb & _).
      rewrite Fp in Hpos. rewrite Fl in Hc. rewrite Fb in Hb.
      assert (Ha1 : anchored st1)
        by (apply (anchored_after st st1 Ha Hadv); lia).
      specialize (IH st1 (tokens ++ [tok]) Ha1
                    (remaining_after st st1 fuel Hadv Hfuel)).
      destruct (ClutchLexer.scanProgramLoop onError fuel _ st1)
        as [[tokens'|e] st']; [|exact IH].
      destruct IH as (made & new & Ht & Hbuf & Hlast).
      exists (tok :: made), new. rewrite Ht, Hbuf, Hb, <- app_assoc.
      split; [reflexivity|]. split; [reflexivity|].
      rewrite Hl in Hlast. simpl in Hlast. simpl.
      now rewrite Hc, Hlast, <- app_assoc.
    + destruct Hstep as (Hadv & Hpos & Hcases).
      destruct (afterAdvance_fields st) as (Fp & Fl & Fb & _).
      rewrite Fp in Hpos. rewrite Fl, Fb in Hcases.
      assert (Ha1 : anchored st1)
        by (apply (anchored_after st st1 Ha Hadv); lia).
      specialize (IH st1 tokens Ha1 (remaining_after st st1 fuel Hadv Hfuel)).
      destruct (ClutchLexer.scanProgramLoop onError fuel _ st1)
        as [[tokens'|e] st']; [|exact IH].
      destruct IH as (made & new & Ht & Hbuf & Hlast).
      destruct Hcases as [[Hl Hb] | (c & Hl & Hb & _)].
      * exists made, new. now rewrite Hbuf, Hb, <- Hlast, Hl.
      * exists made, (c :: new).
        rewrite Hbuf, Hb, <- Hlast, Hl, <- !app_assoc. auto.
Qed.

(** C2, as the code has it.  On an input of white space and line comments
    only, [tokenize] returns the EOF token alone, at the end of the
    input, without a call of the reporter; the comments are not dropped:
    the EOF token carries one record for each comment of the input, in
    order, whose lexeme is the trimmed text of the comment; it carries
    none exactly when the input has no comment.  On every input, the
    records buffered are those on the tokens before EOF followed by those
    on the EOF token, and a comment that no significant token follows is
    on the EOF token: a record is on the EOF token exactly when every
    token before EOF has a smaller offset than the record, whose offset
    is the cursor at which it was pushed; a record that a token follows
    has at most the offset of that token.  And from any turn of the loop
    of [scanProgram], the records pending at that turn followed by those
    buffered from then on are those on the tokens made from then on
    followed by those on the EOF token: when no token is made from then
    on, they are all on the EOF token. *)
Theorem blank_input_comments_on_EOF (texts : list jsstring) (p : jsstring)
  (onError : option ErrorReporter) :
  (blank texts p ->
   exists cs,
     tokenize p onError = Returned [Token.mk EOF [] cs (strlen p)]
     /\ map IComment.lexeme cs = map trim texts
     /\ ClutchLexer.reported (snd (tokenizeRun p onError)) = [])
  /\ match tokenizeRun p onError with
     | (Returned ts, st) =>
         exists tokens eof,
           ts = tokens ++ [eof]
           /\ Token.kind eof = EOF
           /\ List.concat (map Token.comments tokens) ++ Token.comments eof
              = ClutchLexer.buffered st
           /\ (forall c,
                 In c (ClutchLexer.buffered st) ->
                 (In c (Token.comments eof)
                  <-> forall t,
                        In t tokens -> Token.offset t < IComment.offset c))
           /\ (forall t c,
                 In t tokens -> In c (Token.comments t) ->
                 IComment.offset c <= Token.offset t)
     | (Thrown e, _) => reporterThrew (reporterOf onError) e
     end
  /\ (forall (fuel : nat) (made0 : list Token.t) (st : ClutchLexer.t),
        anchored st ->
        (StringScanner.remaining (ClutchLexer.program st) <= fuel)%nat ->
        match
          (tokens <- ClutchLexer.scanProgramLoop (reporterOf onError) fuel
                       made0 ;;
           eof <- ClutchLexer.createToken EOF (Some []) ;;
           ret (tokens ++ [eof])) st
        with
        | (Returned ts, st') =>
            exists made eof new,
              ts = made0 ++ made ++ [eof]
              /\ Token.kind eof = EOF
              /\ ClutchLexer.buffered st' = ClutchLexer.buffered st ++ new
              /\ ClutchLexer.lastComments st ++ new
                 = List.concat (map Token.comments made) ++ Token.comments eof
              /\ (made = [] ->
                  Token.comments eof = ClutchLexer.lastComments st ++ new)
        | (Thrown e, _) => reporterThrew (reporterOf onError) e
        end).
Proof.
  split; [|split].
  - intros Hblank.
    destruct (blank_tokenizeRun texts p onError Hblank)
      as (cs & st & Hrun & Hlex & Hrep).
    exists cs. rewrite tokenize_fst, Hrun. simpl. auto.
  - rewrite tokenizeRun_unfold.
    pose proof (scanProgramLoop_attached (reporterOf onError) p
                  (StringScanner.remaining (StringScanner.new p))
                  (ClutchLexer.new (StringScanner.new p)) []
                  (invariant_initial p) (attached_initial p) (Nat.le_refl _))
      as Hloop.
    destruct (ClutchLexer.scanProgramLoop _ _ _ _) as [[tokens|e] st];
      [|exact Hloop].
    destruct Hloop as [Hinv [Htok _ Hafter]].
    pose proof (inv_comments _ _ _ Hinv) as Hcom.
    rewrite Forall_forall in Htok, Hafter.
    assert (Hon : forall t c,
               In t tokens -> In c (Token.comments t) ->
               IComment.offset c <= Token.offset t).
    { intros t c Ht Hc. specialize (Htok t Ht).
      rewrite Forall_forall in Htok. now apply Htok. }
    eexists tokens, _. split; [reflexivity|].
    cbn [Token.kind Token.comments ClutchLexer.buffered].
    split; [reflexivity|]. split; [exact Hcom|]. split; [|exact Hon].
    intros c Hc. split.
    + intros Heof t Ht. specialize (Hafter c Heof).
      rewrite Forall_forall in Hafter. now apply Hafter.
    + intros Hno. rewrite <- Hcom in Hc. apply in_app_or in Hc.
      destruct Hc as [Hc|Hc]; [|exact Hc].
      apply in_concat_comments in Hc. destruct Hc as (t & Ht & Hc).
      specialize (Hon t c Ht Hc). specialize (Hno t Ht). lia.
  - intros fuel made0 st Ha Hfuel.
    pose proof (scanProgramLoop_rest (reporterOf onError) fuel st made0
                  Ha Hfuel) as Hrest.
    unfold bind at 1.
    destruct (ClutchLexer.scanProgramLoop _ _ _ _) as [[tokens|e] st'];
      [|exact Hrest].
    destruct Hrest as (made & new & Ht & Hbuf & Hlast).
    unfold bind, ret, ClutchLexer.createToken. simpl.
    eexists made, _, new. rewrite Ht, <- app_assoc.
    split; [reflexivity|]. cbn [Token.kind Token.comments].
    split; [reflexivity|]. split; [exact Hbuf|]. split; [exact Hlast|].
    intros ->. rewrite Hlast. reflexivity.
Qed.

(** A witness for [blank_input_comments_on_EOF]: the input [// hi], and
    the whole run on the input [x // c] as the rest of the loop from its
    first turn. *)
Lemma blank_input_comments_on_EOF_witness :
  (exists cs,
     tokenize (str "// hi") None
     = Returned [Token.mk EOF [] cs (strlen (str "// hi"))]
     /\ map IComment.lexeme cs = map trim [str "// hi"]
     /\ ClutchLexer.reported (snd (tokenizeRun (str "// hi") None)) = [])
  /\ anchored (ClutchLexer.new (StringScanner.new (str "x // c")))
  /\ (StringScanner.remaining (StringScanner.new (str "x // c")) <= 6)%nat
  /\ match
       (tokens <- ClutchLexer.scanProgramLoop (reporterOf None) 6 [] ;;
        eof <- ClutchLexer.createToken EOF (Some []) ;;
        ret (tokens ++ [eof]))
         (ClutchLexer.new (StringScanner.new (str "x // c")))
     with
     | (Returned ts, st') =>
         exists made eof new,
           ts = [] ++ made ++ [eof]
           /\ Token.kind eof = EOF
           /\ ClutchLexer.buffered st'
              = ClutchLexer.buffered
                  (ClutchLexer.new (StringScanner.new (str "x // c")))
                ++ new
           /\ ClutchLexer.lastComments
                (ClutchLexer.new (StringScanner.new (str "x // c")))
              ++ new
              = List.concat (map Token.comments made) ++ Token.comments eof
           /\ (made = [] ->
               Token.comments eof
               = ClutchLexer.lastComments
                   (ClutchLexer.new (StringScanner.new (str "x // c")))
                 ++ new)
     | (Thrown e, _) => reporterThrew (reporterOf None) e
     end.
Proof.
  split; [|split; [|split]].
  - apply (proj1 (blank_input_comments_on_EOF [lineComment (str " hi")]
                    (str "// hi") None)).
    apply (blank_comment_end (str " hi")). reflexivity.
  - unfold anchored. vm_compute. repeat split; discriminate.
  - vm_compute. repeat constructor.
  - apply (proj2 (proj2 (blank_input_comments_on_EOF [lineComment (str " hi")]
                           (str "// hi") None))).
    + unfold anchored. vm_compute. repeat split; discriminate.
    + vm_compute. repeat constructor.
Defined.

(** The input [x // c]: the comment after the last token is on the EOF
    token, with the cursor after the comment as offset. *)
Lemma tokenize_trailing_comment :
  tokenize (str "x // c") None
  = Returned
      [Token.mk IDENTIFIER (str "x") [] 0;
       Token.mk EOF [] [IComment.mk (str "// c") 6] 6].
Proof. vm_compute. reflexivity. Qed.

(** C2, as stated, fails on the input [// hi], which is one line comment:
    the EOF token that [tokenize] returns carries the comment. *)
Lemma trailing_comment_on_EOF :
  blank [str "// hi"] (str "// hi")
  /\ tokenize (str "// hi") None
     = Returned [Token.mk EOF [] [IComment.mk (str "// hi") 5] 5]
  /\ tokenize (str "// hi") (Some recordingReporter)
     = Returned [Token.mk EOF [] [IComment.mk (str "// hi") 5] 5]
  /\ ~ (forall t,
          In t [Token.mk EOF [] [IComment.mk (str "// hi") 5] 5] ->
          Token.comments t = []).
Proof.
  split; [apply (blank_comment_end (str " hi")); reflexivity|].
  split; [reflexivity|]. split; [reflexivity|].
  intros H. specialize (H _ (or_introl eq_refl)). discriminate.
Qed.

(** ** The loops run to their end

    Each loop of the lexer is run for as many turns as characters remain.
    That is enough: with that many turns or more the result is the same,
    and the loop satisfies the equation of the [while] it stands for. *)

Lemma remaining_zero (sc : StringScanner.t) :
  StringScanner.hasNext sc = false -> StringScanner.remaining sc = O.
Proof.
  intros Hn. apply hasNext_false in Hn.
  unfold StringScanner.remaining, StringScanner.position. lia.
Qed.

Lemma remaining_advance (sc : StringScanner.t) :
  StringScanner.hasNext sc = true ->
  StringScanner.remaining sc
  = S (StringScanner.remaining (stepped sc)).
Proof.
  intros Hn. apply hasNext_true in Hn.
  unfold StringScanner.remaining, StringScanner.position,
    StringScanner.length in *. simpl. lia.
Qed.

Lemma scanPredicateSteps_fuel (predicate : Z -> bool) (fuel : nat)
  (sc : StringScanner.t) :
  (StringScanner.remaining sc <= fuel)%nat ->
  scanPredicateSteps predicate fuel sc
  = scanPredicateSteps predicate (StringScanner.remaining sc) sc.
Proof.
  revert sc. induction fuel as [|fuel IH]; intros sc Hfuel.
  - now replace (StringScanner.remaining sc) with O by lia.
  - destruct (StringScanner.hasNext sc) eqn:Hn.
    + rewrite (remaining_advance sc Hn) in *.
      assert (Hle : (StringScanner.remaining (stepped sc)
                     <= fuel)%nat) by lia.
      simpl. rewrite Hn.
      destruct (negb _); [reflexivity|]. exact (IH _ Hle).
    + rewrite (remaining_zero sc Hn). simpl. now rewrite Hn.
Qed.

Lemma scanPredicate_while (predicate : Z -> bool) (sc : StringScanner.t) :
  scanPredicateSteps predicate (StringScanner.remaining sc) sc
  = if StringScanner.hasNext sc then
      if negb (onCode predicate (StringScanner.peek sc 0)) then sc
      else
        let sc' := stepped sc in
        scanPredicateSteps predicate (StringScanner.remaining sc') sc'
    else sc.
Proof.
  destruct (StringScanner.hasNext sc) eqn:Hn.
  - rewrite (remaining_advance sc Hn). simpl. now rewrite Hn.
  - now rewrite (remaining_zero sc Hn).
Qed.

Lemma advanceToEOL_while (sc : StringScanner.t) :
  advanceToEOLSteps (StringScanner.remaining sc) sc
  = if StringScanner.hasNext sc then
      let (lf, sc1) := StringScanner.match_ Characters.LF sc in
      if lf then sc1
      else
        let (cr, sc2) := StringScanner.match_ Characters.CR sc1 in
        if cr then snd (StringScanner.match_ Characters.LF sc2)
        else
          let sc' := stepped sc2 in
          advanceToEOLSteps (StringScanner.remaining sc') sc'
    else sc.
Proof.
  destruct (StringScanner.hasNext sc) eqn:Hn.
  - rewrite (remaining_advance sc Hn). simpl. rewrite Hn.
    destruct (match_cases Characters.LF sc) as [[-> _] | [-> _]];
      [|reflexivity].
    destruct (match_cases Characters.CR sc) as [[-> _] | [-> _]];
      reflexivity.
  - now rewrite (remaining_zero sc Hn).
Qed.

Lemma scanString_while (sc : StringScanner.t) :
  scanStringSteps (StringScanner.remaining sc) sc
  = if StringScanner.hasNext sc then
      let (quote, sc1) := StringScanner.match_ Characters.SQUOTE sc in
      if quote then (true, sc1)
      else
        let sc' := stepped sc1 in
        scanStringSteps (StringScanner.remaining sc') sc'
    else (false, sc).
Proof.
  destruct (StringScanner.hasNext sc) eqn:Hn.
  - rewrite (remaining_advance sc Hn). simpl. rewrite Hn.
    destruct (match_cases Characters.SQUOTE sc) as [[-> _] | [-> _]];
      reflexivity.
  - now rewrite (remaining_zero sc Hn).
Qed.

Lemma scanNumber_while (sc : StringScanner.t) :
  scanNumberSteps (StringScanner.remaining sc) sc
  = if StringScanner.hasNext sc then
      let next := StringScanner.peek sc 0 in
      let (period, sc1) := StringScanner.match_ Characters.PERIOD sc in
      if period then sc1
      else if negb (onCode isDigit next) then sc1
      else
        let sc' := stepped sc1 in
        scanNumberSteps (StringScanner.remaining sc') sc'
    else sc.
Proof.
  destruct (StringScanner.hasNext sc) eqn:Hn.
  - rewrite (remaining_advance sc Hn). simpl. rewrite Hn.
    destruct (match_cases Characters.PERIOD sc) as [[-> _] | [-> _]];
      reflexivity.
  - now rewrite (remaining_zero sc Hn).
Qed.

Lemma step_anchored (onError : ErrorReporter) (st st' : ClutchLexer.t)
  (token : option Token.t) :
  anchored st ->
  stepPost onError (afterAdvance st) (Returned token, st') ->
  anchored st'
  /\ advanced (ClutchLexer.program (afterAdvance st)) (ClutchLexer.program st').
Proof.
  intros [Ha Ha'] Hstep.
  destruct (afterAdvance_fields st) as (Fp & _ & _ & Fi & Fc).
  assert (Hadv : advanced (ClutchLexer.program (afterAdvance st))
                   (ClutchLexer.program st')
                 /\ ClutchLexer.position st <= ClutchLexer.position st'
                    <= cursor st').
  { destruct token as [tok|]; simpl in Hstep.
    - destruct Hstep as (H1 & H2 & H3 & _). rewrite Fp in H2. split; [exact H1 | lia].
    - destruct Hstep as (H1 & H2 & _). rewrite Fp in H2. split; [exact H1 | lia]. }
  destruct Hadv as [Hadv Hpos]. split; [|exact Hadv].
  pose proof (advanced_inputOf _ _ Hadv) as Hin. rewrite Fi in Hin.
  pose proof (advanced_cursor _ _ Hadv) as Hcur. rewrite Fi, Fc in Hcur.
  unfold anchored. rewrite Hin. lia.
Qed.

(** With at least as many turns as characters remain, the loop of
    [scanProgram] gives one result. *)
Lemma scanProgramLoop_fuel (onError : ErrorReporter) (fuel1 fuel2 : nat)
  (tokens : list Token.t) (st : ClutchLexer.t) :
  anchored st ->
  (StringScanner.remaining (ClutchLexer.program st) <= fuel1)%nat ->
  (StringScanner.remaining (ClutchLexer.program st) <= fuel2)%nat ->
  ClutchLexer.scanProgramLoop onError fuel1 tokens st
  = ClutchLexer.scanProgramLoop onError fuel2 tokens st.
Proof.
  revert fuel2 tokens st.
  induction fuel1 as [|fuel1 IH]; intros fuel2 tokens st Ha H1 H2.
  - assert (Hn : StringScanner.hasNext (ClutchLexer.program st) = false).
    { apply hasNext_false.
      unfold StringScanner.remaining, StringScanner.position in H1. lia. }
    destruct fuel2; simpl; [reflexivity | now rewrite Hn].
  - destruct (StringScanner.hasNext (ClutchLexer.program st)) eqn:Hn.
    + destruct fuel2 as [|fuel2].
      { rewrite (remaining_advance _ Hn) in H2. lia. }
      simpl. rewrite Hn. unfold bind.
      pose proof (scanToken_step onError st Ha Hn) as Hstep.
      destruct (ClutchLexer.scanToken onError st) as [[token|e] st'];
        [|reflexivity].
      destruct (step_anchored onError st st' token Ha Hstep) as [Ha' Hadv].
      apply IH; [exact Ha' | |]; eapply remaining_after; eassumption.
    + simpl. rewrite Hn. destruct fuel2; simpl; [reflexivity | now rewrite Hn].
Qed.

(** The loop of [scanProgram] is the [while] of the source. *)
Lemma scanProgram_while (onError : ErrorReporter) (tokens : list Token.t)
  (st : ClutchLexer.t) :
  anchored st ->
  ClutchLexer.scanProgramLoop onError
    (StringScanner.remaining (ClutchLexer.program st)) tokens st
  = if StringScanner.hasNext (ClutchLexer.program st) then
      match ClutchLexer.scanToken onError st with
      | (Returned token, st') =>
          ClutchLexer.scanProgramLoop onError
            (StringScanner.remaining (ClutchLexer.program st'))
            (match token with
             | Some token => tokens ++ [token]
             | None => tokens
             end) st'
      | (Thrown e, st') => (Thrown e, st')
      end
    else (Returned tokens, st).
Proof.
  intros Ha.
  destruct (StringScanner.hasNext (ClutchLexer.program st)) eqn:Hn.
  - pose proof (remaining_advance _ Hn) as Hrem. rewrite Hrem.
    simpl. rewrite Hn. unfold bind.
    pose proof (scanToken_step onError st Ha Hn) as Hstep.
    destruct (ClutchLexer.scanToken onError st) as [[token|e] st'];
      [|reflexivity].
    destruct (step_anchored onError st st' token Ha Hstep) as [Ha' Hadv].
    apply scanProgramLoop_fuel; [exact Ha' | | apply Nat.le_refl].
    eapply remaining_after; [exact Hadv|]. rewrite Hrem. apply Nat.le_refl.
  - rewrite (remaining_zero _ Hn). reflexivity.
Qed.

(** ** Unterminated strings *)

Lemma scanStringSteps_unterminated (src : SourceFile.t) (rest : jsstring) :
  forall (pre : jsstring) (fuel : nat),
    SourceFile.contents src = pre ++ rest ->
    forallb (fun c => negb (c =? Characters.SQUOTE)) rest = true ->
    (List.length rest <= fuel)%nat ->
    scanStringSteps fuel (StringScanner.mk src (strlen pre))
    = (false, StringScanner.mk src (strlen (pre ++ rest))).
Proof.
  induction rest as [|c rest IH]; intros pre fuel Hc Hq Hfuel.
  - rewrite app_nil_r in *. destruct fuel as [|fuel]; [reflexivity|].
    rewrite <- Hc. simpl scanStringSteps.
    pose proof (hasNext_end src) as Hn. rewrite Hn. reflexivity.
  - simpl in Hq. apply andb_prop in Hq. destruct Hq as [Hq Hrest].
    apply negb_true_iff in Hq.
    destruct fuel as [|fuel]; [simpl in Hfuel; lia|].
    simpl scanStringSteps.
    rewrite (hasNext_app src pre c rest Hc).
    rewrite (match_miss src pre _ Characters.SQUOTE Hc) by exact Hq.
    unfold stepped.
    cbn [snd StringScanner.source StringScanner.mPosition].
    rewrite <- (strlen_snoc pre c).
    rewrite (IH (pre ++ [c]) fuel); try assumption.
    + now rewrite <- app_assoc.
    + rewrite <- app_assoc. exact Hc.
    + simpl in Hfuel. lia.
Qed.

(** A string that no quote closes: the error is reported at the anchor
    and, when the reporter returns, the STRING token holds the text from
    one past the anchor to the end of the input.  That text is the text
    after the opening quote when the anchor is at the quote. *)
Lemma scanString_unterminated (onError : ErrorReporter) (src : SourceFile.t)
  (pre rest : jsstring) (anchor : Z)
  (pending buf : list IComment.t) (rep : list Report) :
  SourceFile.contents src = pre ++ rest ->
  forallb (fun c => negb (c =? Characters.SQUOTE)) rest = true ->
  0 <= anchor < strlen pre ->
  let st :=
    ClutchLexer.mk (StringScanner.mk src (strlen pre)) anchor pending buf rep in
  let stop := strlen (pre ++ rest) in
  let st1 :=
    ClutchLexer.mk (StringScanner.mk src stop) anchor pending buf rep in
  ClutchLexer.scanString onError st
  = match onError rep (errorSpan st1) (str "Unterminated string") with
    | Returned _ =>
        (Returned
           (Token.mk STRING
              (js_substring (SourceFile.contents src) (anchor + 1) stop)
              pending (anchor + 1)),
         ClutchLexer.mk (StringScanner.mk src stop) stop [] buf
           (rep ++ [(errorSpan st1, str "Unterminated string")]))
    | Thrown e => (Thrown e, withReport st1 (str "Unterminated string"))
    end.
Proof.
  intros Hc Hq Ha st stop st1.
  unfold ClutchLexer.scanString, bind at 1.
  rewrite scanString_steps by (subst st; exact (inside_app src pre rest Hc)).
  subst st. cbn [ClutchLexer.program ClutchLexer.setProgram].
  rewrite (remaining_app src pre rest Hc).
  rewrite (scanStringSteps_unterminated src rest pre _ Hc Hq (le_n _)).
  cbn [fst snd].
  fold stop. cbn [ClutchLexer.position ClutchLexer.lastComments
                  ClutchLexer.buffered ClutchLexer.reported].
  fold st1.
  assert (Hr : reading st1).
  { unfold reading, st1, cursor, inputOf, stop. simpl.
    rewrite Hc. rewrite strlen_app in *. pose proof (strlen_nonneg rest). lia. }
  unfold bind at 1. rewrite (reportError_run onError _ st1 Hr).
  destruct (onError _ _ _) as [[]|e]; [|reflexivity].
  unfold bind, ClutchLexer.incrPosition. rewrite createToken_run.
  unfold withReport, st1, cursor, inputOf. simpl.
  assert (Hstop : strlen pre <= stop /\ stop = strlen (SourceFile.contents src)).
  { unfold stop. rewrite Hc, strlen_app. pose proof (strlen_nonneg rest). lia. }
  rewrite js_substring_length by lia.
  replace (stop - (stop - (anchor + 1))) with (anchor + 1) by lia.
  reflexivity.
Qed.

(** ** The cache of a file *)

Lemma computeLine_out_of_range (f : SourceFile.t) (o : Z) :
  o < 0 \/ o > SourceFile.length f ->
  exists m, SourceFile.computeLine o f = (Thrown (RangeError m), f).
Proof.
  intros Ho. unfold SourceFile.computeLine, bind.
  rewrite assertValidOffset_run.
  destruct (Z.ltb_spec o 0); [eauto|].
  destruct (Z.gtb_spec o (SourceFile.length f)); [eauto | lia].
Qed.

Lemma assertValidOffset_state (o : Z) (f : SourceFile.t) :
  snd (SourceFile.assertValidOffset o f) = f.
Proof.
  rewrite assertValidOffset_run.
  destruct (o <? 0); [reflexivity|].
  destruct (o >? SourceFile.length f); reflexivity.
Qed.

Lemma span_state (f : SourceFile.t) (a b : Z) :
  snd (SourceFile.span a b f) = f.
Proof.
  unfold SourceFile.span, bind, throw.
  pose proof (assertValidOffset_state a f) as Ha.
  destruct (SourceFile.assertValidOffset a f) as [[[]|e] f1]; simpl in Ha;
    subst f1; [|reflexivity].
  pose proof (assertValidOffset_state b f) as Hb.
  destruct (SourceFile.assertValidOffset b f) as [[[]|e] f1]; simpl in Hb;
    subst f1; [|reflexivity].
  destruct (b <? a); reflexivity.
Qed.

(** Every method leaves the cache empty or filled with the table of the
    contents, as the constructor does. *)
Lemma methods_keep_cache (f : SourceFile.t) (a b : Z) :
  cacheValid f ->
  cacheValid (snd (SourceFile.lineStarts f))
  /\ cacheValid (snd (SourceFile.computeLine a f))
  /\ cacheValid (snd (SourceFile.computeColumn a f))
  /\ cacheValid (snd (SourceFile.span a b f)).
Proof.
  intros Hv.
  assert (Hline : cacheValid (snd (SourceFile.computeLine a f))).
  { destruct (Z.ltb_spec a 0) as [Hneg|Hpos].
    - destruct (computeLine_out_of_range f a (or_introl Hneg)) as [m ->].
      exact Hv.
    - destruct (Z.gtb_spec a (SourceFile.length f)) as [Hbig|Hin].
      + destruct (computeLine_out_of_range f a (or_intror (Z.lt_gt _ _ Hbig)))
          as [m ->].
        exact Hv.
      + rewrite computeLine_unfold by (assumption || lia).
        apply memoized_valid. }
  split; [rewrite lineStarts_run by assumption; apply memoized_valid|].
  split; [exact Hline|]. split.
  - unfold SourceFile.computeColumn, bind.
    pose proof (assertValidOffset_state a f) as Hs.
    destruct (SourceFile.assertValidOffset a f) as [[[]|e] f1]; simpl in Hs;
      subst f1; [|exact Hv].
    destruct (SourceFile.computeLine a f) as [[l|e] f2]; simpl in Hline;
      [|exact Hline].
    rewrite lineStarts_run by exact Hline. apply memoized_valid.
  - now rewrite span_state.
Qed.

(** ** Operators in two levels *)

Lemma peek_next (src : SourceFile.t) (pos : Z) :
  StringScanner.peek (StringScanner.mk src (pos + 1)) 0
  = StringScanner.peek (StringScanner.mk src pos) 1.
Proof.
  unfold StringScanner.peek, StringScanner.position. simpl.
  now rewrite Z.add_0_r.
Qed.

(** Matching [=] and then, if it matched, a second [=]: the kind depends
    on the next two characters, and the scanner has moved past the [=]
    that matched when the token is made. *)
Lemma twoLevel_run (one two three : TokenKind) (st : ClutchLexer.t) :
  ClutchLexer.emit
    (kind <- (b <- ClutchLexer.programMatch Characters.EQUALS ;;
              if b then
                b <- ClutchLexer.programMatch Characters.EQUALS ;;
                ret (if b then three else two)
              else ret one) ;;
     ClutchLexer.createToken kind None) st
  = ClutchLexer.emit
      (ClutchLexer.createToken
         (twoLevel (ClutchLexer.program st) one two three) None)
      (ClutchLexer.setProgram
         (StringScanner.mk (StringScanner.source (ClutchLexer.program st))
            (cursor st + twoLevelLength (ClutchLexer.program st))) st).
Proof.
  destruct st as [[src pos] anchor pending buf rep].
  unfold twoLevel, twoLevelLength, cursor.
  cbn [ClutchLexer.program StringScanner.source StringScanner.mPosition].
  unfold ClutchLexer.emit, bind at 1 2 3, ClutchLexer.programMatch,
    ClutchLexer.onProgram.
  cbn [ClutchLexer.program].
  destruct (match_cases Characters.EQUALS (StringScanner.mk src pos))
    as [[-> ->] | [-> ->]].
  - unfold ret.
    cbn [ClutchLexer.setProgram ClutchLexer.position ClutchLexer.lastComments
         ClutchLexer.buffered ClutchLexer.reported].
    rewrite Z.add_0_r. reflexivity.
  - cbn [code_is StringScanner.source StringScanner.mPosition].
    rewrite Z.eqb_refl.
    unfold bind at 1. cbn [ClutchLexer.program ClutchLexer.setProgram].
    rewrite <- (peek_next src pos).
    destruct (match_cases Characters.EQUALS (StringScanner.mk src (pos + 1)))
      as [[-> ->] | [-> ->]].
    + reflexivity.
    + cbn [code_is]. rewrite Z.eqb_refl. unfold ret.
      cbn [ClutchLexer.setProgram ClutchLexer.position
           ClutchLexer.lastComments ClutchLexer.buffered ClutchLexer.reported
           StringScanner.source StringScanner.mPosition ClutchLexer.program].
      rewrite <- Z.add_assoc. reflexivity.
Qed.

(** C5.  After [=] and after [!] the lexer matches one [=] and then, if
    it matched, a second one: the token is ASSIGN, EQUALS or IDENTICAL
    (NEGATE, NOT_EQUALS or NOT_IDENTICAL) by the next two characters, and
    takes the [=] that matched.  So [a === b !== c] gives the identifier
    [a], IDENTICAL, the identifier [b], NOT_IDENTICAL, the identifier [c]
    and EOF, whatever the reporter. *)
Theorem tokenize_identical (onError : option ErrorReporter) :
  tokenize (str "a === b !== c") onError
  = Returned
      [ Token.mk IDENTIFIER (str "a") [] 0;
        Token.mk IDENTICAL (str "===") [] 2;
        Token.mk IDENTIFIER (str "b") [] 6;
        Token.mk NOT_IDENTICAL (str "!==") [] 8;
        Token.mk IDENTIFIER (str "c") [] 12;
        Token.mk EOF [] [] 13 ]
  /\ (forall (reporter : ErrorReporter) (st : ClutchLexer.t),
        ClutchLexer.scanSwitch reporter (Some Characters.EQUALS) st
        = ClutchLexer.emit
            (ClutchLexer.createToken
               (twoLevel (ClutchLexer.program st) ASSIGN EQUALS IDENTICAL) None)
            (ClutchLexer.setProgram
               (StringScanner.mk (StringScanner.source (ClutchLexer.program st))
                  (cursor st + twoLevelLength (ClutchLexer.program st))) st))
  /\ (forall (reporter : ErrorReporter) (st : ClutchLexer.t),
        ClutchLexer.scanSwitch reporter (Some Characters.EXCLAIM) st
        = ClutchLexer.emit
            (ClutchLexer.createToken
               (twoLevel (ClutchLexer.program st) NEGATE NOT_EQUALS NOT_IDENTICAL)
               None)
            (ClutchLexer.setProgram
               (StringScanner.mk (StringScanner.source (ClutchLexer.program st))
                  (cursor st + twoLevelLength (ClutchLexer.program st))) st)).
Proof.
  split; [destruct onError; reflexivity|].
  split; intros reporter st.
  - exact (twoLevel_run ASSIGN EQUALS IDENTICAL st).
  - exact (twoLevel_run NEGATE NOT_EQUALS NOT_IDENTICAL st).
Qed.

(** ** The binary search runs to its end *)

Lemma binarySearch_half (lo hi : Z) :
  lo < hi -> lo <= lo + (hi - lo) / 2 < hi.
Proof.
  intros H. pose proof (Z.div_pos (hi - lo) 2).
  pose proof (Z.div_lt_upper_bound (hi - lo) 2 (hi - lo)). lia.
Qed.

(** With [max - min] turns or more the search gives one result. *)
Lemma binarySearchLoop_fuel (ls : list Z) (o : Z) (fuel1 fuel2 : nat)
  (lo hi : Z) :
  (Z.to_nat (hi - lo) <= fuel1)%nat -> (Z.to_nat (hi - lo) <= fuel2)%nat ->
  SourceFile.binarySearchLoop fuel1 ls o lo hi
  = SourceFile.binarySearchLoop fuel2 ls o lo hi.
Proof.
  revert fuel2 lo hi.
  induction fuel1 as [|fuel1 IH]; intros fuel2 lo hi H1 H2.
  - destruct fuel2 as [|fuel2]; simpl; [reflexivity|].
    destruct (Z.ltb_spec lo hi); [lia | reflexivity].
  - simpl. destruct (Z.ltb_spec lo hi) as [Hlt|Hge].
    + destruct fuel2 as [|fuel2]; [lia|]. simpl.
      destruct (Z.ltb_spec lo hi); [|lia].
      pose proof (binarySearch_half lo hi Hlt).
      destruct (js_gt _ o); apply IH; lia.
    + destruct fuel2 as [|fuel2]; simpl; [reflexivity|].
      destruct (Z.ltb_spec lo hi); [lia | reflexivity].
Qed.

(** The loop of [binarySearch] is the [while] of the source. *)
Lemma binarySearch_while (ls : list Z) (o lo hi : Z) :
  SourceFile.binarySearchLoop (Z.to_nat (hi - lo)) ls o lo hi
  = if lo <? hi then
      let half := lo + (hi - lo) / 2 in
      if js_gt (array_get ls half) o
      then SourceFile.binarySearchLoop (Z.to_nat (half - lo)) ls o lo half
      else SourceFile.binarySearchLoop (Z.to_nat (hi - (half + 1))) ls o
             (half + 1) hi
    else hi.
Proof.
  destruct (Z.ltb_spec lo hi) as [Hlt|Hge].
  - pose proof (binarySearch_half lo hi Hlt) as Hhalf.
    destruct (Z.to_nat (hi - lo)) as [|fuel] eqn:Efuel; [lia|].
    simpl. destruct (Z.ltb_spec lo hi); [|lia].
    destruct (js_gt _ o); apply binarySearchLoop_fuel; lia.
  - replace (Z.to_nat (hi - lo)) with O by lia. reflexivity.
Qed.

(** * Further properties of the source file *)

Lemma terminators_in_range (s : jsstring) (i : Z) :
  In i (terminators s) -> 0 <= i < strlen s /\ isTerminatorAt s i = true.
Proof.
  unfold terminators. intros Hi. apply filter_In in Hi.
  destruct Hi as [Hi Ht]. split; [|exact Ht].
  unfold SourceFile.indices in Hi. apply in_map_iff in Hi.
  destruct Hi as (k & <- & Hk). apply in_seq in Hk. unfold strlen. lia.
Qed.

Lemma lineStartsOf_in_range (s : jsstring) (e : Z) :
  In e (SourceFile.lineStartsOf s) ->
  1 <= e <= strlen s /\ isTerminatorAt s (e - 1) = true.
Proof.
  rewrite lineStartsOf_terminators. intros He. apply in_map_iff in He.
  destruct He as (i & <- & Hi). apply terminators_in_range in Hi.
  replace (i + 1 - 1) with i by lia. split; [lia | tauto].
Qed.

(** X7.  The line table is strictly increasing and every entry is an
    offset of the file from 1 to the length. *)
Theorem lineStarts_increasing_in_file (s : jsstring) :
  StronglySorted Z.lt (SourceFile.lineStartsOf s)
  /\ Forall (fun e => 1 <= e <= strlen s) (SourceFile.lineStartsOf s).
Proof.
  split; [apply lineStartsOf_sorted|].
  apply Forall_forall. intros e He. now apply lineStartsOf_in_range.
Qed.

Lemma entriesUpTo_terminators (s : jsstring) (o : Z) :
  entriesUpTo (SourceFile.lineStartsOf s) o = terminatorsBefore s o.
Proof.
  unfold entriesUpTo, terminatorsBefore, strlen.
  rewrite lineStartsOf_terminators. f_equal.
  induction (terminators s) as [|i l IH]; simpl; [reflexivity|].
  destruct (Z.leb_spec (i + 1) o), (Z.ltb_spec i o); try lia; simpl; lia.
Qed.

Lemma entriesUpTo_monotone (ls : list Z) (a b : Z) :
  a <= b -> entriesUpTo ls a <= entriesUpTo ls b.
Proof.
  intros Hab. unfold entriesUpTo, strlen.
  induction ls as [|e ls IH]; simpl; [lia|].
  destruct (Z.leb_spec e a), (Z.leb_spec e b); simpl; lia.
Qed.

(** X1.  In a file with a line terminator, the line of a valid offset is
    the number of line terminators that end before it: it is at least 0,
    at most the number of terminators, and never decreases as the offset
    grows. *)
Theorem computeLine_counts_terminators (f : SourceFile.t) (o o' : Z) :
  cacheValid f ->
  terminators (SourceFile.contents f) <> [] ->
  0 <= o <= o' -> o' <= SourceFile.length f ->
  fst (SourceFile.computeLine o f)
  = Returned (terminatorsBefore (SourceFile.contents f) o)
  /\ 0 <= terminatorsBefore (SourceFile.contents f) o
     <= terminatorsBefore (SourceFile.contents f) o'
  /\ terminatorsBefore (SourceFile.contents f) o'
     <= strlen (terminators (SourceFile.contents f)).
Proof.
  intros Hv Hne Ho Ho'.
  rewrite computeLine_run by (assumption || lia).
  rewrite <- !entriesUpTo_terminators.
  split; [|split].
  - destruct (SourceFile.lineStartsOf (SourceFile.contents f)) eqn:Els;
      [|reflexivity].
    rewrite lineStartsOf_terminators in Els.
    destruct (terminators (SourceFile.contents f)); [now elim Hne | discriminate].
  - split; [apply strlen_nonneg | apply entriesUpTo_monotone; lia].
  - rewrite entriesUpTo_terminators. unfold terminatorsBefore, strlen.
    pose proof (filter_length_le (fun i => i <? o')
                  (terminators (SourceFile.contents f))). lia.
Qed.

(** A witness for [computeLine_counts_terminators]: offsets 3 and 5 of a
    file of three lines. *)
Lemma computeLine_counts_terminators_witness :
  fst (SourceFile.computeLine 3
         (SourceFile.new (str "ab" ++ [10] ++ str "cd" ++ [10] ++ str "ef") None))
  = Returned
      (terminatorsBefore (str "ab" ++ [10] ++ str "cd" ++ [10] ++ str "ef") 3)
  /\ 0 <= terminatorsBefore (str "ab" ++ [10] ++ str "cd" ++ [10] ++ str "ef") 3
     <= terminatorsBefore (str "ab" ++ [10] ++ str "cd" ++ [10] ++ str "ef") 5
  /\ terminatorsBefore (str "ab" ++ [10] ++ str "cd" ++ [10] ++ str "ef") 5
     <= strlen (terminators (str "ab" ++ [10] ++ str "cd" ++ [10] ++ str "ef")).
Proof.
  apply (computeLine_counts_terminators
           (SourceFile.new (str "ab" ++ [10] ++ str "cd" ++ [10] ++ str "ef") None)
           3 5).
  - left. reflexivity.
  - vm_compute. discriminate.
  - lia.
  - vm_compute. discriminate.
Defined.

Lemma computeColumn_run (f : SourceFile.t) (o l : Z) :
  cacheValid f -> 0 <= o <= SourceFile.length f ->
  fst (SourceFile.computeLine o f) = Returned l ->
  SourceFile.computeColumn o f
  = (Returned
       (o - or_zero (array_get (SourceFile.lineStartsOf (SourceFile.contents f))
                       (l - 1))),
     memoized f).
Proof.
  intros Hv Ho Hl. unfold SourceFile.computeColumn, bind.
  rewrite assertValidOffset_ok by assumption.
  rewrite computeLine_unfold in * by assumption. simpl fst in Hl.
  injection Hl as Hl. cbv zeta in *. rewrite Hl.
  rewrite lineStarts_run by apply memoized_valid. reflexivity.
Qed.

Lemma sorted_filter_prefix (ls : list Z) (o : Z) :
  StronglySorted Z.lt ls ->
  filter (fun e => e <=? o) ls
  = firstn (List.length (filter (fun e => e <=? o) ls)) ls.
Proof.
  induction 1 as [|a l Hl IH Ha]; simpl; [reflexivity|].
  destruct (Z.leb_spec a o) as [Hle|Hgt]; simpl; [now rewrite <- IH|].
  assert (Hnone : filter (fun e => e <=? o) l = []).
  { clear IH Hl. induction l as [|b l IHl]; simpl; [reflexivity|].
    inversion Ha as [|? ? Hb Hrest]; subst.
    destruct (Z.leb_spec b o); [lia | now apply IHl]. }
  now rewrite Hnone.
Qed.

(** The last of the entries that are at most [o] is at most [o]. *)
Lemma entry_before_offset (ls : list Z) (o start : Z) :
  StronglySorted Z.lt ls ->
  array_get ls (entriesUpTo ls o - 1) = Some start -> start <= o.
Proof.
  intros Hs Hget. pose proof (array_get_some_inv _ _ _ Hget) as Hr.
  rewrite array_get_nth in Hget by (unfold strlen; lia).
  injection Hget as <-.
  unfold entriesUpTo, strlen in *.
  set (n := List.length (filter (fun e => e <=? o) ls)) in *.
  assert (Hin : In (nth (Z.to_nat (Z.of_nat n - 1)) ls 0)
                  (filter (fun e => e <=? o) ls)).
  { rewrite (sorted_filter_prefix ls o Hs). fold n.
    rewrite <- (firstn_skipn n ls) at 1.
    rewrite app_nth1 by (rewrite length_firstn; lia).
    apply nth_In. rewrite length_firstn. lia. }
  apply filter_In in Hin. destruct Hin as [_ Hle]. now apply Z.leb_le.
Qed.

(** X3.  The column of a valid offset is between 0 and the offset: the
    start of the line that [computeColumn] subtracts is never beyond the
    offset. *)
Theorem computeColumn_bounds (f : SourceFile.t) (o : Z) :
  cacheValid f -> 0 <= o <= SourceFile.length f ->
  exists c, fst (SourceFile.computeColumn o f) = Returned c /\ 0 <= c <= o.
Proof.
  intros Hv Ho.
  pose proof (computeLine_run f o Hv Ho) as Hline.
  rewrite (computeColumn_run f o _ Hv Ho Hline). simpl.
  eexists. split; [reflexivity|].
  pose proof (lineStartsOf_sorted (SourceFile.contents f)) as Hs.
  destruct (SourceFile.lineStartsOf (SourceFile.contents f)) as [|e ls] eqn:Els.
  { rewrite array_get_none by lia. simpl. lia. }
  rewrite <- Els in *.
  destruct (array_get (SourceFile.lineStartsOf (SourceFile.contents f))
              (entriesUpTo (SourceFile.lineStartsOf (SourceFile.contents f)) o - 1))
    as [start|] eqn:Hget; simpl; [|lia].
  pose proof (entry_before_offset _ _ _ Hs Hget) as Hle.
  assert (Hin : In start (SourceFile.lineStartsOf (SourceFile.contents f))).
  { unfold array_get in Hget. destruct (_ <? 0); [discriminate|].
    eapply nth_error_In; eassumption. }
  apply lineStartsOf_in_range in Hin.
  destruct (Z.eqb_spec start 0); lia.
Qed.

(** A witness for [computeColumn_bounds]. *)
Lemma computeColumn_bounds_witness :
  exists c,
    fst (SourceFile.computeColumn 4
           (SourceFile.new (str "ab" ++ [10] ++ str "cd") None))
    = Returned c
    /\ 0 <= c <= 4.
Proof.
  apply (computeColumn_bounds
           (SourceFile.new (str "ab" ++ [10] ++ str "cd") None) 4).
  - left. reflexivity.
  - vm_compute. split; discriminate.
Defined.

(** X2.  The entry [i] of the line table is the start of line [i + 1]:
    [computeLine] of that offset is [i + 1] and [computeColumn] is 0. *)
Theorem lineStart_is_line_and_column_zero (f : SourceFile.t) (i e : Z) :
  cacheValid f ->
  array_get (SourceFile.lineStartsOf (SourceFile.contents f)) i = Some e ->
  fst (SourceFile.computeLine e f) = Returned (i + 1)
  /\ fst (SourceFile.computeColumn e f) = Returned 0.
Proof.
  intros Hv Hget.
  pose proof (lineStartsOf_sorted (SourceFile.contents f)) as Hs.
  pose proof (array_get_some_inv _ _ _ Hget) as Hi.
  assert (Hin : In e (SourceFile.lineStartsOf (SourceFile.contents f))).
  { unfold array_get in Hget. destruct (_ <? 0); [discriminate|].
    eapply nth_error_In; eassumption. }
  apply lineStartsOf_in_range in Hin. destruct Hin as [He _].
  assert (Ho : 0 <= e <= SourceFile.length f)
    by (unfold SourceFile.length; lia).
  assert (Hline : fst (SourceFile.computeLine e f) = Returned (i + 1)).
  { rewrite computeLine_run by assumption.
    set (ls := SourceFile.lineStartsOf (SourceFile.contents f)) in *.
    rewrite array_get_nth in Hget by (unfold strlen; lia).
    injection Hget as Hnth.
    assert (Hcount : entriesUpTo ls e = i + 1).
    { apply entriesUpTo_index; [unfold strlen; lia | |].
      - intros j Hj. pose proof (sorted_nth_le ls j i Hs).
        unfold strlen in *. lia.
      - intros j Hj. pose proof (sorted_nth ls (Z.to_nat i) (Z.to_nat j) Hs).
        unfold strlen in *. lia. }
    destruct ls; [simpl in Hi; lia | now rewrite Hcount]. }
  split; [exact Hline|].
  rewrite (computeColumn_run f e _ Hv Ho Hline). simpl.
  replace (i + 1 - 1) with i by lia. rewrite Hget. simpl.
  destruct (Z.eqb_spec e 0); [lia|]. f_equal. lia.
Qed.

(** A witness for [lineStart_is_line_and_column_zero]: the second line
    of a file of three lines starts at offset 6. *)
Lemma lineStart_is_line_and_column_zero_witness :
  fst (SourceFile.computeLine 6
         (SourceFile.new (str "ab" ++ [10] ++ str "cd" ++ [10] ++ str "ef") None))
  = Returned (1 + 1)
  /\ fst (SourceFile.computeColumn 6
            (SourceFile.new (str "ab" ++ [10] ++ str "cd" ++ [10] ++ str "ef") None))
     = Returned 0.
Proof.
  apply (lineStart_is_line_and_column_zero
           (SourceFile.new (str "ab" ++ [10] ++ str "cd" ++ [10] ++ str "ef") None)
           1 6).
  - left. reflexivity.
  - reflexivity.
Defined.

(** ** Spans and lines *)

Lemma span_returns (f : SourceFile.t) (a b : Z) (sp : FileSpan.t) :
  fst (SourceFile.span a b f) = Returned sp ->
  0 <= a <= b /\ b <= SourceFile.length f
  /\ sp = SourceFile.mkSpan f a (js_substring (SourceFile.contents f) a b).
Proof.
  unfold SourceFile.span, bind, throw.
  rewrite (assertValidOffset_run a).
  destruct (Z.ltb_spec a 0); [discriminate|].
  destruct (Z.gtb_spec a (SourceFile.length f)); [discriminate|].
  rewrite (assertValidOffset_run b).
  destruct (Z.ltb_spec b 0); [discriminate|].
  destruct (Z.gtb_spec b (SourceFile.length f)); [discriminate|].
  destruct (Z.ltb_spec b a); [discriminate|].
  simpl. intros [= <-]. repeat split; lia.
Qed.

Lemma js_substring_contains (s : jsstring) (a b i c : Z) :
  0 <= a <= i -> i < b -> b <= strlen s ->
  charCodeAt s i = Some c -> In c (js_substring s a b).
Proof.
  intros Ha Hi Hb Hc. rewrite js_substring_slice by lia.
  unfold charCodeAt, array_get in Hc.
  destruct (Z.ltb_spec i 0); [lia|].
  apply (nth_error_In _ (Z.to_nat (i - a))).
  rewrite nth_error_firstn.
  destruct (Nat.ltb_spec (Z.to_nat (i - a)) (Z.to_nat (b - a))); [|lia].
  rewrite nth_error_skipn.
  now replace (Z.to_nat a + Z.to_nat (i - a))%nat with (Z.to_nat i) by lia.
Qed.

Lemma terminator_is_lineBreak (s : jsstring) (i : Z) :
  isTerminatorAt s i = true ->
  exists c, charCodeAt s i = Some c /\ isLineBreak c = true.
Proof.
  unfold isTerminatorAt, isLineBreak.
  destruct (charCodeAt s i) as [c|]; simpl; [|discriminate].
  intros H. exists c. split; [reflexivity|].
  apply orb_true_iff in H. destruct H as [H|H].
  - now rewrite H.
  - apply andb_prop in H. destruct H as [H _]. rewrite H. apply orb_true_r.
Qed.

(** A span without LF and CR holds no line start after its first
    offset. *)
Lemma single_line_entries (f : SourceFile.t) (a b e : Z) :
  0 <= a <= b -> b <= SourceFile.length f ->
  FileSpan.isMultiLine
    (SourceFile.mkSpan f a (js_substring (SourceFile.contents f) a b)) = false ->
  In e (SourceFile.lineStartsOf (SourceFile.contents f)) ->
  (e <=? a) = (e <=? b).
Proof.
  intros Ha Hb Hsingle He.
  apply lineStartsOf_in_range in He. destruct He as [He Hterm].
  apply terminator_is_lineBreak in Hterm. destruct Hterm as (c & Hc & Hbreak).
  destruct (Z.leb_spec e a), (Z.leb_spec e b); try reflexivity; try lia.
  exfalso.
  assert (Hin : In c (js_substring (SourceFile.contents f) a b)).
  { apply (js_substring_contains _ a b (e - 1) c);
      unfold SourceFile.length in *; try lia. exact Hc. }
  unfold FileSpan.isMultiLine, FileSpan.text in Hsingle. simpl in Hsingle.
  assert (Htrue : existsb
                    (fun c => (c =? Characters.LF) || (c =? Characters.CR))
                    (js_substring (SourceFile.contents f) a b) = true).
  { apply existsb_exists. exists c. split; [exact Hin | exact Hbreak]. }
  congruence.
Qed.

(** X4.  A span that is not multi-line starts and ends on one line: the
    two offsets have the same line, and their columns differ by the
    length of the span. *)
Theorem single_line_span_on_one_line (f : SourceFile.t) (a b : Z)
  (sp : FileSpan.t) :
  cacheValid f ->
  fst (SourceFile.span a b f) = Returned sp ->
  FileSpan.isMultiLine sp = false ->
  fst (SourceFile.computeLine b f) = fst (SourceFile.computeLine a f)
  /\ exists ca,
       fst (SourceFile.computeColumn a f) = Returned ca
       /\ fst (SourceFile.computeColumn b f)
          = Returned (ca + FileSpan.length sp).
Proof.
  intros Hv Hspan Hsingle.
  apply span_returns in Hspan. destruct Hspan as (Hab & Hb & ->).
  assert (Ha : 0 <= a <= SourceFile.length f) by lia.
  assert (Hb' : 0 <= b <= SourceFile.length f) by lia.
  assert (Hcount :
            entriesUpTo (SourceFile.lineStartsOf (SourceFile.contents f)) a
            = entriesUpTo (SourceFile.lineStartsOf (SourceFile.contents f)) b).
  { unfold entriesUpTo. f_equal. apply filter_ext_in.
    intros e He. now apply (single_line_entries f a b e). }
  pose proof (computeLine_run f a Hv Ha) as Hla.
  assert (Hlb : fst (SourceFile.computeLine b f)
                = fst (SourceFile.computeLine a f)).
  { rewrite Hla, (computeLine_run f b Hv Hb'). revert Hcount.
    destruct (SourceFile.lineStartsOf (SourceFile.contents f));
      [reflexivity | now intros ->]. }
  split; [exact Hlb|].
  rewrite Hla in Hlb.
  rewrite (computeColumn_run f a _ Hv Ha Hla).
  rewrite (computeColumn_run f b _ Hv Hb' Hlb). simpl.
  eexists. split; [reflexivity|]. f_equal.
  unfold FileSpan.length, FileSpan.text. simpl.
  rewrite js_substring_length by (unfold SourceFile.length in *; lia). lia.
Qed.

(** A witness for [single_line_span_on_one_line]: the span of [cd] in a
    file of two lines. *)
Lemma single_line_span_on_one_line_witness :
  fst (SourceFile.computeLine 5
         (SourceFile.new (str "ab" ++ [10] ++ str "cd") None))
  = fst (SourceFile.computeLine 3
           (SourceFile.new (str "ab" ++ [10] ++ str "cd") None))
  /\ exists ca,
       fst (SourceFile.computeColumn 3
              (SourceFile.new (str "ab" ++ [10] ++ str "cd") None))
       = Returned ca
       /\ fst (SourceFile.computeColumn 5
                 (SourceFile.new (str "ab" ++ [10] ++ str "cd") None))
          = Returned
              (ca + FileSpan.length
                      (SourceFile.mkSpan
                         (SourceFile.new (str "ab" ++ [10] ++ str "cd") None)
                         3 (str "cd"))).
Proof.
  apply (single_line_span_on_one_line
           (SourceFile.new (str "ab" ++ [10] ++ str "cd") None) 3 5
           (SourceFile.mkSpan
              (SourceFile.new (str "ab" ++ [10] ++ str "cd") None) 3 (str "cd"))).
  - left. reflexivity.
  - reflexivity.
  - reflexivity.
Defined.

(** X5.  The line table is built by the first query and kept: after a
    [computeLine] the cache holds the table of the contents, a further
    [computeLine] or [computeColumn] leaves the file as it is, and every
    query answers as it would have on the file before the first one. *)
Theorem lineTable_built_once (f : SourceFile.t) (o o' : Z) :
  cacheValid f ->
  0 <= o <= SourceFile.length f -> 0 <= o' <= SourceFile.length f ->
  let f1 := snd (SourceFile.computeLine o f) in
  SourceFile.mLineStartsCache f1
  = Some (SourceFile.lineStartsOf (SourceFile.contents f))
  /\ SourceFile.contents f1 = SourceFile.contents f
  /\ snd (SourceFile.computeLine o' f1) = f1
  /\ snd (SourceFile.computeColumn o' f1) = f1
  /\ fst (SourceFile.computeLine o' f1) = fst (SourceFile.computeLine o' f)
  /\ fst (SourceFile.computeColumn o' f1) = fst (SourceFile.computeColumn o' f).
Proof.
  intros Hv Ho Ho'. cbv zeta.
  rewrite (computeLine_unfold f o Hv Ho). simpl snd.
  pose proof (memoized_valid f) as Hv1.
  assert (Ho1 : 0 <= o' <= SourceFile.length (memoized f)) by exact Ho'.
  assert (Hline : fst (SourceFile.computeLine o' (memoized f))
                  = fst (SourceFile.computeLine o' f)).
  { now rewrite (computeLine_unfold _ o' Hv1 Ho1), (computeLine_unfold f o' Hv Ho'). }
  split; [reflexivity|]. split; [reflexivity|].
  split; [now rewrite (computeLine_unfold _ o' Hv1 Ho1)|].
  pose proof (computeLine_run f o' Hv Ho') as Hl.
  pose proof Hl as Hl1. rewrite <- Hline in Hl1.
  rewrite (computeColumn_run _ o' _ Hv1 Ho1 Hl1).
  rewrite (computeColumn_run f o' _ Hv Ho' Hl).
  split; [reflexivity|]. split; [exact Hline | reflexivity].
Qed.

(** A witness for [lineTable_built_once]. *)
Lemma lineTable_built_once_witness :
  let f := SourceFile.new (str "ab" ++ [10] ++ str "cd") None in
  let f1 := snd (SourceFile.computeLine 1 f) in
  SourceFile.mLineStartsCache f1
  = Some (SourceFile.lineStartsOf (SourceFile.contents f))
  /\ SourceFile.contents f1 = SourceFile.contents f
  /\ snd (SourceFile.computeLine 4 f1) = f1
  /\ snd (SourceFile.computeColumn 4 f1) = f1
  /\ fst (SourceFile.computeLine 4 f1) = fst (SourceFile.computeLine 4 f)
  /\ fst (SourceFile.computeColumn 4 f1) = fst (SourceFile.computeColumn 4 f).
Proof.
  apply (lineTable_built_once
           (SourceFile.new (str "ab" ++ [10] ++ str "cd") None) 1 4).
  - left. reflexivity.
  - vm_compute. split; discriminate.
  - vm_compute. split; discriminate.
Defined.

Lemma firstn_plus {A : Type} (n m : nat) (l : list A) :
  firstn (n + m) l = firstn n l ++ firstn m (skipn n l).
Proof.
  revert l. induction n as [|n IH]; intros l; simpl; [reflexivity|].
  destruct l as [|x l]; simpl; [now rewrite firstn_nil | now rewrite IH].
Qed.

Lemma js_substring_concat (s : jsstring) (a b c : Z) :
  0 <= a <= b -> b <= c -> c <= strlen s ->
  js_substring s a b ++ js_substring s b c = js_substring s a c.
Proof.
  intros Ha Hb Hc. rewrite !js_substring_slice by lia.
  replace (Z.to_nat (c - a)) with (Z.to_nat (b - a) + Z.to_nat (c - b))%nat
    by lia.
  rewrite firstn_plus, skipn_skipn.
  now replace (Z.to_nat (b - a) + Z.to_nat a)%nat with (Z.to_nat b) by lia.
Qed.

(** X6.  Two spans that meet make the span of both: when [span(a, b)] and
    [span(b, c)] return, [span(a, c)] returns the span at [a] whose text
    is the two texts end to end; the length of a span is its end less its
    start. *)
Theorem spans_concatenate (f : SourceFile.t) (a b c : Z)
  (sp1 sp2 : FileSpan.t) :
  fst (SourceFile.span a b f) = Returned sp1 ->
  fst (SourceFile.span b c f) = Returned sp2 ->
  exists sp,
    fst (SourceFile.span a c f) = Returned sp
    /\ FileSpan.offset sp = FileSpan.offset sp1
    /\ FileSpan.text sp = FileSpan.text sp1 ++ FileSpan.text sp2
    /\ FileSpan.length sp1 = b - a
    /\ FileSpan.length sp = FileSpan.length sp1 + FileSpan.length sp2.
Proof.
  intros H1 H2.
  apply span_returns in H1. destruct H1 as (Hab & Hb & ->).
  apply span_returns in H2. destruct H2 as (Hbc & Hc & ->).
  rewrite span_inside by lia. eexists. split; [reflexivity|].
  unfold FileSpan.offset, FileSpan.text, FileSpan.length. simpl.
  unfold SourceFile.length in *.
  rewrite !js_substring_length by lia.
  repeat split; try lia.
  symmetry. apply js_substring_concat; lia.
Qed.

(** A witness for [spans_concatenate]. *)
Lemma spans_concatenate_witness :
  exists sp,
    fst (SourceFile.span 1 5 (SourceFile.new (str "abcdef") None)) = Returned sp
    /\ FileSpan.offset sp
       = FileSpan.offset
           (SourceFile.mkSpan (SourceFile.new (str "abcdef") None) 1 (str "bc"))
    /\ FileSpan.text sp
       = FileSpan.text
           (SourceFile.mkSpan (SourceFile.new (str "abcdef") None) 1 (str "bc"))
         ++ FileSpan.text
              (SourceFile.mkSpan (SourceFile.new (str "abcdef") None) 3 (str "de"))
    /\ FileSpan.length
         (SourceFile.mkSpan (SourceFile.new (str "abcdef") None) 1 (str "bc"))
       = 3 - 1
    /\ FileSpan.length sp
       = FileSpan.length
           (SourceFile.mkSpan (SourceFile.new (str "abcdef") None) 1 (str "bc"))
         + FileSpan.length
             (SourceFile.mkSpan (SourceFile.new (str "abcdef") None) 3 (str "de")).
Proof.
  apply (spans_concatenate (SourceFile.new (str "abcdef") None) 1 3 5
           (SourceFile.mkSpan (SourceFile.new (str "abcdef") None) 1 (str "bc"))
           (SourceFile.mkSpan (SourceFile.new (str "abcdef") None) 3 (str "de")));
    reflexivity.
Defined.

(** * Further properties of the scanner *)

Lemma inside_clamp (sc : StringScanner.t) :
  inside sc ->
  Z.min (Z.max (StringScanner.position sc) 0)
    (strlen (SourceFile.contents (StringScanner.source sc)))
  = StringScanner.mPosition sc.
Proof.
  unfold inside, StringScanner.length, SourceFile.length,
    StringScanner.position. lia.
Qed.

Lemma matchString_cases (pattern : jsstring) (sc : StringScanner.t) :
  inside sc ->
  let p := StringScanner.mPosition sc in
  let r := StringScanner.matchString pattern sc in
  (fst r = true <->
   p + strlen pattern <= StringScanner.length sc
   /\ StringScanner.substring sc p (p + strlen pattern) = pattern)
  /\ (fst r = true ->
      snd r = StringScanner.mk (StringScanner.source sc) (p + strlen pattern))
  /\ (fst r = false -> snd r = sc)
  /\ inside (snd r).
Proof.
  intros Hi. cbv zeta.
  unfold StringScanner.matchString, StringScanner.startsWith,
    StringScanner.substring.
  rewrite (inside_clamp sc Hi).
  pose proof (strlen_nonneg pattern) as Hp.
  unfold inside, StringScanner.length, SourceFile.length in *.
  destruct (Z.gtb_spec (strlen pattern + StringScanner.mPosition sc)
              (strlen (SourceFile.contents (StringScanner.source sc))))
    as [Hlong|Hfits]; simpl.
  { repeat split; try discriminate; try lia; try (intros [? _]; lia). }
  destruct (list_eq_dec Z.eq_dec _ pattern) as [Heq|Hne]; simpl.
  - repeat split; try discriminate; try lia; auto.
  - repeat split; try discriminate; try lia;
      try (intros [_ ?]; now elim Hne).
Qed.

(** X8.  [match] on a string succeeds exactly when the pattern fits
    before the end of the input and the text at the position is the
    pattern; it then moves the position by the length of the pattern, and
    otherwise leaves the scanner as it is.  The position stays inside
    the input. *)
Theorem matchString_spec (pattern : jsstring) (sc : StringScanner.t) :
  inside sc ->
  let p := StringScanner.mPosition sc in
  let r := StringScanner.matchString pattern sc in
  (fst r = true <->
   p + strlen pattern <= StringScanner.length sc
   /\ StringScanner.substring sc p (p + strlen pattern) = pattern)
  /\ (fst r = true ->
      snd r = StringScanner.mk (StringScanner.source sc) (p + strlen pattern))
  /\ (fst r = false -> snd r = sc)
  /\ inside (snd r).
Proof. exact (matchString_cases pattern sc). Qed.

(** A witness for [matchString_spec]. *)
Lemma matchString_spec_witness :
  let sc := StringScanner.mk (SourceFile.new (str "let x") None) 0 in
  let p := StringScanner.mPosition sc in
  let r := StringScanner.matchString (str "let") sc in
  (fst r = true <->
   p + strlen (str "let") <= StringScanner.length sc
   /\ StringScanner.substring sc p (p + strlen (str "let")) = str "let")
  /\ (fst r = true ->
      snd r = StringScanner.mk (StringScanner.source sc) (p + strlen (str "let")))
  /\ (fst r = false -> snd r = sc)
  /\ inside (snd r).
Proof.
  apply (matchString_spec (str "let")
           (StringScanner.mk (SourceFile.new (str "let x") None) 0)).
  vm_compute. split; discriminate.
Defined.

Lemma js_substring_one (s : jsstring) (i c : Z) :
  charCodeAt s i = Some c -> js_substring s i (i + 1) = [c].
Proof.
  intros Hc. pose proof (array_get_some_inv _ _ _ Hc) as Hi.
  rewrite js_substring_slice by (unfold strlen; lia).
  replace (Z.to_nat (i + 1 - i)) with 1%nat by lia.
  unfold charCodeAt, array_get in Hc.
  destruct (Z.ltb_spec i 0); [lia|].
  apply nth_error_split in Hc. destruct Hc as (l1 & l2 & Hs & Hlen).
  subst s. rewrite <- Hlen, skipn_app, skipn_all, Nat.sub_diag. reflexivity.
Qed.

(** X9.  The overloads of [match] agree: matching the string of one
    character is matching its code, at every position from 0 on, also at
    and beyond the end of the input. *)
Theorem matchString_one_character (c : Z) (sc : StringScanner.t) :
  0 <= StringScanner.mPosition sc ->
  StringScanner.matchString [c] sc = StringScanner.match_ c sc.
Proof.
  intros Hpos.
  unfold StringScanner.matchString, StringScanner.startsWith,
    StringScanner.match_, StringScanner.peek, StringScanner.position.
  change (strlen [c]) with 1. rewrite Z.add_0_r.
  set (s := SourceFile.contents (StringScanner.source sc)).
  set (p := StringScanner.mPosition sc) in *.
  pose proof (strlen_nonneg s) as Hs.
  destruct (Z.le_gt_cases (strlen s) p) as [Hend|Hin].
  - replace (Z.min (Z.max p 0) (strlen s)) with (strlen s) by lia.
    destruct (Z.gtb_spec (1 + strlen s) (strlen s)); [|lia].
    unfold charCodeAt. rewrite array_get_none by (unfold strlen in *; lia).
    reflexivity.
  - replace (Z.min (Z.max p 0) (strlen s)) with p by lia.
    destruct (Z.gtb_spec (1 + p) (strlen s)); [lia|].
    destruct (array_get_some s p) as [x Hx]; [unfold strlen in *; lia|].
    unfold charCodeAt. rewrite Hx.
    rewrite (js_substring_one s p x Hx). cbn [code_is].
    destruct (list_eq_dec Z.eq_dec [x] [c]) as [Heq|Hne];
      destruct (Z.eqb_spec x c) as [Hxc|Hxc]; try reflexivity.
    + injection Heq as Heq. now elim Hxc.
    + subst x. now elim Hne.
Qed.

(** A witness for [matchString_one_character]. *)
Lemma matchString_one_character_witness :
  StringScanner.matchString [Characters.EQUALS]
    (StringScanner.mk (SourceFile.new (str "a=") None) 1)
  = StringScanner.match_ Characters.EQUALS
      (StringScanner.mk (SourceFile.new (str "a=") None) 1).
Proof.
  apply (matchString_one_character Characters.EQUALS
           (StringScanner.mk (SourceFile.new (str "a=") None) 1)).
  vm_compute. discriminate.
Defined.

(** X10.  [match] on a function keeps the position inside the input when
    the function rejects [NaN]; a function that accepts [NaN] moves the
    position beyond the end once the input is read, where [match] on a
    code or on a string never moves it. *)
Theorem matchWith_inside (matcher : option Z -> bool) (c : Z)
  (pattern : jsstring) (sc : StringScanner.t) :
  inside sc ->
  (matcher None = false -> inside (snd (StringScanner.matchWith matcher sc)))
  /\ (matcher None = true -> StringScanner.hasNext sc = false ->
      ~ inside (snd (StringScanner.matchWith matcher sc)))
  /\ inside (snd (StringScanner.match_ c sc))
  /\ inside (snd (StringScanner.matchString pattern sc)).
Proof.
  intros Hi. split; [|split; [|split]].
  - intros Hnan. unfold StringScanner.matchWith.
    destruct (StringScanner.peek sc 0) as [x|] eqn:Hpeek.
    + apply peek_inside in Hpeek.
      destruct (matcher (Some x)); simpl; [|exact Hi].
      unfold inside in *. simpl. unfold StringScanner.length in *. simpl. lia.
    + rewrite Hnan. exact Hi.
  - intros Hnan Hend. apply hasNext_false in Hend.
    unfold StringScanner.matchWith, StringScanner.peek, StringScanner.position.
    unfold charCodeAt. rewrite array_get_none, Hnan.
    + unfold inside. simpl. unfold StringScanner.length in *. simpl. lia.
    + unfold StringScanner.length, SourceFile.length, strlen in Hend. lia.
  - eapply advanced_inside; [exact Hi | now apply match_advanced].
  - pose proof (matchString_cases pattern sc Hi) as H. cbv zeta in H. tauto.
Qed.

(** A witness for [matchWith_inside]: a scanner at the end of [ab]. *)
Lemma matchWith_inside_witness :
  let sc := StringScanner.mk (SourceFile.new (str "ab") None) 2 in
  ((fun _ : option Z => true) None = false ->
   inside (snd (StringScanner.matchWith (fun _ => true) sc)))
  /\ ((fun _ : option Z => true) None = true ->
      StringScanner.hasNext sc = false ->
      ~ inside (snd (StringScanner.matchWith (fun _ => true) sc)))
  /\ inside (snd (StringScanner.match_ 98 sc))
  /\ inside (snd (StringScanner.matchString (str "b") sc)).
Proof.
  apply (matchWith_inside (fun _ => true) 98 (str "b")
           (StringScanner.mk (SourceFile.new (str "ab") None) 2)).
  vm_compute. split; discriminate.
Defined.

(** * Further properties of the lexer *)

(** ** What every token satisfies *)

Lemma yields_ret {A : Type} (P : A -> Prop) (a : A) : P a -> yields P (ret a).
Proof. intros Ha st b st' [= <- _]. exact Ha. Qed.

Lemma yields_bind {A B : Type} (P : B -> Prop) (m : ClutchLexer.L A)
  (f : A -> ClutchLexer.L B) :
  (forall a, yields P (f a)) -> yields P (bind m f).
Proof.
  intros Hf st b st'. unfold bind.
  destruct (m st) as [[a|e] st1]; [apply Hf | discriminate].
Qed.

Lemma makes_bind {A : Type} (Q : Token.t -> ClutchLexer.t -> Prop)
  (m : ClutchLexer.L A) (f : A -> ClutchLexer.L Token.t) :
  (forall a, makes Q (f a)) -> makes Q (bind m f).
Proof.
  intros Hf st tok st'. unfold bind.
  destruct (m st) as [[a|e] st1]; [apply Hf | discriminate].
Qed.

Lemma makes_bind_yields {A : Type} (P : A -> Prop)
  (Q : Token.t -> ClutchLexer.t -> Prop)
  (m : ClutchLexer.L A) (f : A -> ClutchLexer.L Token.t) :
  yields P m -> (forall a, P a -> makes Q (f a)) -> makes Q (bind m f).
Proof.
  intros Hm Hf st tok st'. unfold bind.
  destruct (m st) as [[a|e] st1] eqn:Em; [|discriminate].
  apply Hf. exact (Hm st a st1 Em).
Qed.

Lemma makesToken_bind {A : Type} (Q : Token.t -> ClutchLexer.t -> Prop)
  (m : ClutchLexer.L A) (f : A -> ClutchLexer.L (option Token.t)) :
  (forall a, makesToken Q (f a)) -> makesToken Q (bind m f).
Proof.
  intros Hf st tok st'. unfold bind.
  destruct (m st) as [[a|e] st1]; [apply Hf | discriminate].
Qed.

Lemma makesToken_emit (Q : Token.t -> ClutchLexer.t -> Prop)
  (m : ClutchLexer.L Token.t) :
  makes Q m -> makesToken Q (ClutchLexer.emit m).
Proof.
  intros Hm st tok st'. unfold ClutchLexer.emit, bind, ret.
  destruct (m st) as [[t|e] st1] eqn:Em; [|discriminate].
  intros [= <- <-]. exact (Hm st t st1 Em).
Qed.

Lemma makes_createToken (kind : TokenKind) :
  producible kind -> makes closes (ClutchLexer.createToken kind None).
Proof.
  intros Hk st tok st'. rewrite createToken_run. intros [= <- <-].
  unfold closes, extentEnd, cursor. simpl. repeat split; try apply Hk. lia.
Qed.

Lemma keywordOrIdentifier_producible (name : jsstring) :
  producible (keywordOrIdentifier name).
Proof.
  unfold keywordOrIdentifier, keywordsLookup, keywords. simpl ownProperty.
  repeat (destruct (jsstring_eqb _ name);
          [repeat split; discriminate|]).
  destruct (existsb _ _); repeat split; discriminate.
Qed.

Ltac solve_yields :=
  lazymatch goal with
  | |- yields _ (bind _ _) =>
      apply yields_bind;
      let b := fresh "b" in intros b; try destruct b; solve_yields
  | |- yields _ (ret _) =>
      apply yields_ret; repeat split; discriminate
  | |- yields _ (if ?c then _ else _) => destruct c; solve_yields
  end.

Lemma scanNumber_closes (starting : option Z) :
  makes closes (ClutchLexer.scanNumber starting).
Proof.
  assert (Hnumber : producible NUMBER) by (repeat split; discriminate).
  assert (Hdigits : makes closes ClutchLexer.scanDigits).
  { apply makes_bind. intros _. now apply makes_createToken. }
  unfold ClutchLexer.scanNumber. apply makes_bind. intros hex.
  destruct hex.
  - apply makes_bind. intros _. now apply makes_createToken.
  - apply makes_bind. intros exponent. destruct exponent; [exact Hdigits|].
    apply makes_bind. intros _. exact Hdigits.
Qed.

Lemma scanIdentifierOrKeyword_closes :
  makes closes ClutchLexer.scanIdentifierOrKeyword.
Proof.
  unfold ClutchLexer.scanIdentifierOrKeyword. apply makes_bind. intros _.
  intros st tok st' Hrun.
  apply (makes_createToken
           (keywordOrIdentifier
              (js_substring (inputOf st) (ClutchLexer.position st) (cursor st)))
           (keywordOrIdentifier_producible _) st tok st').
  exact Hrun.
Qed.

Lemma scanString_closes (onError : ErrorReporter) :
  makes closes (ClutchLexer.scanString onError).
Proof.
  assert (Hstring : producible STRING) by (repeat split; discriminate).
  unfold ClutchLexer.scanString. apply makes_bind. intros closed.
  destruct closed.
  - intros st tok st'.
    unfold bind, ClutchLexer.incrPosition, ClutchLexer.substring,
      ClutchLexer.createToken, ClutchLexer.clearComments, ret. simpl.
    intros [= <- <-]. unfold closes, extentEnd, cursor. simpl.
    repeat split; try apply Hstring. lia.
  - apply makes_bind. intros _. apply makes_bind. intros _.
    now apply makes_createToken.
Qed.

Lemma makesToken_bind_yields {A : Type} (P : A -> Prop)
  (Q : Token.t -> ClutchLexer.t -> Prop)
  (m : ClutchLexer.L A) (f : A -> ClutchLexer.L (option Token.t)) :
  yields P m -> (forall a, P a -> makesToken Q (f a)) ->
  makesToken Q (bind m f).
Proof.
  intros Hm Hf st tok st'. unfold bind.
  destruct (m st) as [[a|e] st1] eqn:Em; [|discriminate].
  apply Hf. exact (Hm st a st1 Em).
Qed.

Lemma makesToken_none {A : Type} (Q : Token.t -> ClutchLexer.t -> Prop)
  (m : ClutchLexer.L A) :
  makesToken Q (bind m (fun _ => ret None)).
Proof.
  intros st tok st'. unfold bind, ret.
  destruct (m st) as [[a|e] st1]; discriminate.
Qed.

Lemma scanSlash_closes : makesToken closes ClutchLexer.scanSlash.
Proof.
  unfold ClutchLexer.scanSlash. apply makesToken_bind. intros comment.
  destruct comment.
  - intros st tok st'. unfold bind, ret.
    destruct (ClutchLexer.advanceToEOL st) as [[[]|e] st1]; [|discriminate].
    destruct (ClutchLexer.substring st1) as [[text|e] st2]; [|discriminate].
    destruct (ClutchLexer.pushComment _ st2) as [[[]|e] st3]; discriminate.
  - apply (makesToken_bind_yields producible); [solve_yields|].
    intros kind Hkind.
    apply (makesToken_emit closes (ClutchLexer.createToken kind None)).
    now apply makes_createToken.
Qed.

Lemma scanDefault_closes (onError : ErrorReporter) (character : option Z) :
  makesToken closes (ClutchLexer.scanDefault onError character).
Proof.
  unfold ClutchLexer.scanDefault.
  destruct (onCode isWhiteSpace character); [apply makesToken_none|].
  destruct (onCode isDigit character).
  { apply makesToken_emit. apply scanNumber_closes. }
  destruct (onCode isIdentifierStart character).
  { apply makesToken_emit. apply scanIdentifierOrKeyword_closes. }
  apply makesToken_none.
Qed.

Ltac solve_closes :=
  first
    [ apply scanSlash_closes
    | apply makesToken_emit;
      first
        [ apply makes_createToken; repeat split; discriminate
        | apply scanString_closes
        | apply (makes_bind_yields producible);
          [ solve_yields | intros; now apply makes_createToken ] ] ].

(** Every token a branch of the [switch] makes ends at the anchor it
    leaves, which is the cursor, and has a kind of [producible]. *)
Lemma scanSwitch_closes (onError : ErrorReporter) (character : option Z) :
  makesToken closes (ClutchLexer.scanSwitch onError character).
Proof.
  unfold ClutchLexer.scanSwitch.
  repeat (destruct (code_is character _); [solve_closes|]).
  apply scanDefault_closes.
Qed.

Lemma scanToken_closes (onError : ErrorReporter) :
  makesToken closes (ClutchLexer.scanToken onError).
Proof.
  unfold ClutchLexer.scanToken. apply makesToken_bind. intros character.
  apply scanSwitch_closes.
Qed.

(** ** Where a token starts *)

Lemma anchorPost_advanced (st : ClutchLexer.t) (sc : StringScanner.t)
  (r : outcome Token.t * ClutchLexer.t) :
  anchorPost (ClutchLexer.setProgram sc st) r -> anchorPost st r.
Proof. destruct r as [[tok|e] st']; simpl; auto. Qed.

Lemma anchorPost_bind {A : Type}
  (m : ClutchLexer.L A) (f : A -> ClutchLexer.L Token.t) (st : ClutchLexer.t) :
  advancing m -> reading st ->
  (forall a st1, reading st1 -> anchorPost st1 (f a st1)) ->
  anchorPost st (bind m f st).
Proof.
  intros Hm Hr Hf.
  destruct (Hm st (anchored_inside st (reading_anchored st Hr)))
    as (a & sc & Em & Ha).
  unfold bind. rewrite Em.
  apply (anchorPost_advanced st sc).
  apply Hf. now apply reading_advanced.
Qed.

Lemma anchorStep_bind {A : Type}
  (m : ClutchLexer.L A) (f : A -> ClutchLexer.L (option Token.t))
  (st : ClutchLexer.t) :
  advancing m -> reading st ->
  (forall a st1, reading st1 -> anchorStep st1 (f a st1)) ->
  anchorStep st (bind m f st).
Proof.
  intros Hm Hr Hf.
  destruct (Hm st (anchored_inside st (reading_anchored st Hr)))
    as (a & sc & Em & Ha).
  unfold bind. rewrite Em.
  specialize (Hf a _ (reading_advanced st sc Hr Ha)).
  destruct (f a (ClutchLexer.setProgram sc st)) as [[[tok|]|e] st'];
    simpl in *; auto.
Qed.

Lemma anchorStep_emit (m : ClutchLexer.L Token.t) (st : ClutchLexer.t) :
  anchorPost st (m st) -> anchorStep st (ClutchLexer.emit m st).
Proof.
  unfold ClutchLexer.emit, bind, ret.
  destruct (m st) as [[tok|e] st']; simpl; auto.
Qed.

Lemma createToken_anchor (kind : TokenKind) (st : ClutchLexer.t) :
  anchored st -> anchorPost st (ClutchLexer.createToken kind None st).
Proof.
  intros [Ha1 Ha2]. rewrite createToken_run. simpl. intros _.
  rewrite js_substring_length by lia. lia.
Qed.

Lemma scanNumber_anchor (starting : option Z) (st : ClutchLexer.t) :
  reading st -> anchorPost st (ClutchLexer.scanNumber starting st).
Proof.
  assert (Hdigits : forall st1, reading st1 ->
            anchorPost st1 (ClutchLexer.scanDigits st1)).
  { intros st1 Hr1. unfold ClutchLexer.scanDigits.
    apply anchorPost_bind; [solve_advancing | exact Hr1 |].
    intros _ st2 Hr2. apply createToken_anchor. now apply reading_anchored. }
  intros Hr. unfold ClutchLexer.scanNumber.
  apply anchorPost_bind; [solve_advancing | exact Hr |].
  intros hex st1 Hr1. destruct hex.
  { unfold ClutchLexer.scanHexNumber.
    apply anchorPost_bind; [solve_advancing | exact Hr1 |].
    intros _ st2 Hr2. apply createToken_anchor. now apply reading_anchored. }
  apply anchorPost_bind; [solve_advancing | exact Hr1 |].
  intros exponent st2 Hr2. destruct exponent; [now apply Hdigits|].
  apply anchorPost_bind; [solve_advancing | exact Hr2 |].
  intros _ st3 Hr3. now apply Hdigits.
Qed.

Lemma scanIdentifierOrKeyword_anchor (st : ClutchLexer.t) :
  reading st -> anchorPost st (ClutchLexer.scanIdentifierOrKeyword st).
Proof.
  intros Hr. unfold ClutchLexer.scanIdentifierOrKeyword.
  apply anchorPost_bind; [solve_advancing | exact Hr |].
  intros _ st1 Hr1.
  change (anchorPost st1
            (ClutchLexer.createToken
               (keywordOrIdentifier
                  (js_substring (inputOf st1) (ClutchLexer.position st1) (cursor st1)))
               None st1)).
  apply createToken_anchor. now apply reading_anchored.
Qed.

Lemma scanString_kind (onError : ErrorReporter) :
  makes (fun tok _ => Token.kind tok = STRING) (ClutchLexer.scanString onError).
Proof.
  unfold ClutchLexer.scanString. apply makes_bind. intros closed.
  destruct closed.
  - intros st tok st'.
    unfold bind, ClutchLexer.incrPosition, ClutchLexer.substring,
      ClutchLexer.createToken, ClutchLexer.clearComments, ret. simpl.
    now intros [= <- <-].
  - apply makes_bind. intros _. apply makes_bind. intros _.
    intros st tok st'. rewrite createToken_run. now intros [= <- <-].
Qed.

Lemma scanString_anchor (onError : ErrorReporter) (st : ClutchLexer.t) :
  anchorPost st (ClutchLexer.scanString onError st).
Proof.
  pose proof (scanString_kind onError st) as Hk.
  destruct (ClutchLexer.scanString onError st) as [[tok|e] st']; simpl; auto.
  intros Hne. elim Hne. now apply (Hk tok st').
Qed.

Lemma scanSlash_anchor (st : ClutchLexer.t) :
  reading st -> anchorStep st (ClutchLexer.scanSlash st).
Proof.
  intros Hr. unfold ClutchLexer.scanSlash.
  apply anchorStep_bind; [solve_advancing | exact Hr |].
  intros comment st1 Hr1. destruct comment.
  - unfold bind, ret.
    destruct (ClutchLexer.advanceToEOL st1) as [[[]|e] st2]; [|exact I].
    destruct (ClutchLexer.substring st2) as [[text|e] st3]; [|exact I].
    destruct (ClutchLexer.pushComment _ st3) as [[[]|e] st4]; exact I.
  - apply anchorStep_bind; [solve_advancing | exact Hr1 |].
    intros kind st2 Hr2.
    apply (anchorStep_emit (ClutchLexer.createToken kind None)).
    apply createToken_anchor. now apply reading_anchored.
Qed.

Lemma anchorStep_none {A : Type} (m : ClutchLexer.L A) (st : ClutchLexer.t) :
  anchorStep st (bind m (fun _ => ret None) st).
Proof.
  unfold bind, ret. destruct (m st) as [[a|e] st1]; exact I.
Qed.

Lemma scanDefault_anchor (onError : ErrorReporter) (character : option Z)
  (st : ClutchLexer.t) :
  reading st -> anchorStep st (ClutchLexer.scanDefault onError character st).
Proof.
  intros Hr. unfold ClutchLexer.scanDefault.
  destruct (onCode isWhiteSpace character); [apply anchorStep_none|].
  destruct (onCode isDigit character).
  { apply anchorStep_emit. now apply scanNumber_anchor. }
  destruct (onCode isIdentifierStart character).
  { apply anchorStep_emit. now apply scanIdentifierOrKeyword_anchor. }
  apply anchorStep_none.
Qed.

Ltac solve_anchor :=
  first
    [ now apply scanSlash_anchor
    | apply anchorStep_emit;
      first
        [ apply createToken_anchor; now apply reading_anchored
        | apply scanString_anchor
        | apply anchorPost_bind;
          [ solve_advancing
          | assumption
          | intros; apply createToken_anchor; now apply reading_anchored ] ] ].

(** Every token of a branch of the [switch], a STRING apart, starts at
    the anchor. *)
Lemma scanSwitch_anchor (onError : ErrorReporter) (character : option Z)
  (st : ClutchLexer.t) :
  reading st -> anchorStep st (ClutchLexer.scanSwitch onError character st).
Proof.
  intros Hr. unfold ClutchLexer.scanSwitch.
  repeat (destruct (code_is character _); [solve_anchor|]).
  now apply scanDefault_anchor.
Qed.

Lemma scanToken_anchor (onError : ErrorReporter) (st : ClutchLexer.t) :
  anchored st -> StringScanner.hasNext (ClutchLexer.program st) = true ->
  anchorStep (afterAdvance st) (ClutchLexer.scanToken onError st).
Proof.
  intros Ha Hn. rewrite scanToken_run by (try apply anchored_inside; assumption).
  apply scanSwitch_anchor. now apply afterAdvance_reading.
Qed.

(** ** The extents of the tokens *)

Lemma sorted_snoc {A : Type} (R : A -> A -> Prop) (l : list A) (y : A) :
  StronglySorted R l -> Forall (fun x => R x y) l ->
  StronglySorted R (l ++ [y]).
Proof.
  induction 1 as [|a l Hl IH Ha]; intros Hy; simpl.
  - repeat constructor.
  - inversion Hy as [|? ? Hay Hy']; subst. constructor.
    + now apply IH.
    + apply Forall_app. split; [exact Ha | now repeat constructor].
Qed.

Lemma extents_token (p : jsstring) (st st' : ClutchLexer.t)
  (tokens : list Token.t) (tok : Token.t) :
  invariant p st tokens -> extents st tokens ->
  tokenFrom (afterAdvance st) tok st' -> closes tok st' ->
  (Token.kind tok <> STRING -> Token.offset tok = ClutchLexer.position st) ->
  extents st' (tokens ++ [tok]).
Proof.
  intros [Hin [Ha Ha'] _ _ _ _ _ _] [Hord Hbef Hkinds Hne Hpend Hcom]
         (Hadv & Hpos & Hcur & _ & Hc & Hl & _) (Hend & Hpc & Hkind) Hanchor.
  destruct (afterAdvance_fields st) as (Fp & Fl & Fb & Fi & Fc).
  rewrite Fp in Hpos. rewrite Fl in Hc.
  pose proof (advanced_cursor _ _ Hadv) as Hcur'. rewrite Fi, Fc in Hcur'.
  constructor.
  - apply sorted_snoc; [exact Hord|].
    eapply Forall_impl; [|exact Hbef]. unfold precedes. simpl. intros t Ht. lia.
  - apply Forall_app. split.
    + eapply Forall_impl; [|exact Hbef]. simpl. intros t Ht. lia.
    + repeat constructor. lia.
  - apply Forall_app. split; [exact Hkinds|].
    constructor; [exact Hkind | constructor].
  - apply Forall_app. split; [exact Hne|]. repeat constructor.
    intros Hk Hempty. specialize (Hanchor Hk).
    unfold extentEnd in Hend. rewrite Hempty in Hend.
    change (strlen []) with 0 in Hend. lia.
  - rewrite Hl. constructor.
  - apply Forall_app. split; [exact Hcom|]. repeat constructor.
    rewrite Hc. eapply Forall_impl; [|exact Hpend]. simpl. intros c Hc'. lia.
Qed.

Lemma extents_skip (st st' : ClutchLexer.t) (tokens : list Token.t) :
  extents st tokens -> skipFrom (afterAdvance st) st' -> extents st' tokens.
Proof.
  intros [Hord Hbef Hkinds Hne Hpend Hcom] (Hadv & Hpos & Hcases).
  destruct (afterAdvance_fields st) as (Fp & Fl & Fb & Fi & Fc).
  rewrite Fp in Hpos. rewrite Fl, Fb, Fc in Hcases.
  constructor; try assumption.
  - eapply Forall_impl; [|exact Hbef]. simpl. intros t Ht. lia.
  - destruct Hcases as [[Hl _] | (c & Hl & _ & Hc)]; rewrite Hl.
    + eapply Forall_impl; [|exact Hpend]. simpl. intros c Hc. lia.
    + apply Forall_app. split.
      * eapply Forall_impl; [|exact Hpend]. simpl. intros c' Hc'. lia.
      * repeat constructor. lia.
Qed.

(** The loop of [scanProgram] keeps [extents] beside [invariant]. *)
Lemma scanProgramLoop_extents (onError : ErrorReporter) (p : jsstring)
  (fuel : nat) (st : ClutchLexer.t) (tokens : list Token.t) :
  invariant p st tokens -> extents st tokens ->
  (StringScanner.remaining (ClutchLexer.program st) <= fuel)%nat ->
  forall tokens' st',
    ClutchLexer.scanProgramLoop onError fuel tokens st = (Returned tokens', st') ->
    invariant p st' tokens' /\ extents st' tokens'
    /\ StringScanner.hasNext (ClutchLexer.program st') = false.
Proof.
  revert st tokens.
  induction fuel as [|fuel IH]; intros st tokens Hinv Hext Hfuel tokens' st'.
  - simpl. intros [= <- <-]. split; [exact Hinv | split; [exact Hext|]].
    apply hasNext_false.
    unfold StringScanner.remaining, StringScanner.position in Hfuel. lia.
  - simpl. destruct (StringScanner.hasNext (ClutchLexer.program st)) eqn:Hn;
      [|intros [= <- <-]; split; [exact Hinv | split; [exact Hext | exact Hn]]].
    pose proof (scanToken_step onError st (inv_anchored _ _ _ Hinv) Hn) as Hstep.
    pose proof (scanToken_anchor onError st (inv_anchored _ _ _ Hinv) Hn) as Hanc.
    pose proof (scanToken_closes onError st) as Hclo.
    unfold bind.
    destruct (ClutchLexer.scanToken onError st) as [[[tok|]|e] st1];
      simpl in Hstep, Hanc; [| |discriminate].
    + apply IH.
      * eapply invariant_token; eassumption.
      * exact (extents_token p st st1 tokens tok Hinv Hext Hstep
                 (Hclo tok st1 eq_refl) Hanc).
      * destruct Hstep as [Hadv _]. eapply remaining_after; eassumption.
    + apply IH.
      * eapply invariant_skip; eassumption.
      * eapply extents_skip; eassumption.
      * destruct Hstep as [Hadv _]. eapply remaining_after; eassumption.
Qed.

Lemma extents_initial (p : jsstring) :
  extents (ClutchLexer.new (StringScanner.new p)) [].
Proof. constructor; simpl; constructor. Qed.

(** A sequence [tokenize] returns is the tokens of the loop and the EOF
    token, made at the anchor with the comments still buffered. *)
Lemma tokenize_returned (p : jsstring) (onError : option ErrorReporter)
  (ts : list Token.t) :
  tokenize p onError = Returned ts ->
  exists tokens st,
    ts = tokens
         ++ [Token.mk EOF [] (ClutchLexer.lastComments st)
               (ClutchLexer.position st - 0)]
    /\ ClutchLexer.scanProgramLoop (reporterOf onError)
         (StringScanner.remaining (StringScanner.new p)) []
         (ClutchLexer.new (StringScanner.new p))
       = (Returned tokens, st)
    /\ invariant p st tokens /\ extents st tokens
    /\ StringScanner.hasNext (ClutchLexer.program st) = false.
Proof.
  rewrite tokenize_fst, tokenizeRun_unfold.
  pose proof (scanProgramLoop_extents (reporterOf onError) p
                (StringScanner.remaining (StringScanner.new p))
                (ClutchLexer.new (StringScanner.new p)) []
                (invariant_initial p) (extents_initial p) (Nat.le_refl _))
    as Hloop.
  destruct (ClutchLexer.scanProgramLoop _ _ _ _) as [[tokens|e] st];
    simpl; [|discriminate].
  intros [= <-]. exists tokens, st.
  destruct (Hloop tokens st eq_refl) as (Hinv & Hext & Hn).
  split; [reflexivity|]. split; [reflexivity|].
  split; [exact Hinv | split; [exact Hext | exact Hn]].
Qed.

(** X11.  In a sequence [tokenize] returns, the last token is the only
    EOF token, and no token has the kind TRUE, MODULUS or MODULUS_BY: the
    keyword table has no entry for [true] and no branch of [scanToken]
    reads a percent sign. *)
Theorem tokenize_kinds (p : jsstring) (onError : option ErrorReporter)
  (ts : list Token.t) :
  tokenize p onError = Returned ts ->
  (exists tokens eof,
      ts = tokens ++ [eof] /\ Token.kind eof = EOF
      /\ Forall (fun t => Token.kind t <> EOF) tokens)
  /\ Forall
       (fun t =>
          Token.kind t <> TRUE /\ Token.kind t <> MODULUS
          /\ Token.kind t <> MODULUS_BY)
       ts.
Proof.
  intros Hrun.
  destruct (tokenize_returned p onError ts Hrun)
    as (tokens & st & -> & _ & _ & Hext & _).
  pose proof (ext_kinds _ _ Hext) as Hkinds. split.
  - eexists _, _. split; [reflexivity|]. split; [reflexivity|].
    eapply Forall_impl; [|exact Hkinds]. simpl. intros t Ht. apply Ht.
  - apply Forall_app. split.
    + eapply Forall_impl; [|exact Hkinds]. simpl.
      intros t (H1 & H2 & H3 & _). now repeat split.
    + repeat constructor; discriminate.
Qed.

(** A witness for [tokenize_kinds]: the program [true % 2]. *)
Lemma tokenize_kinds_witness :
  let ts :=
    [Token.mk IDENTIFIER (str "true") [] 0; Token.mk NUMBER (str "2") [] 7;
     Token.mk EOF [] [] 8] in
  (exists tokens eof,
      ts = tokens ++ [eof] /\ Token.kind eof = EOF
      /\ Forall (fun t => Token.kind t <> EOF) tokens)
  /\ Forall
       (fun t =>
          Token.kind t <> TRUE /\ Token.kind t <> MODULUS
          /\ Token.kind t <> MODULUS_BY)
       ts.
Proof.
  apply (tokenize_kinds (str "true % 2") (Some recordingReporter)).
  vm_compute. reflexivity.
Defined.

(** X12.  In a sequence [tokenize] returns, the extents of the tokens,
    each from its offset over the length of its lexeme, lie in the input
    and do not overlap: every token ends where the next one starts, or
    before. *)
Theorem tokenize_extents_disjoint (p : jsstring)
  (onError : option ErrorReporter) (ts : list Token.t) :
  tokenize p onError = Returned ts ->
  StronglySorted precedes ts
  /\ Forall (fun t => 0 <= Token.offset t /\ extentEnd t <= strlen p) ts.
Proof.
  intros Hrun.
  destruct (tokenize_returned p onError ts Hrun)
    as (tokens & st & -> & _ & Hinv & Hext & _).
  destruct Hinv as [Hin [Ha Ha'] _ Hbef _ _ _ _].
  rewrite Hin in Ha'.
  pose proof (ext_before _ _ Hext) as Hends. split.
  - apply sorted_snoc; [exact (ext_ordered _ _ Hext)|].
    eapply Forall_impl; [|exact Hends]. unfold precedes. simpl.
    intros t Ht. lia.
  - apply Forall_app. split.
    + rewrite Forall_forall in *. intros t Ht.
      specialize (Hbef t Ht). specialize (Hends t Ht). simpl in *. lia.
    + constructor; [|constructor]. unfold extentEnd. simpl.
      change (strlen []) with 0. lia.
Qed.

(** A witness for [tokenize_extents_disjoint]: the program [a<=b]. *)
Lemma tokenize_extents_disjoint_witness :
  let ts :=
    [Token.mk IDENTIFIER (str "a") [] 0;
     Token.mk LESS_THAN_OR_EQUAL (str "<=") [] 1;
     Token.mk IDENTIFIER (str "b") [] 3; Token.mk EOF [] [] 4] in
  StronglySorted precedes ts
  /\ Forall (fun t => 0 <= Token.offset t /\ extentEnd t <= strlen (str "a<=b")) ts.
Proof.
  apply (tokenize_extents_disjoint (str "a<=b") None).
  vm_compute. reflexivity.
Defined.

(** X13.  In a sequence [tokenize] returns, every token but a STRING and
    the EOF token has a lexeme of at least one character. *)
Theorem tokenize_lexemes_nonempty (p : jsstring)
  (onError : option ErrorReporter) (ts : list Token.t) :
  tokenize p onError = Returned ts ->
  Forall
    (fun t =>
       Token.kind t <> STRING -> Token.kind t <> EOF -> Token.lexeme t <> [])
    ts.
Proof.
  intros Hrun.
  destruct (tokenize_returned p onError ts Hrun)
    as (tokens & st & -> & _ & _ & Hext & _).
  apply Forall_app. split.
  - eapply Forall_impl; [|exact (ext_nonempty _ _ Hext)]. simpl.
    intros t Ht Hs _. now apply Ht.
  - repeat constructor. simpl. intros _ Heof. now elim Heof.
Qed.

(** A witness for [tokenize_lexemes_nonempty]: an empty string literal
    and a name. *)
Lemma tokenize_lexemes_nonempty_witness :
  Forall
    (fun t =>
       Token.kind t <> STRING -> Token.kind t <> EOF -> Token.lexeme t <> [])
    [Token.mk STRING [] [] 2; Token.mk IDENTIFIER (str "a") [] 2;
     Token.mk EOF [] [] 3].
Proof.
  apply (tokenize_lexemes_nonempty ([39; 39] ++ str "a") None).
  vm_compute. reflexivity.
Defined.

(** X14.  In a sequence [tokenize] returns, the offset recorded for a
    comment is at most the offset of the token that carries it. *)
Theorem tokenize_comments_before_token (p : jsstring)
  (onError : option ErrorReporter) (ts : list Token.t) :
  tokenize p onError = Returned ts ->
  Forall
    (fun t =>
       Forall (fun c => IComment.offset c <= Token.offset t)
         (Token.comments t))
    ts.
Proof.
  intros Hrun.
  destruct (tokenize_returned p onError ts Hrun)
    as (tokens & st & -> & _ & _ & Hext & _).
  apply Forall_app. split; [exact (ext_comments _ _ Hext)|].
  repeat constructor. simpl.
  eapply Forall_impl; [|exact (ext_pending _ _ Hext)]. simpl.
  intros c Hc. lia.
Qed.

(** A witness for [tokenize_comments_before_token]: a comment line, then
    a name. *)
Lemma tokenize_comments_before_token_witness :
  Forall
    (fun t =>
       Forall (fun c => IComment.offset c <= Token.offset t)
         (Token.comments t))
    [Token.mk IDENTIFIER (str "a") [IComment.mk (str "//c") 4] 4;
     Token.mk EOF [] [] 5].
Proof.
  apply (tokenize_comments_before_token (str "//c" ++ [10] ++ str "a") None).
  vm_compute. reflexivity.
Defined.

(** ** Runs without an error *)

Lemma defaultOnError_throwing : throwing defaultOnError.
Proof.
  intros history span message. unfold defaultOnError.
  destruct (FileSpan.line span) as [line|e]; [|eauto].
  destruct (FileSpan.column span) as [column|e]; eauto.
Qed.

Lemma reportError_throwing (onError : ErrorReporter) (error : jsstring)
  (offset : option Z) :
  throwing onError ->
  yields (fun _ => False) (ClutchLexer.reportError onError error offset).
Proof.
  intros Hthrow st a st'. unfold ClutchLexer.reportError. cbv zeta.
  destruct (SourceFile.span _ _ _) as [[span|e] f]; [|discriminate].
  destruct (Hthrow (ClutchLexer.reported
                      (ClutchLexer.setProgram
                         (StringScanner.mk f
                            (StringScanner.mPosition (ClutchLexer.program st)))
                         st))
                   span error) as [e He].
  rewrite He. discriminate.
Qed.

Lemma agree_refl {A : Type} (m : ClutchLexer.L A) : agree m m.
Proof. intros st a st' H. exact H. Qed.

Lemma agree_bind {A B : Type} (m1 m2 : ClutchLexer.L A)
  (f1 f2 : A -> ClutchLexer.L B) :
  agree m1 m2 -> (forall a, agree (f1 a) (f2 a)) ->
  agree (bind m1 f1) (bind m2 f2).
Proof.
  intros Hm Hf st b st'. unfold bind.
  destruct (m1 st) as [[a|e] st1] eqn:E1; [|discriminate].
  rewrite (Hm st a st1 E1). apply Hf.
Qed.

Lemma agree_never {A B : Type} (m : ClutchLexer.L A)
  (f : A -> ClutchLexer.L B) (m2 : ClutchLexer.L B) :
  yields (fun _ => False) m -> agree (bind m f) m2.
Proof.
  intros Hm st b st'. unfold bind.
  destruct (m st) as [[a|e] st1] eqn:E1; [|discriminate].
  elim (Hm st a st1 E1).
Qed.

Lemma scanString_agree (r0 r : ErrorReporter) :
  throwing r0 -> agree (ClutchLexer.scanString r0) (ClutchLexer.scanString r).
Proof.
  intros Hthrow. unfold ClutchLexer.scanString.
  apply agree_bind; [apply agree_refl|]. intros closed.
  destruct closed; [apply agree_refl|].
  apply agree_never. now apply reportError_throwing.
Qed.

Lemma scanDefault_agree (r0 r : ErrorReporter) (character : option Z) :
  throwing r0 ->
  agree (ClutchLexer.scanDefault r0 character)
    (ClutchLexer.scanDefault r character).
Proof.
  intros Hthrow. unfold ClutchLexer.scanDefault.
  repeat (destruct (onCode _ character); [apply agree_refl|]).
  apply agree_never. now apply reportError_throwing.
Qed.

Lemma scanSwitch_agree (r0 r : ErrorReporter) (character : option Z) :
  throwing r0 ->
  agree (ClutchLexer.scanSwitch r0 character)
    (ClutchLexer.scanSwitch r character).
Proof.
  intros Hthrow. unfold ClutchLexer.scanSwitch.
  repeat (destruct (code_is character _);
          [first [ apply agree_refl
                 | apply agree_bind;
                   [now apply scanString_agree | intros; apply agree_refl] ]|]).
  now apply scanDefault_agree.
Qed.

(** When the loop returns with a reporter that throws at every call, it
    returns the same tokens and state with every reporter. *)
Lemma scanProgramLoop_agree (r0 r : ErrorReporter) (fuel : nat) :
  throwing r0 ->
  forall tokens,
    agree (ClutchLexer.scanProgramLoop r0 fuel tokens)
      (ClutchLexer.scanProgramLoop r fuel tokens).
Proof.
  intros Hthrow. induction fuel as [|fuel IH]; intros tokens.
  - apply agree_refl.
  - intros st a st'. simpl.
    destruct (StringScanner.hasNext (ClutchLexer.program st)); [|auto].
    apply agree_bind.
    + unfold ClutchLexer.scanToken.
      apply agree_bind; [apply agree_refl|].
      intros character. now apply scanSwitch_agree.
    + intros token. apply IH.
Qed.

Lemma quiet_ret {A : Type} (a : A) : quiet (ret a).
Proof. now intros st b st' [= <- <-]. Qed.

Lemma quiet_bind {A B : Type} (m : ClutchLexer.L A)
  (f : A -> ClutchLexer.L B) :
  quiet m -> (forall a, quiet (f a)) -> quiet (bind m f).
Proof.
  intros Hm Hf st b st'. unfold bind.
  destruct (m st) as [[a|e] st1] eqn:Em; [|discriminate].
  intros Hrun. rewrite (Hf a st1 b st' Hrun). exact (Hm st a st1 Em).
Qed.

Lemma quiet_onProgram {A : Type}
  (f : StringScanner.t -> A * StringScanner.t) :
  quiet (ClutchLexer.onProgram f).
Proof.
  intros st a st'. unfold ClutchLexer.onProgram.
  destruct (f (ClutchLexer.program st)) as [b sc]. now intros [= <- <-].
Qed.

Lemma quiet_onScanner {A : Type} (m : M StringScanner.t A) :
  quiet (ClutchLexer.onScanner m).
Proof.
  intros st a st'. unfold ClutchLexer.onScanner.
  destruct (m (ClutchLexer.program st)) as [r sc]. now intros [= _ <-].
Qed.

Lemma quiet_createToken (kind : TokenKind) (content : option jsstring) :
  quiet (ClutchLexer.createToken kind content).
Proof.
  intros st a st'.
  destruct content as [c|];
    unfold ClutchLexer.createToken, ClutchLexer.substring,
      ClutchLexer.clearComments, bind, ret; simpl;
    now intros [= <- <-].
Qed.

Lemma quiet_never {A : Type} (m : ClutchLexer.L A) :
  yields (fun _ => False) m -> quiet m.
Proof. intros Hm st a st' Hrun. elim (Hm st a st' Hrun). Qed.

Ltac quiet_direct :=
  let st := fresh "st" in
  let a := fresh "a" in
  let st' := fresh "st'" in
  intros st a st';
  unfold ClutchLexer.substring, ClutchLexer.incrPosition,
    ClutchLexer.clearComments, ClutchLexer.pushComment; simpl;
  now intros [= <- <-].

Ltac solve_quiet :=
  lazymatch goal with
  | |- quiet (bind _ _) =>
      apply quiet_bind; [solve_quiet | intro; solve_quiet]
  | |- quiet (ret _) => apply quiet_ret
  | |- quiet (if ?c then _ else _) => destruct c; solve_quiet
  | |- quiet (ClutchLexer.onProgram _) => apply quiet_onProgram
  | |- quiet (ClutchLexer.programMatch _) => apply quiet_onProgram
  | |- quiet (ClutchLexer.onScanner _) => apply quiet_onScanner
  | |- quiet (ClutchLexer.programLoop _) => apply quiet_onScanner
  | |- quiet (ClutchLexer.scanPredicate _) => apply quiet_onScanner
  | |- quiet ClutchLexer.advanceToEOL => apply quiet_onScanner
  | |- quiet (ClutchLexer.createToken _ _) => apply quiet_createToken
  | |- quiet (ClutchLexer.emit _) => unfold ClutchLexer.emit; solve_quiet
  | |- quiet ClutchLexer.scanDigits =>
      unfold ClutchLexer.scanDigits; solve_quiet
  | |- quiet ClutchLexer.scanHexNumber =>
      unfold ClutchLexer.scanHexNumber; solve_quiet
  | |- quiet (ClutchLexer.scanNumber _) =>
      unfold ClutchLexer.scanNumber; solve_quiet
  | |- quiet ClutchLexer.scanIdentifierOrKeyword =>
      unfold ClutchLexer.scanIdentifierOrKeyword; solve_quiet
  | |- quiet ClutchLexer.scanSlash =>
      unfold ClutchLexer.scanSlash; solve_quiet
  | |- quiet (ClutchLexer.reportError _ _ _) =>
      apply quiet_never; now apply reportError_throwing
  | |- quiet (ClutchLexer.scanString _) =>
      unfold ClutchLexer.scanString; solve_quiet
  | |- quiet (ClutchLexer.scanDefault _ _) =>
      unfold ClutchLexer.scanDefault; solve_quiet
  | |- _ => quiet_direct
  end.

Lemma scanToken_quiet (onError : ErrorReporter) :
  throwing onError -> quiet (ClutchLexer.scanToken onError).
Proof.
  intros Hthrow. unfold ClutchLexer.scanToken.
  apply quiet_bind; [apply quiet_onScanner|]. intros character.
  unfold ClutchLexer.scanSwitch.
  repeat (destruct (code_is character _); [solve_quiet|]).
  solve_quiet.
Qed.

Lemma scanProgramLoop_quiet (onError : ErrorReporter) (fuel : nat) :
  throwing onError ->
  forall tokens, quiet (ClutchLexer.scanProgramLoop onError fuel tokens).
Proof.
  intros Hthrow. induction fuel as [|fuel IH]; intros tokens.
  - apply quiet_ret.
  - intros st a st'. simpl.
    destruct (StringScanner.hasNext (ClutchLexer.program st));
      [|now intros [= <- <-]].
    apply quiet_bind; [now apply scanToken_quiet|]. intros token. apply IH.
Qed.

Lemma settles_bind {A : Type} (m : ClutchLexer.L A)
  (f : A -> ClutchLexer.L (option Token.t)) :
  (forall a, settles (f a)) -> settles (bind m f).
Proof.
  intros Hf st x st'. unfold bind.
  destruct (m st) as [[a|e] st1]; [apply Hf | discriminate].
Qed.

Lemma settles_emit (m : ClutchLexer.L Token.t) :
  makes closes m -> settles (ClutchLexer.emit m).
Proof.
  intros Hm st x st'. unfold ClutchLexer.emit, bind, ret.
  destruct (m st) as [[tok|e] st1] eqn:Em; [|discriminate].
  intros [= <- <-]. apply (Hm st tok st1 Em).
Qed.

Lemma scanSlash_settles : settles ClutchLexer.scanSlash.
Proof.
  intros st [tok|] st' Hrun.
  - apply (scanSlash_closes st tok st' Hrun).
  - revert Hrun.
    unfold ClutchLexer.scanSlash, bind, ClutchLexer.programMatch,
      ClutchLexer.onProgram.
    destruct (StringScanner.match_ Characters.SLASH (ClutchLexer.program st))
      as [comment sc].
    destruct comment.
    + unfold ClutchLexer.advanceToEOL, ClutchLexer.programLoop,
        ClutchLexer.onScanner, ClutchLexer.substring, ClutchLexer.pushComment,
        ret.
      cbn [ClutchLexer.program ClutchLexer.setProgram].
      destruct (ClutchLexer.advanceToEOLLoop _ sc) as [[[]|e] sc1];
        [|discriminate].
      simpl. now intros [= <-].
    + destruct (StringScanner.match_ Characters.EQUALS _) as [b sc1].
      unfold ret. rewrite createToken_run. discriminate.
Qed.

Lemma scanDefault_settles (onError : ErrorReporter) (character : option Z) :
  throwing onError ->
  settles (ClutchLexer.scanDefault onError character).
Proof.
  intros Hthrow. unfold ClutchLexer.scanDefault.
  destruct (onCode isWhiteSpace character).
  { intros st x st'. unfold bind, ret. now intros [= <- <-]. }
  destruct (onCode isDigit character).
  { apply settles_emit. apply scanNumber_closes. }
  destruct (onCode isIdentifierStart character).
  { apply settles_emit. apply scanIdentifierOrKeyword_closes. }
  intros st x st'. unfold bind.
  pose proof (reportError_throwing onError (ClutchLexer.unexpectedCharacter character) None
                Hthrow st) as Hnever.
  destruct (ClutchLexer.reportError _ _ _ st) as [[[]|e] st1];
    [|discriminate].
  elim (Hnever tt st1 eq_refl).
Qed.

(** With a reporter that throws at every call, a step that returns leaves
    the anchor at the cursor. *)
Lemma scanToken_settles (onError : ErrorReporter) :
  throwing onError -> settles (ClutchLexer.scanToken onError).
Proof.
  intros Hthrow. unfold ClutchLexer.scanToken.
  apply settles_bind. intros character. unfold ClutchLexer.scanSwitch.
  repeat (destruct (code_is character _);
          [first
             [ apply scanSlash_settles
             | apply settles_emit;
               first
                 [ apply makes_createToken; repeat split; discriminate
                 | apply scanString_closes
                 | apply (makes_bind_yields producible);
                   [ solve_yields | intros; now apply makes_createToken ] ] ]|]).
  now apply scanDefault_settles.
Qed.

Lemma scanProgramLoop_settled (onError : ErrorReporter) (fuel : nat) :
  throwing onError ->
  forall tokens st tokens' st',
    ClutchLexer.position st = cursor st ->
    ClutchLexer.scanProgramLoop onError fuel tokens st
    = (Returned tokens', st') ->
    ClutchLexer.position st' = cursor st'.
Proof.
  intros Hthrow. induction fuel as [|fuel IH]; intros tokens st tokens' st' Hst.
  - now intros [= <- <-].
  - simpl. destruct (StringScanner.hasNext (ClutchLexer.program st));
      [|now intros [= <- <-]].
    unfold bind.
    destruct (ClutchLexer.scanToken onError st) as [[x|e] st1] eqn:Estep;
      [|discriminate].
    apply IH. exact (scanToken_settles onError Hthrow st x st1 Estep).
Qed.

(** X15.  A run without an error does not depend on the reporter: when
    [tokenize] returns with a reporter that throws at every call, as the
    default one does, it returns the same sequence with every reporter
    and with none, and no reporter is called. *)
Theorem tokenize_reporter_independent (p : jsstring)
  (onError : option ErrorReporter) (ts : list Token.t) :
  throwing (reporterOf onError) ->
  tokenize p onError = Returned ts ->
  forall other : option ErrorReporter,
    tokenize p other = Returned ts
    /\ ClutchLexer.reported (snd (tokenizeRun p other)) = [].
Proof.
  intros Hthrow Hrun other.
  destruct (tokenize_returned p onError ts Hrun)
    as (tokens & st & -> & Hloop & _).
  pose proof (scanProgramLoop_quiet (reporterOf onError)
                (StringScanner.remaining (StringScanner.new p)) Hthrow
                [] _ _ _ Hloop) as Hquiet.
  pose proof (scanProgramLoop_agree (reporterOf onError) (reporterOf other)
                (StringScanner.remaining (StringScanner.new p)) Hthrow
                [] _ _ _ Hloop) as Hother.
  rewrite tokenize_fst, tokenizeRun_unfold, Hother. simpl.
  split; [reflexivity | exact Hquiet].
Qed.

(** A witness for [tokenize_reporter_independent]: the program [x = 1]
    with the default reporter, then with a reporter that returns. *)
Lemma tokenize_reporter_independent_witness :
  tokenize (str "x = 1") (Some recordingReporter)
  = Returned
      [Token.mk IDENTIFIER (str "x") [] 0; Token.mk ASSIGN (str "=") [] 2;
       Token.mk NUMBER (str "1") [] 4; Token.mk EOF [] [] 5]
  /\ ClutchLexer.reported
       (snd (tokenizeRun (str "x = 1") (Some recordingReporter))) = [].
Proof.
  apply (tokenize_reporter_independent (str "x = 1") None).
  - exact defaultOnError_throwing.
  - vm_compute. reflexivity.
Defined.

(** X16.  A run without an error reads the whole input: when [tokenize]
    returns with a reporter that throws at every call, as the default one
    does, the offset of the EOF token is the length of the input. *)
Theorem tokenize_EOF_at_length (p : jsstring)
  (onError : option ErrorReporter) (ts : list Token.t) :
  throwing (reporterOf onError) ->
  tokenize p onError = Returned ts ->
  exists tokens eof,
    ts = tokens ++ [eof]
    /\ Token.kind eof = EOF /\ Token.lexeme eof = []
    /\ Token.offset eof = strlen p.
Proof.
  intros Hthrow Hrun.
  destruct (tokenize_returned p onError ts Hrun)
    as (tokens & st & -> & Hloop & Hinv & _ & Hn).
  pose proof (scanProgramLoop_settled (reporterOf onError) _ Hthrow
                [] (ClutchLexer.new (StringScanner.new p)) tokens st
                eq_refl Hloop) as Hset.
  destruct Hinv as [Hin [Ha Ha'] _ _ _ _ _ _].
  apply hasNext_false in Hn.
  unfold StringScanner.length, SourceFile.length in Hn.
  unfold cursor, inputOf in *.
  eexists _, _. split; [reflexivity|]. simpl.
  split; [reflexivity|]. split; [reflexivity|]. rewrite <- Hin. lia.
Qed.

(** A witness for [tokenize_EOF_at_length]: a name and trailing blanks. *)
Lemma tokenize_EOF_at_length_witness :
  exists tokens eof,
    [Token.mk IDENTIFIER (str "ab") [] 0; Token.mk EOF [] [] 4]
    = tokens ++ [eof]
    /\ Token.kind eof = EOF /\ Token.lexeme eof = []
    /\ Token.offset eof = strlen (str "ab  ").
Proof.
  apply (tokenize_EOF_at_length (str "ab  ") None).
  - exact defaultOnError_throwing.
  - vm_compute. reflexivity.
Defined.

(** ** String literals *)

Lemma makes_createToken_kind (P : TokenKind -> Prop) (kind : TokenKind) :
  P kind ->
  makes (fun tok _ => P (Token.kind tok)) (ClutchLexer.createToken kind None).
Proof.
  intros Hk st tok st'. rewrite createToken_run. now intros [= <- <-].
Qed.

Lemma keywordOrIdentifier_not_string (name : jsstring) :
  keywordOrIdentifier name <> STRING.
Proof.
  unfold keywordOrIdentifier, keywordsLookup, keywords. simpl ownProperty.
  repeat (destruct (jsstring_eqb _ name); [discriminate|]).
  destruct (existsb _ _); discriminate.
Qed.

Lemma scanNumber_not_string (starting : option Z) :
  makes (fun tok _ => Token.kind tok <> STRING)
    (ClutchLexer.scanNumber starting).
Proof.
  assert (Hnumber : NUMBER <> STRING) by discriminate.
  pose proof (makes_createToken_kind (fun k => k <> STRING) NUMBER Hnumber)
    as Hcreate.
  assert (Hdigits : makes (fun tok _ => Token.kind tok <> STRING)
                      ClutchLexer.scanDigits).
  { apply makes_bind. intros _. exact Hcreate. }
  unfold ClutchLexer.scanNumber. apply makes_bind. intros hex.
  destruct hex.
  - apply makes_bind. intros _. exact Hcreate.
  - apply makes_bind. intros exponent. destruct exponent; [exact Hdigits|].
    apply makes_bind. intros _. exact Hdigits.
Qed.

Lemma scanIdentifierOrKeyword_not_string :
  makes (fun tok _ => Token.kind tok <> STRING)
    ClutchLexer.scanIdentifierOrKeyword.
Proof.
  unfold ClutchLexer.scanIdentifierOrKeyword. apply makes_bind. intros _.
  intros st tok st' Hrun.
  apply (makes_createToken_kind (fun k => k <> STRING)
           (keywordOrIdentifier
              (js_substring (inputOf st) (ClutchLexer.position st) (cursor st)))
           (keywordOrIdentifier_not_string _) st tok st').
  exact Hrun.
Qed.

Lemma scanSlash_not_string :
  makesToken (fun tok _ => Token.kind tok <> STRING) ClutchLexer.scanSlash.
Proof.
  unfold ClutchLexer.scanSlash. apply makesToken_bind. intros comment.
  destruct comment.
  - intros st tok st'. unfold bind, ret.
    destruct (ClutchLexer.advanceToEOL st) as [[[]|e] st1]; [|discriminate].
    destruct (ClutchLexer.substring st1) as [[text|e] st2]; [|discriminate].
    destruct (ClutchLexer.pushComment _ st2) as [[[]|e] st3]; discriminate.
  - apply (makesToken_bind_yields (fun k => k <> STRING)); [solve_yields|].
    intros kind Hkind.
    apply (makesToken_emit _ (ClutchLexer.createToken kind None)).
    now apply (makes_createToken_kind (fun k => k <> STRING)).
Qed.

Lemma scanDefault_not_string (onError : ErrorReporter) (character : option Z) :
  makesToken (fun tok _ => Token.kind tok <> STRING)
    (ClutchLexer.scanDefault onError character).
Proof.
  unfold ClutchLexer.scanDefault.
  destruct (onCode isWhiteSpace character); [apply makesToken_none|].
  destruct (onCode isDigit character).
  { apply makesToken_emit. apply scanNumber_not_string. }
  destruct (onCode isIdentifierStart character).
  { apply makesToken_emit. apply scanIdentifierOrKeyword_not_string. }
  apply makesToken_none.
Qed.

Lemma emit_returned (m : ClutchLexer.L Token.t) (st st' : ClutchLexer.t)
  (tok : Token.t) :
  ClutchLexer.emit m st = (Returned (Some tok), st') ->
  m st = (Returned tok, st').
Proof.
  unfold ClutchLexer.emit, bind, ret.
  destruct (m st) as [[t|e] st1]; [|discriminate]. now intros [= <- <-].
Qed.

Ltac solve_not_string :=
  first
    [ apply scanSlash_not_string
    | apply makesToken_emit;
      first
        [ apply (makes_createToken_kind (fun k => k <> STRING)); discriminate
        | apply (makes_bind_yields (fun k => k <> STRING));
          [ solve_yields
          | intros;
            now apply (makes_createToken_kind (fun k => k <> STRING)) ] ] ].

(** A STRING token comes from [scanString], after a quote. *)
Lemma scanSwitch_string (onError : ErrorReporter) (character : option Z)
  (st st' : ClutchLexer.t) (tok : Token.t) :
  ClutchLexer.scanSwitch onError character st = (Returned (Some tok), st') ->
  Token.kind tok = STRING ->
  character = Some Characters.SQUOTE
  /\ ClutchLexer.scanString onError st = (Returned tok, st').
Proof.
  unfold ClutchLexer.scanSwitch.
  repeat (lazymatch goal with
          | |- (if code_is character ?x then _ else _) _ = _ -> _ =>
              destruct (code_is character x) eqn:?
          end;
          [first
             [ intros Hrun _; split; [|exact (emit_returned _ _ _ _ Hrun)];
               destruct character as [c|]; [|discriminate];
               f_equal; now apply Z.eqb_eq
             | intros Hrun Hk; exfalso; revert Hk;
               refine ((_ : makesToken (fun tok _ => Token.kind tok <> STRING) _)
                         st tok st' Hrun);
               solve_not_string ]|]).
  intros Hrun Hk. exfalso. revert Hk.
  exact (scanDefault_not_string onError character st tok st' Hrun).
Qed.

(** When the loop of [scanString] leaves through the closing quote, the
    scanner is behind the first quote at or after its position. *)
Lemma scanStringSteps_closed (fuel : nat) (sc : StringScanner.t) :
  fst (scanStringSteps fuel sc) = true ->
  let sc' := snd (scanStringSteps fuel sc) in
  let s := SourceFile.contents (StringScanner.source sc) in
  StringScanner.mPosition sc + 1 <= StringScanner.mPosition sc'
  /\ charCodeAt s (StringScanner.mPosition sc' - 1) = Some Characters.SQUOTE
  /\ forall i,
       StringScanner.mPosition sc <= i < StringScanner.mPosition sc' - 1 ->
       charCodeAt s i <> Some Characters.SQUOTE.
Proof.
  revert sc. induction fuel as [|fuel IH]; intros sc; simpl; [discriminate|].
  destruct (StringScanner.hasNext sc); [|discriminate].
  destruct (match_cases Characters.SQUOTE sc) as [[Eq Hmiss] | [Eq Hhit]];
    rewrite Eq; simpl.
  - intros Hclosed. destruct (IH _ Hclosed) as (H1 & H2 & H3). simpl in *.
    split; [lia|]. split; [exact H2|].
    intros i Hi. destruct (Z.eq_dec i (StringScanner.mPosition sc)) as [->|Hne].
    + unfold StringScanner.peek, StringScanner.position in Hmiss.
      rewrite Z.add_0_r in Hmiss. intros Hq. rewrite Hq in Hmiss.
      simpl in Hmiss. discriminate.
    + apply H3. lia.
  - intros _. split; [lia|]. split.
    + unfold StringScanner.peek, StringScanner.position in Hhit.
      rewrite Z.add_0_r in Hhit.
      now replace (StringScanner.mPosition sc + 1 - 1)
        with (StringScanner.mPosition sc) by lia.
    + intros i Hi. lia.
Qed.

Lemma js_substring_In (s : jsstring) (a b c : Z) :
  0 <= a <= b -> b <= strlen s -> In c (js_substring s a b) ->
  exists i, a <= i < b /\ charCodeAt s i = Some c.
Proof.
  intros Ha Hb Hin. rewrite js_substring_slice in Hin by lia.
  apply In_nth_error in Hin. destruct Hin as [n Hn].
  assert (Hlt : (n < Z.to_nat (b - a))%nat).
  { assert (Hsome : nth_error (firstn (Z.to_nat (b - a)) (skipn (Z.to_nat a) s)) n
                    <> None) by (rewrite Hn; discriminate).
    apply nth_error_Some in Hsome. rewrite length_firstn in Hsome. lia. }
  rewrite nth_error_firstn in Hn.
  destruct (Nat.ltb_spec n (Z.to_nat (b - a))); [|lia].
  rewrite nth_error_skipn in Hn.
  exists (a + Z.of_nat n). split; [lia|].
  unfold charCodeAt, array_get.
  destruct (Z.ltb_spec (a + Z.of_nat n) 0); [lia|].
  now replace (Z.to_nat (a + Z.of_nat n)) with (Z.to_nat a + n)%nat by lia.
Qed.

Lemma js_substring_nested (s : jsstring) (a c : Z) :
  0 <= a < c -> c <= strlen s ->
  js_substring (js_substring s a c) 0 (strlen (js_substring s a c) - 1)
  = js_substring s a (c - 1).
Proof.
  intros Ha Hc. rewrite (js_substring_length s a c) by lia.
  rewrite (js_substring_slice _ 0 (c - a - 1))
    by (rewrite ?js_substring_length; lia).
  rewrite !js_substring_slice by lia. simpl skipn.
  rewrite firstn_firstn. f_equal. lia.
Qed.

(** [scanString] inside [scanToken], when the reporter throws at every
    call: the token it returns is the text from the character after the
    anchor to the first quote, and its offset is the anchor plus two. *)
Lemma scanString_body (onError : ErrorReporter) (st st' : ClutchLexer.t)
  (tok : Token.t) :
  throwing onError -> reading st ->
  ClutchLexer.scanString onError st = (Returned tok, st') ->
  let stop := Token.offset tok - 1 + strlen (Token.lexeme tok) in
  Token.offset tok = ClutchLexer.position st + 2
  /\ cursor st <= stop
  /\ js_substring (inputOf st) (Token.offset tok - 1) stop = Token.lexeme tok
  /\ charCodeAt (inputOf st) stop = Some Characters.SQUOTE
  /\ forall i, cursor st <= i < stop ->
       charCodeAt (inputOf st) i <> Some Characters.SQUOTE.
Proof.
  intros Hthrow Hr. unfold ClutchLexer.scanString, bind at 1.
  rewrite scanString_steps
    by exact (anchored_inside st (reading_anchored st Hr)).
  pose proof (scanStringSteps_closed
                (StringScanner.remaining (ClutchLexer.program st))
                (ClutchLexer.program st)) as Hclosed.
  pose proof (scanStringSteps_advanced
                (StringScanner.remaining (ClutchLexer.program st))
                (ClutchLexer.program st)
                (anchored_inside st (reading_anchored st Hr))) as Hadv.
  destruct (scanStringSteps _ _) as [closed sc]. cbn [fst snd].
  destruct closed.
  - destruct (Hclosed eq_refl) as (H1 & H2 & H3). clear Hclosed.
    destruct Hadv as [Hsrc Hadv]. simpl in *.
    destruct Hr as [Hr Hr'].
    unfold bind, ClutchLexer.incrPosition, ClutchLexer.substring,
      ClutchLexer.createToken, ClutchLexer.clearComments, ret. simpl.
    unfold StringScanner.substring, StringScanner.position. rewrite Hsrc.
    fold (inputOf st).
    unfold cursor, StringScanner.length, SourceFile.length in *.
    fold (inputOf st) in *.
    intros [= <- <-]. cbn [Token.offset Token.lexeme].
    rewrite js_substring_nested by lia.
    rewrite js_substring_length by lia.
    replace (StringScanner.mPosition sc
             - (StringScanner.mPosition sc - 1 - (ClutchLexer.position st + 1))
             - 1
             + (StringScanner.mPosition sc - 1 - (ClutchLexer.position st + 1)))
      with (StringScanner.mPosition sc - 1) by lia.
    replace (StringScanner.mPosition sc
             - (StringScanner.mPosition sc - 1 - (ClutchLexer.position st + 1))
             - 1)
      with (ClutchLexer.position st + 1) by lia.
    repeat split; try assumption; try lia.
  - intros Hrun. exfalso. revert Hrun. unfold bind.
    pose proof (reportError_throwing onError (str "Unterminated string") None
                  Hthrow (ClutchLexer.setProgram sc st)) as Hnever.
    destruct (ClutchLexer.reportError _ _ _ _) as [[[]|e] st1];
      [|discriminate].
    elim (Hnever tt st1 eq_refl).
Qed.

(** A STRING token of a step from a state whose anchor is the cursor. *)
Lemma scanToken_string (onError : ErrorReporter) (st st' : ClutchLexer.t)
  (tok : Token.t) :
  throwing onError -> anchored st ->
  ClutchLexer.position st = cursor st ->
  StringScanner.hasNext (ClutchLexer.program st) = true ->
  ClutchLexer.scanToken onError st = (Returned (Some tok), st') ->
  Token.kind tok = STRING ->
  quoted (inputOf st) tok.
Proof.
  intros Hthrow Ha Hset Hn Hrun Hk. apply scanToken_returned in Hrun.
  destruct (scanSwitch_string _ _ _ _ _ Hrun Hk) as [Hquote Hstring].
  pose proof (afterAdvance_reading st Ha Hn) as Hr.
  destruct (scanString_body onError _ _ _ Hthrow Hr Hstring)
    as (Hoff & Hstop & Hslice & Hclose & Hbody).
  destruct (afterAdvance_fields st) as (Fp & _ & _ & Fi & Fc).
  rewrite Fp in Hoff. rewrite Fi in Hslice, Hclose, Hbody.
  rewrite Fc in Hstop, Hbody.
  destruct Ha as [Ha Ha'].
  pose proof (array_get_some_inv _ _ _ Hclose) as Hin.
  pose proof (strlen_nonneg (Token.lexeme tok)) as Hlen.
  unfold quoted. cbv zeta. split; [|split; [exact Hslice | split; [exact Hclose|]]].
  - replace (Token.offset tok - 1 - 1) with (cursor st) by lia.
    exact Hquote.
  - intros Hq. rewrite <- Hslice in Hq.
    apply js_substring_In in Hq; [|lia | unfold strlen in *; lia].
    destruct Hq as (i & Hi & Hci). apply (Hbody i); [lia | exact Hci].
Qed.

Lemma scanProgramLoop_strings (onError : ErrorReporter) (p : jsstring)
  (fuel : nat) :
  throwing onError ->
  forall (st : ClutchLexer.t) (tokens : list Token.t),
    invariant p st tokens ->
    ClutchLexer.position st = cursor st ->
    Forall (fun t => Token.kind t = STRING -> quoted p t) tokens ->
    (StringScanner.remaining (ClutchLexer.program st) <= fuel)%nat ->
    forall tokens' st',
      ClutchLexer.scanProgramLoop onError fuel tokens st
      = (Returned tokens', st') ->
      Forall (fun t => Token.kind t = STRING -> quoted p t) tokens'.
Proof.
  intros Hthrow.
  induction fuel as [|fuel IH]; intros st tokens Hinv Hset Hall Hfuel tokens' st'.
  - simpl. now intros [= <- <-].
  - simpl. destruct (StringScanner.hasNext (ClutchLexer.program st)) eqn:Hn;
      [|now intros [= <- <-]].
    pose proof (scanToken_step onError st (inv_anchored _ _ _ Hinv) Hn) as Hstep.
    pose proof (scanToken_settles onError Hthrow st) as Hsettles.
    pose proof (scanToken_string onError st) as Hstring.
    unfold bind.
    destruct (ClutchLexer.scanToken onError st) as [[[tok|]|e] st1];
      simpl in Hstep; [| |discriminate].
    + apply IH.
      * eapply invariant_token; eassumption.
      * exact (Hsettles _ _ eq_refl).
      * apply Forall_app. split; [exact Hall|]. constructor; [|constructor].
        rewrite <- (inv_input _ _ _ Hinv).
        exact (Hstring st1 tok Hthrow (inv_anchored _ _ _ Hinv) Hset Hn eq_refl).
      * destruct Hstep as [Hadv _]. eapply remaining_after; eassumption.
    + apply IH.
      * eapply invariant_skip; eassumption.
      * exact (Hsettles _ _ eq_refl).
      * exact Hall.
      * destruct Hstep as [Hadv _]. eapply remaining_after; eassumption.
Qed.

(** X17.  In a run without an error, every STRING token is a string
    literal of the input: its lexeme is the text between an opening quote
    and the first quote after it, and the offset recorded for the token
    is the offset of the opening quote plus two, one character after the
    start of the lexeme. *)
Theorem tokenize_strings_quoted (p : jsstring)
  (onError : option ErrorReporter) (ts : list Token.t) :
  throwing (reporterOf onError) ->
  tokenize p onError = Returned ts ->
  Forall (fun t => Token.kind t = STRING -> quoted p t) ts.
Proof.
  intros Hthrow Hrun.
  destruct (tokenize_returned p onError ts Hrun)
    as (tokens & st & -> & Hloop & _).
  apply Forall_app. split.
  - exact (scanProgramLoop_strings (reporterOf onError) p _ Hthrow
             (ClutchLexer.new (StringScanner.new p)) []
             (invariant_initial p) eq_refl (Forall_nil _) (Nat.le_refl _)
             tokens st Hloop).
  - constructor; [|constructor]. simpl. discriminate.
Qed.

(** A witness for [tokenize_strings_quoted]: the program [x = 'ab']. *)
Lemma tokenize_strings_quoted_witness :
  let p := str "x = " ++ [39] ++ str "ab" ++ [39] in
  Forall (fun t => Token.kind t = STRING -> quoted p t)
    [Token.mk IDENTIFIER (str "x") [] 0; Token.mk ASSIGN (str "=") [] 2;
     Token.mk STRING (str "ab") [] 6; Token.mk EOF [] [] 8].
Proof.
  apply (tokenize_strings_quoted (str "x = " ++ [39] ++ str "ab" ++ [39]) None).
  - exact defaultOnError_throwing.
  - vm_compute. reflexivity.
Defined.

(** ** [scanPredicate] *)

Lemma scanPredicateSteps_longest (predicate : Z -> bool) (fuel : nat) :
  forall sc : StringScanner.t,
    inside sc ->
    (StringScanner.remaining sc <= fuel)%nat ->
    let s := SourceFile.contents (StringScanner.source sc) in
    let sc' := scanPredicateSteps predicate fuel sc in
    StringScanner.source sc' = StringScanner.source sc
    /\ StringScanner.mPosition sc <= StringScanner.mPosition sc' <= strlen s
    /\ (forall i,
          StringScanner.mPosition sc <= i < StringScanner.mPosition sc' ->
          onCode predicate (charCodeAt s i) = true)
    /\ (StringScanner.mPosition sc' = strlen s
        \/ exists c,
             charCodeAt s (StringScanner.mPosition sc') = Some c
             /\ predicate c = false).
Proof.
  induction fuel as [|fuel IH]; intros sc Hi Hfuel; cbv zeta.
  - simpl. unfold inside, StringScanner.remaining, StringScanner.position,
      StringScanner.length, SourceFile.length in *.
    split; [reflexivity|]. split; [lia|]. split; [intros i Hlt; lia|].
    left. lia.
  - simpl. destruct (StringScanner.hasNext sc) eqn:Hn.
    + pose proof Hn as Hlt. apply hasNext_true in Hlt.
      unfold inside, StringScanner.length, SourceFile.length in *.
      destruct (array_get_some (SourceFile.contents (StringScanner.source sc))
                  (StringScanner.mPosition sc)) as [c Hc];
        [unfold strlen in *; lia|].
      assert (Hpeek : StringScanner.peek sc 0 = Some c).
      { unfold StringScanner.peek, StringScanner.position, charCodeAt.
        now rewrite Z.add_0_r. }
      rewrite Hpeek. simpl onCode.
      destruct (predicate c) eqn:Hp; simpl negb; cbv iota.
      * destruct (IH (stepped sc)) as (H1 & H2 & H3 & H4).
        { unfold inside, StringScanner.length, SourceFile.length. simpl. lia. }
        { rewrite (remaining_advance sc Hn) in Hfuel. lia. }
        simpl in *. split; [exact H1|]. split; [lia|]. split; [|exact H4].
        intros i Hrange.
        destruct (Z.eq_dec i (StringScanner.mPosition sc)) as [->|Hne].
        -- unfold charCodeAt. rewrite Hc. exact Hp.
        -- apply H3. lia.
      * split; [reflexivity|]. split; [lia|]. split; [intros i Hrange; lia|].
        right. exists c. split; [exact Hc | exact Hp].
    + apply hasNext_false in Hn.
      unfold inside, StringScanner.length, SourceFile.length in *.
      split; [reflexivity|]. split; [lia|]. split; [intros i Hrange; lia|].
      left. lia.
Qed.

Lemma scanPredicate_stop (predicate : Z -> bool) (st : ClutchLexer.t) :
  inside (ClutchLexer.program st) ->
  exists stop,
    ClutchLexer.scanPredicate predicate st
    = (Returned tt,
       ClutchLexer.setProgram
         (StringScanner.mk (StringScanner.source (ClutchLexer.program st)) stop)
         st)
    /\ cursor st <= stop <= strlen (inputOf st)
    /\ (forall i, cursor st <= i < stop ->
          onCode predicate (charCodeAt (inputOf st) i) = true)
    /\ (stop = strlen (inputOf st)
        \/ exists c,
             charCodeAt (inputOf st) stop = Some c /\ predicate c = false).
Proof.
  intros Hi.
  destruct (scanPredicateSteps_longest predicate
              (StringScanner.remaining (ClutchLexer.program st))
              (ClutchLexer.program st) Hi (Nat.le_refl _))
    as (H1 & H2 & H3 & H4).
  exists (StringScanner.mPosition
            (scanPredicateSteps predicate
               (StringScanner.remaining (ClutchLexer.program st))
               (ClutchLexer.program st))).
  split; [|split; [exact H2 | split; [exact H3 | exact H4]]].
  rewrite scanPredicate_steps by exact Hi.
  rewrite <- H1.
  now destruct (scanPredicateSteps _ _ _).
Qed.

(** X18.  [scanPredicate] reads the longest run of characters that
    satisfy the predicate: it moves the cursor, and nothing else, to the
    first offset at or after it where the input ends or the character
    does not satisfy the predicate. *)
Theorem scanPredicate_longest (predicate : Z -> bool) (st : ClutchLexer.t) :
  inside (ClutchLexer.program st) ->
  exists stop,
    ClutchLexer.scanPredicate predicate st
    = (Returned tt,
       ClutchLexer.setProgram
         (StringScanner.mk (StringScanner.source (ClutchLexer.program st)) stop)
         st)
    /\ cursor st <= stop <= strlen (inputOf st)
    /\ (forall i, cursor st <= i < stop ->
          onCode predicate (charCodeAt (inputOf st) i) = true)
    /\ (stop = strlen (inputOf st)
        \/ exists c,
             charCodeAt (inputOf st) stop = Some c /\ predicate c = false).
Proof. exact (scanPredicate_stop predicate st). Qed.

(** A witness for [scanPredicate_longest]: the digits of [12a] from the
    start. *)
Lemma scanPredicate_longest_witness :
  let st := ClutchLexer.new (StringScanner.new (str "12a")) in
  exists stop,
    ClutchLexer.scanPredicate isDigit st
    = (Returned tt,
       ClutchLexer.setProgram
         (StringScanner.mk (StringScanner.source (ClutchLexer.program st)) stop)
         st)
    /\ cursor st <= stop <= strlen (inputOf st)
    /\ (forall i, cursor st <= i < stop ->
          onCode isDigit (charCodeAt (inputOf st) i) = true)
    /\ (stop = strlen (inputOf st)
        \/ exists c,
             charCodeAt (inputOf st) stop = Some c /\ isDigit c = false).
Proof.
  apply (scanPredicate_longest isDigit
           (ClutchLexer.new (StringScanner.new (str "12a")))).
  vm_compute. split; discriminate.
Defined.

(** ** Names and keywords *)

Ltac unfold_codes :=
  unfold Characters.LF, Characters.CR, Characters.EXCLAIM, Characters.AND,
    Characters.SQUOTE, Characters.LPAREN, Characters.RPAREN, Characters.STAR,
    Characters.PLUS, Characters.MINUS, Characters.PERIOD, Characters.SLASH,
    Characters.ZERO, Characters.LANGLE, Characters.EQUALS, Characters.RANGLE,
    Characters.E, Characters.X, Characters.CARET, Characters.UNDERSCORE,
    Characters.e, Characters.x, Characters.LCURLY, Characters.PIPE,
    Characters.RCURLY, Characters.TILDE in *.

Lemma code_is_other (c pattern : Z) :
  c <> pattern -> code_is (Some c) pattern = false.
Proof. intros Hne. simpl. now apply Z.eqb_neq. Qed.

Lemma isIdentifierStart_range (c : Z) :
  isIdentifierStart c = true ->
  97 <= c <= 122 \/ 65 <= c <= 90 \/ c = 95.
Proof.
  unfold isIdentifierStart, isLetter. unfold_codes.
  rewrite !orb_true_iff, !andb_true_iff, !Z.leb_le, Z.eqb_eq. lia.
Qed.

(** A letter or an underscore is none of the characters of the [switch],
    no white space and no digit: it starts a name. *)
Lemma scanSwitch_identifierStart (onError : ErrorReporter) (c : Z) :
  isIdentifierStart c = true ->
  ClutchLexer.scanSwitch onError (Some c)
  = ClutchLexer.emit ClutchLexer.scanIdentifierOrKeyword.
Proof.
  intros Hstart. pose proof (isIdentifierStart_range c Hstart) as Hrange.
  unfold ClutchLexer.scanSwitch.
  rewrite !code_is_other by (unfold_codes; lia).
  unfold ClutchLexer.scanDefault. simpl onCode. rewrite Hstart.
  assert (Hw : isWhiteSpace c = false).
  { unfold isWhiteSpace. unfold_codes.
    rewrite !orb_false_iff, !Z.eqb_neq. lia. }
  assert (Hd : isDigit c = false).
  { unfold isDigit. rewrite andb_false_iff, !Z.leb_gt. lia. }
  now rewrite Hw, Hd.
Qed.

Lemma isIdentifierStart_isIdentifier (c : Z) :
  isIdentifierStart c = true -> isIdentifier c = true.
Proof. intros H. unfold isIdentifier. now rewrite H. Qed.

Lemma scanToken_name (onError : ErrorReporter) (st : ClutchLexer.t)
  (c : Z) :
  anchored st ->
  charCodeAt (inputOf st) (cursor st) = Some c ->
  isIdentifierStart c = true ->
  exists stop,
    cursor st < stop <= strlen (inputOf st)
    /\ (forall i, cursor st <= i < stop ->
          onCode isIdentifier (charCodeAt (inputOf st) i) = true)
    /\ (stop = strlen (inputOf st)
        \/ exists c',
             charCodeAt (inputOf st) stop = Some c' /\ isIdentifier c' = false)
    /\ let name := js_substring (inputOf st) (ClutchLexer.position st) stop in
       ClutchLexer.scanToken onError st
       = (Returned
            (Some
               (Token.mk (keywordOrIdentifier name) name
                  (ClutchLexer.lastComments st) (ClutchLexer.position st))),
          ClutchLexer.mk
            (StringScanner.mk (StringScanner.source (ClutchLexer.program st))
               stop)
            stop [] (ClutchLexer.buffered st) (ClutchLexer.reported st)).
Proof.
  intros Ha Hc Hstart.
  pose proof (array_get_some_inv _ _ _ Hc) as Hlt.
  assert (Hn : StringScanner.hasNext (ClutchLexer.program st) = true).
  { apply hasNext_true. unfold StringScanner.length, SourceFile.length.
    unfold cursor, inputOf, strlen in *. lia. }
  pose proof (afterAdvance_reading st Ha Hn) as Hr.
  destruct (scanPredicate_stop isIdentifier (afterAdvance st)
              (anchored_inside _ (reading_anchored _ Hr)))
    as (stop & Hrun & Hstop & Hall & Hend).
  destruct (afterAdvance_fields st) as (Fp & Fl & Fb & Fi & Fc).
  rewrite Fi in Hall, Hend, Hstop. rewrite Fc in Hall, Hstop.
  pose proof (anchored_inside st Ha) as Hinside.
  destruct Ha as [Ha Ha'].
  exists stop. split; [lia|]. split; [|split; [exact Hend|]].
  { intros i Hi. destruct (Z.eq_dec i (cursor st)) as [->|Hne].
    - rewrite Hc. simpl. now apply isIdentifierStart_isIdentifier.
    - apply Hall. lia. }
  cbv zeta. rewrite (scanToken_run onError st Hinside Hn).
  replace (charCodeAt
             (SourceFile.contents
                (StringScanner.source (ClutchLexer.program st)))
             (StringScanner.mPosition (ClutchLexer.program st)))
    with (Some c)
    by (symmetry; exact Hc).
  rewrite scanSwitch_identifierStart by exact Hstart.
  unfold ClutchLexer.emit, ClutchLexer.scanIdentifierOrKeyword.
  unfold bind at 1 2. rewrite Hrun.
  unfold bind, ClutchLexer.substring, ClutchLexer.clearComments, ret.
  cbn [ClutchLexer.program ClutchLexer.position ClutchLexer.lastComments
       ClutchLexer.buffered ClutchLexer.reported ClutchLexer.setProgram
       ClutchLexer.setPosition afterAdvance StringScanner.position
       StringScanner.mPosition StringScanner.source StringScanner.substring
       stepped snd].
  unfold StringScanner.substring. cbn [StringScanner.source].
  fold (inputOf st).
  rewrite (js_substring_length (inputOf st) (ClutchLexer.position st) stop)
    by lia.
  replace (stop - (stop - ClutchLexer.position st))
    with (ClutchLexer.position st) by lia.
  reflexivity.
Qed.

(** X19.  A name is read to its end: at a letter or an underscore,
    [scanToken] makes one token from the anchor to the first offset
    behind the cursor where the input ends or the character is no
    letter, underscore or digit; its kind is the entry of the lexeme in
    the keyword table, or IDENTIFIER, and it carries the comments
    buffered so far. *)
Theorem scanToken_identifier (onError : ErrorReporter) (st : ClutchLexer.t)
  (c : Z) :
  anchored st ->
  charCodeAt (inputOf st) (cursor st) = Some c ->
  isIdentifierStart c = true ->
  exists stop,
    cursor st < stop <= strlen (inputOf st)
    /\ (forall i, cursor st <= i < stop ->
          onCode isIdentifier (charCodeAt (inputOf st) i) = true)
    /\ (stop = strlen (inputOf st)
        \/ exists c',
             charCodeAt (inputOf st) stop = Some c' /\ isIdentifier c' = false)
    /\ let name := js_substring (inputOf st) (ClutchLexer.position st) stop in
       ClutchLexer.scanToken onError st
       = (Returned
            (Some
               (Token.mk (keywordOrIdentifier name) name
                  (ClutchLexer.lastComments st) (ClutchLexer.position st))),
          ClutchLexer.mk
            (StringScanner.mk (StringScanner.source (ClutchLexer.program st))
               stop)
            stop [] (ClutchLexer.buffered st) (ClutchLexer.reported st)).
Proof. exact (scanToken_name onError st c). Qed.

(** A witness for [scanToken_identifier]: the name [if] of [if(x)]. *)
Lemma scanToken_identifier_witness :
  let st := ClutchLexer.new (StringScanner.new (str "if(x)")) in
  exists stop,
    cursor st < stop <= strlen (inputOf st)
    /\ (forall i, cursor st <= i < stop ->
          onCode isIdentifier (charCodeAt (inputOf st) i) = true)
    /\ (stop = strlen (inputOf st)
        \/ exists c',
             charCodeAt (inputOf st) stop = Some c' /\ isIdentifier c' = false)
    /\ let name := js_substring (inputOf st) (ClutchLexer.position st) stop in
       ClutchLexer.scanToken recordingReporter st
       = (Returned
            (Some
               (Token.mk (keywordOrIdentifier name) name
                  (ClutchLexer.lastComments st) (ClutchLexer.position st))),
          ClutchLexer.mk
            (StringScanner.mk (StringScanner.source (ClutchLexer.program st))
               stop)
            stop [] (ClutchLexer.buffered st) (ClutchLexer.reported st)).
Proof.
  apply (scanToken_identifier recordingReporter
           (ClutchLexer.new (StringScanner.new (str "if(x)"))) 105).
  - vm_compute. repeat split; discriminate.
  - reflexivity.
  - reflexivity.
Defined.

Lemma jsstring_eqb_eq (a b : jsstring) : jsstring_eqb a b = true <-> a = b.
Proof.
  unfold jsstring_eqb. destruct (list_eq_dec Z.eq_dec a b); split;
    congruence.
Qed.

Lemma ownProperty_none (name : jsstring)
  (table : list (jsstring * TokenKind)) :
  ownProperty name table = None <-> ~ In name (map fst table).
Proof.
  induction table as [|[key value] table IH]; simpl; [tauto|].
  destruct (jsstring_eqb key name) eqn:E.
  - apply jsstring_eqb_eq in E. split; [discriminate | tauto].
  - assert (key <> name)
      by (intros Heq; apply jsstring_eqb_eq in Heq; congruence).
    tauto.
Qed.

Lemma ownProperty_some (name : jsstring)
  (table : list (jsstring * TokenKind)) (k : TokenKind) :
  ownProperty name table = Some k -> In k (map snd table).
Proof.
  induction table as [|[key value] table IH]; simpl; [discriminate|].
  destruct (jsstring_eqb key name); [intros [= <-]; now left | tauto].
Qed.

(** The lookup [keywords[name] || IDENTIFIER] gives IDENTIFIER exactly
    for the names that are no key of the table and no member of
    [Object.prototype]. *)
Lemma keywordOrIdentifier_identifier (name : jsstring) :
  keywordOrIdentifier name = IDENTIFIER
  <-> ~ In name (map fst keywords) /\ ~ In name objectPrototype.
Proof.
  unfold keywordOrIdentifier, keywordsLookup.
  destruct (ownProperty name keywords) as [k|] eqn:Eown.
  - assert (Hkey : In name (map fst keywords)).
    { destruct (in_dec (list_eq_dec Z.eq_dec) name (map fst keywords))
        as [Hin|Hout]; [exact Hin|].
      apply ownProperty_none in Hout. congruence. }
    apply ownProperty_some in Eown. split; [|tauto].
    intros ->. simpl in Eown.
    repeat (destruct Eown as [Eown|Eown]; [discriminate|]). elim Eown.
  - apply ownProperty_none in Eown.
    destruct (existsb (jsstring_eqb name) objectPrototype) eqn:Ex.
    + split; [discriminate|]. intros [_ Hp]. elim Hp.
      apply existsb_exists in Ex. destruct Ex as (key & Hin & Heq).
      apply jsstring_eqb_eq in Heq. now subst key.
    + split; [|reflexivity]. intros _. split; [exact Eown|].
      intros Hin.
      assert (Htrue : existsb (jsstring_eqb name) objectPrototype = true).
      { apply existsb_exists. exists name. split; [exact Hin|].
        now apply jsstring_eqb_eq. }
      congruence.
Qed.

Lemma forallb_charCodeAt (predicate : Z -> bool) (s : jsstring) (i c : Z) :
  forallb predicate s = true -> charCodeAt s i = Some c -> predicate c = true.
Proof.
  intros Hall Hc. unfold charCodeAt, array_get in Hc.
  destruct (i <? 0); [discriminate|].
  apply nth_error_In in Hc. rewrite forallb_forall in Hall. now apply Hall.
Qed.

Lemma js_substring_all (s : jsstring) : js_substring s 0 (strlen s) = s.
Proof.
  pose proof (strlen_nonneg s).
  rewrite js_substring_slice by lia. simpl skipn.
  rewrite Z.sub_0_r. unfold strlen. rewrite Nat2Z.id. apply firstn_all.
Qed.

(** X20.  A program that is one name, a letter or an underscore and then
    letters, underscores and digits, tokenizes to one token with the name
    as lexeme, and the EOF token; no reporter is called.  The kind of the
    token is IDENTIFIER exactly when the name is no key of the keyword
    table and no member of [Object.prototype], which the lookup in the
    table also finds. *)
Theorem tokenize_word (c : Z) (rest : jsstring)
  (onError : option ErrorReporter) :
  isIdentifierStart c = true ->
  forallb isIdentifier rest = true ->
  let name := c :: rest in
  tokenize name onError
  = Returned
      [Token.mk (keywordOrIdentifier name) name [] 0;
       Token.mk EOF [] [] (strlen name)]
  /\ (keywordOrIdentifier name = IDENTIFIER
      <-> ~ In name (map fst keywords) /\ ~ In name objectPrototype).
Proof.
  intros Hstart Hrest name. split; [|apply keywordOrIdentifier_identifier].
  set (st := ClutchLexer.new (StringScanner.new name)).
  assert (Hlen : 0 < strlen name).
  { unfold name. rewrite strlen_cons. pose proof (strlen_nonneg rest). lia. }
  assert (Ha : anchored st).
  { unfold anchored, cursor, inputOf, st.
    cbn [ClutchLexer.new ClutchLexer.program ClutchLexer.position
         StringScanner.new StringScanner.mPosition StringScanner.source
         SourceFile.new SourceFile.contents].
    lia. }
  assert (Hall : forallb isIdentifier name = true).
  { simpl. rewrite Hrest, (isIdentifierStart_isIdentifier c Hstart).
    reflexivity. }
  destruct (scanToken_name (reporterOf onError) st c Ha eq_refl Hstart)
    as (stop & Hstop & _ & Hend & Hrun).
  assert (Hfull : stop = strlen name).
  { destruct Hend as [Hend | (c' & Hc' & Hno)]; [exact Hend|].
    change (inputOf st) with name in Hc'.
    rewrite (forallb_charCodeAt isIdentifier name stop c' Hall Hc') in Hno.
    discriminate. }
  cbv zeta in Hrun. rewrite Hfull in Hrun.
  change (inputOf st) with name in Hrun.
  change (ClutchLexer.position st) with 0 in Hrun.
  rewrite js_substring_all in Hrun.
  rewrite tokenize_fst, tokenizeRun_unfold.
  change (ClutchLexer.new (StringScanner.new name)) with st.
  change (StringScanner.new name) with (ClutchLexer.program st).
  rewrite (scanProgram_while (reporterOf onError) [] st Ha).
  assert (Hn : StringScanner.hasNext (ClutchLexer.program st) = true).
  { apply hasNext_true. unfold StringScanner.length, SourceFile.length, st.
    cbn [ClutchLexer.new ClutchLexer.program ClutchLexer.position
         StringScanner.new StringScanner.mPosition StringScanner.source
         SourceFile.new SourceFile.contents].
    lia. }
  rewrite Hn, Hrun.
  pose proof (scanProgramLoop_end (reporterOf onError)
                (StringScanner.remaining
                   (StringScanner.mk (SourceFile.new name None) (strlen name)))
                [Token.mk (keywordOrIdentifier name) name [] 0]
                (SourceFile.new name None) [] [] []) as Hloop.
  unfold lexerAt in Hloop. simpl SourceFile.contents in Hloop.
  simpl app. cbn [ClutchLexer.program ClutchLexer.lastComments
    ClutchLexer.buffered ClutchLexer.reported st ClutchLexer.new
    StringScanner.new StringScanner.source].
  rewrite Hloop.
  cbn [fst app ClutchLexer.lastComments ClutchLexer.position].
  rewrite Z.sub_0_r. reflexivity.
Qed.

(** A witness for [tokenize_word]: the name [toString]. *)
Lemma tokenize_word_witness :
  let name := str "toString" in
  tokenize name None
  = Returned
      [Token.mk (keywordOrIdentifier name) name [] 0;
       Token.mk EOF [] [] (strlen name)]
  /\ (keywordOrIdentifier name = IDENTIFIER
      <-> ~ In name (map fst keywords) /\ ~ In name objectPrototype).
Proof.
  apply (tokenize_word 116 (str "oString") None); reflexivity.
Defined.

(** ** Keywords, symbols and operators *)

Lemma lexeme_one (s : jsstring) (i j a : Z) :
  j = i + 1 -> charCodeAt s i = Some a -> js_substring s i j = [a].
Proof. intros -> Ha. now apply js_substring_one. Qed.

Lemma lexeme_two (s : jsstring) (i j a b : Z) :
  j = i + 1 + 1 ->
  charCodeAt s i = Some a -> charCodeAt s (i + 1) = Some b ->
  js_substring s i j = [a; b].
Proof.
  intros -> Ha Hb.
  pose proof (array_get_some_inv _ _ _ Ha) as Hi.
  pose proof (array_get_some_inv _ _ _ Hb) as Hj.
  rewrite <- (js_substring_concat s i (i + 1) (i + 1 + 1))
    by (unfold strlen; lia).
  now rewrite (js_substring_one s i a Ha), (js_substring_one s (i + 1) b Hb).
Qed.

Lemma lexeme_three (s : jsstring) (i j a b c : Z) :
  j = i + 1 + 1 + 1 ->
  charCodeAt s i = Some a -> charCodeAt s (i + 1) = Some b ->
  charCodeAt s (i + 1 + 1) = Some c ->
  js_substring s i j = [a; b; c].
Proof.
  intros -> Ha Hb Hc.
  pose proof (array_get_some_inv _ _ _ Ha) as Hi.
  pose proof (array_get_some_inv _ _ _ Hc) as Hj.
  rewrite <- (js_substring_concat s i (i + 1 + 1) (i + 1 + 1 + 1))
    by (unfold strlen; lia).
  now rewrite (lexeme_two s i (i + 1 + 1) a b eq_refl Ha Hb),
    (js_substring_one s (i + 1 + 1) c Hc).
Qed.

Lemma scanNumber_kind (P : TokenKind -> Prop) (starting : option Z) :
  P NUMBER ->
  makes (fun tok _ => P (Token.kind tok)) (ClutchLexer.scanNumber starting).
Proof.
  intros Hnumber.
  pose proof (makes_createToken_kind P NUMBER Hnumber) as Hcreate.
  assert (Hdigits : makes (fun tok _ => P (Token.kind tok))
                      ClutchLexer.scanDigits).
  { apply makes_bind. intros _. exact Hcreate. }
  unfold ClutchLexer.scanNumber. apply makes_bind. intros hex.
  destruct hex.
  - apply makes_bind. intros _. exact Hcreate.
  - apply makes_bind. intros exponent. destruct exponent; [exact Hdigits|].
    apply makes_bind. intros _. exact Hdigits.
Qed.

Lemma scanIdentifierOrKeyword_kind :
  makes (fun tok _ => Token.kind tok = keywordOrIdentifier (Token.lexeme tok))
    ClutchLexer.scanIdentifierOrKeyword.
Proof.
  unfold ClutchLexer.scanIdentifierOrKeyword. apply makes_bind. intros _.
  intros st tok st'.
  unfold bind, ClutchLexer.substring, ClutchLexer.clearComments. simpl.
  now intros [= <- <-].
Qed.

(** The keys of the keyword table are the values of their kinds. *)
Lemma keywordOrIdentifier_spelled (name text : jsstring) :
  literal (keywordOrIdentifier name) = false ->
  valueOf (keywordOrIdentifier name) = Some text -> name = text.
Proof.
  unfold keywordOrIdentifier, keywordsLookup.
  destruct (ownProperty name keywords) as [k|] eqn:Eown.
  - revert Eown. unfold keywords. cbn [ownProperty].
    repeat (destruct (jsstring_eqb _ name) eqn:Ekey;
            [ apply jsstring_eqb_eq in Ekey; subst name;
              intros [= <-] _ [= <-]; reflexivity
            | clear Ekey ]).
    discriminate.
  - destruct (existsb (jsstring_eqb name) objectPrototype); discriminate.
Qed.

Ltac spell_finish :=
  rewrite createToken_run; cbv beta iota; intros [= <- <-];
  unfold spelled; cbn [Token.kind Token.lexeme literal valueOf];
  let text := fresh "text" in
  intros _ text [= <-];
  unfold inputOf, cursor;
  cbn [ClutchLexer.program ClutchLexer.position StringScanner.source
       StringScanner.mPosition];
  repeat (match goal with
          | H : StringScanner.peek _ 0 = Some _ |- _ =>
              unfold StringScanner.peek, StringScanner.position in H;
              cbn [StringScanner.source StringScanner.mPosition] in H;
              rewrite Z.add_0_r in H
          end);
  match goal with
  | |- _ = str ?x =>
      let v := eval vm_compute in (str x) in change (str x) with v
  end;
  first [ apply lexeme_one | apply lexeme_two | apply lexeme_three ];
  first [ reflexivity | assumption ].

Ltac spell_matches :=
  unfold bind, ClutchLexer.programMatch, ClutchLexer.onProgram, ret;
  cbn [ClutchLexer.program ClutchLexer.setProgram ClutchLexer.position
       ClutchLexer.lastComments ClutchLexer.buffered ClutchLexer.reported];
  repeat (match goal with
          | |- context [StringScanner.match_ ?p ?sc] =>
              destruct (match_cases p sc) as [[-> ?] | [-> ?]];
              cbn [ClutchLexer.program ClutchLexer.setProgram
                   ClutchLexer.position ClutchLexer.lastComments
                   ClutchLexer.buffered ClutchLexer.reported
                   StringScanner.source StringScanner.mPosition]
          end).

Ltac spell_operator :=
  let Hrun := fresh "Hrun" in
  intros Hrun; apply emit_returned in Hrun; revert Hrun;
  spell_matches; spell_finish.

Lemma scanSlash_spelled (src : SourceFile.t) (anchor : Z)
  (pending buf : list IComment.t) (rep : list Report) (tok : Token.t)
  (st' : ClutchLexer.t) :
  charCodeAt (SourceFile.contents src) anchor = Some Characters.SLASH ->
  ClutchLexer.scanSlash
    (ClutchLexer.mk (StringScanner.mk src (anchor + 1)) anchor pending buf rep)
  = (Returned (Some tok), st') ->
  spelled tok.
Proof.
  intros Hc. unfold ClutchLexer.scanSlash. unfold bind at 1.
  unfold ClutchLexer.programMatch at 1, ClutchLexer.onProgram.
  cbn [ClutchLexer.program].
  destruct (match_cases Characters.SLASH (StringScanner.mk src (anchor + 1)))
    as [[-> Hmiss] | [-> Hhit]].
  - spell_matches; spell_finish.
  - intros Hrun. exfalso. revert Hrun. unfold bind, ret.
    destruct (ClutchLexer.advanceToEOL _) as [[[]|e] st1]; [|discriminate].
    destruct (ClutchLexer.substring st1) as [[text|e] st2]; [|discriminate].
    destruct (ClutchLexer.pushComment _ st2) as [[[]|e] st3]; discriminate.
Qed.

Lemma scanDefault_spelled (onError : ErrorReporter) (character : option Z)
  (st st' : ClutchLexer.t) (tok : Token.t) :
  ClutchLexer.scanDefault onError character st = (Returned (Some tok), st') ->
  spelled tok.
Proof.
  unfold ClutchLexer.scanDefault.
  destruct (onCode isWhiteSpace character).
  { unfold bind, ret. discriminate. }
  destruct (onCode isDigit character).
  { intros Hrun. apply emit_returned in Hrun.
    pose proof (scanNumber_kind (fun k => k = NUMBER) character eq_refl
                  _ _ _ Hrun) as Hk.
    simpl in Hk. unfold spelled. rewrite Hk. discriminate. }
  destruct (onCode isIdentifierStart character).
  { intros Hrun. apply emit_returned in Hrun.
    pose proof (scanIdentifierOrKeyword_kind _ _ _ Hrun) as Hk.
    simpl in Hk. unfold spelled. rewrite Hk.
    intros Hlit text Hval.
    exact (keywordOrIdentifier_spelled _ _ Hlit Hval). }
  unfold bind, ret.
  destruct (ClutchLexer.reportError _ _ _ st) as [[[]|e] st1]; discriminate.
Qed.

(** A step from a state whose anchor is at the character read: a token
    of a keyword, a symbol or an operator has the value of its kind as
    lexeme. *)
Lemma scanSwitch_spelled (onError : ErrorReporter) (c : Z)
  (src : SourceFile.t) (anchor : Z) (pending buf : list IComment.t)
  (rep : list Report) (tok : Token.t) (st' : ClutchLexer.t) :
  charCodeAt (SourceFile.contents src) anchor = Some c ->
  ClutchLexer.scanSwitch onError (Some c)
    (ClutchLexer.mk (StringScanner.mk src (anchor + 1)) anchor pending buf rep)
  = (Returned (Some tok), st') ->
  spelled tok.
Proof.
  intros Hc. unfold ClutchLexer.scanSwitch.
  repeat (lazymatch goal with
          | |- (if code_is (Some c) ?x then _ else _) _ = _ -> _ =>
              destruct (code_is (Some c) x) eqn:Ecode
          end;
          [ simpl in Ecode; apply Z.eqb_eq in Ecode; subst c;
            first
              [ spell_operator
              | intros Hrun; apply emit_returned in Hrun;
                pose proof (scanString_kind onError _ _ _ Hrun) as Hk;
                simpl in Hk; unfold spelled; rewrite Hk; discriminate
              | now apply scanSlash_spelled ]
          | clear Ecode ]).
  apply scanDefault_spelled.
Qed.

Lemma scanToken_spelled (onError : ErrorReporter) (st st' : ClutchLexer.t)
  (tok : Token.t) :
  anchored st ->
  ClutchLexer.position st = cursor st ->
  StringScanner.hasNext (ClutchLexer.program st) = true ->
  ClutchLexer.scanToken onError st = (Returned (Some tok), st') ->
  spelled tok.
Proof.
  intros Ha Hset Hn.
  rewrite scanToken_run by (try apply anchored_inside; assumption).
  apply hasNext_true in Hn.
  destruct st as [[src pos] anchor pending buf rep].
  unfold anchored, cursor, inputOf, StringScanner.length,
    SourceFile.length in *.
  simpl in Ha, Hset, Hn. subst anchor.
  destruct (array_get_some (SourceFile.contents src) pos) as [c Hc];
    [unfold strlen in *; lia|].
  unfold afterAdvance, stepped, StringScanner.position.
  cbn [fst snd ClutchLexer.program ClutchLexer.setProgram
       ClutchLexer.position ClutchLexer.lastComments ClutchLexer.buffered
       ClutchLexer.reported StringScanner.source StringScanner.mPosition].
  unfold charCodeAt at 1. rewrite Hc.
  now apply scanSwitch_spelled.
Qed.

(** In a run without an error, what holds of every token a step makes
    from a state whose anchor is the cursor holds of every token of the
    loop. *)
Lemma scanProgramLoop_forall (Q : Token.t -> Prop) (onError : ErrorReporter)
  (p : jsstring) (fuel : nat) :
  throwing onError ->
  (forall st tok st',
      anchored st -> inputOf st = p ->
      ClutchLexer.position st = cursor st ->
      StringScanner.hasNext (ClutchLexer.program st) = true ->
      ClutchLexer.scanToken onError st = (Returned (Some tok), st') ->
      Q tok) ->
  forall (st : ClutchLexer.t) (tokens : list Token.t),
    invariant p st tokens ->
    ClutchLexer.position st = cursor st ->
    Forall Q tokens ->
    (StringScanner.remaining (ClutchLexer.program st) <= fuel)%nat ->
    forall tokens' st',
      ClutchLexer.scanProgramLoop onError fuel tokens st
      = (Returned tokens', st') ->
      Forall Q tokens'.
Proof.
  intros Hthrow Hstep.
  induction fuel as [|fuel IH]; intros st tokens Hinv Hset Hall Hfuel tokens' st'.
  - simpl. now intros [= <- <-].
  - simpl. destruct (StringScanner.hasNext (ClutchLexer.program st)) eqn:Hn;
      [|now intros [= <- <-]].
    pose proof (scanToken_step onError st (inv_anchored _ _ _ Hinv) Hn) as Hpost.
    pose proof (scanToken_settles onError Hthrow st) as Hsettles.
    specialize (Hstep st).
    unfold bind.
    destruct (ClutchLexer.scanToken onError st) as [[[tok|]|e] st1];
      simpl in Hpost; [| |discriminate].
    + apply IH.
      * eapply invariant_token; eassumption.
      * exact (Hsettles _ _ eq_refl).
      * apply Forall_app. split; [exact Hall|]. constructor; [|constructor].
        exact (Hstep tok st1 (inv_anchored _ _ _ Hinv) (inv_input _ _ _ Hinv)
                 Hset Hn eq_refl).
      * destruct Hpost as [Hadv _]. eapply remaining_after; eassumption.
    + apply IH.
      * eapply invariant_skip; eassumption.
      * exact (Hsettles _ _ eq_refl).
      * exact Hall.
      * destruct Hpost as [Hadv _]. eapply remaining_after; eassumption.
Qed.

(** X21.  In a run without an error, the lexeme of every keyword, symbol
    and operator token is the value of its kind in the enum [TokenKind]:
    the kind names the text that was read. *)
Theorem tokenize_kinds_spelled (p : jsstring)
  (onError : option ErrorReporter) (ts : list Token.t) :
  throwing (reporterOf onError) ->
  tokenize p onError = Returned ts ->
  Forall
    (fun t =>
       literal (Token.kind t) = false ->
       forall text, valueOf (Token.kind t) = Some text -> Token.lexeme t = text)
    ts.
Proof.
  intros Hthrow Hrun.
  destruct (tokenize_returned p onError ts Hrun)
    as (tokens & st & -> & Hloop & _).
  apply Forall_app. split.
  - apply (scanProgramLoop_forall spelled (reporterOf onError) p
             (StringScanner.remaining (StringScanner.new p)) Hthrow)
      with (st := ClutchLexer.new (StringScanner.new p)) (tokens := [])
           (st' := st).
    + intros st0 tok st0' Ha _ Hset Hn Hstep.
      exact (scanToken_spelled _ _ _ _ Ha Hset Hn Hstep).
    + apply invariant_initial.
    + reflexivity.
    + constructor.
    + apply Nat.le_refl.
    + exact Hloop.
  - constructor; [|constructor]. simpl. discriminate.
Qed.

(** A witness for [tokenize_kinds_spelled]: the program [if(a!==b)]. *)
Lemma tokenize_kinds_spelled_witness :
  Forall
    (fun t =>
       literal (Token.kind t) = false ->
       forall text, valueOf (Token.kind t) = Some text -> Token.lexeme t = text)
    [Token.mk IF (str "if") [] 0; Token.mk LEFT_PAREN (str "(") [] 2;
     Token.mk IDENTIFIER (str "a") [] 3;
     Token.mk NOT_IDENTICAL (str "!==") [] 4;
     Token.mk IDENTIFIER (str "b") [] 7; Token.mk RIGHT_PAREN (str ")") [] 8;
     Token.mk EOF [] [] 9].
Proof.
  apply (tokenize_kinds_spelled (str "if(a!==b)") None).
  - exact defaultOnError_throwing.
  - vm_compute. reflexivity.
Defined.

(** ** Characters no branch reads *)

(** X22.  At a character that has no branch, [scanToken] calls the
    reporter with the message [Unexpected character] and the span of one
    character at the anchor; when the reporter returns, no token is made
    and the cursor has moved behind the character, but the anchor has
    not: the character stays in front of the text of the next token. *)
Theorem scanToken_unexpected (onError : ErrorReporter) (st : ClutchLexer.t)
  (c : Z) :
  anchored st ->
  charCodeAt (inputOf st) (cursor st) = Some c ->
  handled c = false ->
  let message := ClutchLexer.unexpectedCharacter (Some c) in
  let span :=
    SourceFile.mkSpan (StringScanner.source (ClutchLexer.program st))
      (ClutchLexer.position st)
      (js_substring (inputOf st) (ClutchLexer.position st)
         (ClutchLexer.position st + 1)) in
  let st' :=
    ClutchLexer.mk
      (StringScanner.mk (StringScanner.source (ClutchLexer.program st))
         (cursor st + 1))
      (ClutchLexer.position st) (ClutchLexer.lastComments st)
      (ClutchLexer.buffered st)
      (ClutchLexer.reported st ++ [(span, message)]) in
  ClutchLexer.scanToken onError st
  = match onError (ClutchLexer.reported st) span message with
    | Returned _ => (Returned None, st')
    | Thrown e => (Thrown e, st')
    end.
Proof.
  intros Ha Hc Hh. cbv zeta.
  pose proof (array_get_some_inv _ _ _ Hc) as Hlt.
  assert (Hn : StringScanner.hasNext (ClutchLexer.program st) = true).
  { apply hasNext_true. unfold StringScanner.length, SourceFile.length.
    unfold cursor, inputOf, strlen in *. lia. }
  pose proof (afterAdvance_reading st Ha Hn) as Hr.
  rewrite (scanToken_run onError st (anchored_inside st Ha) Hn).
  replace (charCodeAt
             (SourceFile.contents
                (StringScanner.source (ClutchLexer.program st)))
             (StringScanner.mPosition (ClutchLexer.program st)))
    with (Some c)
    by (symmetry; exact Hc).
  unfold handled in Hh. cbn [existsb] in Hh.
  repeat match goal with
         | H : _ || _ = false |- _ =>
             apply orb_false_iff in H; destruct H
         end.
  unfold ClutchLexer.scanSwitch, ClutchLexer.scanDefault.
  cbn [code_is onCode].
  repeat match goal with
         | H : _ = false |- _ => rewrite H; clear H
         end.
  unfold bind. rewrite reportError_run by exact Hr.
  unfold errorSpan, withReport, afterAdvance, inputOf, cursor.
  cbn [ClutchLexer.program ClutchLexer.setProgram ClutchLexer.position
       ClutchLexer.lastComments ClutchLexer.buffered ClutchLexer.reported
       stepped StringScanner.source StringScanner.mPosition snd].
  destruct (onError _ _ _) as [[]|e]; reflexivity.
Qed.

(** A witness for [scanToken_unexpected]: the percent sign of [a%b], with
    a reporter that returns. *)
Lemma scanToken_unexpected_witness :
  let src := SourceFile.new (str "a%b") None in
  let span := SourceFile.mkSpan src 1 (str "%") in
  ClutchLexer.scanToken recordingReporter (lexerAt src 1 [] [] [])
  = (Returned None,
     ClutchLexer.mk (StringScanner.mk src 2) 1 [] []
       [(span, ClutchLexer.unexpectedCharacter (Some 37))]).
Proof.
  apply (scanToken_unexpected recordingReporter
           (lexerAt (SourceFile.new (str "a%b") None) 1 [] [] []) 37).
  - vm_compute. repeat split; discriminate.
  - reflexivity.
  - reflexivity.
Defined.

(** ** Numbers *)

Lemma scanNumberSteps_run (fuel : nat) :
  forall sc : StringScanner.t,
    inside sc ->
    (StringScanner.remaining sc <= fuel)%nat ->
    let s := SourceFile.contents (StringScanner.source sc) in
    exists j,
      run isDigit s (StringScanner.mPosition sc) j
      /\ scanNumberSteps fuel sc
         = StringScanner.mk (StringScanner.source sc)
             (if code_is (charCodeAt s j) Characters.PERIOD then j + 1 else j).
Proof.
  assert (Hend : forall sc : StringScanner.t,
            inside sc -> StringScanner.hasNext sc = false ->
            exists j,
              run isDigit (SourceFile.contents (StringScanner.source sc))
                (StringScanner.mPosition sc) j
              /\ sc
                 = StringScanner.mk (StringScanner.source sc)
                     (if code_is
                           (charCodeAt
                              (SourceFile.contents (StringScanner.source sc)) j)
                           Characters.PERIOD
                      then j + 1 else j)).
  { intros sc Hi Hn. apply hasNext_false in Hn.
    unfold inside, StringScanner.length, SourceFile.length in *.
    exists (StringScanner.mPosition sc). split.
    - split; [lia|]. split; [intros k Hk; lia|]. left. lia.
    - unfold charCodeAt. rewrite array_get_none by (unfold strlen in *; lia).
      now destruct sc. }
  induction fuel as [|fuel IH]; intros sc Hi Hfuel; cbv zeta.
  - simpl. apply Hend; [exact Hi|]. apply hasNext_false.
    unfold StringScanner.remaining, StringScanner.position in Hfuel. lia.
  - simpl. destruct (StringScanner.hasNext sc) eqn:Hn; [|now apply Hend].
    pose proof Hn as Hlt. apply hasNext_true in Hlt.
    unfold inside, StringScanner.length, SourceFile.length in *.
    destruct (array_get_some (SourceFile.contents (StringScanner.source sc))
                (StringScanner.mPosition sc)) as [c Hc];
      [unfold strlen in *; lia|].
    assert (Hpeek : StringScanner.peek sc 0 = Some c).
    { unfold StringScanner.peek, StringScanner.position, charCodeAt.
      now rewrite Z.add_0_r. }
    unfold StringScanner.match_. rewrite Hpeek. cbn [code_is onCode].
    destruct (Z.eqb_spec c Characters.PERIOD) as [->|Hne].
    + exists (StringScanner.mPosition sc). split.
      * split; [lia|]. split; [intros k Hk; lia|]. right.
        exists Characters.PERIOD. split; [exact Hc | reflexivity].
      * unfold charCodeAt. rewrite Hc. reflexivity.
    + destruct (isDigit c) eqn:Hd; cbn [negb].
      * destruct (IH (stepped sc)) as (j & Hrun & Hloop).
        { unfold inside, StringScanner.length, SourceFile.length. simpl. lia. }
        { rewrite (remaining_advance sc Hn) in Hfuel. lia. }
        simpl in Hrun, Hloop. exists j. split; [|exact Hloop].
        destruct Hrun as (H1 & H2 & H3). split; [lia|]. split; [|exact H3].
        intros k Hk.
        destruct (Z.eq_dec k (StringScanner.mPosition sc)) as [->|Hk'].
        -- unfold charCodeAt. rewrite Hc. exact Hd.
        -- apply H2. lia.
      * exists (StringScanner.mPosition sc). split.
        -- split; [lia|]. split; [intros k Hk; lia|]. right.
           exists c. split; [exact Hc | exact Hd].
        -- unfold charCodeAt. rewrite Hc. cbn [code_is].
           destruct (Z.eqb_spec c Characters.PERIOD); [contradiction|].
           now destruct sc.
Qed.

(** [scanPredicate] and then [createToken(NUMBER)], from the cursor [k]:
    the token is the text from the anchor to the end of the run. *)
Lemma scanRun (predicate : Z -> bool) (src : SourceFile.t) (k anchor : Z)
  (pending buf : list IComment.t) (rep : list Report) :
  0 <= anchor < k -> k <= strlen (SourceFile.contents src) ->
  exists stop,
    (ClutchLexer.scanPredicate predicate ;; ClutchLexer.createToken NUMBER None)
      (ClutchLexer.mk (StringScanner.mk src k) anchor pending buf rep)
    = (Returned
         (Token.mk NUMBER (js_substring (SourceFile.contents src) anchor stop)
            pending anchor),
       ClutchLexer.mk (StringScanner.mk src stop) stop [] buf rep)
    /\ run predicate (SourceFile.contents src) k stop.
Proof.
  intros Ha Hk.
  destruct (scanPredicate_stop predicate
              (ClutchLexer.mk (StringScanner.mk src k) anchor pending buf rep))
    as (stop & Hrun & Hstop & Hall & Hend).
  { unfold inside, StringScanner.length, SourceFile.length. simpl. lia. }
  unfold cursor, inputOf in *. simpl in Hstop, Hall, Hend.
  exists stop. split; [|split; [exact Hstop | split; [exact Hall | exact Hend]]].
  unfold bind. rewrite Hrun, createToken_run.
  unfold inputOf, cursor.
  cbn [ClutchLexer.program ClutchLexer.setProgram ClutchLexer.position
       ClutchLexer.lastComments ClutchLexer.buffered ClutchLexer.reported
       StringScanner.source StringScanner.mPosition].
  rewrite js_substring_length by lia.
  now replace (stop - (stop - anchor)) with anchor by lia.
Qed.

Lemma run_stops (predicate : Z -> bool) (s : jsstring) (i j stop : Z) :
  run predicate s i j -> run predicate s j stop -> stop = j.
Proof.
  intros (H1 & _ & H3) (K1 & K2 & _).
  destruct H3 as [Hend | (c & Hc & Hno)]; [lia|].
  destruct (Z.eq_dec stop j) as [Heq|Hne]; [exact Heq|].
  specialize (K2 j). rewrite Hc in K2. simpl in K2.
  rewrite K2 in Hno by lia. discriminate.
Qed.

Ltac peek_facts :=
  repeat match goal with
         | H : context [StringScanner.peek _ 0] |- _ =>
             unfold StringScanner.peek, StringScanner.position in H;
             cbn [StringScanner.source StringScanner.mPosition] in H;
             rewrite Z.add_0_r in H
         end.

(** [scanNumber] behind the test for a hexadecimal number. *)
Lemma scanNumber_decimal (src : SourceFile.t) (cur anchor : Z)
  (pending buf : list IComment.t) (rep : list Report) :
  0 <= anchor < cur -> cur <= strlen (SourceFile.contents src) ->
  let s := SourceFile.contents src in
  exists stop,
    (exponent <- (b <- ClutchLexer.programMatch Characters.E ;;
                  if b then ret true
                  else ClutchLexer.programMatch Characters.e) ;;
     if exponent then ClutchLexer.scanDigits
     else
       ClutchLexer.programLoop ClutchLexer.scanNumberLoop ;;
       ClutchLexer.scanDigits)
      (ClutchLexer.mk (StringScanner.mk src cur) anchor pending buf rep)
    = (Returned (Token.mk NUMBER (js_substring s anchor stop) pending anchor),
       ClutchLexer.mk (StringScanner.mk src stop) stop [] buf rep)
    /\ if oneOf (charCodeAt s cur) Characters.E Characters.e
       then run isDigit s (cur + 1) stop
       else
         exists j,
           run isDigit s cur j
           /\ if code_is (charCodeAt s j) Characters.PERIOD
              then run isDigit s (j + 1) stop
              else stop = j.
Proof.
  intros Ha Hcur. cbv zeta.
  unfold bind, ClutchLexer.programMatch, ClutchLexer.onProgram, ret, oneOf.
  cbn [ClutchLexer.program].
  destruct (match_cases Characters.E (StringScanner.mk src cur))
    as [[-> HE] | [-> HE]];
    cbn [ClutchLexer.program ClutchLexer.setProgram ClutchLexer.position
         ClutchLexer.lastComments ClutchLexer.buffered ClutchLexer.reported].
  - destruct (match_cases Characters.e (StringScanner.mk src cur))
      as [[-> He] | [-> He]];
      cbn [ClutchLexer.program ClutchLexer.setProgram ClutchLexer.position
           ClutchLexer.lastComments ClutchLexer.buffered ClutchLexer.reported].
    + peek_facts. rewrite HE, He. cbn [orb].
      destruct (scanNumberSteps_run
                  (StringScanner.remaining (StringScanner.mk src cur))
                  (StringScanner.mk src cur)) as (j & Hj & Hloop).
      { unfold inside, StringScanner.length, SourceFile.length. simpl. lia. }
      { apply Nat.le_refl. }
      cbn [StringScanner.source StringScanner.mPosition] in Hj, Hloop.
      rewrite scanNumber_steps
        by (unfold inside, StringScanner.length, SourceFile.length; simpl;
            lia).
      cbn [ClutchLexer.program ClutchLexer.setProgram ClutchLexer.position
           ClutchLexer.lastComments ClutchLexer.buffered ClutchLexer.reported].
      rewrite Hloop.
      destruct (code_is (charCodeAt (SourceFile.contents src) j)
                  Characters.PERIOD) eqn:Eperiod.
      * assert (Hlt : j < strlen (SourceFile.contents src)).
        { destruct (charCodeAt (SourceFile.contents src) j) as [c|] eqn:Ec;
            [|discriminate].
          apply array_get_some_inv in Ec. unfold strlen. lia. }
        destruct Hj as (Hj1 & Hj2 & Hj3).
        destruct (scanRun isDigit src (j + 1) anchor pending buf rep)
          as (stop & Hrun & Hr); [lia | lia |].
        exists stop. split; [exact Hrun|]. exists j.
        rewrite Eperiod. split; [now repeat split | exact Hr].
      * pose proof Hj as (Hj1 & Hj2 & Hj3).
        destruct (scanRun isDigit src j anchor pending buf rep)
          as (stop & Hrun & Hr); [lia | lia |].
        pose proof (run_stops isDigit _ _ _ _ Hj Hr) as Hstop.
        exists stop. split; [exact Hrun|]. exists j.
        rewrite Eperiod. split; [exact Hj | exact Hstop].
    + peek_facts. rewrite HE, He. cbn [code_is orb].
      replace (Characters.e =? Characters.e) with true by reflexivity.
      assert (Hlt : cur < strlen (SourceFile.contents src)).
      { apply array_get_some_inv in He. unfold strlen. lia. }
      destruct (scanRun isDigit src (cur + 1) anchor pending buf rep)
        as (stop & Hrun & Hr); [lia | lia |].
      exists stop. split; [exact Hrun | exact Hr].
  - peek_facts. rewrite HE. cbn [code_is orb].
    replace (Characters.E =? Characters.E) with true by reflexivity.
    cbn [orb].
    assert (Hlt : cur < strlen (SourceFile.contents src)).
    { apply array_get_some_inv in HE. unfold strlen. lia. }
    destruct (scanRun isDigit src (cur + 1) anchor pending buf rep)
      as (stop & Hrun & Hr); [lia | lia |].
    exists stop. split; [exact Hrun | exact Hr].
Qed.

Lemma scanNumber_run (starting : option Z) (src : SourceFile.t)
  (cur anchor : Z) (pending buf : list IComment.t) (rep : list Report) :
  0 <= anchor < cur -> cur <= strlen (SourceFile.contents src) ->
  let s := SourceFile.contents src in
  exists stop,
    ClutchLexer.scanNumber starting
      (ClutchLexer.mk (StringScanner.mk src cur) anchor pending buf rep)
    = (Returned (Token.mk NUMBER (js_substring s anchor stop) pending anchor),
       ClutchLexer.mk (StringScanner.mk src stop) stop [] buf rep)
    /\ if code_is starting Characters.ZERO
          && oneOf (charCodeAt s cur) Characters.X Characters.x
       then run isHexadecimal s (cur + 1) stop
       else if oneOf (charCodeAt s cur) Characters.E Characters.e
       then run isDigit s (cur + 1) stop
       else
         exists j,
           run isDigit s cur j
           /\ if code_is (charCodeAt s j) Characters.PERIOD
              then run isDigit s (j + 1) stop
              else stop = j.
Proof.
  intros Ha Hcur. cbv zeta.
  pose proof (scanNumber_decimal src cur anchor pending buf rep Ha Hcur)
    as Hdecimal. cbv zeta in Hdecimal.
  assert (Hhex : charCodeAt (SourceFile.contents src) cur = Some Characters.X
                 \/ charCodeAt (SourceFile.contents src) cur
                    = Some Characters.x ->
                 exists stop,
                   ClutchLexer.scanHexNumber
                     (ClutchLexer.mk (StringScanner.mk src (cur + 1)) anchor
                        pending buf rep)
                   = (Returned
                        (Token.mk NUMBER
                           (js_substring (SourceFile.contents src) anchor stop)
                           pending anchor),
                      ClutchLexer.mk (StringScanner.mk src stop) stop [] buf rep)
                   /\ run isHexadecimal (SourceFile.contents src) (cur + 1) stop).
  { intros Hx.
    assert (Hlt : cur < strlen (SourceFile.contents src)).
    { destruct Hx as [Hx|Hx]; apply array_get_some_inv in Hx;
        unfold strlen; lia. }
    destruct (scanRun isHexadecimal src (cur + 1) anchor pending buf rep)
      as (stop & Hrun & Hr); [lia | lia |].
    exists stop. split; [exact Hrun | exact Hr]. }
  unfold ClutchLexer.scanNumber. unfold bind at 1.
  destruct (code_is starting Characters.ZERO); cbn [andb];
    [|unfold ret at 1; exact Hdecimal].
  unfold bind at 1, ClutchLexer.programMatch at 1 2, ClutchLexer.onProgram,
    oneOf at 1.
  cbn [ClutchLexer.program].
  destruct (match_cases Characters.X (StringScanner.mk src cur))
    as [[-> HX] | [-> HX]];
    cbn [ClutchLexer.program ClutchLexer.setProgram ClutchLexer.position
         ClutchLexer.lastComments ClutchLexer.buffered ClutchLexer.reported].
  - destruct (match_cases Characters.x (StringScanner.mk src cur))
      as [[-> Hx] | [-> Hx]];
      cbn [ClutchLexer.program ClutchLexer.setProgram ClutchLexer.position
           ClutchLexer.lastComments ClutchLexer.buffered ClutchLexer.reported];
      peek_facts; rewrite HX, Hx; cbn [code_is orb].
    + exact Hdecimal.
    + replace (Characters.x =? Characters.x) with true by reflexivity.
      apply Hhex. now right.
  - peek_facts. rewrite HX. cbn [code_is orb].
    replace (Characters.X =? Characters.X) with true by reflexivity.
    cbn [orb]. unfold ret at 1. apply Hhex. now left.
Qed.

Lemma scanSwitch_digit (onError : ErrorReporter) (c : Z) :
  isDigit c = true ->
  ClutchLexer.scanSwitch onError (Some c)
  = ClutchLexer.emit (ClutchLexer.scanNumber (Some c)).
Proof.
  intros Hd. pose proof Hd as Hrange. unfold isDigit in Hrange.
  rewrite andb_true_iff, !Z.leb_le in Hrange.
  unfold ClutchLexer.scanSwitch.
  rewrite !code_is_other by (unfold_codes; lia).
  unfold ClutchLexer.scanDefault. simpl onCode. rewrite Hd.
  assert (Hw : isWhiteSpace c = false).
  { unfold isWhiteSpace. unfold_codes.
    rewrite !orb_false_iff, !Z.eqb_neq. lia. }
  now rewrite Hw.
Qed.

Lemma scanToken_digits (onError : ErrorReporter) (st : ClutchLexer.t)
  (c : Z) :
  anchored st ->
  charCodeAt (inputOf st) (cursor st) = Some c ->
  isDigit c = true ->
  let s := inputOf st in
  let i := cursor st + 1 in
  exists stop,
    ClutchLexer.scanToken onError st
    = (Returned
         (Some
            (Token.mk NUMBER (js_substring s (ClutchLexer.position st) stop)
               (ClutchLexer.lastComments st) (ClutchLexer.position st))),
       ClutchLexer.mk
         (StringScanner.mk (StringScanner.source (ClutchLexer.program st)) stop)
         stop [] (ClutchLexer.buffered st) (ClutchLexer.reported st))
    /\ if (c =? Characters.ZERO)
          && oneOf (charCodeAt s i) Characters.X Characters.x
       then run isHexadecimal s (i + 1) stop
       else if oneOf (charCodeAt s i) Characters.E Characters.e
       then run isDigit s (i + 1) stop
       else
         exists j,
           run isDigit s i j
           /\ if code_is (charCodeAt s j) Characters.PERIOD
              then run isDigit s (j + 1) stop
              else stop = j.
Proof.
  intros Ha Hc Hd. cbv zeta.
  pose proof (array_get_some_inv _ _ _ Hc) as Hlt.
  destruct st as [[src cur] anchor pending buf rep].
  unfold anchored, cursor, inputOf in *.
  cbn [ClutchLexer.program ClutchLexer.position ClutchLexer.lastComments
       ClutchLexer.buffered ClutchLexer.reported StringScanner.source
       StringScanner.mPosition] in *.
  destruct (scanNumber_run (Some c) src (cur + 1) anchor pending buf rep)
    as (stop & Hrun & Hshape); [lia | unfold strlen; lia |].
  exists stop. split; [|exact Hshape].
  rewrite scanToken_run by solve_reads.
  unfold afterAdvance, stepped, StringScanner.position.
  cbn [fst snd ClutchLexer.program ClutchLexer.setProgram
       ClutchLexer.position ClutchLexer.lastComments ClutchLexer.buffered
       ClutchLexer.reported StringScanner.source StringScanner.mPosition].
  rewrite Hc, scanSwitch_digit by exact Hd.
  unfold ClutchLexer.emit, bind at 1, ClutchLexer.setProgram.
  cbn [ClutchLexer.program ClutchLexer.position ClutchLexer.lastComments
       ClutchLexer.buffered ClutchLexer.reported].
  rewrite Hrun. reflexivity.
Qed.

(** X23.  A number is read in one of three forms.  At a digit,
    [scanToken] makes one NUMBER token from the anchor: after a zero
    and an [x] or [X], the hexadecimal digits that follow; otherwise,
    after the digit and an [e] or [E], the digits that follow;
    otherwise the digits that follow, then a period if one is there,
    and the digits behind it.  An exponent is read only straight behind
    the first digit, and a period ends the number also when no digit
    follows it. *)
Theorem scanToken_number (onError : ErrorReporter) (st : ClutchLexer.t)
  (c : Z) :
  anchored st ->
  charCodeAt (inputOf st) (cursor st) = Some c ->
  isDigit c = true ->
  let s := inputOf st in
  let i := cursor st + 1 in
  exists stop,
    ClutchLexer.scanToken onError st
    = (Returned
         (Some
            (Token.mk NUMBER (js_substring s (ClutchLexer.position st) stop)
               (ClutchLexer.lastComments st) (ClutchLexer.position st))),
       ClutchLexer.mk
         (StringScanner.mk (StringScanner.source (ClutchLexer.program st)) stop)
         stop [] (ClutchLexer.buffered st) (ClutchLexer.reported st))
    /\ if (c =? Characters.ZERO)
          && oneOf (charCodeAt s i) Characters.X Characters.x
       then run isHexadecimal s (i + 1) stop
       else if oneOf (charCodeAt s i) Characters.E Characters.e
       then run isDigit s (i + 1) stop
       else
         exists j,
           run isDigit s i j
           /\ if code_is (charCodeAt s j) Characters.PERIOD
              then run isDigit s (j + 1) stop
              else stop = j.
Proof. exact (scanToken_digits onError st c). Qed.

(** A witness for [scanToken_number]: the number [12] of [12e5], whose
    exponent is not read. *)
Lemma scanToken_number_witness :
  let st := ClutchLexer.new (StringScanner.new (str "12e5")) in
  let s := inputOf st in
  let i := cursor st + 1 in
  exists stop,
    ClutchLexer.scanToken recordingReporter st
    = (Returned
         (Some
            (Token.mk NUMBER (js_substring s (ClutchLexer.position st) stop)
               (ClutchLexer.lastComments st) (ClutchLexer.position st))),
       ClutchLexer.mk
         (StringScanner.mk (StringScanner.source (ClutchLexer.program st)) stop)
         stop [] (ClutchLexer.buffered st) (ClutchLexer.reported st))
    /\ if (49 =? Characters.ZERO)
          && oneOf (charCodeAt s i) Characters.X Characters.x
       then run isHexadecimal s (i + 1) stop
       else if oneOf (charCodeAt s i) Characters.E Characters.e
       then run isDigit s (i + 1) stop
       else
         exists j,
           run isDigit s i j
           /\ if code_is (charCodeAt s j) Characters.PERIOD
              then run isDigit s (j + 1) stop
              else stop = j.
Proof.
  apply (scanToken_number recordingReporter
           (ClutchLexer.new (StringScanner.new (str "12e5"))) 49).
  - vm_compute. repeat split; discriminate.
  - reflexivity.
  - reflexivity.
Defined.

(** ** Lines and columns as coordinates *)

(** X24.  The line and the column determine the offset: two valid
    offsets of a file with the same line and the same column are the
    same offset. *)
Theorem line_and_column_determine_offset (f : SourceFile.t) (o1 o2 l c : Z) :
  cacheValid f ->
  0 <= o1 <= SourceFile.length f -> 0 <= o2 <= SourceFile.length f ->
  fst (SourceFile.computeLine o1 f) = Returned l ->
  fst (SourceFile.computeLine o2 f) = Returned l ->
  fst (SourceFile.computeColumn o1 f) = Returned c ->
  fst (SourceFile.computeColumn o2 f) = Returned c ->
  o1 = o2.
Proof.
  intros Hv H1 H2 Hl1 Hl2.
  rewrite (computeColumn_run f o1 l Hv H1 Hl1).
  rewrite (computeColumn_run f o2 l Hv H2 Hl2).
  simpl. intros [= <-] [= Heq]. lia.
Qed.

(** A witness for [line_and_column_determine_offset]: offset 4 of a file
    of two lines, on line 1 at column 1. *)
Lemma line_and_column_determine_offset_witness :
  let f := SourceFile.new (str "ab" ++ [10] ++ str "cd") None in
  fst (SourceFile.computeLine 4 f) = Returned 1
  /\ fst (SourceFile.computeColumn 4 f) = Returned 1
  /\ 4 = 4.
Proof.
  split; [reflexivity|]. split; [reflexivity|].
  apply (line_and_column_determine_offset
           (SourceFile.new (str "ab" ++ [10] ++ str "cd") None) 4 4 1 1).
  - apply new_valid.
  - vm_compute. split; discriminate.
  - vm_compute. split; discriminate.
  - reflexivity.
  - reflexivity.
  - reflexivity.
  - reflexivity.
Defined.

(** ** The longest symbol *)

Lemma reads_chars (s w : jsstring) (i : Z) :
  0 <= i -> js_substring s i (i + strlen w) = w ->
  forall n x, nth_error w n = Some x ->
    charCodeAt s (i + Z.of_nat n) = Some x.
Proof.
  intros Hi Hread n x Hn.
  pose proof (strlen_nonneg w) as Hw. pose proof (strlen_nonneg s) as Hs.
  assert (Hlt : (n < List.length w)%nat).
  { apply nth_error_Some. rewrite Hn. discriminate. }
  rewrite <- Hread in Hn. unfold js_substring in Hn.
  destruct (Z.le_gt_cases i (strlen s)) as [Hin|Hout].
  - replace (Z.min (Z.max i 0) (strlen s)) with i in Hn by lia.
    rewrite nth_error_firstn in Hn.
    destruct (Nat.ltb_spec n
                (Z.to_nat
                   (Z.max i (Z.min (Z.max (i + strlen w) 0) (strlen s))
                    - Z.min i (Z.min (Z.max (i + strlen w) 0) (strlen s)))));
      [|discriminate].
    replace (Z.min i (Z.min (Z.max (i + strlen w) 0) (strlen s))) with i in Hn
      by lia.
    rewrite nth_error_skipn in Hn.
    unfold charCodeAt, array_get.
    destruct (Z.ltb_spec (i + Z.of_nat n) 0); [lia|].
    now replace (Z.to_nat (i + Z.of_nat n)) with (Z.to_nat i + n)%nat by lia.
  - exfalso.
    assert (Hempty : js_substring s i (i + strlen w) = []).
    { unfold js_substring.
      replace (Z.min (Z.max i 0) (strlen s)) with (strlen s) by lia.
      replace (Z.min (Z.max (i + strlen w) 0) (strlen s)) with (strlen s)
        by lia.
      rewrite Z.max_id, Z.min_id, Z.sub_diag. reflexivity. }
    rewrite Hempty in Hread. subst w. simpl in Hlt. lia.
Qed.

Lemma reads_first (s w : jsstring) (i a : Z) :
  0 <= i -> js_substring s i (i + strlen (a :: w)) = a :: w ->
  charCodeAt s i = Some a.
Proof.
  intros Hi Hread.
  pose proof (reads_chars s (a :: w) i Hi Hread 0 a eq_refl) as H.
  now rewrite Z.add_0_r in H.
Qed.

Lemma reads_second (s w : jsstring) (i a b : Z) :
  0 <= i -> js_substring s i (i + strlen (a :: b :: w)) = a :: b :: w ->
  charCodeAt s (i + 1) = Some b.
Proof.
  intros Hi Hread.
  exact (reads_chars s (a :: b :: w) i Hi Hread 1 b eq_refl).
Qed.

Lemma reads_third (s w : jsstring) (i a b c : Z) :
  0 <= i ->
  js_substring s i (i + strlen (a :: b :: c :: w)) = a :: b :: c :: w ->
  charCodeAt s (i + 1 + 1) = Some c.
Proof.
  intros Hi Hread.
  pose proof (reads_chars s (a :: b :: c :: w) i Hi Hread 2 c eq_refl) as H.
  now replace (i + 1 + 1) with (i + Z.of_nat 2) by lia.
Qed.

Lemma keywordOrIdentifier_no_symbol (name : jsstring) :
  symbol (keywordOrIdentifier name) = false.
Proof.
  unfold keywordOrIdentifier, keywordsLookup, keywords. simpl ownProperty.
  repeat (destruct (jsstring_eqb _ name); [reflexivity|]).
  destruct (existsb _ _); reflexivity.
Qed.

Ltac longest_contradiction :=
  exfalso;
  first
    [ congruence
    | match goal with
      | Hm : code_is (charCodeAt ?s ?i) ?p = false,
        G : charCodeAt ?s ?i = Some ?b |- _ =>
          rewrite G in Hm; vm_compute in Hm; discriminate Hm
      end ].

Ltac longest_candidate Hpos :=
  let k := fresh "k" in
  let w := fresh "w" in
  let Hsym := fresh "Hsym" in
  let Hval := fresh "Hval" in
  let Hread := fresh "Hread" in
  intros k w Hsym Hval Hread;
  destruct k; try discriminate Hsym;
  cbn [valueOf] in Hval; injection Hval as <-;
  match type of Hread with
  | context [str ?x] =>
      let v := eval vm_compute in (str x) in
      change (str x) with v in Hread; change (str x) with v
  end;
  first
    [ vm_compute; discriminate
    | pose proof (reads_first _ _ _ _ Hpos Hread);
      try pose proof (reads_second _ _ _ _ _ Hpos Hread);
      try pose proof (reads_third _ _ _ _ _ _ Hpos Hread);
      unfold_codes;
      longest_contradiction ].

Ltac longest_finish Hpos :=
  rewrite createToken_run; cbv beta iota; intros [= <- <-];
  unfold longest; cbn [Token.kind Token.lexeme Token.offset symbol];
  unfold inputOf, cursor;
  cbn [ClutchLexer.program ClutchLexer.position ClutchLexer.setProgram
       StringScanner.source StringScanner.mPosition];
  repeat (match goal with
          | H : context [StringScanner.peek _ 0] |- _ =>
              unfold StringScanner.peek, StringScanner.position in H;
              cbn [StringScanner.source StringScanner.mPosition] in H;
              rewrite Z.add_0_r in H
          end);
  match goal with
  | |- context [js_substring ?s ?i ?j] =>
      first
        [ erewrite (lexeme_one s i j) by first [reflexivity | eassumption]
        | erewrite (lexeme_two s i j) by first [reflexivity | eassumption]
        | erewrite (lexeme_three s i j) by first [reflexivity | eassumption] ]
  end;
  match goal with
  | |- context [strlen (?a :: ?l)] =>
      let v := eval vm_compute in (strlen (a :: l)) in
      change (strlen (a :: l)) with v
  end;
  match goal with
  | |- context [js_substring ?s (?i - ?n) _] =>
      match type of Hpos with
      | 0 <= ?anchor => replace (i - n) with anchor by lia
      end
  end;
  intros _; longest_candidate Hpos.

Lemma scanSlash_longest (src : SourceFile.t) (anchor : Z)
  (pending buf : list IComment.t) (rep : list Report) (tok : Token.t)
  (st' : ClutchLexer.t) :
  charCodeAt (SourceFile.contents src) anchor = Some Characters.SLASH ->
  ClutchLexer.scanSlash
    (ClutchLexer.mk (StringScanner.mk src (anchor + 1)) anchor pending buf rep)
  = (Returned (Some tok), st') ->
  longest (SourceFile.contents src) tok.
Proof.
  intros Hc.
  assert (Hpos : 0 <= anchor) by (apply array_get_some_inv in Hc; lia).
  unfold ClutchLexer.scanSlash. unfold bind at 1.
  unfold ClutchLexer.programMatch at 1, ClutchLexer.onProgram.
  cbn [ClutchLexer.program].
  destruct (match_cases Characters.SLASH (StringScanner.mk src (anchor + 1)))
    as [[-> Hmiss] | [-> Hhit]].
  - spell_matches; longest_finish Hpos.
  - intros Hrun. exfalso. revert Hrun. unfold bind, ret.
    destruct (ClutchLexer.advanceToEOL _) as [[[]|e] st1]; [|discriminate].
    destruct (ClutchLexer.substring st1) as [[text|e] st2]; [|discriminate].
    destruct (ClutchLexer.pushComment _ st2) as [[[]|e] st3]; discriminate.
Qed.

Lemma scanDefault_longest (onError : ErrorReporter) (character : option Z)
  (st st' : ClutchLexer.t) (tok : Token.t) (p : jsstring) :
  ClutchLexer.scanDefault onError character st = (Returned (Some tok), st') ->
  longest p tok.
Proof.
  unfold ClutchLexer.scanDefault.
  destruct (onCode isWhiteSpace character).
  { unfold bind, ret. discriminate. }
  destruct (onCode isDigit character).
  { intros Hrun. apply emit_returned in Hrun.
    pose proof (scanNumber_kind (fun k => k = NUMBER) character eq_refl
                  _ _ _ Hrun) as Hk.
    simpl in Hk. unfold longest. rewrite Hk. discriminate. }
  destruct (onCode isIdentifierStart character).
  { intros Hrun. apply emit_returned in Hrun.
    pose proof (scanIdentifierOrKeyword_kind _ _ _ Hrun) as Hk.
    simpl in Hk. unfold longest.
    rewrite Hk, keywordOrIdentifier_no_symbol. discriminate. }
  unfold bind, ret.
  destruct (ClutchLexer.reportError _ _ _ st) as [[[]|e] st1]; discriminate.
Qed.

(** A step from a state whose anchor is at the character read: no symbol
    or operator of the enum that the input spells at the offset of the
    token is longer than its lexeme. *)
Lemma scanSwitch_longest (onError : ErrorReporter) (c : Z)
  (src : SourceFile.t) (anchor : Z) (pending buf : list IComment.t)
  (rep : list Report) (tok : Token.t) (st' : ClutchLexer.t) :
  charCodeAt (SourceFile.contents src) anchor = Some c ->
  ClutchLexer.scanSwitch onError (Some c)
    (ClutchLexer.mk (StringScanner.mk src (anchor + 1)) anchor pending buf rep)
  = (Returned (Some tok), st') ->
  longest (SourceFile.contents src) tok.
Proof.
  intros Hc.
  assert (Hpos : 0 <= anchor) by (apply array_get_some_inv in Hc; lia).
  unfold ClutchLexer.scanSwitch.
  repeat (lazymatch goal with
          | |- (if code_is (Some c) ?x then _ else _) _ = _ -> _ =>
              destruct (code_is (Some c) x) eqn:Ecode
          end;
          [ simpl in Ecode; apply Z.eqb_eq in Ecode; subst c;
            first
              [ let Hrun := fresh "Hrun" in
                intros Hrun; apply emit_returned in Hrun; revert Hrun;
                spell_matches; longest_finish Hpos
              | intros Hrun; apply emit_returned in Hrun;
                pose proof (scanString_kind onError _ _ _ Hrun) as Hk;
                simpl in Hk; unfold longest; rewrite Hk; discriminate
              | now apply scanSlash_longest ]
          | clear Ecode ]).
  apply scanDefault_longest.
Qed.

Lemma scanToken_longest (onError : ErrorReporter) (st st' : ClutchLexer.t)
  (tok : Token.t) :
  anchored st ->
  ClutchLexer.position st = cursor st ->
  StringScanner.hasNext (ClutchLexer.program st) = true ->
  ClutchLexer.scanToken onError st = (Returned (Some tok), st') ->
  longest (inputOf st) tok.
Proof.
  intros Ha Hset Hn.
  rewrite scanToken_run by (try apply anchored_inside; assumption).
  apply hasNext_true in Hn.
  destruct st as [[src pos] anchor pending buf rep].
  unfold anchored, cursor, inputOf, StringScanner.length,
    SourceFile.length in *.
  simpl in Ha, Hset, Hn. subst anchor.
  destruct (array_get_some (SourceFile.contents src) pos) as [c Hc];
    [unfold strlen in *; lia|].
  unfold afterAdvance, stepped, StringScanner.position.
  cbn [fst snd ClutchLexer.program ClutchLexer.setProgram
       ClutchLexer.position ClutchLexer.lastComments ClutchLexer.buffered
       ClutchLexer.reported StringScanner.source StringScanner.mPosition].
  unfold charCodeAt at 1. rewrite Hc.
  now apply scanSwitch_longest.
Qed.

(** X25.  In a run without an error, symbols and operators are read by
    the longest match: when the input spells the value of a symbol or
    an operator of the enum [TokenKind] at the offset of a symbol or
    operator token, that value is no longer than the lexeme of the
    token. *)
Theorem tokenize_longest_symbol (p : jsstring)
  (onError : option ErrorReporter) (ts : list Token.t) :
  throwing (reporterOf onError) ->
  tokenize p onError = Returned ts ->
  Forall
    (fun t =>
       symbol (Token.kind t) = true ->
       forall k w,
         symbol k = true -> valueOf k = Some w ->
         js_substring p (Token.offset t) (Token.offset t + strlen w) = w ->
         strlen w <= strlen (Token.lexeme t))
    ts.
Proof.
  intros Hthrow Hrun.
  destruct (tokenize_returned p onError ts Hrun)
    as (tokens & st & -> & Hloop & _).
  apply Forall_app. split.
  - apply (scanProgramLoop_forall (longest p) (reporterOf onError) p
             (StringScanner.remaining (StringScanner.new p)) Hthrow)
      with (st := ClutchLexer.new (StringScanner.new p)) (tokens := [])
           (st' := st).
    + intros st0 tok st0' Ha Hin Hset Hn Hstep. rewrite <- Hin.
      exact (scanToken_longest _ _ _ _ Ha Hset Hn Hstep).
    + apply invariant_initial.
    + reflexivity.
    + constructor.
    + apply Nat.le_refl.
    + exact Hloop.
  - constructor; [|constructor]. simpl. discriminate.
Qed.

(** A witness for [tokenize_longest_symbol]: the program [a-->b], read
    as a decrement and a comparison. *)
Lemma tokenize_longest_symbol_witness :
  Forall
    (fun t =>
       symbol (Token.kind t) = true ->
       forall k w,
         symbol k = true -> valueOf k = Some w ->
         js_substring (str "a-->b") (Token.offset t)
           (Token.offset t + strlen w) = w ->
         strlen w <= strlen (Token.lexeme t))
    [Token.mk IDENTIFIER (str "a") [] 0; Token.mk DECREMENT (str "--") [] 1;
     Token.mk GREATER_THAN (str ">") [] 3; Token.mk IDENTIFIER (str "b") [] 4;
     Token.mk EOF [] [] 5].
Proof.
  apply (tokenize_longest_symbol (str "a-->b") None).
  - exact defaultOnError_throwing.
  - vm_compute. reflexivity.
Defined.

(** ** The number of tokens *)

Lemma scanProgramLoop_count (onError : ErrorReporter) (fuel : nat) :
  forall (tokens : list Token.t) (st : ClutchLexer.t)
         (tokens' : list Token.t) (st' : ClutchLexer.t),
    ClutchLexer.scanProgramLoop onError fuel tokens st
    = (Returned tokens', st') ->
    (List.length tokens <= List.length tokens' <= List.length tokens + fuel)%nat.
Proof.
  induction fuel as [|fuel IH]; intros tokens st tokens' st'.
  - simpl. intros [= <- <-]. lia.
  - simpl. destruct (StringScanner.hasNext (ClutchLexer.program st));
      [|intros [= <- <-]; lia].
    unfold bind.
    destruct (ClutchLexer.scanToken onError st) as [[[tok|]|e] st1];
      [| |discriminate]; intros Hrun; apply IH in Hrun.
    + rewrite length_app in Hrun. simpl in Hrun. lia.
    + lia.
Qed.

(** X26.  A sequence [tokenize] returns has at least one token and at
    most one token for each character of the input, and the EOF token. *)
Theorem tokenize_count (p : jsstring) (onError : option ErrorReporter)
  (ts : list Token.t) :
  tokenize p onError = Returned ts ->
  1 <= Z.of_nat (List.length ts) <= strlen p + 1.
Proof.
  intros Hrun.
  destruct (tokenize_returned p onError ts Hrun)
    as (tokens & st & -> & Hloop & _).
  apply scanProgramLoop_count in Hloop.
  unfold StringScanner.remaining, StringScanner.length, SourceFile.length,
    StringScanner.position in Hloop.
  simpl in Hloop. rewrite Z.sub_0_r in Hloop.
  unfold strlen in *. rewrite length_app. simpl List.length.
  simpl List.length in Hloop. rewrite Nat2Z.id in Hloop. lia.
Qed.

(** A witness for [tokenize_count]: the four characters of [(())]. *)
Lemma tokenize_count_witness :
  1 <= Z.of_nat
         (List.length
            [Token.mk LEFT_PAREN (str "(") [] 0;
             Token.mk LEFT_PAREN (str "(") [] 1;
             Token.mk RIGHT_PAREN (str ")") [] 2;
             Token.mk RIGHT_PAREN (str ")") [] 3; Token.mk EOF [] [] 4])
    <= strlen (str "(())") + 1.
Proof.
  apply (tokenize_count (str "(())") None).
  vm_compute. reflexivity.
Defined.

(** ** Comments *)

Lemma advanceToEOLSteps_run (fuel : nat) :
  forall sc : StringScanner.t,
    inside sc ->
    (StringScanner.remaining sc <= fuel)%nat ->
    let s := SourceFile.contents (StringScanner.source sc) in
    exists j,
      run (fun c => negb (isLineBreak c)) s (StringScanner.mPosition sc) j
      /\ advanceToEOLSteps fuel sc
         = StringScanner.mk (StringScanner.source sc)
             (if code_is (charCodeAt s j) Characters.LF then j + 1
              else if code_is (charCodeAt s j) Characters.CR then
                if code_is (charCodeAt s (j + 1)) Characters.LF then j + 1 + 1
                else j + 1
              else j).
Proof.
  assert (Hend : forall sc : StringScanner.t,
            inside sc -> StringScanner.hasNext sc = false ->
            let s := SourceFile.contents (StringScanner.source sc) in
            exists j,
              run (fun c => negb (isLineBreak c)) s
                (StringScanner.mPosition sc) j
              /\ sc
                 = StringScanner.mk (StringScanner.source sc)
                     (if code_is (charCodeAt s j) Characters.LF then j + 1
                      else if code_is (charCodeAt s j) Characters.CR then
                        if code_is (charCodeAt s (j + 1)) Characters.LF
                        then j + 1 + 1 else j + 1
                      else j)).
  { intros sc Hi Hn. cbv zeta. apply hasNext_false in Hn.
    unfold inside, StringScanner.length, SourceFile.length in *.
    exists (StringScanner.mPosition sc). split.
    - split; [lia|]. split; [intros k Hk; lia|]. left. lia.
    - unfold charCodeAt at 1 2.
      rewrite array_get_none by (unfold strlen in *; lia).
      now destruct sc. }
  induction fuel as [|fuel IH]; intros sc Hi Hfuel; cbv zeta.
  - simpl. apply Hend; [exact Hi|]. apply hasNext_false.
    unfold StringScanner.remaining, StringScanner.position in Hfuel. lia.
  - simpl. destruct (StringScanner.hasNext sc) eqn:Hn; [|now apply Hend].
    pose proof Hn as Hlt. apply hasNext_true in Hlt.
    unfold inside, StringScanner.length, SourceFile.length in *.
    destruct (array_get_some (SourceFile.contents (StringScanner.source sc))
                (StringScanner.mPosition sc)) as [c Hc];
      [unfold strlen in *; lia|].
    assert (Hpeek : StringScanner.peek sc 0 = Some c).
    { unfold StringScanner.peek, StringScanner.position, charCodeAt.
      now rewrite Z.add_0_r. }
    unfold StringScanner.match_ at 1. rewrite Hpeek. cbn [code_is].
    destruct (Z.eqb_spec c Characters.LF) as [->|Hlf].
    + exists (StringScanner.mPosition sc). split.
      * split; [lia|]. split; [intros k Hk; lia|]. right.
        exists Characters.LF. split; [exact Hc | reflexivity].
      * unfold charCodeAt at 1. rewrite Hc. reflexivity.
    + unfold StringScanner.match_ at 1. rewrite Hpeek. cbn [code_is].
      destruct (Z.eqb_spec c Characters.CR) as [->|Hcr].
      * exists (StringScanner.mPosition sc). split.
        -- split; [lia|]. split; [intros k Hk; lia|]. right.
           exists Characters.CR. split; [exact Hc | reflexivity].
        -- unfold charCodeAt at 1 2. rewrite Hc. cbn [code_is].
           replace (Characters.CR =? Characters.LF) with false by reflexivity.
           replace (Characters.CR =? Characters.CR) with true by reflexivity.
           unfold StringScanner.match_, StringScanner.peek,
             StringScanner.position.
           cbn [StringScanner.source StringScanner.mPosition].
           rewrite Z.add_0_r.
           now destruct (code_is _ Characters.LF).
      * destruct (IH (stepped sc)) as (j & Hrun & Hloop).
        { unfold inside, StringScanner.length, SourceFile.length. simpl. lia. }
        { rewrite (remaining_advance sc Hn) in Hfuel. lia. }
        simpl in Hrun, Hloop. exists j. split; [|exact Hloop].
        destruct Hrun as (H1 & H2 & H3). split; [lia|]. split; [|exact H3].
        intros k Hk.
        destruct (Z.eq_dec k (StringScanner.mPosition sc)) as [->|Hk'].
        -- unfold charCodeAt. rewrite Hc. simpl. unfold isLineBreak.
           apply Z.eqb_neq in Hlf, Hcr. now rewrite Hlf, Hcr.
        -- apply H2. lia.
Qed.

Lemma advanceToEOL_run (st : ClutchLexer.t) :
  inside (ClutchLexer.program st) ->
  let s := inputOf st in
  exists j,
    run (fun c => negb (isLineBreak c)) s (cursor st) j
    /\ ClutchLexer.advanceToEOL st
       = (Returned tt,
          ClutchLexer.setProgram
            (StringScanner.mk (StringScanner.source (ClutchLexer.program st))
               (if code_is (charCodeAt s j) Characters.LF then j + 1
                else if code_is (charCodeAt s j) Characters.CR then
                  if code_is (charCodeAt s (j + 1)) Characters.LF
                  then j + 1 + 1 else j + 1
                else j))
            st).
Proof.
  intros Hi. cbv zeta.
  destruct (advanceToEOLSteps_run
              (StringScanner.remaining (ClutchLexer.program st))
              (ClutchLexer.program st) Hi (Nat.le_refl _)) as (j & Hrun & Hloop).
  exists j. split; [exact Hrun|].
  rewrite advanceToEOL_steps by exact Hi.
  now rewrite Hloop.
Qed.

(** X27.  [advanceToEOL] reads to the end of the line: it moves the
    cursor, and nothing else, behind the first line terminator at or
    after it, an LF, a CR, or a CR and the LF that follows it, or to the
    end of the input when there is none. *)
Theorem advanceToEOL_reads_line (st : ClutchLexer.t) :
  inside (ClutchLexer.program st) ->
  let s := inputOf st in
  exists j,
    run (fun c => negb (isLineBreak c)) s (cursor st) j
    /\ ClutchLexer.advanceToEOL st
       = (Returned tt,
          ClutchLexer.setProgram
            (StringScanner.mk (StringScanner.source (ClutchLexer.program st))
               (if code_is (charCodeAt s j) Characters.LF then j + 1
                else if code_is (charCodeAt s j) Characters.CR then
                  if code_is (charCodeAt s (j + 1)) Characters.LF
                  then j + 1 + 1 else j + 1
                else j))
            st).
Proof. exact (advanceToEOL_run st). Qed.

(** A witness for [advanceToEOL_reads_line]: the first line of [ab],
    CR+LF, [c]. *)
Lemma advanceToEOL_reads_line_witness :
  let st :=
    ClutchLexer.new (StringScanner.new (str "ab" ++ [13; 10] ++ str "c")) in
  let s := inputOf st in
  exists j,
    run (fun c => negb (isLineBreak c)) s (cursor st) j
    /\ ClutchLexer.advanceToEOL st
       = (Returned tt,
          ClutchLexer.setProgram
            (StringScanner.mk (StringScanner.source (ClutchLexer.program st))
               (if code_is (charCodeAt s j) Characters.LF then j + 1
                else if code_is (charCodeAt s j) Characters.CR then
                  if code_is (charCodeAt s (j + 1)) Characters.LF
                  then j + 1 + 1 else j + 1
                else j))
            st).
Proof.
  apply (advanceToEOL_reads_line
           (ClutchLexer.new
              (StringScanner.new (str "ab" ++ [13; 10] ++ str "c")))).
  vm_compute. split; discriminate.
Defined.

(** X28.  At two slashes, [scanToken] makes no token and calls no
    reporter: it reads to the end of the line and buffers one comment,
    whose lexeme is the text from the anchor to the cursor behind the
    line terminator, trimmed, and whose recorded offset is that cursor,
    the end of the comment line and not its start; the anchor is moved
    to the cursor. *)
Theorem scanToken_line_comment (onError : ErrorReporter) (st : ClutchLexer.t) :
  anchored st ->
  charCodeAt (inputOf st) (cursor st) = Some Characters.SLASH ->
  charCodeAt (inputOf st) (cursor st + 1) = Some Characters.SLASH ->
  let s := inputOf st in
  exists j,
    run (fun c => negb (isLineBreak c)) s (cursor st + 1 + 1) j
    /\ let stop :=
         if code_is (charCodeAt s j) Characters.LF then j + 1
         else if code_is (charCodeAt s j) Characters.CR then
           if code_is (charCodeAt s (j + 1)) Characters.LF then j + 1 + 1
           else j + 1
         else j in
       let comment :=
         IComment.mk (trim (js_substring s (ClutchLexer.position st) stop))
           stop in
       ClutchLexer.scanToken onError st
       = (Returned None,
          ClutchLexer.mk
            (StringScanner.mk (StringScanner.source (ClutchLexer.program st))
               stop)
            stop
            (ClutchLexer.lastComments st ++ [comment])
            (ClutchLexer.buffered st ++ [comment])
            (ClutchLexer.reported st)).
Proof.
  intros Ha Hc Hc'. cbv zeta.
  pose proof (array_get_some_inv _ _ _ Hc') as Hlt.
  destruct st as [[src cur] anchor pending buf rep].
  unfold anchored, cursor, inputOf in *.
  cbn [ClutchLexer.program ClutchLexer.position ClutchLexer.lastComments
       ClutchLexer.buffered ClutchLexer.reported StringScanner.source
       StringScanner.mPosition] in *.
  destruct (advanceToEOL_run
              (ClutchLexer.mk (StringScanner.mk src (cur + 1 + 1)) anchor
                 pending buf rep)) as (j & Hrun & Hloop).
  { unfold inside, StringScanner.length, SourceFile.length. simpl.
    unfold strlen. lia. }
  unfold cursor, inputOf in Hrun, Hloop.
  cbn [ClutchLexer.program ClutchLexer.position ClutchLexer.lastComments
       ClutchLexer.buffered ClutchLexer.reported ClutchLexer.setProgram
       StringScanner.source StringScanner.mPosition] in Hrun, Hloop.
  exists j. split; [exact Hrun|].
  rewrite scanToken_run by solve_reads.
  unfold afterAdvance, stepped, StringScanner.position.
  cbn [fst snd ClutchLexer.program ClutchLexer.setProgram
       ClutchLexer.position ClutchLexer.lastComments ClutchLexer.buffered
       ClutchLexer.reported StringScanner.source StringScanner.mPosition].
  rewrite Hc.
  change (ClutchLexer.scanSwitch onError (Some Characters.SLASH))
    with ClutchLexer.scanSlash.
  unfold ClutchLexer.scanSlash. unfold bind at 1.
  unfold ClutchLexer.programMatch at 1, ClutchLexer.onProgram,
    ClutchLexer.setProgram.
  cbn [ClutchLexer.program ClutchLexer.position ClutchLexer.lastComments
       ClutchLexer.buffered ClutchLexer.reported].
  assert (Hmatch : StringScanner.match_ Characters.SLASH
                     (StringScanner.mk src (cur + 1))
                   = (true, StringScanner.mk src (cur + 1 + 1))).
  { unfold StringScanner.match_, StringScanner.peek, StringScanner.position.
    cbn [StringScanner.source StringScanner.mPosition].
    rewrite Z.add_0_r, Hc'. reflexivity. }
  rewrite Hmatch.
  unfold bind at 1. unfold ClutchLexer.setProgram in Hloop.
  cbn [ClutchLexer.program ClutchLexer.position ClutchLexer.lastComments
       ClutchLexer.buffered ClutchLexer.reported] in Hloop.
  rewrite Hloop.
  unfold bind, ClutchLexer.substring, ClutchLexer.pushComment, ret,
    StringScanner.substring, StringScanner.position.
  cbn [ClutchLexer.program ClutchLexer.setProgram ClutchLexer.setPosition
       ClutchLexer.position ClutchLexer.lastComments ClutchLexer.buffered
       ClutchLexer.reported StringScanner.source StringScanner.mPosition].
  reflexivity.
Qed.

(** A witness for [scanToken_line_comment]: the comment of [//c], LF,
    [x]. *)
Lemma scanToken_line_comment_witness :
  let st :=
    ClutchLexer.new (StringScanner.new (str "//c" ++ [10] ++ str "x")) in
  let s := inputOf st in
  exists j,
    run (fun c => negb (isLineBreak c)) s (cursor st + 1 + 1) j
    /\ let stop :=
         if code_is (charCodeAt s j) Characters.LF then j + 1
         else if code_is (charCodeAt s j) Characters.CR then
           if code_is (charCodeAt s (j + 1)) Characters.LF then j + 1 + 1
           else j + 1
         else j in
       let comment :=
         IComment.mk (trim (js_substring s (ClutchLexer.position st) stop))
           stop in
       ClutchLexer.scanToken recordingReporter st
       = (Returned None,
          ClutchLexer.mk
            (StringScanner.mk (StringScanner.source (ClutchLexer.program st))
               stop)
            stop
            (ClutchLexer.lastComments st ++ [comment])
            (ClutchLexer.buffered st ++ [comment])
            (ClutchLexer.reported st)).
Proof.
  apply (scanToken_line_comment recordingReporter
           (ClutchLexer.new
              (StringScanner.new (str "//c" ++ [10] ++ str "x")))).
  - vm_compute. repeat split; discriminate.
  - reflexivity.
  - reflexivity.
Defined.

(** ** Lexical errors *)

Lemma safe_ret {A : Type} (a : A) : safe (ret a).
Proof. intros st e st'. discriminate. Qed.

Lemma safe_bind {A B : Type} (m : ClutchLexer.L A)
  (f : A -> ClutchLexer.L B) :
  safe m -> (forall a, safe (f a)) -> safe (bind m f).
Proof.
  intros Hm Hf st e st'. unfold bind.
  destruct (m st) as [[a|e0] st1] eqn:Em; [apply Hf|].
  elim (Hm st e0 st1 Em).
Qed.

Lemma safe_onProgram {A : Type}
  (f : StringScanner.t -> A * StringScanner.t) :
  safe (ClutchLexer.onProgram f).
Proof.
  intros st e st'. unfold ClutchLexer.onProgram.
  destruct (f (ClutchLexer.program st)). discriminate.
Qed.

Lemma safe_createToken (kind : TokenKind) (content : option jsstring) :
  safe (ClutchLexer.createToken kind content).
Proof.
  intros st e st'.
  destruct content as [c|];
    unfold ClutchLexer.createToken, ClutchLexer.substring,
      ClutchLexer.clearComments, bind, ret; simpl; discriminate.
Qed.

Ltac safe_direct :=
  let st := fresh "st" in
  let e := fresh "e" in
  let st' := fresh "st'" in
  intros st e st';
  unfold ClutchLexer.substring, ClutchLexer.incrPosition,
    ClutchLexer.clearComments, ClutchLexer.pushComment; simpl;
  discriminate.

Ltac solve_safe :=
  lazymatch goal with
  | |- safe (bind _ _) =>
      apply safe_bind; [solve_safe | intro; solve_safe]
  | |- safe (ret _) => apply safe_ret
  | |- safe (if ?c then _ else _) => destruct c; solve_safe
  | |- safe (ClutchLexer.onProgram _) => apply safe_onProgram
  | |- safe (ClutchLexer.programMatch _) => apply safe_onProgram
  | |- safe (ClutchLexer.createToken _ _) => apply safe_createToken
  | |- safe (ClutchLexer.emit _) => unfold ClutchLexer.emit; solve_safe
  | |- _ => safe_direct
  end.

(** A step that fails only in the reporter does not fail with a reporter
    that returns: the branches of the [switch] that do not call the
    reporter throw nothing once a character is read. *)
Lemma stepPost_returns (st : ClutchLexer.t)
  (m : ClutchLexer.L (option Token.t)) (e : exn) (st' : ClutchLexer.t) :
  stepPost recordingReporter st (m st) -> m st <> (Thrown e, st').
Proof.
  intros Hpost Hrun. rewrite Hrun in Hpost.
  destruct Hpost as (history & span & message & Hthrown). discriminate.
Qed.

Ltac never_throws e st' :=
  lazymatch goal with
  | |- ?m ?st = (Thrown _, _) -> _ =>
      let Hrun := fresh "Hrun" in
      intros Hrun; exfalso;
      apply (stepPost_returns st m e st'); [|exact Hrun]
  end.

Lemma scanStringSteps_open (fuel : nat) :
  forall sc : StringScanner.t,
    (StringScanner.remaining sc <= fuel)%nat ->
    fst (scanStringSteps fuel sc) = false ->
    forall i, StringScanner.mPosition sc <= i ->
      charCodeAt (SourceFile.contents (StringScanner.source sc)) i
      <> Some Characters.SQUOTE.
Proof.
  induction fuel as [|fuel IH]; intros sc Hfuel Hopen i Hi Hq.
  - apply array_get_some_inv in Hq.
    unfold StringScanner.remaining, StringScanner.position,
      StringScanner.length, SourceFile.length, strlen in Hfuel. lia.
  - simpl in Hopen.
    destruct (StringScanner.hasNext sc) eqn:Hn.
    + destruct (match_cases Characters.SQUOTE sc) as [[Eq Hmiss] | [Eq _]];
        rewrite Eq in Hopen; simpl in Hopen; [|discriminate].
      destruct (Z.eq_dec i (StringScanner.mPosition sc)) as [->|Hne].
      * unfold StringScanner.peek, StringScanner.position in Hmiss.
        rewrite Z.add_0_r, Hq in Hmiss. simpl in Hmiss. discriminate.
      * apply (IH (stepped sc)) with (i := i);
          [ rewrite (remaining_advance sc Hn) in Hfuel; lia
          | exact Hopen | simpl; lia | exact Hq ].
    + apply hasNext_false in Hn. apply array_get_some_inv in Hq.
      unfold StringScanner.length, SourceFile.length, strlen in Hn. lia.
Qed.

(** [scanString] throws only when no quote closes the string and the
    reporter throws at the anchor. *)
Lemma scanString_error (onError : ErrorReporter) (st st' : ClutchLexer.t)
  (e : exn) :
  reading st ->
  ClutchLexer.scanString onError st = (Thrown e, st') ->
  onError (ClutchLexer.reported st) (errorSpan st) (str "Unterminated string")
  = Thrown e
  /\ forall i, cursor st <= i ->
       charCodeAt (inputOf st) i <> Some Characters.SQUOTE.
Proof.
  intros Hr. unfold ClutchLexer.scanString, bind at 1.
  rewrite scanString_steps
    by exact (anchored_inside st (reading_anchored st Hr)).
  pose proof (scanStringSteps_open
                (StringScanner.remaining (ClutchLexer.program st))
                (ClutchLexer.program st) (Nat.le_refl _)) as Hopen.
  pose proof (scanStringSteps_advanced
                (StringScanner.remaining (ClutchLexer.program st))
                (ClutchLexer.program st)
                (anchored_inside st (reading_anchored st Hr))) as Hadv.
  destruct (scanStringSteps _ _) as [closed sc]. cbn [fst snd].
  simpl in Hopen, Hadv. destruct closed.
  - intros Hrun. exfalso. revert Hrun.
    refine ((_ : safe _) (ClutchLexer.setProgram sc st) e st').
    solve_safe.
  - pose proof (reading_advanced st sc Hr Hadv) as Hr1.
    unfold bind at 1. rewrite reportError_run by exact Hr1.
    assert (Hspan : errorSpan (ClutchLexer.setProgram sc st) = errorSpan st).
    { unfold errorSpan, inputOf. simpl. destruct Hadv as [-> _]. reflexivity. }
    rewrite Hspan. simpl ClutchLexer.reported.
    destruct (onError _ _ _) as [[]|e0].
    + intros Hrun. exfalso. revert Hrun.
      refine ((_ : safe _) _ e st'). solve_safe.
    + intros [= <- _]. split; [reflexivity|]. exact (Hopen eq_refl).
Qed.

(** A step from a state whose anchor is at the character read throws
    only in one of the two errors, with what the reporter throws. *)
Lemma scanSwitch_error (onError : ErrorReporter) (c : Z)
  (src : SourceFile.t) (anchor : Z) (pending buf : list IComment.t)
  (rep : list Report) (e : exn) (st' : ClutchLexer.t) :
  charCodeAt (SourceFile.contents src) anchor = Some c ->
  ClutchLexer.scanSwitch onError (Some c)
    (ClutchLexer.mk (StringScanner.mk src (anchor + 1)) anchor pending buf rep)
  = (Thrown e, st') ->
  exists message,
    lexicalError (SourceFile.contents src) anchor message
    /\ onError rep
         (SourceFile.mkSpan src anchor
            (js_substring (SourceFile.contents src) anchor (anchor + 1)))
         message
       = Thrown e.
Proof.
  intros Hc. pose proof (array_get_some_inv _ _ _ Hc) as Hlt.
  assert (Hr : reading
                 (ClutchLexer.mk (StringScanner.mk src (anchor + 1)) anchor
                    pending buf rep)).
  { unfold reading, cursor, inputOf. simpl. unfold strlen. lia. }
  unfold ClutchLexer.scanSwitch.
  repeat (lazymatch goal with
          | |- (if code_is (Some c) ?x then _ else _) _ = _ -> _ =>
              destruct (code_is (Some c) x) eqn:?
          end;
          [ first [ never_throws e st'; solve_branch | idtac ]
          | ]).
  - (* the quote *)
    match goal with
    | H : code_is (Some c) Characters.SQUOTE = true |- _ =>
        simpl in H; apply Z.eqb_eq in H; subst c
    end.
    intros Hrun. unfold ClutchLexer.emit, bind in Hrun.
    destruct (ClutchLexer.scanString onError _) as [[tok|e0] st1] eqn:Estring;
      [discriminate|].
    injection Hrun as <- _.
    destruct (scanString_error onError _ _ _ Hr Estring) as [Hthrow Hopen].
    exists (str "Unterminated string"). split; [|exact Hthrow].
    left. split; [reflexivity|]. split; [exact Hc|].
    intros i Hi. apply Hopen. unfold cursor. simpl. lia.
  - (* no branch *)
    unfold ClutchLexer.scanDefault. cbn [onCode].
    destruct (isWhiteSpace c) eqn:Hw.
    { unfold bind, ret. discriminate. }
    destruct (isDigit c) eqn:Hd.
    { never_throws e st'. apply stepPost_emit. now apply scanNumber_post. }
    destruct (isIdentifierStart c) eqn:Hi.
    { never_throws e st'. apply stepPost_emit.
      now apply scanIdentifierOrKeyword_post. }
    unfold bind. rewrite reportError_run by exact Hr.
    unfold errorSpan, inputOf. simpl.
    destruct (onError rep _ _) as [[]|e0] eqn:Ethrow; [discriminate|].
    intros [= <- _].
    exists (ClutchLexer.unexpectedCharacter (Some c)).
    split; [|exact Ethrow].
    right. exists c. split; [exact Hc|]. split; [|reflexivity].
    unfold handled. cbn [existsb]. cbn [code_is] in *.
    repeat match goal with
           | H : (c =? _) = false |- _ => rewrite H; clear H
           end.
    now rewrite Hw, Hd, Hi.
Qed.

Lemma scanToken_error (onError : ErrorReporter) (st st' : ClutchLexer.t)
  (e : exn) :
  anchored st ->
  ClutchLexer.position st = cursor st ->
  StringScanner.hasNext (ClutchLexer.program st) = true ->
  ClutchLexer.scanToken onError st = (Thrown e, st') ->
  exists message,
    lexicalError (inputOf st) (cursor st) message
    /\ onError (ClutchLexer.reported st)
         (SourceFile.mkSpan (StringScanner.source (ClutchLexer.program st))
            (cursor st)
            (js_substring (inputOf st) (cursor st) (cursor st + 1)))
         message
       = Thrown e.
Proof.
  intros Ha Hset Hn.
  rewrite scanToken_run by (try apply anchored_inside; assumption).
  apply hasNext_true in Hn.
  destruct st as [[src pos] anchor pending buf rep].
  unfold anchored, cursor, inputOf, StringScanner.length,
    SourceFile.length in *.
  simpl in Ha, Hset, Hn. subst anchor.
  destruct (array_get_some (SourceFile.contents src) pos) as [c Hc];
    [unfold strlen in *; lia|].
  unfold afterAdvance, stepped, StringScanner.position.
  cbn [fst snd ClutchLexer.program ClutchLexer.setProgram
       ClutchLexer.position ClutchLexer.lastComments ClutchLexer.buffered
       ClutchLexer.reported StringScanner.source StringScanner.mPosition].
  unfold charCodeAt at 1. rewrite Hc.
  now apply scanSwitch_error.
Qed.

(** With a reporter that throws at every call, the loop throws only what
    the reporter throws at one of the two errors of the input. *)
Lemma scanProgramLoop_error (onError : ErrorReporter) (p : jsstring)
  (fuel : nat) :
  throwing onError ->
  forall (st : ClutchLexer.t) (tokens : list Token.t),
    invariant p st tokens ->
    ClutchLexer.position st = cursor st ->
    StringScanner.source (ClutchLexer.program st) = SourceFile.new p None ->
    (StringScanner.remaining (ClutchLexer.program st) <= fuel)%nat ->
    forall e st',
      ClutchLexer.scanProgramLoop onError fuel tokens st = (Thrown e, st') ->
      exists history o message,
        lexicalError p o message
        /\ onError history (spanAt p o) message = Thrown e.
Proof.
  intros Hthrow.
  induction fuel as [|fuel IH]; intros st tokens Hinv Hset Hsrc Hfuel e st'.
  - simpl. discriminate.
  - simpl. destruct (StringScanner.hasNext (ClutchLexer.program st)) eqn:Hn;
      [|discriminate].
    pose proof (scanToken_step onError st (inv_anchored _ _ _ Hinv) Hn) as Hpost.
    pose proof (scanToken_settles onError Hthrow st) as Hsettles.
    pose proof (scanToken_error onError st) as Herror.
    unfold bind.
    destruct (ClutchLexer.scanToken onError st) as [[[tok|]|e0] st1];
      simpl in Hpost.
    + apply IH.
      * eapply invariant_token; eassumption.
      * exact (Hsettles _ _ eq_refl).
      * destruct Hpost as [[Hs _] _]. rewrite Hs. exact Hsrc.
      * destruct Hpost as [Hadv _]. eapply remaining_after; eassumption.
    + apply IH.
      * eapply invariant_skip; eassumption.
      * exact (Hsettles _ _ eq_refl).
      * destruct Hpost as [[Hs _] _]. rewrite Hs. exact Hsrc.
      * destruct Hpost as [Hadv _]. eapply remaining_after; eassumption.
    + intros [= <- _].
      destruct (Herror st1 e0 (inv_anchored _ _ _ Hinv) Hset Hn eq_refl)
        as (message & Herr & Hrep).
      rewrite (inv_input _ _ _ Hinv) in Herr, Hrep. rewrite Hsrc in Hrep.
      exists (ClutchLexer.reported st), (cursor st), message.
      split; [exact Herr | exact Hrep].
Qed.

(** X29.  With the default reporter, [tokenize] throws only a
    [SyntaxError], for one of two errors of the input: a quote that no
    quote follows, with the message [Unterminated string], or a character
    that has no branch in [scanToken], with the message [Unexpected
    character] and the character.  The error carries the one character
    at the offset of the error as text, and the line and the column that
    [computeLine] and [computeColumn] give for that offset. *)
Theorem tokenize_default_error (p : jsstring) (e : exn) :
  tokenize p None = Thrown e ->
  exists o message line column,
    lexicalError p o message
    /\ fst (SourceFile.computeLine o (SourceFile.new p None)) = Returned line
    /\ fst (SourceFile.computeColumn o (SourceFile.new p None))
       = Returned column
    /\ e = SyntaxError message (js_substring p o (o + 1)) line column.
Proof.
  rewrite tokenize_fst, tokenizeRun_unfold.
  pose proof (scanProgramLoop_error defaultOnError p
                (StringScanner.remaining (StringScanner.new p))
                defaultOnError_throwing
                (ClutchLexer.new (StringScanner.new p)) []
                (invariant_initial p) eq_refl eq_refl (Nat.le_refl _))
    as Hloop.
  change (reporterOf None) with defaultOnError.
  destruct (ClutchLexer.scanProgramLoop _ _ _ _) as [[tokens|e0] st];
    simpl; [discriminate|].
  intros [= <-].
  destruct (Hloop e0 st eq_refl) as (history & o & message & Herr & Hrep).
  assert (Ho : 0 <= o <= SourceFile.length (SourceFile.new p None)).
  { unfold SourceFile.length. simpl.
    destruct Herr as [(_ & Hc & _) | (c & Hc & _)];
      apply array_get_some_inv in Hc; unfold strlen; lia. }
  pose proof (computeLine_run (SourceFile.new p None) o (new_valid p None) Ho)
    as Hline.
  pose proof (computeColumn_run (SourceFile.new p None) o _ (new_valid p None)
                Ho Hline) as Hcolumn.
  unfold defaultOnError, FileSpan.line, FileSpan.column, FileSpan.text,
    FileSpan.offset, FileSpan.file, spanAt in Hrep.
  cbn [SourceFile.span_file SourceFile.span_offset SourceFile.span_text]
    in Hrep.
  rewrite Hline, Hcolumn in Hrep. cbn [fst] in Hrep.
  injection Hrep as <-.
  eexists o, message, _, _.
  split; [exact Herr|]. split; [exact Hline|].
  split; [rewrite Hcolumn; reflexivity | reflexivity].
Qed.

(** A witness for [tokenize_default_error]: the error at the percent
    sign of [a % b], on a line the file counts as -1. *)
Lemma tokenize_default_error_witness :
  exists o message line column,
    lexicalError (str "a % b") o message
    /\ fst (SourceFile.computeLine o (SourceFile.new (str "a % b") None))
       = Returned line
    /\ fst (SourceFile.computeColumn o (SourceFile.new (str "a % b") None))
       = Returned column
    /\ SyntaxError (ClutchLexer.unexpectedCharacter (Some 37)) (str "%") (-1) 2
       = SyntaxError message (js_substring (str "a % b") o (o + 1)) line column.
Proof.
  apply (tokenize_default_error (str "a % b")).
  vm_compute. reflexivity.
Defined.

(** ** Names and numbers *)

Lemma js_substring_cons (s : jsstring) (i j c : Z) :
  charCodeAt s i = Some c -> i < j -> j <= strlen s ->
  js_substring s i j = c :: js_substring s (i + 1) j.
Proof.
  intros Hc Hij Hj. pose proof (array_get_some_inv _ _ _ Hc) as Hi.
  rewrite <- (js_substring_concat s i (i + 1) j) by lia.
  now rewrite (js_substring_one s i c Hc).
Qed.

Lemma forallb_js_substring (predicate : Z -> bool) (s : jsstring) (i j : Z) :
  0 <= i <= j -> j <= strlen s ->
  (forall k, i <= k < j -> onCode predicate (charCodeAt s k) = true) ->
  forallb predicate (js_substring s i j) = true.
Proof.
  intros Hi Hj Hall. apply forallb_forall. intros x Hx.
  apply js_substring_In in Hx; [|exact Hi | exact Hj].
  destruct Hx as (k & Hk & Hc). specialize (Hall k Hk).
  now rewrite Hc in Hall.
Qed.

Lemma keywordOrIdentifier_name (name : jsstring) :
  keywordOrIdentifier name <> NUMBER /\ isName (keywordOrIdentifier name) = true.
Proof.
  unfold keywordOrIdentifier, keywordsLookup, keywords. simpl ownProperty.
  repeat (destruct (jsstring_eqb _ name);
          [split; [discriminate | reflexivity]|]).
  destruct (existsb _ _); split; try discriminate; reflexivity.
Qed.

Ltac solve_yields_kind :=
  lazymatch goal with
  | |- yields _ (bind _ _) =>
      apply yields_bind;
      let b := fresh "b" in intros b; try destruct b; solve_yields_kind
  | |- yields _ (ret _) =>
      apply yields_ret; split; [discriminate | reflexivity]
  | |- yields _ (if ?c then _ else _) => destruct c; solve_yields_kind
  end.

Lemma scanSlash_symbol :
  makesToken
    (fun tok _ => Token.kind tok <> NUMBER /\ isName (Token.kind tok) = false)
    ClutchLexer.scanSlash.
Proof.
  unfold ClutchLexer.scanSlash. apply makesToken_bind. intros comment.
  destruct comment.
  - intros st tok st'. unfold bind, ret.
    destruct (ClutchLexer.advanceToEOL st) as [[[]|e] st1]; [|discriminate].
    destruct (ClutchLexer.substring st1) as [[text|e] st2]; [|discriminate].
    destruct (ClutchLexer.pushComment _ st2) as [[[]|e] st3]; discriminate.
  - apply (makesToken_bind_yields
             (fun k => k <> NUMBER /\ isName k = false));
      [solve_yields_kind|].
    intros kind Hkind.
    apply (makesToken_emit _ (ClutchLexer.createToken kind None)).
    now apply (makes_createToken_kind
                 (fun k => k <> NUMBER /\ isName k = false)).
Qed.

Ltac solve_symbol :=
  first
    [ apply scanSlash_symbol
    | apply makesToken_emit;
      first
        [ apply (makes_createToken_kind
                   (fun k => k <> NUMBER /\ isName k = false));
          split; [discriminate | reflexivity]
        | apply (makes_bind_yields
                   (fun k => k <> NUMBER /\ isName k = false));
          [ solve_yields_kind
          | intros;
            now apply (makes_createToken_kind
                         (fun k => k <> NUMBER /\ isName k = false)) ]
        | let st := fresh "st" in
          let tok := fresh "tok" in
          let st' := fresh "st'" in
          let Hrun := fresh "Hrun" in
          intros st tok st' Hrun;
          rewrite (scanString_kind _ st tok st' Hrun);
          split; [discriminate | reflexivity] ] ].

(** At a character that is no digit, no letter and no underscore, no
    NUMBER and no name is made. *)
Lemma scanSwitch_symbol (onError : ErrorReporter) (c : Z) :
  isDigit c = false -> isIdentifierStart c = false ->
  makesToken
    (fun tok _ => Token.kind tok <> NUMBER /\ isName (Token.kind tok) = false)
    (ClutchLexer.scanSwitch onError (Some c)).
Proof.
  intros Hd Hi. unfold ClutchLexer.scanSwitch.
  repeat (destruct (code_is (Some c) _); [solve_symbol|]).
  unfold ClutchLexer.scanDefault. cbn [onCode]. rewrite Hd, Hi.
  destruct (isWhiteSpace c); apply makesToken_none.
Qed.

Lemma scanToken_wellFormed (onError : ErrorReporter) (st st' : ClutchLexer.t)
  (tok : Token.t) :
  anchored st ->
  ClutchLexer.position st = cursor st ->
  StringScanner.hasNext (ClutchLexer.program st) = true ->
  ClutchLexer.scanToken onError st = (Returned (Some tok), st') ->
  wellFormed tok.
Proof.
  intros Ha Hset Hn Hrun.
  pose proof Hn as Hlt. apply hasNext_true in Hlt.
  unfold StringScanner.length, SourceFile.length in Hlt.
  fold (inputOf st) in Hlt. fold (cursor st) in Hlt.
  pose proof Ha as [Ha1 Ha2].
  destruct (array_get_some (inputOf st) (cursor st)) as [c Hc];
    [unfold strlen in *; lia|].
  change (array_get (inputOf st) (cursor st))
    with (charCodeAt (inputOf st) (cursor st)) in Hc.
  destruct (isIdentifierStart c) eqn:Hstart.
  { destruct (scanToken_name onError st c Ha Hc Hstart)
      as (stop & Hstop & Hall & _ & Hname).
    cbv zeta in Hname. rewrite Hname in Hrun. injection Hrun as <- _.
    rewrite Hset. unfold wellFormed. cbn [Token.kind Token.lexeme].
    split.
    - intros Hk. now elim (proj1 (keywordOrIdentifier_name _) Hk).
    - intros _. exists c, (js_substring (inputOf st) (cursor st + 1) stop).
      split; [apply js_substring_cons; [exact Hc | lia | lia]|].
      split; [exact Hstart|].
      apply forallb_js_substring; [lia | lia |].
      intros k Hk. apply Hall. lia. }
  destruct (isDigit c) eqn:Hdigit.
  { destruct (scanToken_digits onError st c Ha Hc Hdigit)
      as (stop & Hnumber & Hshape).
    cbv zeta in Hnumber, Hshape. rewrite Hnumber in Hrun.
    injection Hrun as <- _.
    rewrite Hset. unfold wellFormed. cbn [Token.kind Token.lexeme].
    split; [|discriminate].
    intros _.
    assert (Hstop : cursor st < stop <= strlen (inputOf st)).
    { destruct ((c =? Characters.ZERO) && _).
      - destruct Hshape as (H1 & _). lia.
      - destruct (oneOf _ Characters.E Characters.e).
        + destruct Hshape as (H1 & _). lia.
        + destruct Hshape as (j & (H1 & _) & Hperiod).
          destruct (code_is _ Characters.PERIOD).
          * destruct Hperiod as (H2 & _). lia.
          * lia. }
    exists c, (js_substring (inputOf st) (cursor st + 1) stop).
    split; [apply js_substring_cons; [exact Hc | lia | lia] | exact Hdigit]. }
  apply scanToken_returned in Hrun.
  replace (charCodeAt
             (SourceFile.contents
                (StringScanner.source (ClutchLexer.program st)))
             (StringScanner.mPosition (ClutchLexer.program st)))
    with (Some c)
    in Hrun by (symmetry; exact Hc).
  destruct (scanSwitch_symbol onError c Hdigit Hstart _ _ _ Hrun) as [Hk Hn'].
  unfold wellFormed. split; [intros Hk'; now elim Hk|].
  rewrite Hn'. discriminate.
Qed.

(** X30.  In a run without an error, numbers and names are well formed:
    the lexeme of every NUMBER token starts with a digit, and the lexeme
    of every name, an IDENTIFIER or a keyword, is a letter or an
    underscore and then only letters, underscores and digits. *)
Theorem tokenize_names_and_numbers (p : jsstring)
  (onError : option ErrorReporter) (ts : list Token.t) :
  throwing (reporterOf onError) ->
  tokenize p onError = Returned ts ->
  Forall
    (fun t =>
       (Token.kind t = NUMBER ->
        exists d rest, Token.lexeme t = d :: rest /\ isDigit d = true)
       /\ (isName (Token.kind t) = true ->
           exists c rest,
             Token.lexeme t = c :: rest
             /\ isIdentifierStart c = true
             /\ forallb isIdentifier rest = true))
    ts.
Proof.
  intros Hthrow Hrun.
  destruct (tokenize_returned p onError ts Hrun)
    as (tokens & st & -> & Hloop & _).
  apply Forall_app. split.
  - apply (scanProgramLoop_forall wellFormed (reporterOf onError) p
             (StringScanner.remaining (StringScanner.new p)) Hthrow)
      with (st := ClutchLexer.new (StringScanner.new p)) (tokens := [])
           (st' := st).
    + intros st0 tok st0' Ha _ Hset Hn Hstep.
      exact (scanToken_wellFormed _ _ _ _ Ha Hset Hn Hstep).
    + apply invariant_initial.
    + reflexivity.
    + constructor.
    + apply Nat.le_refl.
    + exact Hloop.
  - constructor; [|constructor]. simpl. split; discriminate.
Qed.

(** A witness for [tokenize_names_and_numbers]: the program [x1 = 0x1F]. *)
Lemma tokenize_names_and_numbers_witness :
  Forall
    (fun t =>
       (Token.kind t = NUMBER ->
        exists d rest, Token.lexeme t = d :: rest /\ isDigit d = true)
       /\ (isName (Token.kind t) = true ->
           exists c rest,
             Token.lexeme t = c :: rest
             /\ isIdentifierStart c = true
             /\ forallb isIdentifier rest = true))
    [Token.mk IDENTIFIER (str "x1") [] 0; Token.mk ASSIGN (str "=") [] 3;
     Token.mk NUMBER (str "0x1F") [] 5; Token.mk EOF [] [] 9].
Proof.
  apply (tokenize_names_and_numbers (str "x1 = 0x1F") None).
  - exact defaultOnError_throwing.
  - vm_compute. reflexivity.
Defined.
